(** * pycvsps: the CVS log parser and the changeset synthesizer

    A shallow embedding of [pycvsps/dateutil.py] and [pycvsps/cvsps.py].
    Python values that the code inspects dynamically are an inductive type,
    exceptions are the error side of a result monad, dictionaries are
    [gmap]s, sets are [gset]s, and objects that are shared by reference
    (changesets) live in an explicit store and are named by their address. *)

From Stdlib Require Import ZArith String Ascii List Lia Permutation.
From Stdlib Require Import DecimalString DecimalNat.
From stdpp Require Import base option list gmap strings.

Set Warnings "-register-all".

(** ** Python strings, sequences and exceptions *)

Module Py.

(** The values a date argument may hold. *)
Inductive pyval : Type :=
| VNone
| VInt (z : Z)
| VStr (s : string)
| VTuple (l : list pyval).

(** Exceptions.  [Abort] carries the message [template % arg] as its two
    parts. *)
Inductive exn : Type :=
| Abort (template : string) (arg : pyval)
| LogError (msg : string)
| NameError (name : string)
| AttributeError (attr : string)
| AssertionError (msg : string)
| ValueError
| OverflowError
| KeyError
| IndexError
| TypeError.

(** The outcome of a call: it returns, it raises, or it does not return. *)
Inductive result (A : Type) : Type :=
| Ok (a : A)
| Raise (e : exn)
| Loops.
Arguments Ok {A} a.
Arguments Raise {A} e.
Arguments Loops {A}.

#[global] Instance result_ret : MRet result := fun A a => Ok a.
#[global] Instance result_bind : MBind result := fun A B f m =>
  match m with Ok a => f a | Raise e => Raise e | Loops => Loops end.

(** The value returned, or [d] when the call raised or did not return. *)
Definition value {A} (d : A) (r : result A) : A :=
  match r with
  | Ok a => a
  | _ => d
  end.

(** The call returned. *)
Definition is_ok {A} (r : result A) : bool :=
  match r with
  | Ok _ => true
  | _ => false
  end.

(** The call does not raise [Abort]. *)
Definition no_Abort {A} (r : result A) : Prop := ∀ t a, r ≠ Raise (Abort t a).

(** [assert cond, msg] *)
Definition py_assert (cond : bool) (msg : string) : result unit :=
  if cond then Ok tt else Raise (AssertionError msg).

(** Truth value testing of the values modelled here. *)
Definition truthy (v : pyval) : bool :=
  match v with
  | VNone => false
  | VInt z => negb (z =? 0)%Z
  | VStr s => negb (String.eqb s "")
  | VTuple l => negb (Nat.eqb (length l) 0)
  end.

(** Strings are sequences of code points below 256 (the log is decoded as
    latin-1), so a character is an [ascii]. *)
Definition chars (s : string) : list ascii := list_ascii_of_string s.
Definition str (l : list ascii) : string := string_of_list_ascii l.

Definition code (c : ascii) : nat := nat_of_ascii c.

Definition in_range (lo hi n : nat) : bool := (lo <=? n)%nat && (n <=? hi)%nat.

(** [str.isspace] on one character: TAB..CR, FS..US, space, NEL and NBSP. *)
Definition isspace (c : ascii) : bool :=
  let n := code c in
  in_range 9 13 n || in_range 28 32 n || Nat.eqb n 133 || Nat.eqb n 160.

(** The decimal digits [0-9]: what [int()] and the class [\d] accept. *)
Definition isdecimal (c : ascii) : bool := in_range 48 57 (code c).

(** [str.isdigit] on one character also accepts the superscripts 1, 2, 3. *)
Definition isdigit_char (c : ascii) : bool :=
  let n := code c in
  isdecimal c || Nat.eqb n 178 || Nat.eqb n 179 || Nat.eqb n 185.

(** [str.isdigit]: non-empty and every character is a digit. *)
Definition isdigit (s : string) : bool :=
  match chars s with
  | [] => false
  | l => forallb isdigit_char l
  end.

(** Alphabetic characters of latin-1, and the class [\w]. *)
Definition isalpha_char (c : ascii) : bool :=
  let n := code c in
  in_range 65 90 n || in_range 97 122 n || Nat.eqb n 170 || Nat.eqb n 181
  || Nat.eqb n 186 || in_range 192 214 n || in_range 216 246 n
  || in_range 248 255 n.

Definition isword (c : ascii) : bool :=
  let n := code c in
  isalpha_char c || isdigit_char c || in_range 188 190 n || Nat.eqb n 95.

(** Slices [l[start:stop]] and subscripts [l[i]], negative indices
    counting from the end. *)
Definition clamp (n i : Z) : Z :=
  Z.max 0 (Z.min n (if (i <? 0)%Z then (i + n)%Z else i)).

Definition slice {A} (l : list A) (start stop : option Z) : list A :=
  let n := Z.of_nat (length l) in
  let a := from_option (clamp n) 0%Z start in
  let b := from_option (clamp n) n stop in
  take (Z.to_nat (b - a)) (drop (Z.to_nat a) l).

Definition subscript {A} (l : list A) (i : Z) : result A :=
  let n := Z.of_nat (length l) in
  let j := if (i <? 0)%Z then (i + n)%Z else i in
  if ((0 <=? j) && (j <? n))%Z
  then match l !! Z.to_nat j with Some x => Ok x | None => Raise IndexError end
  else Raise IndexError.

Definition str_slice (s : string) (start stop : option Z) : string :=
  str (slice (chars s) start stop).

(** [s.startswith(p)] and [s.endswith(p)]. *)
Fixpoint list_startswith (l p : list ascii) : bool :=
  match p, l with
  | [], _ => true
  | c :: p', d :: l' => Ascii.eqb c d && list_startswith l' p'
  | _ :: _, [] => false
  end.

Definition startswith (s p : string) : bool := list_startswith (chars s) (chars p).
Definition endswith (s p : string) : bool :=
  list_startswith (rev (chars s)) (rev (chars p)).

(** [s.lstrip()], [s.rstrip()], [s.strip()]. *)
Fixpoint lstrip_list (l : list ascii) : list ascii :=
  match l with
  | c :: l' => if isspace c then lstrip_list l' else l
  | [] => []
  end.
Definition rstrip_list (l : list ascii) : list ascii := rev (lstrip_list (rev l)).
Definition rstrip (s : string) : string := str (rstrip_list (chars s)).
Definition strip (s : string) : string := str (rstrip_list (lstrip_list (chars s))).

(** [s.split(sep)] for a one-character separator: every occurrence splits,
    so the result is never empty. *)
Fixpoint split_on_list (sep : ascii) (l : list ascii) : list (list ascii) :=
  match l with
  | [] => [[]]
  | c :: l' =>
      if Ascii.eqb c sep then [] :: split_on_list sep l'
      else match split_on_list sep l' with
           | w :: ws => (c :: w) :: ws
           | [] => [[c]]
           end
  end.
Definition split_on (sep : ascii) (s : string) : list string :=
  map str (split_on_list sep (chars s)).

(** [s.split()]: runs of whitespace separate, empty pieces are dropped. *)
Fixpoint split_ws_list (cur : list ascii) (l : list ascii) : list (list ascii) :=
  match l with
  | [] => match cur with [] => [] | _ => [rev cur] end
  | c :: l' =>
      if isspace c
      then match cur with
           | [] => split_ws_list [] l'
           | _ => rev cur :: split_ws_list [] l'
           end
      else split_ws_list (c :: cur) l'
  end.
Definition split_ws (s : string) : list string := map str (split_ws_list [] (chars s)).

(** [sep.join(parts)]. *)
Fixpoint join (sep : string) (parts : list string) : string :=
  match parts with
  | [] => ""
  | [p] => p
  | p :: ps => p +:+ sep +:+ join sep ps
  end.

(** [int(s)] in base ten: surrounding whitespace, an optional sign, then
    decimal digits, single underscores allowed between digits.  (The
    interpreter's configurable bound on the number of digits is left out.) *)
Definition digit_val (c : ascii) : Z := Z.of_nat (code c - 48).

Fixpoint int_digits (acc : Z) (prev_digit : bool) (l : list ascii) : option Z :=
  match l with
  | [] => if prev_digit then Some acc else None
  | c :: l' =>
      if isdecimal c then int_digits (10 * acc + digit_val c)%Z true l'
      else if Ascii.eqb c "_" && prev_digit
           then match l' with
                | d :: _ => if isdecimal d then int_digits acc false l' else None
                | [] => None
                end
           else None
  end.

Definition int_list (l : list ascii) : option Z :=
  match rstrip_list (lstrip_list l) with
  | c :: l' =>
      if Ascii.eqb c "-" then Z.opp <$> int_digits 0 false l'
      else if Ascii.eqb c "+" then int_digits 0 false l'
      else int_digits 0 false (c :: l')
  | [] => None
  end.

Definition int (s : string) : result Z :=
  match int_list (chars s) with
  | Some z => Ok z
  | None => Raise ValueError
  end.

(** ['%s' % x] for a string or [None]. *)
Definition percent_s (x : option string) : string :=
  match x with
  | Some s => s
  | None => "None"
  end.

(** [s.lower()] (the cased characters of latin-1). *)
Definition lower_char (c : ascii) : ascii :=
  let n := code c in
  if in_range 65 90 n || in_range 192 214 n || in_range 216 222 n
  then ascii_of_nat (n + 32) else c.
Definition lower (s : string) : string := str (map lower_char (chars s)).

(** [s.find(sub, start)]: the lowest index at or after [start] at which
    [sub] occurs in [s], or [-1]. *)
Fixpoint find_list (l sub : list ascii) (i : nat) : option nat :=
  if list_startswith l sub then Some i
  else match l with
       | [] => None
       | _ :: l' => find_list l' sub (S i)
       end.

Definition find (s sub : string) (start : Z) : Z :=
  let n := Z.of_nat (String.length s) in
  if (n <? start)%Z then (-1)%Z
  else
    let a := Z.to_nat (clamp n start) in
    match find_list (drop a (chars s)) (chars sub) a with
    | Some i => Z.of_nat i
    | None => (-1)%Z
    end.

(** [s.replace(old, new)]: the occurrences of [old] are replaced from left to
    right, and the search goes on behind each one. *)
Fixpoint replace_list (old new l : list ascii) (skip : nat) : list ascii :=
  match l with
  | [] => []
  | c :: l' =>
      match skip with
      | S k => replace_list old new l' k
      | O =>
          if list_startswith l old then new ++ replace_list old new l' (length old - 1)
          else c :: replace_list old new l' 0
      end
  end.

Definition replace (s old new : string) : string :=
  match chars old with
  | [] => str (chars new ++ flat_map (fun c => c :: chars new) (chars s))
  | _ => str (replace_list (chars old) (chars new) (chars s) 0)
  end.

(** [str(n)] for an integer, and ['%02d' % n]. *)
Definition str_of_nat (n : nat) : string := NilZero.string_of_uint (Nat.to_uint n).

Definition str_of_Z (z : Z) : string :=
  if (z <? 0)%Z then "-" +:+ str_of_nat (Z.to_nat (- z)) else str_of_nat (Z.to_nat z).

Definition pad2 (n : Z) : string :=
  let s := str_of_Z n in
  if (String.length s <? 2)%nat then "0" +:+ s else s.
(** [repr(s)] for a string of latin-1 characters: single quotes unless the
    string has a single quote and no double quote; the quote and the
    backslash are escaped, and the characters that are not printable are
    written as [\t], [\n], [\r] or [\xNN]. *)
Definition hex_digit (n : nat) : ascii := nth n (chars "0123456789abcdef") "0"%char.

Definition repr_char (quote c : ascii) : list ascii :=
  let n := code c in
  if Ascii.eqb c quote || Ascii.eqb c "\" then ["\"%char; c]
  else if Nat.eqb n 9 then ["\"; "t"]%char
  else if Nat.eqb n 10 then ["\"; "n"]%char
  else if Nat.eqb n 13 then ["\"; "r"]%char
  else if (n <? 32)%nat || Nat.eqb n 127 || in_range 128 160 n || Nat.eqb n 173
       then ["\"%char; "x"%char; hex_digit (n / 16); hex_digit (n mod 16)]
       else [c].

Definition repr_str (s : string) : string :=
  let l := chars s in
  let double := ascii_of_nat 34 in
  let quote := if existsb (Ascii.eqb "'") l && negb (existsb (Ascii.eqb double) l)
               then double else "'"%char in
  str (quote :: flat_map (repr_char quote) l ++ [quote]).

End Py.

(** ** Regular expressions

    The patterns of cvsps.py are written as syntax trees and run by a
    backtracking matcher with the priorities of Python's [re]: the left
    alternative first, greedy repetition the longest first, lazy repetition
    the shortest first.  Groups are numbered as in the pattern. *)

Module Re.
Import Py.

Inductive re : Type :=
| Eps
| Chr (p : ascii → bool)
| Seq (r1 r2 : re)
| Alt (r1 r2 : re)
| Star (greedy : bool) (r : re)
| Grp (n : nat) (r : re)
| Eol.

Definition newline : ascii := ascii_of_nat 10.
Definition tab : ascii := ascii_of_nat 9.

(** [.], [\s], [\d], [\w] and a literal character. *)
Definition dot : re := Chr (fun c => negb (Ascii.eqb c newline)).
Definition space : re := Chr isspace.
Definition digit : re := Chr isdecimal.
Definition word : re := Chr isword.
Definition chr (c : ascii) : re := Chr (Ascii.eqb c).
Definition not_chr (c : ascii) : re := Chr (fun d => negb (Ascii.eqb c d)).

Fixpoint cat (rs : list re) : re :=
  match rs with
  | [] => Eps
  | [r] => r
  | r :: rs' => Seq r (cat rs')
  end.

(** A literal string, [r+], [r?] and the lazy [r+?]. *)
Definition lit (s : string) : re := cat (map chr (chars s)).
Definition plus (r : re) : re := Seq r (Star true r).
Definition lazy_plus (r : re) : re := Seq r (Star false r).
Definition opt (r : re) : re := Alt r Eps.

Definition captures := gmap nat string.

(** The iterations of a star whose body is matched by [body]: an iteration
    has to consume input, so [length s] iterations are all there can be. *)
Fixpoint star_loop (greedy : bool)
    (body : list ascii → captures → (list ascii → captures → option captures)
            → option captures)
    (k : list ascii → captures → option captures)
    (fuel : nat) (s : list ascii) (c : captures) {struct fuel} : option captures :=
  match fuel with
  | O => k s c
  | S fuel' =>
      let again s' c' :=
        if (length s' <? length s)%nat then star_loop greedy body k fuel' s' c'
        else None in
      if greedy then
        match body s c again with
        | Some c' => Some c'
        | None => k s c
        end
      else
        match k s c with
        | Some c' => Some c'
        | None => body s c again
        end
  end.

(** [run r s c k] matches [r] at the head of [s] and hands the rest of the
    input and the groups to the continuation [k]; [None] makes the matcher
    backtrack. *)
Fixpoint run (r : re) (s : list ascii) (c : captures)
    (k : list ascii → captures → option captures) {struct r} : option captures :=
  match r with
  | Eps => k s c
  | Chr p =>
      match s with
      | a :: s' => if p a then k s' c else None
      | [] => None
      end
  | Seq r1 r2 => run r1 s c (fun s' c' => run r2 s' c' k)
  | Alt r1 r2 =>
      match run r1 s c k with
      | Some c' => Some c'
      | None => run r2 s c k
      end
  | Star greedy r1 => star_loop greedy (run r1) k (length s) s c
  | Grp n r1 =>
      run r1 s c (fun s' c' =>
        k s' (<[n := str (take (length s - length s') s)]> c'))
  | Eol =>
      match s with
      | [] => k s c
      | [a] => if Ascii.eqb a newline then k s c else None
      | _ => None
      end
  end.

(** [pattern.match(s)]: anchored at the start of [s]. *)
Definition match_list (r : re) (s : list ascii) : option captures :=
  run r s ∅ (fun _ c => Some c).
Definition match_ (r : re) (s : string) : option captures := match_list r (chars s).

(** [pattern.search(s)]: the leftmost position where the pattern matches. *)
Fixpoint search_list (r : re) (s : list ascii) : option captures :=
  match match_list r s with
  | Some c => Some c
  | None =>
      match s with
      | [] => None
      | _ :: s' => search_list r s'
      end
  end.
Definition search (r : re) (s : string) : option captures := search_list r (chars s).

(** [m.group(n)] for a group of the pattern: [None] when the group did not
    take part in the match. *)
Definition group (m : captures) (n : nat) : option string := m !! n.

Definition matches (r : re) (s : string) : bool := bool_decide (is_Some (match_ r s)).

End Re.

(** ** dateutil.py *)

Module Dateutil.
Import Py.

Definition defaultdateformats : list string :=
  [ "%Y-%m-%dT%H:%M:%S"; "%Y-%m-%dT%H:%M"; "%Y-%m-%dT%H%M%S"; "%Y-%m-%dT%H%M";
    "%Y-%m-%d %H:%M:%S"; "%Y-%m-%d %H:%M"; "%Y-%m-%d %H%M%S"; "%Y-%m-%d %H%M";
    "%Y-%m-%d %I:%M:%S%p"; "%Y-%m-%d %H:%M"; "%Y-%m-%d %I:%M%p"; "%Y-%m-%d";
    "%m-%d"; "%m/%d"; "%m/%d/%y"; "%m/%d/%Y";
    "%a %b %d %H:%M:%S %Y"; "%a %b %d %I:%M:%S%p %Y"; "%a, %d %b %Y %H:%M:%S";
    "%b %d %H:%M:%S %Y"; "%b %d %I:%M:%S%p %Y"; "%b %d %H:%M:%S";
    "%b %d %I:%M:%S%p"; "%b %d %H:%M"; "%b %d %I:%M%p"; "%b %d %Y"; "%b %d";
    "%H:%M:%S"; "%I:%M:%S%p"; "%H:%M"; "%I:%M%p" ].

(** The names dateutil.py binds at module level: its three imports, the
    format table, the exception class and the five functions.  A name used
    in a function body that is neither local nor listed here nor a builtin
    raises [NameError] when the expression is evaluated. *)
Definition module_names : list string :=
  [ "calendar"; "datetime"; "time"; "defaultdateformats"; "Abort";
    "makedate"; "datestr"; "parsetimezone"; "strdate"; "parsedate" ].

Definition global_name (name : string) : result unit :=
  if existsb (String.eqb name) module_names then Ok tt
  else Raise (NameError name).

(** The call [_(s)]. *)
Definition gettext (s : string) : result string :=
  _ ← global_name "_"; Ok s.

(** [raise Abort(_(template) % arg)]: the argument of the constructor is
    evaluated first. *)
Definition raise_Abort {A} (template : string) (arg : pyval) : result A :=
  t ← gettext template; Raise (Abort t arg).

(** [sub in s] for strings. *)
Fixpoint contains_list (l sub : list ascii) : bool :=
  list_startswith l sub ||
  match l with
  | [] => false
  | _ :: l' => contains_list l' sub
  end.
Definition contains (s sub : string) : bool := contains_list (chars s) (chars sub).

(** What the interpreter's time library and clock provide: [time.strptime],
    [calendar.timegm], [time.mktime], and [datestr(makedate(), fmt)], the
    current local time printed with one strftime directive. *)
Class TimeLib := {
  struct_time : Type;
  strptime : string → string → result struct_time;
  timegm : struct_time → Z;
  mktime : struct_time → result Z;
  datestr_now : string → string
}.

Section WithTimeLib.
Context `{TimeLib}.
Local Open Scope Z_scope.

Definition tz_sign (c : string) : Z := if String.eqb c "+" then 1 else -1.

(** [parsetimezone(s)]: a trailing timezone, if any, and the remainder. *)
Definition parsetimezone (s : string) : result (option Z * string) :=
  let len := Z.of_nat (String.length s) in
  let at_ i := str_slice s (Some i) (Some (i + 1)) in
  if endswith s "GMT" || endswith s "UTC" then
    Ok (Some 0, rstrip (str_slice s None (Some (-3))))
  else if (5 <=? len) && contains "+-" (at_ (-5))
          && isdigit (str_slice s (Some (-4)) None) then
    let sign := tz_sign (at_ (-5)) in
    hours ← int (str_slice s (Some (-4)) (Some (-2)));
    minutes ← int (str_slice s (Some (-2)) None);
    Ok (Some (- sign * (hours * 60 + minutes) * 60),
        rstrip (str_slice s None (Some (-5))))
  else if endswith s "Z" && isdigit (str_slice s (Some (-2)) (Some (-1))) then
    Ok (Some 0, str_slice s None (Some (-1)))
  else if (6 <=? len) && contains "+-" (at_ (-6))
          && String.eqb (at_ (-3)) ":"
          && isdigit (str_slice s (Some (-5)) (Some (-3)))
          && isdigit (str_slice s (Some (-2)) None) then
    let sign := tz_sign (at_ (-6)) in
    hours ← int (str_slice s (Some (-5)) (Some (-3)));
    minutes ← int (str_slice s (Some (-2)) None);
    Ok (Some (- sign * (hours * 60 + minutes) * 60),
        str_slice s None (Some (-6)))
  else Ok (None, s).

(** The loop of [strdate] that completes the date and the format with the
    defaults of the parts the format does not mention. *)
Fixpoint fill_defaults (defaults : gmap string (string * string))
    (parts : list string) (usenow : bool) (date format : string)
  : result (string * string) :=
  match parts with
  | [] => Ok (date, format)
  | part :: parts' =>
      let found := filter (fun p => contains format ("%" +:+ str [p])) (chars part) in
      match found with
      | [] =>
          match defaults !! part with
          | None => Raise KeyError
          | Some (biased, now) =>
              fill_defaults defaults parts' usenow
                (date +:+ "@" +:+ (if usenow then now else biased))
                (format +:+ "@%" +:+ str_slice part None (Some 1))
          end
      | _ => fill_defaults defaults parts' true date format
      end
  end.

Definition strdate (string_ format : string)
    (defaults : gmap string (string * string)) : result (Z * Z) :=
  '(offset, date) ← parsetimezone string_;
  '(date, format) ← fill_defaults defaults ["S"; "M"; "HI"; "d"; "mb"; "yY"]
                      false date format;
  timetuple ← strptime date format;
  let localunixtime := timegm timetuple in
  match offset with
  | None =>
      unixtime ← mktime timetuple;
      Ok (unixtime, unixtime - localunixtime)
  | Some offset => Ok (localunixtime + offset, offset)
  end.

(** [when, offset = map(int, date.split(' '))]: anything but exactly two
    integers is a [ValueError]. *)
Definition unpack_two_ints (pieces : list string) : result (Z * Z) :=
  match pieces with
  | [a; b] => when ← int a; offset ← int b; Ok (when, offset)
  | _ => Raise ValueError
  end.

(** The table of defaults built in the [except ValueError] branch. *)
Definition make_defaults (bias : gmap string string) : gmap string (string * string) :=
  foldl (fun defaults part =>
           let b := match bias !! part with
                    | Some b => b
                    | None => if contains "HMS" (str_slice part (Some 0) (Some 1))
                              then "00" else "0"
                    end in
           let n := datestr_now ("%" +:+ str_slice part (Some 0) (Some 1)) in
           <[part := (b, n)]> defaults)
        (∅ : gmap string (string * string)) ["d"; "mb"; "yY"; "HI"; "M"; "S"].

(** The [for format in formats: ... else: raise Abort] loop. *)
Fixpoint try_formats (date : string) (defaults : gmap string (string * string))
    (formats : list string) : result (Z * Z) :=
  match formats with
  | [] => raise_Abort "invalid date: %r" (VStr date)
  | format :: formats' =>
      match strdate date format defaults with
      | Ok r => Ok r
      | Raise ValueError | Raise OverflowError => try_formats date defaults formats'
      | Raise e => Raise e
      | Loops => Loops
      end
  end.

Definition parsedate_str (date : string) (formats : list string)
    (bias : gmap string string) : result (Z * Z) :=
  let formats := match formats with [] => defaultdateformats | _ => formats end in
  let date := strip date in
  '(when, offset) ←
    match unpack_two_ints (split_on " " date) with
    | Raise ValueError => try_formats date (make_defaults bias) formats
    | r => r
    end;
  if (when <? -2147483648) || (2147483647 <? when) then
    raise_Abort "date exceeds 32 bits: %d" (VInt when)
  else if (offset <? -50400) || (43200 <? offset) then
    raise_Abort "impossible time zone offset: %d" (VInt offset)
  else Ok (when, offset).

(** [parsedate(date, formats, bias)].  [formats=None] is the empty list and
    [bias=None] the empty map, as in the first lines of the function. *)
Definition parsedate (date : pyval) (formats : list string)
    (bias : gmap string string) : result pyval :=
  if negb (truthy date) then Ok (VTuple [VInt 0; VInt 0])
  else match date with
       | VTuple [_; _] => Ok date
       | VStr s =>
           '(when, offset) ← parsedate_str s formats bias;
           Ok (VTuple [VInt when; VInt offset])
       | _ => Raise (AttributeError "strip")
       end.

(** [parsedate] applied to a string, with the result as a pair. *)
Definition parsedate_pair (date : string) (formats : list string)
    (bias : gmap string string) : result (Z * Z) :=
  if String.eqb date "" then Ok (0, 0) else parsedate_str date formats bias.

End WithTimeLib.

(** What [datetime] provides to [datestr]: the text of
    [(datetime.datetime(1970, 1, 1) + datetime.timedelta(seconds=d)).strftime(format)]. *)
Class DatetimeLib := {
  strftime : Z → string → string
}.

Section WithDatetimeLib.
Context `{DatetimeLib}.
Local Open Scope Z_scope.

(** [datestr(date, format)] for a pair [date] of integers: a pair is true,
    so [makedate] is not called. *)
Definition datestr (date : Z * Z) (format : string) : string :=
  let '(t, tz) := date in
  let format :=
    if contains format "%1" || contains format "%2" || contains format "%z" then
      let sign := if 0 <? tz then "-" else "+" in
      let minutes := Z.abs tz / 60 in
      let q := minutes / 60 in
      let r := minutes mod 60 in
      let format := replace format "%z" "%1%2" in
      let format := replace format "%1" (sign +:+ pad2 q) in
      replace format "%2" (pad2 r)
    else format in
  let d := t - tz in
  let d := if 2147483647 <? d then 2147483647
           else if d <? -2147483648 then -2147483648
                else d in
  strftime d format.

End WithDatetimeLib.

(** The default of the parameter [format] of [datestr]. *)
Definition datestr_format : string := "%a %b %d %H:%M:%S %Y %1%2".

(** *** An interpreter to evaluate examples with

    Local time is UTC, the clock stands at 2021-01-01 00:00:00, and
    [strptime] reads the numeric directives [%Y %y %m %d %H %M %S], literal
    characters and blanks from left to right. *)

Module UTC.
Local Open Scope Z_scope.

Record tm := { tm_year : Z; tm_mon : Z; tm_mday : Z;
               tm_hour : Z; tm_min : Z; tm_sec : Z }.

Definition tm0 : tm :=
  {| tm_year := 1900; tm_mon := 1; tm_mday := 1;
     tm_hour := 0; tm_min := 0; tm_sec := 0 |}.

Definition is_leap (y : Z) : bool :=
  ((y mod 4 =? 0) && negb (y mod 100 =? 0)) || (y mod 400 =? 0).

Definition days_in_month (y m : Z) : Z :=
  if m =? 2 then (if is_leap y then 29 else 28)
  else if (m =? 4) || (m =? 6) || (m =? 9) || (m =? 11) then 30 else 31.

(** Days from 1970-01-01 to the given civil date. *)
Definition days_from_civil (y m d : Z) : Z :=
  let y' := if m <=? 2 then y - 1 else y in
  let era := y' / 400 in
  let yoe := y' - era * 400 in
  let doy := (153 * (if 2 <? m then m - 3 else m + 9) + 2) / 5 + d - 1 in
  let doe := yoe * 365 + yoe / 4 - yoe / 100 + doy in
  era * 146097 + doe - 719468.

Definition timegm (t : tm) : Z :=
  days_from_civil (tm_year t) (tm_mon t) (tm_mday t) * 86400
  + tm_hour t * 3600 + tm_min t * 60 + tm_sec t.

(** Reads between [lo] and [hi] decimal digits, as many as there are. *)
Fixpoint read_digits (hi : nat) (acc : Z) (n : nat) (l : list ascii)
  : Z * nat * list ascii :=
  match hi, l with
  | S hi', c :: l' =>
      if isdecimal c then read_digits hi' (10 * acc + digit_val c) (S n) l'
      else (acc, n, l)
  | _, _ => (acc, n, l)
  end.

Definition set_field (d : ascii) (v : Z) (t : tm) : option tm :=
  let ok (lo hi : Z) (t' : tm) := if (lo <=? v) && (v <=? hi) then Some t' else None in
  if Ascii.eqb d "Y" then Some {| tm_year := v; tm_mon := tm_mon t; tm_mday := tm_mday t;
                  tm_hour := tm_hour t; tm_min := tm_min t; tm_sec := tm_sec t |}
  else if Ascii.eqb d "y" then
    Some {| tm_year := (if v <=? 68 then 2000 + v else 1900 + v);
            tm_mon := tm_mon t; tm_mday := tm_mday t;
            tm_hour := tm_hour t; tm_min := tm_min t; tm_sec := tm_sec t |}
  else if Ascii.eqb d "m" then
    ok 1 12 {| tm_year := tm_year t; tm_mon := v; tm_mday := tm_mday t;
               tm_hour := tm_hour t; tm_min := tm_min t; tm_sec := tm_sec t |}
  else if Ascii.eqb d "d" then
    ok 1 31 {| tm_year := tm_year t; tm_mon := tm_mon t; tm_mday := v;
               tm_hour := tm_hour t; tm_min := tm_min t; tm_sec := tm_sec t |}
  else if Ascii.eqb d "H" then
    ok 0 23 {| tm_year := tm_year t; tm_mon := tm_mon t; tm_mday := tm_mday t;
               tm_hour := v; tm_min := tm_min t; tm_sec := tm_sec t |}
  else if Ascii.eqb d "M" then
    ok 0 59 {| tm_year := tm_year t; tm_mon := tm_mon t; tm_mday := tm_mday t;
               tm_hour := tm_hour t; tm_min := v; tm_sec := tm_sec t |}
  else if Ascii.eqb d "S" then
    ok 0 61 {| tm_year := tm_year t; tm_mon := tm_mon t; tm_mday := tm_mday t;
               tm_hour := tm_hour t; tm_min := tm_min t; tm_sec := v |}
  else None.

Fixpoint scan (fmt : list ascii) (l : list ascii) (t : tm) : option tm :=
  match fmt with
  | [] => match l with [] => Some t | _ => None end
  | f :: fmt' =>
      if Ascii.eqb f "%" then
        match fmt' with
        | d :: fmt'' =>
            let width := if Ascii.eqb d "Y" then 4%nat else 2%nat in
            let '(v, n, l') := read_digits width 0 0 l in
            let enough := if Ascii.eqb d "Y" then Nat.eqb n 4
                          else if Ascii.eqb d "y" then Nat.eqb n 2
                          else negb (Nat.eqb n 0) in
            if enough then t' ← set_field d v t; scan fmt'' l' t' else None
        | [] => None
        end
      else if isspace f then
        match l with
        | c :: _ => if isspace c then scan fmt' (lstrip_list l) t else None
        | [] => None
        end
      else
        match l with
        | c :: l' => if Ascii.eqb c f then scan fmt' l' t else None
        | [] => None
        end
  end.

Definition strptime (date format : string) : result tm :=
  match scan (chars format) (chars date) tm0 with
  | Some t =>
      if tm_mday t <=? days_in_month (tm_year t) (tm_mon t) then Ok t
      else Raise ValueError
  | None => Raise ValueError
  end.

Definition datestr_now (format : string) : string :=
  if String.eqb format "%d" then "01"
  else if String.eqb format "%m" then "01"
  else if String.eqb format "%y" then "21"
  else "00".

#[export] Instance timelib : TimeLib := {
  struct_time := tm;
  Dateutil.strptime := strptime;
  Dateutil.timegm := timegm;
  mktime := fun t => Ok (timegm t);
  Dateutil.datestr_now := datestr_now
}.

(** The civil date of a day counted from 1970-01-01. *)
Definition civil_from_days (days : Z) : Z * Z * Z :=
  let z := days + 719468 in
  let era := z / 146097 in
  let doe := z - era * 146097 in
  let yoe := (doe - doe / 1460 + doe / 36524 - doe / 146096) / 365 in
  let doy := doe - (365 * yoe + yoe / 4 - yoe / 100) in
  let mp := (5 * doy + 2) / 153 in
  let d := doy - (153 * mp + 2) / 5 + 1 in
  let m := if mp <? 10 then mp + 3 else mp - 9 in
  ((if m <=? 2 then yoe + era * 400 + 1 else yoe + era * 400), m, d).

Definition day_names : list string :=
  ["Sun"; "Mon"; "Tue"; "Wed"; "Thu"; "Fri"; "Sat"]%string.

Definition month_names : list string :=
  ["Jan"; "Feb"; "Mar"; "Apr"; "May"; "Jun";
   "Jul"; "Aug"; "Sep"; "Oct"; "Nov"; "Dec"]%string.

(** The text of one directive, for the directives that the formats of the
    module use, in the C locale. *)
Definition directive (d : Z) (c : ascii) : option string :=
  let days := d / 86400 in
  let secs := d mod 86400 in
  let date := civil_from_days days in
  if Ascii.eqb c "a" then Some (nth (Z.to_nat ((days + 4) mod 7)) day_names ""%string)
  else if Ascii.eqb c "b" then Some (nth (Z.to_nat (date.1.2 - 1)) month_names ""%string)
  else if Ascii.eqb c "d" then Some (pad2 date.2)
  else if Ascii.eqb c "m" then Some (pad2 date.1.2)
  else if Ascii.eqb c "H" then Some (pad2 (secs / 3600))
  else if Ascii.eqb c "M" then Some (pad2 (secs mod 3600 / 60))
  else if Ascii.eqb c "S" then Some (pad2 (secs mod 60))
  else if Ascii.eqb c "Y" then Some (str_of_Z date.1.1)
  else if Ascii.eqb c "y" then Some (pad2 (date.1.1 mod 100))
  else if Ascii.eqb c "%" then Some "%"%string
  else None.

(** [strftime]: a directive is replaced by its text, any other character
    stands for itself. *)
Fixpoint strftime_list (d : Z) (format : list ascii) : list ascii :=
  match format with
  | [] => []
  | c :: format' =>
      if Ascii.eqb c "%" then
        match format' with
        | c' :: format'' =>
            match directive d c' with
            | Some s => chars s ++ strftime_list d format''
            | None => c :: c' :: strftime_list d format''
            end
        | [] => [c]
        end
      else c :: strftime_list d format'
  end.

Definition strftime (d : Z) (format : string) : string :=
  str (strftime_list d (chars format)).

#[export] Instance datetimelib : DatetimeLib := {
  Dateutil.strftime := strftime
}.

End UTC.

End Dateutil.

(** ** cvsps.py *)

Module Cvsps.
Import Py Re Dateutil.

(** *** What the interpreter provides

    [os.path.normpath], [os.path.split] and [os.path.join]; and [list.sort]
    / [sorted], which return a permutation of their input whatever the
    comparison does.  [sort_compares] gives the pairs [(x, y)] for which the
    sort evaluates [x < y]: [cscmp] has an effect on them. *)

Class PathLib := {
  normpath : string → string;
  path_split : string → string * string;
  path_join : list string → string
}.

Class Sorter := {
  sort_by : ∀ {A : Type}, (A → A → bool) → list A → list A;
  sort_by_perm : ∀ (A : Type) (lt : A → A → bool) (l : list A), sort_by lt l ≡ₚ l;
  sort_compares : ∀ {A : Type}, (A → A → bool) → list A → list (A * A)
}.

(** *** The [ui] object

    [createlog], [createchangeset] and [debugcvsps] are handed an object
    [ui].  Its methods [status], [note] and [debug] print progress messages
    and are left out; [write] is modelled with [debugcvsps].
    [createchangeset] also calls [ui.warn], a method that the class [UI] of
    [main] does not define: looking it up raises [AttributeError] there,
    while an object with such a method prints the warning and goes on. *)
Class Ui := {
  has_warn : bool
}.

Definition ui_warn `{ui : Ui} : result unit :=
  if has_warn then Ok tt else Raise (AttributeError "warn").

(** *** Comparisons of keys

    [a < b] on strings, on tuples of integers and on pairs. *)
Definition str_lt (a b : string) : bool :=
  match String.compare a b with Lt => true | _ => false end.

Fixpoint ints_lt (a b : list Z) : bool :=
  match a, b with
  | [], [] => false
  | [], _ :: _ => true
  | _ :: _, [] => false
  | x :: a', y :: b' => if (x =? y)%Z then ints_lt a' b' else (x <? y)%Z
  end.

Definition date_lt (a b : Z * Z) : bool :=
  if (a.1 =? b.1)%Z then (a.2 <? b.2)%Z else (a.1 <? b.1)%Z.

(** A two-element tuple key: the first components decide unless equal. *)
Definition pair_lt {A B} `{EqDecision A} (lta : A → A → bool) (ltb : B → B → bool)
    (a b : A * B) : bool :=
  if decide (a.1 = b.1) then ltb a.2 b.2 else lta a.1 b.1.

(** *** class logentry *)

Record logentry : Type := Logentry {
  rcs : string;
  file : string;
  revision : list Z;
  branches : list (list Z);
  parent : option (list Z);
  commitid : option string;
  mergepoint : option string;
  branchpoints : gset string;
  date : Z * Z;
  author : string;
  dead : bool;
  lines : option (Z * Z);
  comment : string;
  tags : list string;
  branch : option string;
  synthetic : bool
}.

#[global] Instance logentry_eq_dec : EqDecision logentry.
Proof. solve_decision. Defined.

Definition set_rcs (v : string) (e : logentry) : logentry :=
  {| rcs := v; file := file e; revision := revision e; branches := branches e;
     parent := parent e; commitid := commitid e; mergepoint := mergepoint e;
     branchpoints := branchpoints e; date := date e; author := author e; dead
     := dead e; lines := lines e; comment := comment e; tags := tags e; branch
     := branch e; synthetic := synthetic e |}.
Definition set_branches (v : list (list Z)) (e : logentry) : logentry :=
  {| rcs := rcs e; file := file e; revision := revision e; branches := v;
     parent := parent e; commitid := commitid e; mergepoint := mergepoint e;
     branchpoints := branchpoints e; date := date e; author := author e; dead
     := dead e; lines := lines e; comment := comment e; tags := tags e; branch
     := branch e; synthetic := synthetic e |}.
Definition set_parent (v : option (list Z)) (e : logentry) : logentry :=
  {| rcs := rcs e; file := file e; revision := revision e; branches := branches
     e; parent := v; commitid := commitid e; mergepoint := mergepoint e;
     branchpoints := branchpoints e; date := date e; author := author e; dead
     := dead e; lines := lines e; comment := comment e; tags := tags e; branch
     := branch e; synthetic := synthetic e |}.
Definition set_commitid (v : option string) (e : logentry) : logentry :=
  {| rcs := rcs e; file := file e; revision := revision e; branches := branches
     e; parent := parent e; commitid := v; mergepoint := mergepoint e;
     branchpoints := branchpoints e; date := date e; author := author e; dead
     := dead e; lines := lines e; comment := comment e; tags := tags e; branch
     := branch e; synthetic := synthetic e |}.
Definition set_mergepoint (v : option string) (e : logentry) : logentry :=
  {| rcs := rcs e; file := file e; revision := revision e; branches := branches
     e; parent := parent e; commitid := commitid e; mergepoint := v;
     branchpoints := branchpoints e; date := date e; author := author e; dead
     := dead e; lines := lines e; comment := comment e; tags := tags e; branch
     := branch e; synthetic := synthetic e |}.
Definition set_branchpoints (v : gset string) (e : logentry) : logentry :=
  {| rcs := rcs e; file := file e; revision := revision e; branches := branches
     e; parent := parent e; commitid := commitid e; mergepoint := mergepoint e;
     branchpoints := v; date := date e; author := author e; dead := dead e;
     lines := lines e; comment := comment e; tags := tags e; branch := branch
     e; synthetic := synthetic e |}.
Definition set_date (v : Z * Z) (e : logentry) : logentry :=
  {| rcs := rcs e; file := file e; revision := revision e; branches := branches
     e; parent := parent e; commitid := commitid e; mergepoint := mergepoint e;
     branchpoints := branchpoints e; date := v; author := author e; dead :=
     dead e; lines := lines e; comment := comment e; tags := tags e; branch :=
     branch e; synthetic := synthetic e |}.
Definition set_author (v : string) (e : logentry) : logentry :=
  {| rcs := rcs e; file := file e; revision := revision e; branches := branches
     e; parent := parent e; commitid := commitid e; mergepoint := mergepoint e;
     branchpoints := branchpoints e; date := date e; author := v; dead := dead
     e; lines := lines e; comment := comment e; tags := tags e; branch :=
     branch e; synthetic := synthetic e |}.
Definition set_dead (v : bool) (e : logentry) : logentry :=
  {| rcs := rcs e; file := file e; revision := revision e; branches := branches
     e; parent := parent e; commitid := commitid e; mergepoint := mergepoint e;
     branchpoints := branchpoints e; date := date e; author := author e; dead
     := v; lines := lines e; comment := comment e; tags := tags e; branch :=
     branch e; synthetic := synthetic e |}.
Definition set_lines (v : option (Z * Z)) (e : logentry) : logentry :=
  {| rcs := rcs e; file := file e; revision := revision e; branches := branches
     e; parent := parent e; commitid := commitid e; mergepoint := mergepoint e;
     branchpoints := branchpoints e; date := date e; author := author e; dead
     := dead e; lines := v; comment := comment e; tags := tags e; branch :=
     branch e; synthetic := synthetic e |}.
Definition set_comment (v : string) (e : logentry) : logentry :=
  {| rcs := rcs e; file := file e; revision := revision e; branches := branches
     e; parent := parent e; commitid := commitid e; mergepoint := mergepoint e;
     branchpoints := branchpoints e; date := date e; author := author e; dead
     := dead e; lines := lines e; comment := v; tags := tags e; branch :=
     branch e; synthetic := synthetic e |}.
Definition set_tags (v : list string) (e : logentry) : logentry :=
  {| rcs := rcs e; file := file e; revision := revision e; branches := branches
     e; parent := parent e; commitid := commitid e; mergepoint := mergepoint e;
     branchpoints := branchpoints e; date := date e; author := author e; dead
     := dead e; lines := lines e; comment := comment e; tags := v; branch :=
     branch e; synthetic := synthetic e |}.
Definition set_branch (v : option string) (e : logentry) : logentry :=
  {| rcs := rcs e; file := file e; revision := revision e; branches := branches
     e; parent := parent e; commitid := commitid e; mergepoint := mergepoint e;
     branchpoints := branchpoints e; date := date e; author := author e; dead
     := dead e; lines := lines e; comment := comment e; tags := tags e; branch
     := v; synthetic := synthetic e |}.
Definition set_synthetic (v : bool) (e : logentry) : logentry :=
  {| rcs := rcs e; file := file e; revision := revision e; branches := branches
     e; parent := parent e; commitid := commitid e; mergepoint := mergepoint e;
     branchpoints := branchpoints e; date := date e; author := author e; dead
     := dead e; lines := lines e; comment := comment e; tags := tags e; branch
     := branch e; synthetic := v |}.

(** [parse_revision(revision)] *)
Definition parse_revision (revision : string) : result (list Z) :=
  mapM int (split_on "." revision).


(** [ellipsis(text, maxlength)] *)
Definition ellipsis (text : string) (maxlength : Z) : string :=
  if (Z.of_nat (String.length text) <=? maxlength)%Z then text
  else str_slice text None (Some (maxlength - 3)%Z) +:+ "...".

(** [getrepopath(cvspath)] *)
Definition getrepopath (cvspath : string) : result string :=
  let parts := split_on ":" cvspath in
  last_part ← subscript parts (-1);
  let atposition := find last_part "@" 0 in
  let start := if (atposition =? -1)%Z then 0%Z else atposition in
  Ok (str_slice last_part (Some (find last_part "/" start)) None).

(** ['.'.join([str(x) for x in revision])], as [debugcvsps] prints a
    revision. *)
Definition show_revision (revision : list Z) : string :=
  join "." (str_of_Z <$> revision).

(** *** The patterns of [createlog] *)

Definition re_00 : re := cat [lit "RCS file: "; Grp 1 (plus dot); Eol].
Definition re_01 : re :=
  cat [lit "cvs ["; opt (chr "r"); lit "log aborted]: "; Grp 1 (plus dot); Eol].
Definition re_02 : re :=
  cat [lit "cvs "; Grp 1 (Alt (Seq (opt (chr "r")) (lit "log")) (lit "server"));
       lit ": "; Grp 2 (plus dot); chr newline; Eol].
Definition re_03 : re :=
  Alt (Grp 1 (cat [lit "Cannot access"; plus dot; lit "CVSROOT"]))
      (Seq (Grp 2 (Seq (lit "can't create temporary directory") (plus dot))) Eol).
Definition re_10 : re := cat [lit "Working file: "; Grp 1 (plus dot); Eol].
Definition re_20 : re := lit "symbolic names:".
Definition re_30 : re :=
  cat [chr tab; Grp 1 (plus dot); lit ": ";
       Grp 2 (plus (Alt digit (chr "."))); Eol].
Definition re_31 : re := Seq (lit "----------------------------") Eol.
Definition re_32 : re :=
  Seq (lit "=============================================================================") Eol.
Definition re_50 : re :=
  cat [lit "revision "; Grp 1 (plus (Alt digit (chr ".")));
       opt (Grp 2 (cat [plus space; lit "locked by:"; plus space; plus dot; chr ";"]));
       Eol].
Definition re_60 : re :=
  cat [lit "date:"; plus space; Grp 1 (plus dot); chr ";"; plus space;
       lit "author:"; plus space; Grp 2 (plus dot); chr ";"; plus space;
       lit "state:"; plus space; Grp 3 (lazy_plus dot); chr ";";
       opt (Grp 4 (cat [plus space; lit "lines:"; plus space;
                        opt (Grp 5 (Seq (chr "+") (plus digit))); plus space;
                        opt (Grp 6 (Seq (chr "-") (plus digit))); chr ";"]));
       opt (Grp 7 (cat [plus space; lit "commitid:"; plus space;
                        Grp 8 (plus (not_chr ";")); chr ";"]));
       opt (Grp 9 (cat [Star true dot; lit "mergepoint:"; plus space;
                        Grp 10 (plus (not_chr ";")); chr ";"]))].
Definition re_70 : re := cat [lit "branches: "; Grp 1 (plus dot); chr ";"; Eol].
Definition file_added_re : re :=
  cat [lit "file "; plus (not_chr "/"); lit " was ";
       opt (Grp 1 (lit "initially ")); lit "added on branch"].

(** *** [rcs_path] *)

Section Paths.
Context `{PathLib}.

(** The [while True] loop that peels the directory components off [dname]:
    it ends when [os.path.split] returns its argument as the head, which
    happens within [len(dname)] iterations when every other split shortens
    the path. *)
Fixpoint rcs_path_loop (fuel : nat) (dname : string) (comps : list string)
  : result (list string) :=
  match fuel with
  | O => Loops
  | S fuel' =>
      let '(head, tail) := path_split dname in
      if String.eqb dname head then Ok comps
      else rcs_path_loop fuel' head
             (if negb (String.eqb tail "") && negb (String.eqb tail "Attic")
              then comps ++ [tail] else comps)
  end.

Definition rcs_path (path : string) : result string :=
  let '(dname, fname) := path_split path in
  comps ← (if negb (String.eqb dname "")
           then comps ← rcs_path_loop (S (String.length dname)) dname [];
                Ok (rev comps)
           else Ok []);
  Ok (path_join (comps ++ [fname])).

End Paths.

(** *** The state of the parser loop of [createlog]

    The local variables [state], [store], [rcs], [filename], [tags],
    [branchmap], [rcsmap], [e], the comment lines collected in [e.comment],
    and [log]. *)

Record pstate : Type := Pstate {
  st_state : nat;
  st_store : bool;
  st_rcs : string;
  st_filename : string;
  st_tags : gmap (list Z) (list string);
  st_branchmap : gmap string string;
  st_rcsmap : gmap string string;
  st_e : logentry;
  st_comment : list string;
  st_log : list logentry
}.

Definition set_st_state (v : nat) (st : pstate) : pstate :=
  {| st_state := v; st_store := st_store st; st_rcs := st_rcs st; st_filename
     := st_filename st; st_tags := st_tags st; st_branchmap := st_branchmap st;
     st_rcsmap := st_rcsmap st; st_e := st_e st; st_comment := st_comment st;
     st_log := st_log st |}.
Definition set_st_store (v : bool) (st : pstate) : pstate :=
  {| st_state := st_state st; st_store := v; st_rcs := st_rcs st; st_filename
     := st_filename st; st_tags := st_tags st; st_branchmap := st_branchmap st;
     st_rcsmap := st_rcsmap st; st_e := st_e st; st_comment := st_comment st;
     st_log := st_log st |}.
Definition set_st_rcs (v : string) (st : pstate) : pstate :=
  {| st_state := st_state st; st_store := st_store st; st_rcs := v; st_filename
     := st_filename st; st_tags := st_tags st; st_branchmap := st_branchmap st;
     st_rcsmap := st_rcsmap st; st_e := st_e st; st_comment := st_comment st;
     st_log := st_log st |}.
Definition set_st_filename (v : string) (st : pstate) : pstate :=
  {| st_state := st_state st; st_store := st_store st; st_rcs := st_rcs st;
     st_filename := v; st_tags := st_tags st; st_branchmap := st_branchmap st;
     st_rcsmap := st_rcsmap st; st_e := st_e st; st_comment := st_comment st;
     st_log := st_log st |}.
Definition set_st_tags (v : gmap (list Z) (list string)) (st : pstate) : pstate :=
  {| st_state := st_state st; st_store := st_store st; st_rcs := st_rcs st;
     st_filename := st_filename st; st_tags := v; st_branchmap := st_branchmap
     st; st_rcsmap := st_rcsmap st; st_e := st_e st; st_comment := st_comment
     st; st_log := st_log st |}.
Definition set_st_branchmap (v : gmap string string) (st : pstate) : pstate :=
  {| st_state := st_state st; st_store := st_store st; st_rcs := st_rcs st;
     st_filename := st_filename st; st_tags := st_tags st; st_branchmap := v;
     st_rcsmap := st_rcsmap st; st_e := st_e st; st_comment := st_comment st;
     st_log := st_log st |}.
Definition set_st_rcsmap (v : gmap string string) (st : pstate) : pstate :=
  {| st_state := st_state st; st_store := st_store st; st_rcs := st_rcs st;
     st_filename := st_filename st; st_tags := st_tags st; st_branchmap :=
     st_branchmap st; st_rcsmap := v; st_e := st_e st; st_comment := st_comment
     st; st_log := st_log st |}.
Definition set_st_e (v : logentry) (st : pstate) : pstate :=
  {| st_state := st_state st; st_store := st_store st; st_rcs := st_rcs st;
     st_filename := st_filename st; st_tags := st_tags st; st_branchmap :=
     st_branchmap st; st_rcsmap := st_rcsmap st; st_e := v; st_comment :=
     st_comment st; st_log := st_log st |}.
Definition set_st_comment (v : list string) (st : pstate) : pstate :=
  {| st_state := st_state st; st_store := st_store st; st_rcs := st_rcs st;
     st_filename := st_filename st; st_tags := st_tags st; st_branchmap :=
     st_branchmap st; st_rcsmap := st_rcsmap st; st_e := st_e st; st_comment :=
     v; st_log := st_log st |}.
Definition set_st_log (v : list logentry) (st : pstate) : pstate :=
  {| st_state := st_state st; st_store := st_store st; st_rcs := st_rcs st;
     st_filename := st_filename st; st_tags := st_tags st; st_branchmap :=
     st_branchmap st; st_rcsmap := st_rcsmap st; st_e := st_e st; st_comment :=
     st_comment st; st_log := v |}.


(** *** The parser loop of [createlog] *)

Definition nl : string := str [newline].

(** [m.group(n)] of a group that takes part in every match. *)
Definition group_str (m : captures) (n : nat) : string := default "" (group m n).

(** The object built in state 5; the attributes assigned later ([date],
    [author], [dead], [lines], [comment], [tags], [branch]) hold
    placeholders until then. *)
Definition new_logentry (rcs file : string) (revision : list Z) : logentry :=
  {| rcs := rcs; file := file; revision := revision; branches := [];
     parent := None; commitid := None; mergepoint := None; branchpoints := ∅;
     date := (0, 0)%Z; author := ""; dead := false; lines := None;
     comment := ""; tags := []; branch := None; synthetic := false |}.

Definition initial_pstate : pstate :=
  {| st_state := 0; st_store := false; st_rcs := ""; st_filename := "";
     st_tags := ∅; st_branchmap := ∅; st_rcsmap := ∅;
     st_e := new_logentry "" "" []; st_comment := []; st_log := [] |}.

(** [readline] applied until the stream is exhausted: every line keeps its
    newline, the last one may lack it. *)
Fixpoint readlines (cur : list ascii) (l : list ascii) : list string :=
  match l with
  | [] => match cur with [] => [] | _ => [str (rev cur)] end
  | c :: l' =>
      if Ascii.eqb c newline then str (rev (c :: cur)) :: readlines [] l'
      else readlines (c :: cur) l'
  end.

(** [if line.endswith('\n'): line = line[:-1]] *)
Definition chomp (line : string) : string :=
  if endswith line nl then str_slice line None (Some (-1)%Z) else line.

(** The branch a [mergepoint:] revision was merged from (state 6). *)
Definition mergepoint_branch (branchmap : gmap string string) (rev : string)
  : result string :=
  let myrev := split_on "." rev in
  if Nat.eqb (length myrev) 2 then Ok "HEAD"
  else
    component ← subscript myrev (-2);
    let myrev := join "." (slice myrev None (Some (-2)%Z) ++ ["0"; component]) in
    let branches :=
      filter (fun b => branchmap !! b = Some myrev) (map_to_list branchmap).*1 in
    _ ← py_assert (Nat.eqb (length branches) 1) "unknown branch: None";
    subscript branches 0.

Section Parser.
Context `{TimeLib} `{PathLib} `{Sorter}.
Variable rlog : bool.
Variable prefix : string.

Local Open Scope Z_scope.

Definition state0 (st : pstate) (line : string) : result pstate :=
  match match_ re_01 line with
  | Some m => Raise (LogError (group_str m 1))
  | None =>
      match match_ re_02 line with
      | Some m => Raise (LogError (group_str m 2))
      | None =>
          if matches re_03 line then Raise (LogError line) else Ok st
      end
  end.

Definition state1 (st : pstate) (line : string) : result pstate :=
  match match_ re_10 line with
  | None => Raise (AssertionError "RCS file must be followed by working file")
  | Some m => Ok (set_st_state 2%nat (set_st_filename (normpath (group_str m 1)) st))
  end.

Definition state2 (st : pstate) (line : string) : result pstate :=
  if matches re_20 line
  then Ok (set_st_state 3%nat (set_st_branchmap ∅ st))
  else Ok st.

Definition state3 (st : pstate) (line : string) : result pstate :=
  match match_ re_30 line with
  | Some m =>
      rev ← parse_revision (group_str m 2);
      let revn := length rev in
      magic ← (if (3 <? revn)%nat && Nat.even revn
               then z ← subscript rev (-2); Ok (z =? 0) else Ok false);
      let rev := if magic : bool
                 then slice rev None (Some (-2)) ++ slice rev (Some (-1)) None
                 else rev in
      let names := default [] (st_tags st !! rev) ++ [group_str m 1] in
      Ok (set_st_branchmap (<[group_str m 1 := group_str m 2]> (st_branchmap st))
            (set_st_tags (<[rev := names]> (st_tags st)) st))
  | None =>
      if matches re_31 line then Ok (set_st_state 5%nat st)
      else if matches re_32 line then Ok (set_st_state 0%nat st)
      else Ok st
  end.

Definition state4 (st : pstate) (line : string) : result pstate :=
  if matches re_31 line then Ok (set_st_state 5%nat st)
  else
    _ ← py_assert (negb (matches re_32 line)) "must have at least some revisions";
    Ok st.

Definition state5 (st : pstate) (line : string) : result pstate :=
  match match_ re_50 line with
  | None => Raise (AssertionError "expected revision number")
  | Some m =>
      revision ← parse_revision (group_str m 1);
      Ok (set_st_state 6%nat
            (set_st_e (new_logentry (st_rcs st) (st_filename st) revision) st))
  end.

(** [if match.group(n):] *)
Definition group_true (m : captures) (n : nat) : bool :=
  match group m n with
  | Some s => negb (String.eqb s "")
  | None => false
  end.

Definition state6 (st : pstate) (line : string) : result pstate :=
  match match_ re_60 line with
  | None => Raise (AssertionError "revision must be followed by date line")
  | Some m =>
      let d := group_str m 1 in
      c ← subscript (chars d) 2;
      let d := if Ascii.eqb c "/" then "19" +:+ d else d in
      let d := if negb (Nat.eqb (length (split_ws d)) 3) then d +:+ " UTC" else d in
      date ← parsedate_pair d
               ["%y/%m/%d %H:%M:%S"; "%Y/%m/%d %H:%M:%S"; "%Y-%m-%d %H:%M:%S"] ∅;
      let e := set_date date (st_e st) in
      let e := set_author (group_str m 2) e in
      let e := set_dead (String.eqb (lower (group_str m 3)) "dead") e in
      lines ←
        (if group_true m 5 then
           a ← int (group_str m 5);
           if group_true m 6
           then b ← int (group_str m 6); Ok (Some (a, b))
           else Ok (Some (a, 0))
         else if group_true m 6
              then b ← int (group_str m 6); Ok (Some (0, b))
              else Ok None);
      let e := set_lines lines e in
      let e := if group_true m 7 then set_commitid (group m 8) e else e in
      e ← (if group_true m 9
           then b ← mergepoint_branch (st_branchmap st) (group_str m 10);
                Ok (set_mergepoint (Some b) e)
           else Ok e);
      Ok (set_st_state 7%nat (set_st_comment [] (set_st_e e st)))
  end.

Definition append_comment (line : string) (st : pstate) : pstate :=
  set_st_comment (st_comment st ++ [line]) st.

Definition state7 (st : pstate) (line peek : string) : result pstate :=
  match match_ re_70 line with
  | Some m =>
      branches ← mapM (fun x => parse_revision (strip x)) (split_on ";" (group_str m 1));
      Ok (set_st_state 8%nat (set_st_e (set_branches branches (st_e st)) st))
  | None =>
      if matches re_31 line && matches re_50 peek
      then Ok (set_st_store true (set_st_state 5%nat st))
      else if matches re_32 line
           then Ok (set_st_store true (set_st_state 0%nat st))
           else Ok (append_comment line st)
  end.

Definition state8 (st : pstate) (line peek : string) : result pstate :=
  if matches re_31 line then
    let cpeek := chomp peek in
    if matches re_50 cpeek
    then Ok (set_st_store true (set_st_state 5%nat st))
    else Ok (append_comment line st)
  else if matches re_32 line
       then Ok (set_st_store true (set_st_state 0%nat st))
       else Ok (append_comment line st).

(** The test that marks a revision synthetic. *)
Definition synthetic_test (st : pstate) : result bool :=
  if st_store st && dead (st_e st) then
    last ← subscript (revision (st_e st)) (-1);
    if (last =? 1) && Nat.eqb (length (st_comment st)) 1 then
      first ← subscript (st_comment st) 0;
      Ok (matches file_added_re first)
    else Ok false
  else Ok false.

(** The branches that start at revision [e]: the loop over
    [branchmap.items()]. *)
Fixpoint find_branchpoints (items : list (string * string)) (e : logentry)
    (branchpoints : gset string) : result (gset string) :=
  match items with
  | [] => Ok branchpoints
  | (branch, revision_) :: items' =>
      revparts ← parse_revision revision_;
      if (length revparts <? 2)%nat then find_branchpoints items' e branchpoints
      else
        r2 ← subscript revparts (-2);
        r1 ← subscript revparts (-1);
        if (r2 =? 0) && (r1 mod 2 =? 0) then
          if bool_decide (slice revparts None (Some (-2)) = revision e)
          then find_branchpoints items' e ({[branch]} ∪ branchpoints)
          else find_branchpoints items' e branchpoints
        else if bool_decide (revparts = [1; 1; 1]) then
          if bool_decide (revparts ∈ branches e)
          then find_branchpoints items' e ({[branch]} ∪ branchpoints)
          else find_branchpoints items' e branchpoints
        else find_branchpoints items' e branchpoints
  end.

(** The [if store:] block that completes the entry and appends it. *)
Definition store_entry (st : pstate) : result pstate :=
  let e := st_e st in
  let e := set_tags (sort_by str_lt (default [] (st_tags st !! revision e))) e in
  let e := set_comment (join nl (st_comment st)) e in
  let revn := length (revision e) in
  branch ←
    (if (3 <? revn)%nat && Nat.even revn then
       match st_tags st !! slice (revision e) None (Some (-1)) with
       | Some (name :: _) => Ok (Some name)
       | Some [] => Raise IndexError
       | None => Ok None
       end
     else Ok None);
  let e := set_branch branch e in
  branchpoints ← find_branchpoints (map_to_list (st_branchmap st)) e ∅;
  let e := set_branchpoints branchpoints e in
  Ok (set_st_rcsmap (<[file e := rcs e]> (st_rcsmap st))
        (set_st_log (st_log st ++ [e])
           (set_st_comment [] (set_st_e e (set_st_store false st))))).

Definition finish (st : pstate) : result pstate :=
  synthetic ← synthetic_test st;
  let st := if synthetic : bool
            then set_st_e (set_synthetic true (st_e st)) st else st in
  if st_store st then store_entry st else Ok st.

(** One iteration of the [while True] loop, for the line read and the line
    peeked at. *)
Definition step (st : pstate) (line peek : string) : result pstate :=
  let line := chomp line in
  match st_state st with
  | 0%nat =>
      match match_ re_00 line with
      | Some m =>
          let rcs := group_str m 1 in
          let st := set_st_tags ∅ (set_st_rcs rcs st) in
          if rlog then
            let filename := normpath (str_slice rcs None (Some (-2))) in
            if startswith filename prefix then
              let filename :=
                str_slice filename (Some (Z.of_nat (String.length prefix))) None in
              filename ← rcs_path filename;
              Ok (set_st_state 2%nat (set_st_filename filename st))
            else Ok (set_st_filename filename st)
          else Ok (set_st_state 1%nat st)
      | None => st ← state0 st line; finish st
      end
  | 1%nat => st ← state1 st line; finish st
  | 2%nat => st ← state2 st line; finish st
  | 3%nat => st ← state3 st line; finish st
  | 4%nat => st ← state4 st line; finish st
  | 5%nat => st ← state5 st line; finish st
  | 6%nat => st ← state6 st line; finish st
  | 7%nat => st ← state7 st line peek; finish st
  | 8%nat => st ← state8 st line peek; finish st
  | _ => finish st
  end.

Fixpoint parse_lines (st : pstate) (lines : list string) : result pstate :=
  match lines with
  | [] => Ok st
  | line :: rest =>
      st ← step st line (hd "" rest);
      parse_lines st rest
  end.

(** *** The passes after the loop *)

Definition by_rcs_revision (a b : logentry) : bool :=
  pair_lt str_lt ints_lt (rcs a, revision a) (rcs b, revision b).

Definition by_date (a b : logentry) : bool := date_lt (date a) (date b).

(** [if e.file in rcsmap: e.rcs = rcsmap[e.file]] on an entry of the cache. *)
Definition adopt_rcs (rcsmap : gmap string string) (e : logentry) : logentry :=
  match rcsmap !! file e with
  | Some r => set_rcs r e
  | None => e
  end.

Definition branch_prefix (e : logentry) : list Z := slice (revision e) None (Some (-1)).

(** The first loop over the cached entries, which only records versions. *)
Definition seed_versions (oldlog : list logentry)
  : gmap (string * list Z) (list Z) :=
  foldl (fun versions e => <[(rcs e, branch_prefix e) := revision e]> versions)
        (∅ : gmap (string * list Z) (list Z)) oldlog.

(** The second loop, which assigns [e.parent]. *)
Fixpoint find_parents (log : list logentry)
    (versions : gmap (string * list Z) (list Z)) : list logentry :=
  match log with
  | [] => []
  | e :: log' =>
      let p := match versions !! (rcs e, branch_prefix e) with
               | Some p => p
               | None => slice (revision e) None (Some (-2))
               end in
      set_parent (Some p) e
        :: find_parents log' (<[(rcs e, branch_prefix e) := revision e]> versions)
  end.

(** [log.sort(...)] and the parent resolution pass: the cached entries in
    their own order with [rcs] adopted, and the new entries sorted and with
    parents. *)
Definition resolve_parents (rcsmap : gmap string string)
    (oldlog log : list logentry) : list logentry * list logentry :=
  let log := sort_by by_rcs_revision log in
  let versions := seed_versions (adopt_rcs rcsmap <$> sort_by by_rcs_revision oldlog) in
  (adopt_rcs rcsmap <$> oldlog, find_parents log versions).

(** The cache modes. *)
Inductive cache_mode : Type := cache_read | cache_write | cache_update.

(** [createlog], from the log cache that was loaded ([None] when loading
    failed) and the output of the cvs command. *)
Definition createlog (cache : option cache_mode)
    (cached : option (list logentry)) (output : string) : result (list logentry) :=
  let update_log := match cache with
                    | Some cache_write | Some cache_update => true
                    | _ => false
                    end in
  let '(oldlog, update_log) :=
    match cache with
    | Some cache_read | Some cache_update =>
        match cached with
        | Some l => (l, update_log)
        | None => ([], true)
        end
    | _ => ([], update_log)
    end in
  if negb update_log then Ok oldlog
  else
    st ← parse_lines initial_pstate (readlines [] (chars output));
    let '(oldlog, log) := resolve_parents (st_rcsmap st) oldlog (st_log st) in
    match cache with
    | Some _ =>
        match log with
        | _ :: _ =>
            let log := sort_by by_date log in
            overlap ←
              match last oldlog, head log with
              | Some o, Some n => Ok (negb (date_lt (date o) (date n)))
              | _, _ => Ok false
              end;
            if overlap : bool
            then Raise (LogError "log cache overlaps with new log entries, re-run without cache.")
            else Ok (oldlog ++ log)
        | [] => Ok oldlog
        end
    | None => Ok log
    end.

End Parser.


(** *** class changeset

    The attributes carry the prefix [cs_]; [cs_files] and [cs_versions] are
    [_files] and [_versions].  Changesets are objects shared by reference:
    they live in a heap, a list indexed by address, and [cs_parents] holds
    addresses.  [cs_branchpoints] is [None] for the changesets built by
    [from_merge]. *)

Record changeset : Type := Changeset {
  cs_id : option nat;
  cs_entries : list logentry;
  cs_parents : list nat;
  cs_tags : list string;
  cs_synthetic : bool;
  cs_files : gset string;
  cs_versions : gset (string * list Z);
  cs_author : string;
  cs_branch : option string;
  cs_comment : string;
  cs_date : Z * Z;
  cs_commitid : option string;
  cs_branchpoints : option (gset string);
  cs_mergepoint : option string
}.

Definition set_cs_id (v : option nat) (c : changeset) : changeset :=
  {| cs_id := v; cs_entries := cs_entries c; cs_parents := cs_parents c;
     cs_tags := cs_tags c; cs_synthetic := cs_synthetic c; cs_files := cs_files
     c; cs_versions := cs_versions c; cs_author := cs_author c; cs_branch :=
     cs_branch c; cs_comment := cs_comment c; cs_date := cs_date c; cs_commitid
     := cs_commitid c; cs_branchpoints := cs_branchpoints c; cs_mergepoint :=
     cs_mergepoint c |}.
Definition set_cs_entries (v : list logentry) (c : changeset) : changeset :=
  {| cs_id := cs_id c; cs_entries := v; cs_parents := cs_parents c; cs_tags :=
     cs_tags c; cs_synthetic := cs_synthetic c; cs_files := cs_files c;
     cs_versions := cs_versions c; cs_author := cs_author c; cs_branch :=
     cs_branch c; cs_comment := cs_comment c; cs_date := cs_date c; cs_commitid
     := cs_commitid c; cs_branchpoints := cs_branchpoints c; cs_mergepoint :=
     cs_mergepoint c |}.
Definition set_cs_parents (v : list nat) (c : changeset) : changeset :=
  {| cs_id := cs_id c; cs_entries := cs_entries c; cs_parents := v; cs_tags :=
     cs_tags c; cs_synthetic := cs_synthetic c; cs_files := cs_files c;
     cs_versions := cs_versions c; cs_author := cs_author c; cs_branch :=
     cs_branch c; cs_comment := cs_comment c; cs_date := cs_date c; cs_commitid
     := cs_commitid c; cs_branchpoints := cs_branchpoints c; cs_mergepoint :=
     cs_mergepoint c |}.
Definition set_cs_tags (v : list string) (c : changeset) : changeset :=
  {| cs_id := cs_id c; cs_entries := cs_entries c; cs_parents := cs_parents c;
     cs_tags := v; cs_synthetic := cs_synthetic c; cs_files := cs_files c;
     cs_versions := cs_versions c; cs_author := cs_author c; cs_branch :=
     cs_branch c; cs_comment := cs_comment c; cs_date := cs_date c; cs_commitid
     := cs_commitid c; cs_branchpoints := cs_branchpoints c; cs_mergepoint :=
     cs_mergepoint c |}.
Definition set_cs_mergepoint (v : option string) (c : changeset) : changeset :=
  {| cs_id := cs_id c; cs_entries := cs_entries c; cs_parents := cs_parents c;
     cs_tags := cs_tags c; cs_synthetic := cs_synthetic c; cs_files := cs_files
     c; cs_versions := cs_versions c; cs_author := cs_author c; cs_branch :=
     cs_branch c; cs_comment := cs_comment c; cs_date := cs_date c; cs_commitid
     := cs_commitid c; cs_branchpoints := cs_branchpoints c; cs_mergepoint := v |}.

(** [changeset.__init__] *)
Definition changeset_init (author : string) (branch : option string)
    (comment : string) (date : Z * Z) (commitid : option string)
    (branchpoints : option (gset string)) (mergepoint : option string) : changeset :=
  {| cs_id := None; cs_entries := []; cs_parents := []; cs_tags := [];
     cs_synthetic := false; cs_files := ∅; cs_versions := ∅;
     cs_author := author; cs_branch := branch; cs_comment := comment;
     cs_date := date; cs_commitid := commitid;
     cs_branchpoints := branchpoints; cs_mergepoint := mergepoint |}.

#[global] Instance changeset_inhabited : Inhabited changeset :=
  populate (changeset_init "" None "" (0, 0)%Z None None None).

(** [changeset._add] *)
Definition _add (self : changeset) (entry : logentry) : changeset :=
  {| cs_id := cs_id self;
     cs_entries := cs_entries self ++ [entry];
     cs_parents := cs_parents self;
     cs_tags := cs_tags self;
     cs_synthetic := match cs_entries self with
                     | [] => synthetic entry
                     | _ :: _ => false
                     end;
     cs_files := {[file entry]} ∪ cs_files self;
     cs_versions := {[(rcs entry, revision entry)]} ∪ cs_versions self;
     cs_author := cs_author self; cs_branch := cs_branch self;
     cs_comment := cs_comment self;
     cs_date := date entry;
     cs_commitid := cs_commitid self;
     cs_branchpoints := cs_branchpoints self;
     cs_mergepoint := cs_mergepoint self |}.

(** [changeset.from_logentry] *)
Definition from_logentry (entry : logentry) : changeset :=
  _add (changeset_init (author entry) (branch entry) (comment entry) (date entry)
          (commitid entry) (Some (branchpoints entry)) (mergepoint entry))
       entry.

(** [changeset.from_merge]; the parents are the addresses of [from_cs] and
    [to_cs]. *)
Definition from_merge (from_addr to_addr : nat) (from_cs to_cs : changeset) : changeset :=
  set_cs_parents [from_addr; to_addr]
    (changeset_init (cs_author from_cs) (cs_branch to_cs)
       ("convert-repo: CVS merge from branch " +:+ percent_s (cs_branch from_cs))
       (cs_date from_cs) None None None).

Definition date_sum (d : Z * Z) : Z := (d.1 + d.2)%Z.

(** [changeset._can_cover] *)
Definition _can_cover (self : changeset) (entry : logentry) (fuzz : Z) : bool :=
  if negb (bool_decide (Some (branchpoints entry) = cs_branchpoints self)) then false
  else
    match cs_commitid self with
    | Some _ => bool_decide (commitid entry = cs_commitid self)
    | None =>
        bool_decide (commitid entry = None)
        && String.eqb (author entry) (cs_author self)
        && bool_decide (branch entry = cs_branch self)
        && String.eqb (comment entry) (cs_comment self)
        && negb (bool_decide (file entry ∈ cs_files self))
        && ((date_sum (cs_date self) <=? date_sum (date entry))%Z
            && (date_sum (date entry) <? date_sum (cs_date self) + fuzz)%Z)
    end.

(** [changeset.add_entry]: the changeset after the call, if the entry was
    added. *)
Definition add_entry (self : changeset) (entry : logentry) (fuzz : Z)
  : option changeset :=
  if negb (_can_cover self entry fuzz) then None
  else Some (_add self entry).

(** [changeset.is_child] *)
Definition is_child (self other : changeset) : bool :=
  existsb (fun entry =>
             match parent entry with
             | Some p => bool_decide ((rcs entry, p) ∈ cs_versions other)
             | None => false
             end)
          (cs_entries self).

(** *** The state of the parent walk of [createchangeset]

    The heap, the list [changesets] (of addresses), the dictionary
    [branches] and the loop counters [i] and [n]. *)

Record wstate : Type := Wstate {
  w_heap : list changeset;
  w_changesets : list nat;
  w_branches : gmap (option string) nat;
  w_i : nat;
  w_n : nat
}.

(** [mergefrom] and [mergeto] arguments: [None], a false value, or a pattern
    together with the number of groups it has. *)
Inductive merge_pattern : Type :=
| pattern_default
| pattern_off
| pattern_re (r : re) (ngroups : nat).

Definition default_mergeto : re :=
  cat [lit "{{mergetobranch "; Grp 1 (plus (Alt (chr "-") word)); lit "}}"].
Definition default_mergefrom : re :=
  cat [lit "{{mergefrombranch "; Grp 1 (plus (Alt (chr "-") word)); lit "}}"].

Definition compile (default : re) (p : merge_pattern) : option (re * nat) :=
  match p with
  | pattern_default => Some (default, 1%nat)
  | pattern_off => None
  | pattern_re r n => Some (r, n)
  end.


(** *** [createchangeset] *)

Section Synthesizer.
Context `{PathLib} `{Sorter} `{ui : Ui}.
Local Open Scope Z_scope.

(** [if e.commitid:] *)
Definition commitid_true (e : logentry) : option string :=
  match commitid e with
  | Some s => if String.eqb s "" then None else Some s
  | None => None
  end.

(** [min(a, b)] on dates. *)
Definition date_min (a b : Z * Z) : Z * Z := if date_lt b a then b else a.

Definition collect_mindate (log : list logentry) : gmap string (Z * Z) :=
  foldl (fun mindate e =>
           match commitid_true e with
           | Some cid =>
               match mindate !! cid with
               | None => <[cid := date e]> mindate
               | Some d => <[cid := date_min (date e) d]> mindate
               end
           | None => mindate
           end)
        (∅ : gmap string (Z * Z)) log.

(** The key of the first sort and its order; sets compare by strict
    inclusion. *)
Definition log_key (mindate : gmap string (Z * Z)) (x : logentry)
  : (Z * Z) * (string * (string * (string * (string * ((Z * Z) * gset string))))) :=
  (default (-1, 0) (commitid x ≫= fun cid => mindate !! cid),
   (default "" (commitid x),
    (comment x, (author x, (default "" (branch x), (date x, branchpoints x)))))).

Definition set_lt (a b : gset string) : bool := bool_decide (a ⊂ b).

Definition log_key_lt
    (a b : (Z * Z) * (string * (string * (string * (string * ((Z * Z) * gset string))))))
  : bool :=
  pair_lt date_lt
    (pair_lt str_lt
       (pair_lt str_lt
          (pair_lt str_lt
             (pair_lt str_lt
                (pair_lt date_lt set_lt))))) a b.

(** The grouping loop: [c] is the address of the current changeset. *)
Fixpoint group_entries (fuzz : Z) (log : list logentry) (heap : list changeset)
    (changesets : list nat) (c : option nat) : list changeset * list nat :=
  match log with
  | [] => (heap, changesets)
  | e :: log' =>
      match c ≫= (fun a => add_entry (heap !!! a) e fuzz ≫= fun c' => Some (a, c')) with
      | Some (a, c') => group_entries fuzz log' (<[a := c']> heap) changesets c
      | None =>
          let a := length heap in
          group_entries fuzz log' (heap ++ [from_logentry e]) (changesets ++ [a]) (Some a)
      end
  end.

(** [c.entries.sort(key=lambda x: tuple(enumerate(os.path.split(x.file))))] *)
Definition by_split_path (a b : logentry) : bool :=
  pair_lt str_lt str_lt (path_split (file a)) (path_split (file b)).

Definition sort_files (heap : list changeset) (changesets : list nat) : list changeset :=
  foldl (fun heap a =>
           <[a := set_cs_entries (sort_by by_split_path (cs_entries (heap !!! a)))
                    (heap !!! a)]> heap)
        heap changesets.

(** [cscmp]; the set [odd] it fills is modelled by [odd_pair] below. *)
Definition cmp_Z (x y : Z) : Z := Z.b2z (y <? x) - Z.b2z (x <? y).

Fixpoint strs_lt (a b : list string) : bool :=
  match a, b with
  | [], [] => false
  | [], _ :: _ => true
  | _ :: _, [] => false
  | x :: a', y :: b' => if String.eqb x y then strs_lt a' b' else str_lt x y
  end.

(** [len(c.branchpoints)]; the changesets compared are those of the
    grouping, whose [branchpoints] is a set. *)
Definition len_branchpoints (c : changeset) : Z :=
  match cs_branchpoints c with
  | Some s => Z.of_nat (size s)
  | None => 0
  end.

Definition cscmp (l r : changeset) : Z :=
  let d := date_sum (cs_date l) - date_sum (cs_date r) in
  if negb (d =? 0) then d
  else
    let d := if is_child l r then 1 else d in
    let d := if is_child r l then -1 else d in
    let d := if d =? 0
             then cmp_Z (Z.of_nat (length (cs_entries l))) (Z.of_nat (length (cs_entries r)))
             else d in
    let d := if d =? 0
             then Z.b2z (strs_lt (map file (cs_entries r)) (map file (cs_entries l)))
                  - Z.b2z (strs_lt (map file (cs_entries l)) (map file (cs_entries r)))
             else d in
    let d := if d =? 0 then cmp_Z (len_branchpoints l) (len_branchpoints r) else d in
    d.

(** [odd.add((l, r))]: [cscmp] records the pair when the dates are equal
    and each of the two changesets is a child of the other. *)
Definition odd_pair (l r : changeset) : bool :=
  (date_sum (cs_date l) - date_sum (cs_date r) =? 0)
  && is_child l r && is_child r l.

(** Tag collection. *)
Definition collect_globaltags (heap : list changeset) (changesets : list nat)
  : gmap string nat :=
  foldl (fun globaltags a =>
           foldl (fun globaltags e =>
                    foldl (fun globaltags tag => <[tag := a]> globaltags)
                          globaltags (tags e))
                 globaltags (cs_entries (heap !!! a)))
        (∅ : gmap string nat) changesets.

Definition assign_tags (globaltags : gmap string nat) (heap : list changeset)
    (changesets : list nat) : list changeset :=
  foldl (fun heap a =>
           let tagset : gset string :=
             foldl (fun s e => list_to_set (tags e) ∪ s) ∅ (cs_entries (heap !!! a)) in
           let mine := filter (fun tag => bool_decide (globaltags !! tag = Some a))
                              (elements tagset) in
           <[a := set_cs_tags (sort_by str_lt mine) (heap !!! a)]> heap)
        heap changesets.

(** [c.branch not in changesets[candidate].branchpoints] fails on [None]. *)
Definition branch_in (b : option string) (branchpoints : option (gset string))
  : result bool :=
  match branchpoints with
  | None => Raise TypeError
  | Some s => Ok (match b with
                  | Some x => bool_decide (x ∈ s)
                  | None => false
                  end)
  end.

(** [for candidate in range(i)]: [cands] are the changesets from index
    [candidate] up to [i]. *)
Fixpoint scan_candidates (heap : list changeset) (b : option string)
    (cands : list nat) (candidate : nat) (p : option nat) : result (option nat) :=
  match cands with
  | [] => Ok p
  | a :: cands' =>
      has ← branch_in b (cs_branchpoints (heap !!! a));
      if has : bool then scan_candidates heap b cands' (S candidate) (Some candidate)
      else match p with
           | Some _ => Ok p
           | None => scan_candidates heap b cands' (S candidate) p
           end
  end.

(** [while p.synthetic]: the loop visits one address per iteration and does
    not change the heap, so it returns within [length heap] iterations or
    never. *)
Fixpoint skip_synthetic (fuel : nat) (heap : list changeset) (p : nat)
  : result (option nat) :=
  match fuel with
  | O => Loops
  | S fuel' =>
      if cs_synthetic (heap !!! p) then
        _ ← py_assert (length (cs_parents (heap !!! p)) <=? 1)%nat
              "synthetic changeset cannot have multiple parents";
        match cs_parents (heap !!! p) with
        | q :: _ => skip_synthetic fuel' heap q
        | [] => Ok None
        end
      else Ok (Some p)
  end.

(** [c.parents.append(p)] on the object at address [a]. *)
Definition append_parent (a p : nat) (heap : list changeset) : list changeset :=
  <[a := set_cs_parents (cs_parents (heap !!! a) ++ [p]) (heap !!! a)]> heap.

(** The primary parent of the changeset at index [w_i]. *)
Definition primary_parent (w : wstate) : result (list changeset) :=
  let heap := w_heap w in
  let a := w_changesets w !!! w_i w in
  p ← match w_branches w !! cs_branch (heap !!! a) with
      | Some p => Ok (Some p)
      | None => scan_candidates heap (cs_branch (heap !!! a))
                  (take (w_i w) (w_changesets w)) 0 None
      end;
  match p with
  | Some p =>
      p ← skip_synthetic (S (length heap)) heap (w_changesets w !!! p);
      match p with
      | Some p => Ok (append_parent a p heap)
      | None => Ok heap
      end
  | None => Ok heap
  end.

(** [if c.mergepoint:] *)
Definition mergepoint_parent (w : wstate) (heap : list changeset)
  : result (list changeset) :=
  let a := w_changesets w !!! w_i w in
  match cs_mergepoint (heap !!! a) with
  | Some mp =>
      if String.eqb mp "" then Ok heap
      else
        let mp' := if String.eqb mp "HEAD" then None else Some mp in
        let heap := <[a := set_cs_mergepoint mp' (heap !!! a)]> heap in
        match w_branches w !! mp' with
        | None => Raise KeyError
        | Some j => Ok (append_parent a (w_changesets w !!! j) heap)
        end
  | None => Ok heap
  end.

(** [HEAD] names the trunk. *)
Definition head_to_none (m : option string) : option string :=
  match m with
  | Some s => if String.eqb s "HEAD" then None else Some s
  | None => None
  end.

(** [if mergefrom:]; for a branch that the branch map does not know, the
    handler of [KeyError] calls [ui.warn], and the test that follows finds
    [m in branches] false. *)
Definition mergefrom_parent (mergefrom : option (re * nat)) (w : wstate)
    (heap : list changeset) : result (list changeset) :=
  let a := w_changesets w !!! w_i w in
  match mergefrom with
  | None => Ok heap
  | Some (r, ngroups) =>
      match search r (cs_comment (heap !!! a)) with
      | None => Ok heap
      | Some m =>
          if (ngroups <? 1)%nat then Raise IndexError
          else
            let m := head_to_none (group m 1) in
            match w_branches w !! m with
            | None => _ ← ui_warn; Ok heap
            | Some j =>
                let candidate := w_changesets w !!! j in
                if negb (bool_decide (cs_branch (heap !!! a) = m))
                   && negb (cs_synthetic (heap !!! candidate))
                then Ok (append_parent a candidate heap)
                else Ok heap
            end
      end
  end.

(** The branch named by a match of [mergeto]: [Some m] when the pattern
    matched, [m] being [None] for the trunk. *)
Definition mergeto_target (mergeto : option (re * nat)) (comment : string)
  : option (option string) :=
  match mergeto with
  | None => None
  | Some (r, ngroups) =>
      match search r comment with
      | None => None
      | Some m =>
          if (0 <? ngroups)%nat then Some (head_to_none (group m 1))
          else Some None
      end
  end.

(** [changesets.insert(i, x)] *)
Definition list_insert_at {A} (i : nat) (x : A) (l : list A) : list A :=
  take i l ++ x :: drop i l.

(** [if mergeto:] and the end of the loop body. *)
Definition mergeto_step (mergeto : option (re * nat)) (w : wstate)
    (heap : list changeset) : wstate :=
  let i := w_i w in
  let a := w_changesets w !!! i in
  let c := heap !!! a in
  let record :=
    {| w_heap := heap; w_changesets := w_changesets w;
       w_branches := <[cs_branch c := i]> (w_branches w);
       w_i := S i; w_n := w_n w |} in
  match mergeto_target mergeto (cs_comment c) with
  | Some m =>
      match w_branches w !! m with
      | Some j =>
          if negb (bool_decide (cs_branch c = m)) then
            let to_addr := w_changesets w !!! j in
            let cc := from_merge a to_addr c (heap !!! to_addr) in
            {| w_heap := heap ++ [cc];
               w_changesets := list_insert_at (S i) (length heap) (w_changesets w);
               w_branches := <[m := S i]> (w_branches w);
               w_i := S (S i); w_n := S (w_n w) |}
          else record
      | None => record
      end
  | None => record
  end.

(** One iteration of [while i < n]. *)
Definition walk_step (mergefrom mergeto : option (re * nat)) (w : wstate)
  : result wstate :=
  heap ← primary_parent w;
  heap ← mergepoint_parent w heap;
  heap ← mergefrom_parent mergefrom w heap;
  Ok (mergeto_step mergeto w heap).

(** [while i < n]: every iteration decreases [n - i] by one. *)
Fixpoint walk (fuel : nat) (mergefrom mergeto : option (re * nat)) (w : wstate)
  : result wstate :=
  if (w_i w <? w_n w)%nat then
    match fuel with
    | O => Loops
    | S fuel' => w' ← walk_step mergefrom mergeto w; walk fuel' mergefrom mergeto w'
    end
  else Ok w.

(** Dropping the synthetic changesets, and numbering. *)
Definition drop_synthetic (heap : list changeset) (changesets : list nat) : list nat :=
  filter (fun a => negb (cs_synthetic (heap !!! a))) changesets.

Definition number (heap : list changeset) (changesets : list nat) : list changeset :=
  foldl (fun heap '(i, a) => <[a := set_cs_id (Some (S i)) (heap !!! a)]> heap)
        heap (imap (fun i a => (i, a)) changesets).

(** The state in which the parent walk starts: the entries grouped, the
    files and the changesets sorted, the tags assigned. *)
Definition before_walk (log : list logentry) (fuzz : Z) : wstate :=
  let mindate := collect_mindate log in
  let log := sort_by (fun a b => log_key_lt (log_key mindate a) (log_key mindate b)) log in
  let '(heap, changesets) := group_entries fuzz log [] [] None in
  let heap := sort_files heap changesets in
  let changesets :=
    sort_by (fun l r => cscmp (heap !!! l) (heap !!! r) <? 0) changesets in
  let heap := assign_tags (collect_globaltags heap changesets) heap changesets in
  {| w_heap := heap; w_changesets := changesets; w_branches := ∅;
     w_i := 0; w_n := length changesets |}.

(** The set [odd] after [changesets.sort(key=functools.cmp_to_key(cscmp))]:
    [cscmp] runs on the pairs that the sort compares, on the changesets as
    they are at that point, their files sorted. *)
Definition odd_pairs (log : list logentry) (fuzz : Z) : list (nat * nat) :=
  let mindate := collect_mindate log in
  let log := sort_by (fun a b => log_key_lt (log_key mindate a) (log_key mindate b)) log in
  let '(heap, changesets) := group_entries fuzz log [] [] None in
  let heap := sort_files heap changesets in
  filter (fun lr => odd_pair (heap !!! lr.1) (heap !!! lr.2))
         (sort_compares (fun l r => cscmp (heap !!! l) (heap !!! r) <? 0) changesets).

(** [for l, r in odd:] the warning for the pairs that are both numbered. *)
Fixpoint warn_odd (heap : list changeset) (odd : list (nat * nat)) : result unit :=
  match odd with
  | [] => Ok tt
  | (l, r) :: odd' =>
      _ ← (if bool_decide (is_Some (cs_id (heap !!! l)))
              && bool_decide (is_Some (cs_id (heap !!! r)))
           then ui_warn else Ok tt);
      warn_odd heap odd'
  end.

(** [createchangeset(ui, log, fuzz, mergefrom, mergeto)]: the heap and the
    list of changesets returned, as addresses. *)
Definition createchangeset (log : list logentry) (fuzz : Z)
    (mergefrom mergeto : merge_pattern) : result (list changeset * list nat) :=
  let w := before_walk log fuzz in
  w ← walk (w_n w) (compile default_mergefrom mergefrom)
        (compile default_mergeto mergeto) w;
  let changesets := drop_synthetic (w_heap w) (w_changesets w) in
  let heap := number (w_heap w) changesets in
  _ ← warn_odd heap (odd_pairs log fuzz);
  Ok (heap, changesets).

End Synthesizer.


(** *** [debugcvsps]

    [ui.write] adds to the text written so far, which stays written when a
    later statement raises; [ui.status], [ui.note] and [ui.debug] print
    progress messages and are left out, as in [createlog] and
    [createchangeset].
    The keys of [opts] carry the prefix [opt_]. *)

Record options : Type := Options {
  opt_new_cache : bool;
  opt_update_cache : bool;
  opt_revisions : list string;
  opt_root : string;
  opt_fuzz : Z;
  opt_ancestors : bool;
  opt_branches : list string;
  opt_parents : bool;
  opt_prefix : string
}.

(** What one call of [createlog] meets: the prefix it builds from the root
    and the directory, the log its cache file holds ([None] when it cannot
    be loaded), and the output of the cvs command. *)
Record cvs_run : Type := Cvs_run {
  run_prefix : string;
  run_cached : option (list logentry);
  run_output : string
}.

(** A computation that writes: from the strings written so far to the
    strings written and the outcome. *)
Definition io (A : Type) : Type := list string → list string * result A.

#[global] Instance io_ret : MRet io := fun A a written => (written, Ok a).
#[global] Instance io_bind : MBind io := fun A B f m written =>
  let '(written', r) := m written in
  match r with
  | Ok a => f a written'
  | Raise e => (written', Raise e)
  | Loops => (written', Loops)
  end.

Definition ui_write (msg : string) : io unit := fun written => (written ++ [msg], Ok tt).
Definition io_of {A} (r : result A) : io A := fun written => (written, r).

(** ['%d' % x] and [str(x)] for an id, which is an integer or [None]. *)
Definition percent_d (x : option nat) : result string :=
  match x with
  | Some n => Ok (str_of_nat n)
  | None => Raise TypeError
  end.

Definition str_id (x : option nat) : string :=
  match x with
  | Some n => str_of_nat n
  | None => "None"
  end.

(** [b or 'HEAD'] *)
Definition or_HEAD (b : option string) : string :=
  match b with
  | Some s => if String.eqb s "" then "HEAD" else s
  | None => "HEAD"
  end.

(** [min(l)] for a list of dates: the first of the least elements. *)
Definition min_date (l : list (Z * Z)) : result (Z * Z) :=
  match l with
  | [] => Raise ValueError
  | d :: l' => Ok (foldl (fun m x => if date_lt x m then x else m) d l')
  end.

(** The variables of the loop over the changesets: [off], [branches] and
    [ancestors]. *)
Record dstate : Type := Dstate {
  d_off : bool;
  d_branches : gmap (option string) (option nat);
  d_ancestors : gmap (option string) (option string * nat)
}.

Section Debug.
Context `{TimeLib} `{DatetimeLib} `{PathLib} `{Sorter} `{ui : Ui}.
Variable world : string → option string → cvs_run.
Variable opts : options.

(** The calls of [createlog] in the [try] block: the logs of the
    directories, one after the other. *)
Definition createlog_in (cache : cache_mode) (d : option string)
  : result (list logentry) :=
  let run := world (opt_root opts) d in
  createlog true (run_prefix run) (Some cache) (run_cached run) (run_output run).

Fixpoint createlogs (cache : cache_mode) (args : list string) (log : list logentry)
  : result (list logentry) :=
  match args with
  | [] => Ok log
  | d :: args' =>
      l ← createlog_in cache (Some d);
      createlogs cache args' (log ++ l)
  end.

(** The loop [while b:] that collects the ancestor branches.  It ends or
    fails within [len(ancestors) + 1] iterations unless a branch comes
    back, in which case it runs forever. *)
Fixpoint ancestors_loop (fuel : nat) (st : dstate) (b : option string)
    (r : list string) : result (list string) :=
  match b with
  | None => Ok r
  | Some s =>
      if String.eqb s "" then Ok r
      else
        match fuel with
        | O => Loops
        | S fuel' =>
            match d_ancestors st !! b with
            | None => Raise KeyError
            | Some (b', c) =>
                match d_branches st !! b' with
                | None => Raise KeyError
                | Some v =>
                    last ← percent_d v;
                    ancestors_loop fuel' st b'
                      (r ++ [or_HEAD b' +:+ ":" +:+ str_of_nat c +:+ ":" +:+ last])
                end
            end
        end
  end.

(** The loop over the entries under [Members:]. *)
Fixpoint write_members (entries : list logentry) : io unit :=
  match entries with
  | [] => mret tt
  | f :: entries' =>
      let fn := file f in
      let fn := if startswith fn (opt_prefix opts)
                then str_slice fn (Some (Z.of_nat (String.length (opt_prefix opts)))) None
                else fn in
      p ← io_of (match parent f with
                 | Some p => Ok (show_revision p)
                 | None => Raise TypeError
                 end);
      _ ← ui_write (str [tab] +:+ fn +:+ ":"
                    +:+ (if String.eqb p "" then "INITIAL" else p)
                    +:+ "->" +:+ show_revision (revision f)
                    +:+ (if dead f then "(DEAD)" else "") +:+ " " +:+ nl);
      write_members entries'
  end.

(** The block [if not off:] that prints a changeset. *)
Definition write_changeset (heap : list changeset) (st : dstate) (cs : changeset)
  : io unit :=
  cs_date ← io_of (min_date (date <$> cs_entries cs));
  let cs_tags := take 1 (cs_tags cs) in
  _ ← ui_write ("---------------------" +:+ nl);
  id ← io_of (percent_d (cs_id cs));
  _ ← ui_write ("PatchSet " +:+ id +:+ " " +:+ nl);
  _ ← ui_write ("Date: " +:+ datestr cs_date "%Y/%m/%d %H:%M:%S %1%2" +:+ nl);
  _ ← ui_write ("Author: " +:+ cs_author cs +:+ nl);
  _ ← ui_write ("Branch: " +:+ or_HEAD (cs_branch cs) +:+ nl);
  _ ← ui_write ("Tag" +:+ (if (1 <? length cs_tags)%nat then "s" else "") +:+ ": "
                +:+ (let t := join "," cs_tags in
                     if String.eqb t "" then "(none)" else t)
                +:+ " " +:+ nl);
  _ ← match cs_branchpoints cs with
      | Some b =>
          if bool_decide (b = ∅) then mret tt
          else ui_write ("Branchpoints: " +:+ join ", " (sort_by str_lt (elements b))
                         +:+ " " +:+ nl)
      | None => mret tt
      end;
  _ ← (if opt_parents opts then
         match cs_parents cs with
         | [] => mret tt
         | [p] =>
             id ← io_of (percent_d (cs_id (heap !!! p)));
             ui_write ("Parent: " +:+ id +:+ nl)
         | ps =>
             ui_write ("Parents: "
                       +:+ join "," ((fun p => str_id (cs_id (heap !!! p))) <$> ps) +:+ nl)
         end
       else mret tt);
  _ ← (if opt_ancestors opts then
         r ← io_of (ancestors_loop (S (size (d_ancestors st))) st (cs_branch cs) []);
         match r with
         | [] => mret tt
         | _ => ui_write ("Ancestors: " +:+ join "," r +:+ nl)
         end
       else mret tt);
  _ ← ui_write ("Log:" +:+ nl);
  _ ← ui_write (cs_comment cs +:+ nl +:+ nl);
  _ ← ui_write ("Members: " +:+ nl);
  _ ← write_members (cs_entries cs);
  ui_write nl.

(** [revisions[k] == str(cs.id) or revisions[k] in cs.tags] *)
Definition names_changeset (name : string) (cs : changeset) : bool :=
  String.eqb name (str_id (cs_id cs)) || bool_decide (name ∈ cs_tags cs).

(** The bookkeeping [if opts["ancestors"]:] at the head of the loop body. *)
Definition record_branch (heap : list changeset) (changesets : list nat)
    (st : dstate) (cs : changeset) : result dstate :=
  if opt_ancestors opts then
    ancestors ←
      (match d_branches st !! cs_branch cs, cs_parents cs with
       | None, p :: _ =>
           match cs_id (heap !!! p) with
           | Some (S k) =>
               a ← match changesets !! k with
                   | Some a => Ok a
                   | None => Raise IndexError
                   end;
               Ok (<[cs_branch cs := (cs_branch (heap !!! a), S k)]> (d_ancestors st))
           | _ => Ok (d_ancestors st)
           end
       | _, _ => Ok (d_ancestors st)
       end);
    Ok {| d_off := d_off st;
          d_branches := <[cs_branch cs := cs_id cs]> (d_branches st);
          d_ancestors := ancestors |}
  else Ok st.

(** The loop [for cs in changesets:]; [rest] is what is left of the list,
    of which [changesets] is the whole. *)
Fixpoint write_changesets (heap : list changeset) (changesets rest : list nat)
    (st : dstate) : io unit :=
  match rest with
  | [] => mret tt
  | a :: rest' =>
      let cs := heap !!! a in
      st ← io_of (record_branch heap changesets st cs);
      if negb (Nat.eqb (length (opt_branches opts)) 0)
         && negb (bool_decide (or_HEAD (cs_branch cs) ∈ opt_branches opts))
      then write_changesets heap changesets rest' st
      else
        _ ← (if negb (d_off st) then write_changeset heap st cs else mret tt);
        let st :=
          match opt_revisions opts with
          | start :: _ =>
              if d_off st && names_changeset start cs
              then {| d_off := false; d_branches := d_branches st;
                      d_ancestors := d_ancestors st |}
              else st
          | [] => st
          end in
        match opt_revisions opts with
        | _ :: stop :: _ =>
            if negb (d_off st) && names_changeset stop cs then mret tt
            else write_changesets heap changesets rest' st
        | _ => write_changesets heap changesets rest' st
        end
  end.

(** The body of the [try] statement. *)
Definition read_logs (args : list string) : result (list logentry) :=
  let cache := if opt_new_cache opts then cache_write
               else if opt_update_cache opts then cache_update
                    else cache_read in
  match args with
  | [] => createlog_in cache None
  | _ => createlogs cache args []
  end.

(** [debugcvsps(ui, *args, **opts)] *)
Definition debugcvsps (args : list string) : io unit :=
  fun written =>
    match read_logs args with
    | Raise (LogError msg) =>
        ui_write ("logerror(" +:+ repr_str msg +:+ ")" +:+ nl) written
    | Raise e => (written, Raise e)
    | Loops => (written, Loops)
    | Ok log =>
        (r ← io_of (createchangeset log (opt_fuzz opts) pattern_default pattern_default);
         let '(heap, changesets) := (r : list changeset * list nat) in
         write_changesets heap changesets changesets
           {| d_off := negb (Nat.eqb (length (opt_revisions opts)) 0);
              d_branches := ∅; d_ancestors := ∅ |}) written
    end.

End Debug.

(** *** Definitions that follow the wording of the specification

    They are compared with the code in the properties below. *)

(** The revision string [r[:-2] + [0, last component of r]] that the
    specification gives for a mergepoint revision [r]. *)
Definition spec_mergepoint_revision (r : string) : string :=
  let myrev := split_on "." r in
  join "." (slice myrev None (Some (-2)%Z) ++ ["0"] ++ slice myrev (Some (-1)%Z) None).

(** "The very first trunk revision of a file (a length-2 revision with no
    predecessor on trunk)", among the entries recorded [before] it. *)
Definition spec_first_trunk_revision (before : list logentry) (e : logentry) : bool :=
  Nat.eqb (length (revision e)) 2
  && forallb (fun e' => negb (String.eqb (rcs e') (rcs e)
                                && Nat.eqb (length (revision e')) 2))
             before.

(** The entries of [l] that are revisions of the rcs file of [e] with the
    branch prefix [revision[:-1]] of [e]. *)
Definition same_line (e : logentry) (l : list logentry) : list logentry :=
  filter (fun e' => (rcs e', branch_prefix e') = (rcs e, branch_prefix e)) l.

(** Every entry is committed no earlier than the entry before it and less
    than [fuzz] seconds after it, dates taken as [unixtime + tz_offset]. *)
Fixpoint chained (fuzz : Z) (l : list logentry) : Prop :=
  match l with
  | x :: (y :: _) as l' =>
      (date_sum (date x) ≤ date_sum (date y))%Z
      ∧ (date_sum (date y) < date_sum (date x) + fuzz)%Z
      ∧ chained fuzz l'
  | _ => True
  end.

(** What the grouping loop maintains of every changeset it builds: the
    commitid is that of the first entry and the date that of the last one,
    [_files] holds the files of the entries, and without a commitid the
    entries are chained, of distinct files and without commitid. *)
Definition grouped (fuzz : Z) (c : changeset) : Prop :=
  ∃ e0 el,
    head (cs_entries c) = Some e0 ∧ last (cs_entries c) = Some el
    ∧ cs_commitid c = commitid e0 ∧ cs_date c = date el
    ∧ (∀ f, f ∈ cs_files c ↔ f ∈ file <$> cs_entries c)
    ∧ (cs_commitid c = None →
       chained fuzz (cs_entries c) ∧ NoDup (file <$> cs_entries c)
       ∧ Forall (fun e => commitid e = None) (cs_entries c)).

(** The largest difference between two dates of a list of entries, each
    date taken as [unixtime + tz_offset]. *)
Definition date_span (entries : list logentry) : Z :=
  match entries with
  | [] => 0%Z
  | e :: es =>
      (foldl Z.max (date_sum (date e)) (date_sum ∘ date <$> es)
       - foldl Z.min (date_sum (date e)) (date_sum ∘ date <$> es))%Z
  end.

(** *** Invariants of the parent walk

    Every parent of a changeset of the list stands before it in the list. *)
Definition parents_before (heap : list changeset) (changesets : list nat) : Prop :=
  ∀ k a p, changesets !! k = Some a → p ∈ cs_parents (heap !!! a) →
    ∃ j, j < k ∧ changesets !! j = Some p.

(** What the loop [while i < n] maintains: [n] is the length of the list,
    the list holds every address of the heap once, the branch map gives
    indices below [i], and parents stand before their children. *)
Definition walk_ordered (w : wstate) : Prop :=
  w_n w = length (w_changesets w)
  ∧ w_i w ≤ w_n w
  ∧ w_changesets w ≡ₚ seq 0 (length (w_heap w))
  ∧ (∀ b j, w_branches w !! b = Some j → j < w_i w)
  ∧ parents_before (w_heap w) (w_changesets w).

(** The index in [changesets] of the first changeset on branch [b], and the
    length of the list when there is none. *)
Fixpoint first_on (heap : list changeset) (b : option string) (changesets : list nat)
  : nat :=
  match changesets with
  | [] => 0
  | a :: changesets' =>
      if decide (cs_branch (heap !!! a) = b) then 0
      else S (first_on heap b changesets')
  end.

(** What the loop of [debugcvsps] keeps of [branches] and [ancestors] when
    [opts["ancestors"]] is set and [k] changesets have been seen: the
    branches recorded are those of the changesets seen, and the ancestor
    recorded for a branch is a branch that was seen first. *)
Definition ancestors_ranked (heap : list changeset) (changesets : list nat) (k : nat)
    (st : dstate) : Prop :=
  (∀ b, is_Some (d_branches st !! b) ↔ first_on heap b changesets < k)
  ∧ (∀ b b' c, d_ancestors st !! b = Some (b', c) →
       first_on heap b' changesets < first_on heap b changesets).

(** *** Entries for the examples

    Revision [revision] of [file], committed on [branch] at time [when]
    (UTC) by [author] with [comment]; the other attributes as state 5
    leaves them. *)
Definition entry (file : string) (revision : list Z) (branch : option string)
    (when : Z) (author comment : string) : logentry :=
  set_comment comment
    (set_author author
       (set_date (when, 0%Z)
          (set_branch branch
             (new_logentry ("/cvs/mod/" +:+ file +:+ ",v") file revision)))).

(** The output of [cvs rlog] as a list of lines. *)
Definition rlog_output (lines : list string) : string :=
  String.concat "" ((fun line => line +:+ nl) <$> lines).

(** File [a] with revisions 1.1 and 1.2 on the trunk and 1.1.2.1 on the
    branch BR. *)
Definition rlog_branch : string :=
  rlog_output
    [ "";
      "RCS file: /cvs/mod/a,v";
      "head: 1.2";
      "branch:";
      "locks: strict";
      "access list:";
      "symbolic names:";
      str [tab] +:+ "BR: 1.1.0.2";
      str [tab] +:+ "v1: 1.1";
      "keyword substitution: kv";
      "total revisions: 3;" +:+ str [tab] +:+ "selected revisions: 3";
      "description:";
      "----------------------------";
      "revision 1.2";
      "date: 2001/01/02 00:00:00;  author: alice;  state: Exp;  lines: +1 -0;";
      "second";
      "----------------------------";
      "revision 1.1";
      "date: 2001/01/01 00:00:00;  author: alice;  state: Exp;";
      "branches:  1.1.2;";
      "init";
      "----------------------------";
      "revision 1.1.2.1";
      "date: 2001/01/03 00:00:00;  author: bob;  state: Exp;  lines: +2 -1;";
      "on branch";
      "=============================================================================" ].

(** File [a] added on the branch BR: the dead revision 1.1 that cvs makes
    up, a later trunk revision and the revision on the branch. *)
Definition rlog_added_on_branch : string :=
  rlog_output
    [ "RCS file: /cvs/mod/a,v";
      "head: 1.2";
      "symbolic names:";
      str [tab] +:+ "BR: 1.1.0.2";
      "description:";
      "----------------------------";
      "revision 1.2";
      "date: 2001/01/05 00:00:00;  author: alice;  state: Exp;  lines: +1 -0;";
      "on trunk too";
      "----------------------------";
      "revision 1.1";
      "date: 2001/01/01 00:00:00;  author: bob;  state: dead;";
      "branches:  1.1.2;";
      "file a was initially added on branch BR.";
      "----------------------------";
      "revision 1.1.2.1";
      "date: 2001/01/01 00:00:00;  author: bob;  state: Exp;  lines: +3 -0;";
      "add a";
      "=============================================================================" ].

(** Three files committed 50 seconds apart with one log message. *)
Definition log_sliding : list logentry :=
  [entry "a" [1; 1]%Z None 0 "alice" "init";
   entry "b" [1; 1]%Z None 50 "alice" "init";
   entry "c" [1; 1]%Z None 100 "alice" "init"].

(** Two revisions of one file that carry the same commitid. *)
Definition log_same_commitid : list logentry :=
  [set_commitid (Some "X") (entry "a" [1; 1]%Z None 0 "alice" "init");
   set_commitid (Some "X") (entry "a" [1; 2]%Z None 10 "alice" "again")].

(** A file added on branch BR, with the dead trunk revision cvs makes up for
    it, and a revision on BR that records a merge from the trunk. *)
Definition log_mergepoint : list logentry :=
  [set_synthetic true
     (set_dead true
        (entry "a" [1; 1]%Z None 100 "alice"
           "file a was initially added on branch BR."));
   set_mergepoint (Some "HEAD")
     (entry "b" [1; 1; 2; 1]%Z (Some "BR") 200 "alice" "merge trunk")].

(** A trunk, a branch BR that sprouts from 1.1, a trunk commit whose message
    asks for a merge to BR, and one more trunk commit. *)
Definition log_mergeto : list logentry :=
  [set_branchpoints {["BR"]} (entry "a" [1; 1]%Z None 100 "alice" "init");
   entry "a" [1; 1; 2; 1]%Z (Some "BR") 200 "bob" "on branch";
   entry "a" [1; 2]%Z None 300 "alice" "fix {{mergetobranch BR}}";
   entry "a" [1; 3]%Z None 400 "alice" "more"].

(** A commit whose message names a branch that no changeset is on. *)
Definition log_unknown_branch : list logentry :=
  [set_parent (Some [])
     (entry "a" [1; 1]%Z None 100 "alice" "init {{mergefrombranch NOPE}}")].

(** Two commits of the same second, each of which holds the successor of a
    revision of the other. *)
Definition log_odd : list logentry :=
  [set_parent (Some [1; 1]%Z) (entry "a" [1; 2]%Z None 100 "alice" "first");
   set_parent (Some []) (entry "b" [1; 1]%Z None 100 "alice" "first");
   set_parent (Some []) (entry "a" [1; 1]%Z None 100 "bob" "second");
   set_parent (Some [1; 1]%Z) (entry "b" [1; 2]%Z None 100 "bob" "second")].

(** An object [ui] that has a method [warn]. *)
Definition ui_warns : Ui := {| has_warn := true |}.

(** A run of [debugcvsps] on the module [mod] of the repository [/cvs],
    whose log is [output] and whose cache is to be written anew. *)
Definition world_of (output : string) (root : string) (d : option string) : cvs_run :=
  {| run_prefix := "/cvs/mod/"; run_cached := None; run_output := output |}.

Definition opts_of (revisions : list string) (ancestors : bool) : options :=
  {| opt_new_cache := true; opt_update_cache := false; opt_revisions := revisions;
     opt_root := "/cvs"; opt_fuzz := 60; opt_ancestors := ancestors;
     opt_branches := []; opt_parents := false; opt_prefix := "" |}.

(** File [a] with a branch BR that sprouts from 1.1, and a trunk revision
    whose log message asks for a merge to BR. *)
Definition rlog_mergeto : string :=
  rlog_output
    [ "RCS file: /cvs/mod/a,v";
      "head: 1.3";
      "symbolic names:";
      str [tab] +:+ "BR: 1.1.0.2";
      "description:";
      "----------------------------";
      "revision 1.3";
      "date: 2001/01/04 00:00:00;  author: alice;  state: Exp;  lines: +1 -0;";
      "more";
      "----------------------------";
      "revision 1.2";
      "date: 2001/01/03 00:00:00;  author: alice;  state: Exp;  lines: +1 -0;";
      "fix {{mergetobranch BR}}";
      "----------------------------";
      "revision 1.1";
      "date: 2001/01/01 00:00:00;  author: alice;  state: Exp;";
      "branches:  1.1.2;";
      "init";
      "----------------------------";
      "revision 1.1.2.1";
      "date: 2001/01/02 00:00:00;  author: bob;  state: Exp;  lines: +2 -1;";
      "on branch";
      "=============================================================================" ].

(** *** An interpreter to evaluate examples with

    POSIX paths, and a stable insertion sort: what [list.sort] returns
    whenever the comparison is a total preorder on the elements.  On a list
    of two elements it compares the pair that [list.sort] compares, the
    second element with the first. *)

Module Posix.

Definition slash : ascii := "/"%char.

Fixpoint drop_while {A} (f : A → bool) (l : list A) : list A :=
  match l with
  | x :: l' => if f x then drop_while f l' else l
  | [] => []
  end.

Fixpoint take_while {A} (f : A → bool) (l : list A) : list A :=
  match l with
  | x :: l' => if f x then x :: take_while f l' else []
  | [] => []
  end.

(** [posixpath.split] *)
Definition split (p : string) : string * string :=
  let l := chars p in
  let tail := rev (take_while (fun c => negb (Ascii.eqb c slash)) (rev l)) in
  let head := take (length l - length tail) l in
  let head :=
    if forallb (Ascii.eqb slash) head then head
    else rev (drop_while (Ascii.eqb slash) (rev head)) in
  (str head, str tail).

(** [posixpath.join] *)
Definition join (parts : list string) : string :=
  match parts with
  | [] => ""
  | a :: rest =>
      foldl (fun path b =>
               if startswith b "/" then b
               else if String.eqb path "" || endswith path "/" then path +:+ b
                    else path +:+ "/" +:+ b)
            a rest
  end.

(** [posixpath.normpath] *)
Definition normpath (path : string) : string :=
  if String.eqb path "" then "."
  else
    let initial_slashes :=
      if startswith path "/" then
        if startswith path "//" && negb (startswith path "///") then 2%nat else 1%nat
      else 0%nat in
    let comps :=
      foldl (fun new_comps comp =>
               if String.eqb comp "" || String.eqb comp "." then new_comps
               else if negb (String.eqb comp "..")
                       || (Nat.eqb initial_slashes 0 && Nat.eqb (length new_comps) 0)
                       || match last new_comps with
                          | Some c => String.eqb c ".."
                          | None => false
                          end
                    then new_comps ++ [comp]
                    else take (length new_comps - 1) new_comps)
            [] (split_on slash path) in
    let path := Py.join "/" comps in
    let path := str (replicate initial_slashes slash) +:+ path in
    if String.eqb path "" then "." else path.

#[export] Instance pathlib : PathLib := {
  Cvsps.normpath := normpath;
  path_split := split;
  path_join := join
}.

End Posix.

Module Insertion.

Fixpoint insert {A} (lt : A → A → bool) (x : A) (l : list A) : list A :=
  match l with
  | [] => [x]
  | y :: l' => if lt y x then y :: insert lt x l' else x :: l
  end.

Fixpoint sort {A} (lt : A → A → bool) (l : list A) : list A :=
  match l with
  | [] => []
  | x :: l' => insert lt x (sort lt l')
  end.

Lemma insert_perm {A} (lt : A → A → bool) x l : insert lt x l ≡ₚ x :: l.
Proof.
  induction l as [|y l IH]; simpl; [done|].
  destruct (lt y x); [|done].
  rewrite IH. apply Permutation_swap.
Qed.

Lemma sort_perm {A} (lt : A → A → bool) l : sort lt l ≡ₚ l.
Proof.
  induction l as [|x l IH]; simpl; [done|].
  by rewrite insert_perm, IH.
Qed.

(** The pairs [(y, x)] for which [insert] evaluates [y < x]. *)
Fixpoint insert_compares {A} (lt : A → A → bool) (x : A) (l : list A) : list (A * A) :=
  match l with
  | [] => []
  | y :: l' => (y, x) :: (if lt y x then insert_compares lt x l' else [])
  end.

Fixpoint compares {A} (lt : A → A → bool) (l : list A) : list (A * A) :=
  match l with
  | [] => []
  | x :: l' => compares lt l' ++ insert_compares lt x (sort lt l')
  end.

#[export] Instance sorter : Sorter := {
  sort_by := @sort;
  sort_by_perm := @sort_perm;
  sort_compares := @compares
}.

End Insertion.

(** *** The [ui] of [main]

    The class [UI] of [main] defines [write], [message], [nomessage],
    [status], [note] and [debug], and no [warn]. *)
Module Main.

#[export] Instance ui : Ui := {| has_warn := false |}.

End Main.

End Cvsps.

(** * Properties *)

Import Py Re Dateutil Cvsps.
#[local] Existing Instance UTC.timelib.
#[local] Existing Instance Posix.pathlib.
#[local] Existing Instance Insertion.sorter.
#[local] Existing Instance Main.ui.

(** ** The result monad *)

Lemma bind_Ok {A B} (m : result A) (f : A → result B) (b : B) :
  m ≫= f = Ok b → ∃ a, m = Ok a ∧ f a = Ok b.
Proof. destruct m as [a| |]; simpl; [eauto|done|done]. Qed.

Lemma ok_value {A} (d : A) (r : result A) : is_ok r = true → r = Ok (value d r).
Proof. by destruct r. Qed.

Lemma ok_pair_value {A B} (d : A * B) (r : result (A * B)) (b : B) :
  is_ok r = true → (value d r).2 = b → r = Ok ((value d r).1, b).
Proof. destruct r as [[a b']| |]; simpl; [by intros _ ->|done|done]. Qed.

(** Closed goals are settled by evaluation. *)
Ltac vm_refl :=
  lazymatch goal with
  | |- @eq ?T ?a ?b => exact (@eq_refl T b <: @eq T a b)
  end.

Ltac vm_decide :=
  lazymatch goal with
  | |- ?P =>
      let d := constr:(_ : Decision P) in
      apply (@bool_decide_unpack P d);
      exact (I <: Is_true (@bool_decide P d))
  end.

(** ** dateutil.py *)

Section DateutilFacts.
Context `{TimeLib}.

Lemma parsedate_pair_tuple a b formats bias :
  parsedate (VTuple [a; b]) formats bias = Ok (VTuple [a; b]).
Proof. reflexivity. Qed.

Lemma parsedate_returns_pair x formats bias r :
  parsedate x formats bias = Ok r → ∃ a b, r = VTuple [a; b].
Proof.
  unfold parsedate. destruct (truthy x) eqn:Ht; simpl.
  - destruct x as [ | z | s | l]; try discriminate.
    + destruct (parsedate_str s formats bias) as [[when offset]| |]; simpl;
        intros [= <-]; eauto.
    + destruct l as [|a [|b [|c l]]]; try discriminate. intros [= <-]; eauto.
  - intros [= <-]; eauto.
Qed.

(** X2.  When [parsedate] returns on a string, the pair it returns
    passed both range checks: the time fits in 32 bits and the offset lies
    between UTC-12 and UTC+14. *)
Lemma parsedate_str_in_range s formats bias when offset :
  parsedate_str s formats bias = Ok (when, offset) →
  (-2147483648 ≤ when ≤ 2147483647)%Z ∧ (-50400 ≤ offset ≤ 43200)%Z.
Proof.
  unfold parsedate_str.
  destruct (match unpack_two_ints _ with Raise ValueError => _ | r => r end)
    as [[w o]| |]; simpl; try discriminate.
  destruct ((w <? -2147483648)%Z || (2147483647 <? w)%Z) eqn:Hw; [discriminate|].
  destruct ((o <? -50400)%Z || (43200 <? o)%Z) eqn:Ho; [discriminate|].
  intros [= <- <-]. lia.
Qed.

(** No call raises [Abort], provided the time library does not: where the
    code means to raise it, the name [_] is looked up first. *)
Lemma no_Abort_bind {A B} (m : result A) (f : A → result B) :
  no_Abort m → (∀ a, no_Abort (f a)) → no_Abort (m ≫= f).
Proof.
  intros Hm Hf t a. destruct m as [x|e|]; simpl; [apply Hf| |done].
  intros [= ->]. by eapply Hm.
Qed.

Lemma int_cases (s : string) : (∃ z, int s = Ok z) ∨ int s = Raise ValueError.
Proof. unfold int. destruct (int_list _); eauto. Qed.

Lemma int_no_Abort (s : string) : no_Abort (int s).
Proof. intros t a. by destruct (int_cases s) as [[z ->]| ->]. Qed.

Lemma parsetimezone_no_Abort (s : string) : no_Abort (parsetimezone s).
Proof.
  unfold parsetimezone.
  repeat lazymatch goal with
  | |- no_Abort (if ?b then _ else _) => destruct b
  | |- no_Abort (_ ≫= _) => apply no_Abort_bind; [apply int_no_Abort|intros ?]
  | |- no_Abort (Ok _) => by intros ? ?
  end.
Qed.

Lemma fill_defaults_no_Abort defaults parts usenow date format :
  no_Abort (fill_defaults defaults parts usenow date format).
Proof.
  revert usenow date format.
  induction parts as [|part parts IH]; intros usenow date format; simpl;
    [by intros ? ?|].
  destruct (filter _ _); [|apply IH].
  destruct (defaults !! part) as [[biased now]|]; [apply IH|by intros ? ?].
Qed.

Section NoAbort.
Hypothesis strptime_no_Abort : ∀ date format, no_Abort (strptime date format).
Hypothesis mktime_no_Abort : ∀ timetuple, no_Abort (mktime timetuple).

Lemma strdate_no_Abort string_ format defaults :
  no_Abort (strdate string_ format defaults).
Proof.
  unfold strdate.
  apply no_Abort_bind; [apply parsetimezone_no_Abort|intros [offset date]].
  apply no_Abort_bind; [apply fill_defaults_no_Abort|intros [date' format']].
  apply no_Abort_bind; [apply strptime_no_Abort|intros timetuple].
  destruct offset; [by intros ? ?|].
  apply no_Abort_bind; [apply mktime_no_Abort|by intros ? ? ?].
Qed.

Lemma try_formats_no_Abort date defaults formats :
  no_Abort (try_formats date defaults formats).
Proof.
  induction formats as [|format formats IH]; simpl; [by intros ? ?|].
  pose proof (strdate_no_Abort date format defaults) as Hs.
  destruct (strdate date format defaults) as [r|e|]; [by intros ? ?| |by intros ? ?].
  destruct e; try done; intros t a; apply Hs.
Qed.

(** X1.  [parsedate] raises [Abort] on no input, whatever the formats and
    the bias, when [time.strptime] and [time.mktime] do not raise it. *)
Lemma parsedate_no_Abort date formats bias : no_Abort (parsedate date formats bias).
Proof.
  unfold parsedate. destruct (negb (truthy date)); [by intros ? ?|].
  destruct date as [ |z|s|l]; try by intros ? ?.
  - apply no_Abort_bind; [|by intros [? ?] ? ?].
    unfold parsedate_str.
    apply no_Abort_bind.
    + unfold unpack_two_ints.
      destruct (split_on " " (strip s)) as [|a [|b [|c l]]];
        try apply try_formats_no_Abort.
      destruct (int_cases a) as [[x ->]| ->]; simpl; [|apply try_formats_no_Abort].
      destruct (int_cases b) as [[y ->]| ->]; simpl; [by intros ? ?|].
      apply try_formats_no_Abort.
    + intros [when offset].
      destruct (_ || _); [by intros ? ?|]. destruct (_ || _); by intros ? ?.
  - destruct l as [|a [|b [|c l]]]; by intros ? ?.
Qed.

End NoAbort.

End DateutilFacts.

(** C10.  [parsedate] returns a 2-tuple unchanged, whatever it holds, and
    returns [(0, 0)] for an empty (false) input, in both cases without any
    range check; hence on every input on which it returns, applying it again
    to the result returns the same result. *)
Theorem parsedate_idempotent `{TimeLib} :
  (∀ a b formats bias,
     parsedate (VTuple [a; b]) formats bias = Ok (VTuple [a; b]))
  ∧ (∀ date formats bias,
       truthy date = false →
       parsedate date formats bias = Ok (VTuple [VInt 0; VInt 0]))
  ∧ (∀ x formats bias r,
       parsedate x formats bias = Ok r →
       ∀ formats' bias', parsedate r formats' bias' = Ok r).
Proof.
  split; [reflexivity|]. split.
  - intros date formats bias Hd. unfold parsedate. by rewrite Hd.
  - intros x formats bias r Hr formats' bias'.
    destruct (parsedate_returns_pair _ _ _ _ Hr) as (a & b & ->).
    reflexivity.
Qed.

Lemma parsedate_idempotent_witness :
  parsedate (VStr "12 0") [] ∅ = Ok (VTuple [VInt 12; VInt 0])
  ∧ parsedate (VTuple [VInt 12; VInt 0]) [] ∅ = Ok (VTuple [VInt 12; VInt 0])
  ∧ parsedate (VTuple [VInt 99999999999; VInt 99999]) [] ∅
    = Ok (VTuple [VInt 99999999999; VInt 99999])
  ∧ parsedate (VStr "") [] ∅ = Ok (VTuple [VInt 0; VInt 0]).
Proof.
  pose proof (@parsedate_idempotent UTC.timelib) as (Htuple & Hempty & Hidem).
  split; [vm_compute; reflexivity|]. split.
  - apply (Hidem (VStr "12 0") [] ∅). vm_compute; reflexivity.
  - split; [apply Htuple|]. apply Hempty. reflexivity.
Defined.

(** C9.  The three [raise Abort(_(...) % ...)] statements of [parsedate]
    evaluate the name [_], which dateutil.py does not bind: a timestamp
    beyond 32 bits, an impossible time zone offset and an unparsable date
    all end in [NameError], and none of them in [Abort]. *)
Theorem parsedate_raises_NameError :
  (∀ `{TimeLib} formats bias,
     parsedate (VStr "4294967296 0") formats bias = Raise (NameError "_"))
  ∧ (∀ `{TimeLib} formats bias,
       parsedate (VStr "0 99999") formats bias = Raise (NameError "_"))
  ∧ parsedate (H := UTC.timelib) (VStr "yesterday") [] ∅ = Raise (NameError "_").
Proof.
  split; [|split]; intros; vm_compute; reflexivity.
Qed.

Lemma raise_Abort_NameError {A} template arg :
  raise_Abort (A := A) template arg = Raise (NameError "_").
Proof. reflexivity. Qed.

(** ** createlog *)

(** *** The mergepoint field *)

Lemma NoDup_singleton_elems {A} (l : list A) (b : A) :
  NoDup l → (∀ x, x ∈ l ↔ x = b) → l = [b].
Proof.
  intros Hnd Hb. destruct l as [|x l].
  - exfalso. eapply not_elem_of_nil, Hb. reflexivity.
  - assert (x = b) as -> by (apply Hb; left).
    destruct l as [|y l]; [done|].
    assert (y = b) as -> by (apply Hb; right; left).
    apply NoDup_cons in Hnd as [Hnin _]. exfalso. apply Hnin. left.
Qed.

Lemma elem_of_keys (m : gmap string string) (k : string) :
  k ∈ (map_to_list m).*1 ↔ is_Some (m !! k).
Proof.
  rewrite list_elem_of_fmap. split.
  - intros ([k' v] & -> & Hin). apply elem_of_map_to_list in Hin. eauto.
  - intros [v Hv]. exists (k, v). split; [done|]. by apply elem_of_map_to_list.
Qed.

(** The branches the loop of state 6 selects: the names mapped to [myrev]. *)
Lemma selected_branches (branchmap : gmap string string) (myrev b : string) :
  filter (fun b => branchmap !! b = Some myrev) (map_to_list branchmap).*1 = [b]
  ↔ (∀ b', branchmap !! b' = Some myrev ↔ b' = b).
Proof.
  split.
  - intros Hf b'. split.
    + intros Hb'. assert (b' ∈ [b]) as Hin; [|by apply list_elem_of_singleton in Hin].
      rewrite <- Hf. apply list_elem_of_filter. split; [done|].
      apply elem_of_keys. eauto.
    + intros ->. assert (b ∈ [b]) as Hin by left.
      rewrite <- Hf in Hin. by apply list_elem_of_filter in Hin as [? _].
  - intros Hb. apply NoDup_singleton_elems.
    + apply NoDup_filter, NoDup_fst_map_to_list.
    + intros x. rewrite list_elem_of_filter, elem_of_keys, Hb.
      split; [tauto|]. intros ->. split; [done|].
      exists myrev. by apply Hb.
Qed.

Lemma subscript_neg2 {A} (l : list A) :
  (length l < 2 → subscript l (-2) = Raise IndexError)
  ∧ (2 ≤ length l → ∃ x, subscript l (-2) = Ok x).
Proof.
  unfold subscript. cbn [Z.ltb Z.compare]. split; intros Hlen.
  - destruct (Z.leb_spec 0 (-2 + Z.of_nat (length l))); [lia|done].
  - destruct (Z.leb_spec 0 (-2 + Z.of_nat (length l))); [|lia].
    destruct (Z.ltb_spec (-2 + Z.of_nat (length l)) (Z.of_nat (length l))); [|lia].
    cbn [andb].
    destruct (l !! Z.to_nat (-2 + Z.of_nat (length l))) as [x|] eqn:Hx; [by exists x|].
    apply lookup_ge_None in Hx. lia.
Qed.

(** C5, as the code has it.  A mergepoint revision of two components names
    [HEAD].  For one of a single component, [myrev[-2]] raises
    [IndexError].  One of three components or more is turned into
    [r[:-2] + ['0', r[-2]]] (the second-to-last component of [r], not the
    last): the call returns branch [b] exactly when [b] is the one name the
    branch map gives that revision string, and the assertion fails when
    there is no such name or more than one. *)
Theorem mergepoint_branch_correct (branchmap : gmap string string) (r : string) :
  let myrev := split_on "." r in
  (length myrev = 2 → mergepoint_branch branchmap r = Ok "HEAD")
  ∧ (length myrev < 2 → mergepoint_branch branchmap r = Raise IndexError)
  ∧ (2 < length myrev →
     ∃ component,
       subscript myrev (-2) = Ok component
       ∧ let key := join "." (slice myrev None (Some (-2)%Z) ++ ["0"; component]) in
         let only b := ∀ b', branchmap !! b' = Some key ↔ b' = b in
         (∀ b, mergepoint_branch branchmap r = Ok b ↔ only b)
         ∧ ((¬ ∃ b, only b) →
            mergepoint_branch branchmap r
            = Raise (AssertionError "unknown branch: None"))).
Proof.
  intros myrev. unfold mergepoint_branch. fold myrev. split_and!.
  - intros ->. reflexivity.
  - intros Hlen. destruct (Nat.eqb_spec (length myrev) 2) as [|_]; [lia|].
    by rewrite (proj1 (subscript_neg2 myrev) Hlen).
  - intros Hlen. destruct (Nat.eqb_spec (length myrev) 2) as [|_]; [lia|].
    destruct (proj2 (subscript_neg2 myrev)) as [component Hc]; [lia|].
    exists component. split; [done|]. rewrite Hc. cbn [mbind result_bind].
    cbv zeta. set (key := join "." _).
    pose proof (selected_branches branchmap key) as Hsel.
    destruct (filter _ _) as [|x [|y l]]; simpl; split.
    + intros b. rewrite <- Hsel. done.
    + done.
    + intros b. rewrite <- Hsel. split; by intros [= ->].
    + intros Hno. destruct Hno. exists x. by apply Hsel.
    + intros b. rewrite <- Hsel. done.
    + done.
Qed.

Lemma mergepoint_branch_correct_witness :
  mergepoint_branch {["BR" := "1.1.0.2"]} "1.1.2.1" = Ok "BR"
  ∧ mergepoint_branch {["BR" := "1.1.0.2"]} "1.4" = Ok "HEAD"
  ∧ mergepoint_branch {["BR" := "1.1.0.2"]} "5" = Raise IndexError
  ∧ mergepoint_branch ∅ "1.1.2.1" = Raise (AssertionError "unknown branch: None").
Proof.
  destruct (mergepoint_branch_correct {["BR" := "1.1.0.2"]} "1.1.2.1")
    as (_ & _ & H3).
  destruct (mergepoint_branch_correct {["BR" := "1.1.0.2"]} "1.4") as (H2 & _).
  destruct (mergepoint_branch_correct {["BR" := "1.1.0.2"]} "5") as (_ & H1 & _).
  destruct (mergepoint_branch_correct ∅ "1.1.2.1") as (_ & _ & H0).
  split_and!.
  - destruct H3 as (component & Hc & Hok & _); [vm_compute; lia|].
    injection Hc as <-. apply Hok.
    intros b'. change (join _ _) with "1.1.0.2".
    rewrite lookup_singleton_Some. split; [by intros [<- _]|by intros ->].
  - apply H2. reflexivity.
  - apply H1. vm_compute. lia.
  - destruct H0 as (component & _ & _ & Hno); [vm_compute; lia|].
    apply Hno. intros [b Hb].
    pose proof (proj2 (Hb b) eq_refl) as Hlookup.
    by rewrite lookup_empty in Hlookup.
Defined.

(** C5, as stated, fails: for [1.1.2.1] the code selects the branch that
    the branch map gives [1.1.0.2], while the revision string built from the
    last component is [1.1.0.1]. *)
Lemma mergepoint_last_component_counterexample :
  mergepoint_branch {["BR" := "1.1.0.2"]} "1.1.2.1" = Ok "BR"
  ∧ spec_mergepoint_revision "1.1.2.1" = "1.1.0.1"
  ∧ ({["BR" := "1.1.0.2"]} : gmap string string) !! "BR"
    ≠ Some (spec_mergepoint_revision "1.1.2.1").
Proof. split; [|split]; vm_compute; [reflexivity|reflexivity|discriminate]. Qed.

(** *** The error lines of state 0 *)

(** When the continuation fails on every input that satisfies a property
    closed under taking tails, so does the matcher: a pattern can only
    succeed through its continuation, on a tail of its input. *)
Lemma run_fails (P : list ascii → Prop) (Ptail : ∀ a s, P (a :: s) → P s) (r : re) :
  ∀ s c k, P s → (∀ s' c', P s' → k s' c' = None) → run r s c k = None.
Proof.
  induction r as [ |p|r1 IH1 r2 IH2|r1 IH1 r2 IH2|g r1 IH1|n r1 IH1| ];
    intros s c k Hs Hk; simpl.
  - by apply Hk.
  - destruct s as [|a s]; [done|]. destruct (p a); [|done]. apply Hk. eauto.
  - apply IH1; [done|]. intros s' c' Hs'. by apply IH2.
  - rewrite IH1 by done. by apply IH2.
  - generalize (length s) at 1. intros fuel. revert s c Hs.
    induction fuel as [|fuel IHf]; intros s c Hs; simpl; [by apply Hk|].
    rewrite (Hk s c Hs), IH1; [by destruct g|done|].
    intros s' c' Hs'. destruct (length s' <? length s)%nat; [|done].
    by apply IHf.
  - apply IH1; [done|]. intros s' c' Hs'. by apply Hk.
  - destruct s as [|a [|b s]]; [by apply Hk| |done].
    destruct (Ascii.eqb a newline); [by apply Hk|done].
Qed.

Lemma cat_cons (r : re) (rs : list re) :
  rs ≠ [] → cat (r :: rs) = Seq r (cat rs).
Proof. by destruct rs. Qed.

(** A pattern that ends in a newline character and [$] matches no string
    without a newline. *)
Lemma needs_newline (pre : list re) (s : list ascii) :
  newline ∉ s → match_list (cat (pre ++ [chr newline; Eol])) s = None.
Proof.
  unfold match_list. generalize (∅ : captures).
  generalize (fun (_ : list ascii) (c : captures) => Some c).
  revert s. induction pre as [|r pre IH]; intros s k c Hs.
  - cbn [app cat run chr]. destruct s as [|a s]; [done|].
    destruct (Ascii.eqb_spec newline a) as [<-|_]; [|done].
    exfalso. apply Hs. left.
  - rewrite <- app_comm_cons, cat_cons by (by destruct pre). cbn [run].
    apply (run_fails (fun s => newline ∉ s)); [|done|].
    + intros a s' Hs' Hin. apply Hs'. by right.
    + intros s' c' Hs'. by apply IH.
Qed.

Lemma re_02_needs_newline (line : string) :
  newline ∉ chars line → match_ re_02 line = None.
Proof.
  apply (needs_newline
           [lit "cvs "; Grp 1 (Alt (Seq (opt (chr "r")) (lit "log")) (lit "server"));
            lit ": "; Grp 2 (plus dot)]).
Qed.

Lemma chars_str (l : list ascii) : chars (str l) = l.
Proof. apply list_ascii_of_string_of_list_ascii. Qed.

Lemma list_startswith_cons_singleton (a b : ascii) (l : list ascii) :
  list_startswith (a :: l) [b] = Ascii.eqb b a.
Proof. destruct l; simpl; apply andb_true_r. Qed.

Lemma slice_drop_last {A} (l : list A) (x : A) :
  slice (l ++ [x]) None (Some (-1)%Z) = l.
Proof.
  unfold slice, clamp. cbn [from_option]. rewrite length_app. cbn [length].
  change (Z.to_nat 0) with 0%nat. rewrite drop_0.
  change (-1 <? 0)%Z with true. cbn iota.
  replace (Z.to_nat _) with (length l) by lia.
  by rewrite take_app_length.
Qed.

Lemma endswith_snoc (l : list ascii) (x : ascii) :
  endswith (str (l ++ [x])) nl = Ascii.eqb newline x.
Proof.
  unfold endswith, nl. rewrite !chars_str, rev_app_distr.
  apply list_startswith_cons_singleton.
Qed.

Lemma chomp_snoc_newline (l : list ascii) : chomp (str (l ++ [newline])) = str l.
Proof.
  unfold chomp. rewrite endswith_snoc, Ascii.eqb_refl.
  unfold str_slice. by rewrite chars_str, slice_drop_last.
Qed.

Lemma chomp_no_newline (l : list ascii) : newline ∉ l → chomp (str l) = str l.
Proof.
  intros Hl. unfold chomp.
  destruct l as [|a l _] using rev_ind; [reflexivity|].
  rewrite endswith_snoc.
  destruct (Ascii.eqb_spec newline a) as [<-|_]; [|done].
  exfalso. apply Hl, elem_of_app. right. left.
Qed.

Lemma not_elem_of_rev {A} (x : A) (l : list A) : x ∉ l → x ∉ rev l.
Proof.
  intros Hl Hin. apply Hl. apply list_elem_of_In, in_rev.
  by apply list_elem_of_In.
Qed.

(** A line read from the stream holds no newline once its trailing newline
    is stripped. *)
Lemma chomp_readlines (l cur : list ascii) (line : string) :
  newline ∉ cur → line ∈ readlines cur l → newline ∉ chars (chomp line).
Proof.
  revert cur. induction l as [|c l IH]; intros cur Hcur; cbn [readlines].
  - destruct cur as [|a cur]; [by intros ?%not_elem_of_nil|].
    intros ->%list_elem_of_singleton.
    rewrite chomp_no_newline, chars_str; by apply not_elem_of_rev.
  - destruct (Ascii.eqb_spec c newline) as [->|Hne].
    + intros [->|Hin]%elem_of_cons;
        [|by apply (IH []); [apply not_elem_of_nil|]].
      cbn [rev]. rewrite chomp_snoc_newline, chars_str.
      by apply not_elem_of_rev.
    + apply IH. intros [Heq|Hin]%elem_of_cons; [by symmetry in Heq|].
      by apply Hcur.
Qed.

(** The pattern [re_02] matches no line the loop hands to it. *)
Lemma re_02_never_matches (output line : string) :
  line ∈ readlines [] (chars output) → match_ re_02 (chomp line) = None.
Proof.
  intros Hline. apply re_02_needs_newline.
  apply (chomp_readlines (chars output) []); [apply not_elem_of_nil|done].
Qed.

(** C6.  A line [cvs server: ...] read in state 0 raises nothing: the loop
    strips the newline that the pattern [re_02] requires, so the line is
    skipped and [createlog] returns; the sibling line [cvs [rlog aborted]:
    ...] raises [LogError] with its message. *)
Theorem cvs_server_line_not_raised :
  (∀ `{TimeLib} `{PathLib} `{Sorter} rlog prefix peek,
     step rlog prefix initial_pstate
       ("cvs server: cannot find module `nomod' - ignored" +:+ nl) peek
     = Ok initial_pstate)
  ∧ createlog true "/cvs/mod/" (Some cache_write) None
      ("cvs server: cannot find module `nomod' - ignored" +:+ nl) = Ok []
  ∧ createlog true "/cvs/mod/" (Some cache_write) None
      ("cvs [rlog aborted]: cannot find module `nomod'" +:+ nl)
    = Raise (LogError "cannot find module `nomod'").
Proof.
  split; [|split]; intros; vm_compute; reflexivity.
Qed.

(** *** The parent resolution pass *)

Lemma slice_drop_suffix {A} (l : list A) (k : Z) :
  (0 < k)%Z → slice l None (Some (- k)%Z) = take (length l - Z.to_nat k) l.
Proof.
  intros Hk. unfold slice, clamp. cbn [from_option].
  change (Z.to_nat 0) with 0%nat. rewrite drop_0.
  destruct (Z.ltb_spec (- k) 0) as [_|?]; [|lia].
  f_equal. lia.
Qed.

Lemma seed_versions_lookup (l : list logentry)
    (m : gmap (string * list Z) (list Z)) (k : string * list Z) :
  foldl (fun versions e => <[(rcs e, branch_prefix e) := revision e]> versions) m l !! k
  = match last (filter (fun e' => (rcs e', branch_prefix e') = k) l) with
    | Some e' => Some (revision e')
    | None => m !! k
    end.
Proof.
  induction l as [|x l IH] using rev_ind; [reflexivity|].
  rewrite foldl_snoc, filter_app.
  destruct (decide ((rcs x, branch_prefix x) = k)) as [Hk|Hk].
  - rewrite filter_cons_True, filter_nil, last_snoc, Hk by done.
    apply lookup_insert_eq.
  - rewrite filter_cons_False, filter_nil, app_nil_r by done.
    by rewrite lookup_insert_ne.
Qed.

Lemma find_parents_lookup (log : list logentry)
    (versions : gmap (string * list Z) (list Z)) (k : nat) (e : logentry) :
  log !! k = Some e →
  find_parents log versions !! k
  = Some (set_parent
            (Some (default (slice (revision e) None (Some (-2)%Z))
                     (foldl (fun versions e =>
                               <[(rcs e, branch_prefix e) := revision e]> versions)
                            versions (take k log)
                      !! (rcs e, branch_prefix e))))
            e).
Proof.
  revert versions k. induction log as [|e0 log IH]; intros versions k; [done|].
  destruct k as [|k]; simpl.
  - intros [= ->]. by destruct (versions !! _).
  - intros Hk. by rewrite (IH _ _ Hk).
Qed.

(** C7, as the code has it.  Revisions have at least one component, as
    those the parser builds.  After the pass, the parent of every new entry
    is the revision recorded last before it for the same rcs file and the
    same branch prefix [revision[:-1]] -- among the cached entries and the
    new entries sorted before it -- and [revision[:-2]] when there is none.
    The parent is absent (the empty tuple) exactly when the revision has
    at most two components and no revision of the file with the same
    prefix was recorded before it. *)
Theorem resolve_parents_correct `{Sorter} (rcsmap : gmap string string)
    (oldlog log : list logentry) :
  let prior := adopt_rcs rcsmap <$> sort_by by_rcs_revision oldlog in
  let sorted := sort_by by_rcs_revision log in
  (∀ e, e ∈ prior ++ sorted → revision e ≠ []) →
  ∀ k e, sorted !! k = Some e →
    let before := same_line e (prior ++ take k sorted) in
    ∃ p, (resolve_parents rcsmap oldlog log).2 !! k = Some (set_parent (Some p) e)
         ∧ p = match last before with
               | Some e' => revision e'
               | None => slice (revision e) None (Some (-2)%Z)
               end
         ∧ (p = [] ↔ length (revision e) ≤ 2 ∧ before = []).
Proof.
  intros prior sorted Hlen k e Hk before.
  unfold resolve_parents. cbn [snd]. fold prior sorted.
  rewrite (find_parents_lookup _ _ _ _ Hk).
  unfold seed_versions. rewrite <- foldl_app, seed_versions_lookup, lookup_empty.
  fold (same_line e (prior ++ take k sorted)). fold before.
  eexists. split; [reflexivity|].
  destruct (last before) as [e'|] eqn:Hlast; cbn [default].
  - split; [reflexivity|].
    assert (revision e' ≠ []) as He'.
    { apply Hlen. apply last_Some in Hlast as [l' Hl'].
      assert (e' ∈ before) as Hin by (rewrite Hl'; apply elem_of_app; right; left).
      apply list_elem_of_filter in Hin as [_ Hin].
      apply elem_of_app in Hin as [Hin|Hin]; apply elem_of_app; [by left|right].
      by eapply (subseteq_take k). }
    split; [done|].
    intros [_ Hnil]. by rewrite Hnil in Hlast.
  - split; [reflexivity|].
    apply last_None in Hlast. rewrite (slice_drop_suffix _ 2) by lia.
    change (Z.to_nat 2) with 2%nat. split.
    + intros Hnil. split; [|done].
      apply (f_equal length) in Hnil. rewrite length_take in Hnil.
      simpl in Hnil. lia.
    + intros [Hl _]. apply nil_length_inv. rewrite length_take. lia.
Qed.

Lemma resolve_parents_correct_witness :
  (resolve_parents ∅ []
     [entry "a" [1; 2] None 200 "alice" "second";
      entry "a" [1; 1] None 100 "alice" "init";
      entry "a" [1; 1; 2; 1] (Some "BR") 300 "bob" "on branch"]%Z).2 !! 2
  = Some (set_parent (Some [1; 1]%Z) (entry "a" [1; 2]%Z None 200 "alice" "second"))
  ∧ (resolve_parents ∅ []
       [entry "a" [7] None 200 "alice" "second";
        entry "a" [5] None 100 "alice" "init"]%Z).2 !! 0
    = Some (set_parent (Some []) (entry "a" [5]%Z None 100 "alice" "init"))
  ∧ (resolve_parents ∅ []
       [entry "a" [7] None 200 "alice" "second";
        entry "a" [5] None 100 "alice" "init"]%Z).2 !! 1
    = Some (set_parent (Some [5]%Z) (entry "a" [7]%Z None 200 "alice" "second")).
Proof.
  split_and!.
  - destruct (resolve_parents_correct (H := Insertion.sorter) ∅ []
                [entry "a" [1; 2] None 200 "alice" "second";
                 entry "a" [1; 1] None 100 "alice" "init";
                 entry "a" [1; 1; 2; 1] (Some "BR") 300 "bob" "on branch"]%Z)
      with (k := 2) (e := entry "a" [1; 2]%Z None 200 "alice" "second")
      as (p & Hp & -> & _).
    + apply Forall_forall. vm_compute. repeat constructor; discriminate.
    + vm_compute. reflexivity.
    + exact Hp.
  - destruct (resolve_parents_correct (H := Insertion.sorter) ∅ []
                [entry "a" [7] None 200 "alice" "second";
                 entry "a" [5] None 100 "alice" "init"]%Z)
      with (k := 0) (e := entry "a" [5]%Z None 100 "alice" "init")
      as (p & Hp & _ & Hnil).
    + apply Forall_forall. vm_compute. repeat constructor; discriminate.
    + vm_compute. reflexivity.
    + rewrite Hp. do 2 f_equal. f_equal. apply Hnil. split; [simpl; lia|vm_refl].
  - destruct (resolve_parents_correct (H := Insertion.sorter) ∅ []
                [entry "a" [7] None 200 "alice" "second";
                 entry "a" [5] None 100 "alice" "init"]%Z)
      with (k := 1) (e := entry "a" [7]%Z None 200 "alice" "second")
      as (p & Hp & -> & _).
    + apply Forall_forall. vm_compute. repeat constructor; discriminate.
    + vm_compute. reflexivity.
    + exact Hp.
Defined.

(** C7, as stated, fails: revision 2.1 of a file whose trunk already holds
    1.1 is given no parent, although it is not the first trunk revision of
    the file. *)
Lemma parent_absent_counterexample :
  (resolve_parents ∅ []
     [entry "a" [1; 1] None 100 "alice" "init";
      entry "a" [2; 1] None 200 "alice" "two"]%Z).2
  = [set_parent (Some []) (entry "a" [1; 1]%Z None 100 "alice" "init");
     set_parent (Some []) (entry "a" [2; 1]%Z None 200 "alice" "two")]
  ∧ spec_first_trunk_revision
      [entry "a" [1; 1]%Z None 100 "alice" "init"]
      (entry "a" [2; 1]%Z None 200 "alice" "two") = false.
Proof. split; vm_compute; reflexivity. Qed.

(** ** createchangeset *)

(** *** Properties of changesets that the passes preserve

    A property of changesets that holds of an empty changeset and of every
    merge changeset, and that does not depend on [parents], [mergepoint] and
    [id], holds of every object of the heap after the parent walk and the
    numbering if it did before. *)

Section HeapInvariant.
Context `{PathLib} `{Sorter} `{ui : Ui}.
Variable P : changeset → Prop.
Hypothesis P_default : P inhabitant.
Hypothesis P_parents : ∀ v c, P c → P (set_cs_parents v c).
Hypothesis P_mergepoint : ∀ v c, P c → P (set_cs_mergepoint v c).
Hypothesis P_id : ∀ v c, P c → P (set_cs_id v c).
Hypothesis P_merge : ∀ a b c d, P (from_merge a b c d).

Lemma heap_lookup_inv (heap : list changeset) (a : nat) :
  Forall P heap → P (heap !!! a).
Proof.
  intros Hheap. rewrite list_lookup_total_alt.
  destruct (heap !! a) as [c|] eqn:Ha; [|done].
  by eapply Forall_lookup_1.
Qed.

Lemma heap_update_inv (heap : list changeset) (a : nat) (g : changeset → changeset) :
  (∀ c, P c → P (g c)) → Forall P heap → Forall P (<[a := g (heap !!! a)]> heap).
Proof.
  intros Hg Hheap. apply Forall_insert; [done|]. by apply Hg, heap_lookup_inv.
Qed.

Lemma append_parent_inv (heap : list changeset) (a p : nat) :
  Forall P heap → Forall P (append_parent a p heap).
Proof.
  intros Hheap. unfold append_parent.
  by apply (heap_update_inv heap a (fun c => set_cs_parents (cs_parents c ++ [p]) c)); auto.
Qed.

Lemma primary_parent_inv (w : wstate) (heap : list changeset) :
  Forall P (w_heap w) → primary_parent w = Ok heap → Forall P heap.
Proof.
  intros Hheap. unfold primary_parent.
  intros ([p|] & _ & Hp)%bind_Ok; [|by injection Hp as <-].
  apply bind_Ok in Hp as ([q|] & _ & Hq); injection Hq as <-; [|done].
  by apply append_parent_inv.
Qed.

Lemma mergepoint_parent_inv (w : wstate) (heap heap' : list changeset) :
  Forall P heap → mergepoint_parent w heap = Ok heap' → Forall P heap'.
Proof.
  intros Hheap. unfold mergepoint_parent.
  destruct (cs_mergepoint _) as [mp|]; [|by intros [= <-]].
  destruct (String.eqb mp ""); [by intros [= <-]|].
  destruct (w_branches w !! _) as [j|]; [|discriminate].
  intros [= <-]. apply append_parent_inv.
  by apply (heap_update_inv heap _ (set_cs_mergepoint _)); auto.
Qed.

Lemma mergefrom_parent_inv (mergefrom : option (re * nat)) (w : wstate)
    (heap heap' : list changeset) :
  Forall P heap → mergefrom_parent mergefrom w heap = Ok heap' → Forall P heap'.
Proof.
  intros Hheap. unfold mergefrom_parent.
  destruct mergefrom as [[r ngroups]|]; [|by intros [= <-]].
  destruct (search r _) as [m|]; [|by intros [= <-]].
  destruct (ngroups <? 1); [discriminate|].
  destruct (w_branches w !! _) as [j|];
    [|destruct ui_warn; simpl; [by intros [= <-]|done..]].
  destruct (_ && _); intros [= <-]; [by apply append_parent_inv|done].
Qed.

Lemma mergeto_step_inv (mergeto : option (re * nat)) (w : wstate)
    (heap : list changeset) :
  Forall P heap → Forall P (w_heap (mergeto_step mergeto w heap)).
Proof.
  intros Hheap. unfold mergeto_step.
  destruct (mergeto_target _ _) as [m|]; [|done].
  destruct (w_branches w !! m) as [j|]; [|done].
  destruct (negb _); [|done]. simpl.
  apply Forall_app_2; [done|]. by repeat constructor.
Qed.

Lemma walk_step_inv (mergefrom mergeto : option (re * nat)) (w w' : wstate) :
  Forall P (w_heap w) → walk_step mergefrom mergeto w = Ok w' → Forall P (w_heap w').
Proof.
  intros Hheap. unfold walk_step.
  intros (heap1 & H1 & (heap2 & H2 & (heap3 & H3 & [= <-])%bind_Ok)%bind_Ok)%bind_Ok.
  apply mergeto_step_inv.
  eapply mergefrom_parent_inv; [|done].
  eapply mergepoint_parent_inv; [|done].
  by eapply primary_parent_inv.
Qed.

Lemma walk_inv (fuel : nat) (mergefrom mergeto : option (re * nat)) (w w' : wstate) :
  Forall P (w_heap w) → walk fuel mergefrom mergeto w = Ok w' → Forall P (w_heap w').
Proof.
  revert w. induction fuel as [|fuel IH]; intros w Hheap; simpl.
  - destruct (w_i w <? w_n w); [discriminate|]. by intros [= <-].
  - destruct (w_i w <? w_n w); [|by intros [= <-]].
    intros (w1 & Hstep & Hwalk)%bind_Ok.
    eapply IH; [|done]. by eapply walk_step_inv.
Qed.

Lemma number_inv (heap : list changeset) (changesets : list nat) :
  Forall P heap → Forall P (number heap changesets).
Proof.
  unfold number. generalize (imap (fun i a => (i, a)) changesets).
  intros l. revert heap. induction l as [|[i a] l IH]; intros heap Hheap; [done|].
  simpl. apply IH.
  by apply (heap_update_inv heap a (set_cs_id (Some (S i)))); auto.
Qed.

End HeapInvariant.

(** *** The grouping loop *)

Lemma chained_snoc (fuzz : Z) (l : list logentry) (el e : logentry) :
  last l = Some el → chained fuzz l →
  (date_sum (date el) ≤ date_sum (date e))%Z →
  (date_sum (date e) < date_sum (date el) + fuzz)%Z →
  chained fuzz (l ++ [e]).
Proof.
  intros Hlast Hl He1 He2. induction l as [|x l IH]; [done|].
  destruct l as [|y l].
  - injection Hlast as ->. by split_and!.
  - destruct Hl as (Hxy1 & Hxy2 & Hl). split_and!; [done..|]. by apply IH.
Qed.

Lemma grouped_from_logentry (fuzz : Z) (e : logentry) : grouped fuzz (from_logentry e).
Proof.
  exists e, e. simpl. split_and!; try done.
  - intros f. rewrite list_elem_of_singleton, elem_of_union, elem_of_singleton.
    split; [intros [?|?%elem_of_empty]; done|by left].
  - intros Hc. split_and!; [done|apply NoDup_singleton|by repeat constructor].
Qed.

Lemma can_cover_without_commitid (c : changeset) (e : logentry) (fuzz : Z) :
  cs_commitid c = None → _can_cover c e fuzz = true →
  commitid e = None ∧ (file e ∉ cs_files c)
  ∧ (date_sum (cs_date c) ≤ date_sum (date e))%Z
  ∧ (date_sum (date e) < date_sum (cs_date c) + fuzz)%Z.
Proof.
  intros Hc. unfold _can_cover. rewrite Hc.
  destruct (negb _); [done|]. intros Hcov.
  apply andb_true_iff in Hcov as [Hcov Hd].
  apply andb_true_iff in Hcov as [Hcov Hf].
  apply andb_true_iff in Hcov as [Hcov _].
  apply andb_true_iff in Hcov as [Hcov _].
  apply andb_true_iff in Hcov as [He _].
  apply bool_decide_eq_true in He.
  apply negb_true_iff, bool_decide_eq_false in Hf.
  apply andb_true_iff in Hd as [Hd1%Z.leb_le Hd2%Z.ltb_lt].
  done.
Qed.

Lemma grouped_add (fuzz : Z) (c : changeset) (e : logentry) :
  grouped fuzz c → _can_cover c e fuzz = true → grouped fuzz (_add c e).
Proof.
  intros (e0 & el & Hhead & Hlast & Hcid & Hdate & Hfiles & Hnone) Hcover.
  exists e0, e. simpl. split_and!.
  - destruct (cs_entries c); [done|]. by simpl in *.
  - apply last_snoc.
  - done.
  - done.
  - intros f. rewrite fmap_app, elem_of_app, elem_of_union, elem_of_singleton, Hfiles.
    change (file <$> [e]) with [file e]. rewrite list_elem_of_singleton. tauto.
  - intros Hc.
    destruct (can_cover_without_commitid _ _ _ Hc Hcover) as (He & Hf & Hd1 & Hd2).
    destruct (Hnone Hc) as (Hch & Hnd & Hall). split_and!.
    + eapply chained_snoc; [done..|by rewrite <- Hdate|by rewrite <- Hdate].
    + rewrite fmap_app. apply NoDup_app. split; [done|].
      split; [|apply NoDup_singleton].
      intros f Hin ->%list_elem_of_singleton. by apply Hf, Hfiles.
    + apply Forall_app_2; [done|]. by repeat constructor.
Qed.

Lemma group_entries_grouped (fuzz : Z) (log : list logentry) :
  ∀ heap changesets c heap' changesets',
    Forall (grouped fuzz) heap → (∀ a, c = Some a → a < length heap) →
    group_entries fuzz log heap changesets c = (heap', changesets') →
    Forall (grouped fuzz) heap'.
Proof.
  induction log as [|e log IH]; intros heap changesets c heap' changesets' Hheap Hc;
    simpl.
  - by intros [= <- _].
  - destruct (c ≫= _) as [[a c']|] eqn:Hadd.
    + destruct c as [a0|]; [|done]. simpl in Hadd.
      unfold add_entry in Hadd.
      destruct (_can_cover (heap !!! a0) e fuzz) eqn:Hcover; [|done].
      simpl in Hadd. injection Hadd as <- <-.
      apply IH.
      * apply Forall_insert; [done|]. apply grouped_add; [|done].
        apply Forall_lookup_total_1; [done|]. by apply Hc.
      * intros a Ha. rewrite length_insert. by apply Hc.
    + apply IH.
      * apply Forall_app_2; [done|]. repeat constructor. apply grouped_from_logentry.
      * intros a [= <-]. rewrite length_app. simpl. lia.
Qed.

(** *** The passes before the walk *)

Section EntriesInvariant.
Context `{PathLib} `{Sorter} `{ui : Ui}.
Variable Q : list logentry → Prop.
Hypothesis Q_nil : Q [].
Hypothesis Q_perm : ∀ l l', l ≡ₚ l' → Q l → Q l'.

Lemma sort_files_entries (heap : list changeset) (changesets : list nat) :
  Forall (fun c => Q (cs_entries c)) heap →
  Forall (fun c => Q (cs_entries c)) (sort_files heap changesets).
Proof.
  unfold sort_files. revert heap.
  induction changesets as [|a changesets IH]; intros heap Hheap; [done|].
  simpl. apply IH.
  apply (heap_update_inv _ Q_nil heap a
           (fun c => set_cs_entries (sort_by by_split_path (cs_entries c)) c));
    [|done].
  intros c Hc. simpl. eapply Q_perm; [|done]. symmetry. apply sort_by_perm.
Qed.

Lemma assign_tags_entries (globaltags : gmap string nat) (heap : list changeset)
    (changesets : list nat) :
  Forall (fun c => Q (cs_entries c)) heap →
  Forall (fun c => Q (cs_entries c)) (assign_tags globaltags heap changesets).
Proof.
  unfold assign_tags. revert heap.
  induction changesets as [|a changesets IH]; intros heap Hheap; [done|].
  simpl. apply IH.
  set (v := sort_by str_lt _).
  by apply (heap_update_inv _ Q_nil heap a (set_cs_tags v)).
Qed.

(** Every property of lists of entries that holds of the changesets the
    grouping builds, of the empty list and of every rearrangement holds of
    the entries of every changeset that [createchangeset] returns. *)
Lemma createchangeset_entries (fuzz : Z) :
  (∀ c, grouped fuzz c → Q (cs_entries c)) →
  ∀ log mergefrom mergeto heap out,
    createchangeset log fuzz mergefrom mergeto = Ok (heap, out) →
    ∀ a, Q (cs_entries (heap !!! a)).
Proof.
  intros Hgrouped log mergefrom mergeto heap out. unfold createchangeset.
  intros (w & Hwalk & (_ & _ & [= <- <-])%bind_Ok)%bind_Ok a.
  apply (heap_lookup_inv (fun c => Q (cs_entries c)) Q_nil).
  apply number_inv; [done..|].
  eapply walk_inv; [done..| |exact Hwalk].
  unfold before_walk.
  destruct (group_entries fuzz _ [] [] None) as [heap0 changesets0] eqn:Hgroup.
  simpl. apply assign_tags_entries, sort_files_entries.
  eapply Forall_impl; [|exact Hgrouped].
  eapply group_entries_grouped; [| |exact Hgroup]; [done|done].
Qed.

End EntriesInvariant.

(** *** The changesets returned *)

(** C3, as the code has it.  In a changeset that [createchangeset] returns
    and whose entries carry no commitid, no two entries refer to the same
    file. *)
Theorem files_distinct_without_commitid `{PathLib} `{Sorter} `{ui : Ui}
    (log : list logentry) (fuzz : Z) (mergefrom mergeto : merge_pattern)
    (heap : list changeset) (out : list nat) :
  createchangeset log fuzz mergefrom mergeto = Ok (heap, out) →
  ∀ a, a ∈ out →
    Forall (fun e => commitid e = None) (cs_entries (heap !!! a)) →
    NoDup (file <$> cs_entries (heap !!! a)).
Proof.
  intros Hcs a _.
  apply (createchangeset_entries
           (fun l => Forall (fun e => commitid e = None) l → NoDup (file <$> l)))
    with (fuzz := fuzz) (log := log) (mergefrom := mergefrom) (mergeto := mergeto)
         (out := out); [| | |done].
  - intros _. apply NoDup_nil_2.
  - intros l l' Hperm Hl Hall. rewrite <- Hperm. apply Hl. by rewrite Hperm.
  - intros c (e0 & el & Hhead & _ & Hcid & _ & _ & Hnone) Hall.
    apply Hnone. rewrite Hcid.
    destruct (cs_entries c) as [|e es]; [done|]. injection Hhead as <-.
    by apply Forall_cons in Hall as [? _].
Qed.

Lemma files_distinct_without_commitid_witness :
  ∃ heap,
    createchangeset log_sliding 60 pattern_default pattern_default = Ok (heap, [0])
    ∧ file <$> cs_entries (heap !!! 0) = ["a"; "b"; "c"]
    ∧ NoDup (file <$> cs_entries (heap !!! 0)).
Proof.
  exists (value ([], [])
            (createchangeset log_sliding 60 pattern_default pattern_default)).1.
  assert (createchangeset log_sliding 60 pattern_default pattern_default
          = Ok ((value ([], [])
                   (createchangeset log_sliding 60 pattern_default pattern_default)).1,
                [0])) as Hcs
    by (apply ok_pair_value; vm_refl).
  split; [exact Hcs|]. split; [vm_refl|].
  eapply (files_distinct_without_commitid
            log_sliding 60 pattern_default pattern_default _ [0]).
  - exact Hcs.
  - left.
  - vm_decide.
Defined.

(** C3, as stated, fails: two revisions of file [a] with the same commitid
    are absorbed into one changeset. *)
Lemma same_file_twice_counterexample :
  ∃ heap,
    createchangeset log_same_commitid 60 pattern_default pattern_default
    = Ok (heap, [0])
    ∧ file <$> cs_entries (heap !!! 0) = ["a"; "a"]
    ∧ cs_commitid (heap !!! 0) = Some "X".
Proof.
  exists (value ([], [])
            (createchangeset log_same_commitid 60 pattern_default pattern_default)).1.
  split_and!; [apply ok_pair_value; vm_refl|vm_refl..].
Qed.

Lemma foldl_max_in (a : Z) (l : list Z) : foldl Z.max a l ∈ a :: l.
Proof.
  revert a. induction l as [|b l IH]; intros a; simpl; [left|].
  pose proof (IH (Z.max a b)) as [Hm|Hin]%elem_of_cons.
  - rewrite Hm. destruct (Z.max_spec a b) as [[_ ->]|[_ ->]]; [right|]; left.
  - right. by right.
Qed.

Lemma foldl_min_in (a : Z) (l : list Z) : foldl Z.min a l ∈ a :: l.
Proof.
  revert a. induction l as [|b l IH]; intros a; simpl; [left|].
  pose proof (IH (Z.min a b)) as [Hm|Hin]%elem_of_cons.
  - rewrite Hm. destruct (Z.min_spec a b) as [[_ ->]|[_ ->]]; [|right]; left.
  - right. by right.
Qed.

Lemma date_span_bound (l : list logentry) (B : Z) :
  (0 ≤ B)%Z →
  (∀ x y, x ∈ l → y ∈ l → (date_sum (date x) - date_sum (date y) ≤ B)%Z) →
  (date_span l ≤ B)%Z.
Proof.
  intros HB Hl. destruct l as [|e es]; [done|]. unfold date_span.
  pose proof (foldl_max_in (date_sum (date e)) (date_sum ∘ date <$> es)) as Hmax.
  pose proof (foldl_min_in (date_sum (date e)) (date_sum ∘ date <$> es)) as Hmin.
  change (date_sum (date e) :: (date_sum ∘ date <$> es))
    with (date_sum ∘ date <$> e :: es) in Hmax, Hmin.
  apply list_elem_of_fmap in Hmax as (x & -> & Hx).
  apply list_elem_of_fmap in Hmin as (y & -> & Hy).
  by apply Hl.
Qed.

Lemma chained_range (fuzz : Z) (l : list logentry) :
  chained fuzz l →
  ∀ h, head l = Some h →
  ∀ x, x ∈ l →
    (date_sum (date h) ≤ date_sum (date x))%Z
    ∧ (date_sum (date x)
       ≤ date_sum (date h) + Z.of_nat (length l - 1) * (fuzz - 1))%Z.
Proof.
  induction l as [|h' l IH]; [done|]. intros Hch h [= ->] x Hx.
  destruct l as [|y l].
  - apply list_elem_of_singleton in Hx as ->. simpl. lia.
  - destruct Hch as (Hhy1 & Hhy2 & Hch).
    specialize (IH Hch y eq_refl).
    replace (Z.of_nat (length (h :: y :: l) - 1))
      with (1 + Z.of_nat (length (y :: l) - 1))%Z by (simpl; lia).
    assert (0 ≤ Z.of_nat (length (y :: l) - 1) * (fuzz - 1))%Z as Hpos
      by (apply Z.mul_nonneg_nonneg; lia).
    apply elem_of_cons in Hx as [->|Hx]; [lia|].
    destruct (IH x Hx) as [Hx1 Hx2]. lia.
Qed.

(** C2, as the code has it.  The fuzz window slides: in a changeset whose
    entries carry no commitid the entries can be arranged so that each one
    is committed no earlier than the one before it and less than [fuzz]
    seconds after it.  The largest difference between two entry dates is
    therefore at most [fuzz - 1] times the number of entries less one. *)
Theorem fuzz_bounds_consecutive_entries `{PathLib} `{Sorter} `{ui : Ui}
    (log : list logentry) (fuzz : Z) (mergefrom mergeto : merge_pattern)
    (heap : list changeset) (out : list nat) :
  createchangeset log fuzz mergefrom mergeto = Ok (heap, out) →
  ∀ a, a ∈ out →
    Forall (fun e => commitid e = None) (cs_entries (heap !!! a)) →
    (∃ es, es ≡ₚ cs_entries (heap !!! a) ∧ chained fuzz es)
    ∧ (date_span (cs_entries (heap !!! a))
       ≤ Z.of_nat (length (cs_entries (heap !!! a)) - 1) * (fuzz - 1))%Z.
Proof.
  intros Hcs a _ Hall.
  assert (∃ es, es ≡ₚ cs_entries (heap !!! a) ∧ chained fuzz es) as (es & Hperm & Hch).
  { revert Hall.
    apply (createchangeset_entries
             (fun l => Forall (fun e => commitid e = None) l
                       → ∃ es, es ≡ₚ l ∧ chained fuzz es))
      with (fuzz := fuzz) (log := log) (mergefrom := mergefrom) (mergeto := mergeto)
           (out := out); [| | |done].
    - intros _. by exists [].
    - intros l l' Hperm Hl Hall. destruct Hl as (es & Hes & Hch); [by rewrite Hperm|].
      exists es. split; [by rewrite Hes|done].
    - intros c (e0 & el & Hhead & _ & Hcid & _ & _ & Hnone) Hall.
      exists (cs_entries c). split; [done|]. apply Hnone. rewrite Hcid.
      destruct (cs_entries c) as [|e es]; [done|]. injection Hhead as <-.
      by apply Forall_cons in Hall as [? _]. }
  split; [by exists es|].
  rewrite <- (Permutation_length Hperm).
  destruct es as [|h es'] eqn:Hes.
  - apply Permutation_nil_l in Hperm. by rewrite <- Hperm.
  - rewrite <- Hes in *.
    assert (head es = Some h) as Hhead by (by rewrite Hes).
    apply date_span_bound.
    + destruct (chained_range fuzz es Hch h Hhead h) as [? ?]; [|lia].
      rewrite Hes. left.
    + intros x y Hx Hy. rewrite <- Hperm in Hx, Hy.
      destruct (chained_range fuzz es Hch h Hhead x Hx).
      destruct (chained_range fuzz es Hch h Hhead y Hy). lia.
Qed.

Lemma fuzz_bounds_consecutive_entries_witness :
  ∃ heap,
    createchangeset log_sliding 60 pattern_default pattern_default = Ok (heap, [0])
    ∧ (∃ es, es ≡ₚ cs_entries (heap !!! 0) ∧ chained 60 es)
    ∧ (date_span (cs_entries (heap !!! 0%nat)) ≤ 118)%Z.
Proof.
  exists (value ([], [])
            (createchangeset log_sliding 60 pattern_default pattern_default)).1.
  assert (createchangeset log_sliding 60 pattern_default pattern_default
          = Ok ((value ([], [])
                   (createchangeset log_sliding 60 pattern_default pattern_default)).1,
                [0])) as Hcs
    by (apply ok_pair_value; vm_refl).
  split; [exact Hcs|].
  destruct (fuzz_bounds_consecutive_entries
              log_sliding 60 pattern_default pattern_default
              (value ([], [])
                 (createchangeset log_sliding 60 pattern_default pattern_default)).1
              [0]) with (a := 0) as [Hchain Hspan]; [exact Hcs|left|vm_decide|].
  split; [exact Hchain|].
  lazymatch goal with
  | |- ?G => exact (Hspan <: G)
  end.
Defined.

(** C2, as stated, fails: three files committed 50 seconds apart form one
    changeset without commitid whose dates are 100 seconds apart, with a fuzz
    of 60. *)
Lemma fuzz_span_counterexample :
  ∃ heap,
    createchangeset log_sliding 60 pattern_default pattern_default = Ok (heap, [0])
    ∧ commitid <$> cs_entries (heap !!! 0) = [None; None; None]
    ∧ date_span (cs_entries (heap !!! 0)) = 100%Z
    ∧ ¬ (date_span (cs_entries (heap !!! 0%nat)) < 60)%Z.
Proof.
  exists (value ([], [])
            (createchangeset log_sliding 60 pattern_default pattern_default)).1.
  split_and!; [apply ok_pair_value; vm_refl|vm_refl..|].
  apply Z.le_ngt. vm_decide.
Qed.

Lemma number_synthetic (heap : list changeset) (changesets : list nat) (a : nat) :
  cs_synthetic (number heap changesets !!! a) = cs_synthetic (heap !!! a).
Proof.
  unfold number. generalize (imap (fun i a => (i, a)) changesets).
  intros l. revert heap. induction l as [|[i b] l IH]; intros heap; [done|].
  simpl. rewrite IH, list_lookup_total_insert.
  destruct (decide _) as [[-> _]|_]; reflexivity.
Qed.

(** X6.  No changeset that [createchangeset] returns is
    synthetic. *)
Lemma createchangeset_drops_synthetic `{PathLib} `{Sorter} `{ui : Ui}
    (log : list logentry) (fuzz : Z) (mergefrom mergeto : merge_pattern)
    (heap : list changeset) (out : list nat) :
  createchangeset log fuzz mergefrom mergeto = Ok (heap, out) →
  ∀ a, a ∈ out → cs_synthetic (heap !!! a) = false.
Proof.
  unfold createchangeset. intros (w & _ & (_ & _ & [= <- <-])%bind_Ok)%bind_Ok a Ha.
  rewrite number_synthetic.
  apply list_elem_of_filter in Ha as [Ha _].
  by destruct (cs_synthetic _).
Qed.

(** The primary parent and the parent added for [mergefrom] are not
    synthetic. *)
Lemma skip_synthetic_not_synthetic (fuel : nat) (heap : list changeset) (p q : nat) :
  skip_synthetic fuel heap p = Ok (Some q) → cs_synthetic (heap !!! q) = false.
Proof.
  revert p. induction fuel as [|fuel IH]; intros p; simpl; [done|].
  destruct (cs_synthetic (heap !!! p)) eqn:Hp; [|by intros [= <-]].
  intros (_ & _ & Hq)%bind_Ok.
  destruct (cs_parents (heap !!! p)) as [|r rs]; [done|]. by eapply IH.
Qed.

Lemma primary_parent_not_synthetic (w : wstate) (heap : list changeset) :
  primary_parent w = Ok heap →
  heap = w_heap w
  ∨ ∃ q, cs_synthetic (w_heap w !!! q) = false
         ∧ heap = append_parent (w_changesets w !!! w_i w) q (w_heap w).
Proof.
  unfold primary_parent.
  intros ([p|] & _ & Hp)%bind_Ok; [|left; by injection Hp as <-].
  apply bind_Ok in Hp as ([q|] & Hskip & Hq); injection Hq as <-; [|by left].
  right. exists q. split; [|done]. by eapply skip_synthetic_not_synthetic.
Qed.

Lemma mergefrom_parent_not_synthetic `{ui : Ui}
    (mergefrom : option (re * nat)) (w : wstate)
    (heap heap' : list changeset) :
  mergefrom_parent mergefrom w heap = Ok heap' →
  heap' = heap
  ∨ ∃ q, cs_synthetic (heap !!! q) = false
         ∧ heap' = append_parent (w_changesets w !!! w_i w) q heap.
Proof.
  unfold mergefrom_parent.
  destruct mergefrom as [[r ngroups]|]; [|intros [= <-]; by left].
  destruct (search r _) as [m|]; [|intros [= <-]; by left].
  destruct (ngroups <? 1); [done|].
  destruct (w_branches w !! _) as [j|];
    [|destruct ui_warn; simpl; [intros [= <-]; by left|done..]].
  destruct (negb (bool_decide _)); simpl; [|intros [= <-]; by left].
  destruct (cs_synthetic (heap !!! _)) eqn:Hs; simpl; intros [= <-]; [by left|].
  right. eauto.
Qed.

(** C1.  The parent appended for a mergepoint is not checked: the changeset
    of the revision on BR that was merged from the trunk is returned with
    the synthetic changeset of the dead trunk revision as its parent, which
    is no longer in the list. *)
Theorem mergepoint_parent_is_synthetic :
  ∃ heap,
    createchangeset log_mergepoint 60 pattern_default pattern_default = Ok (heap, [1])
    ∧ cs_comment (heap !!! 1) = "merge trunk"
    ∧ cs_parents (heap !!! 1) = [0]
    ∧ cs_synthetic (heap !!! 0) = true.
Proof.
  exists (value ([], [])
            (createchangeset log_mergepoint 60 pattern_default pattern_default)).1.
  split_and!; [apply ok_pair_value; vm_refl|vm_refl..].
Qed.

(** *** The parent walk *)

(** The merge changeset of a step.  When the parent work of the changeset
    [c] at index [i] is done, the [mergeto] pattern matches its comment and names a
    branch [m] that the branch map knows and that is not the branch of [c],
    the step appends a merge changeset to the heap and inserts it at index
    [i + 1]: its parents are [c] and the changeset the branch map gives for
    [m], in this order, its author and date are those of [c], its branch
    that of the second parent, and its comment ends in the branch of [c]
    as [%s] prints it, which is [None] for a changeset on the trunk.  The
    branch map then gives [i + 1] for [m], and the loop goes on at
    [i + 2]. *)
Theorem mergeto_inserts_merge_changeset `{PathLib} `{Sorter} `{ui : Ui}
    (mergefrom mergeto : option (re * nat)) (w : wstate)
    (heap1 heap2 heap : list changeset) (m : option string) (j : nat) :
  let i := w_i w in
  let a := w_changesets w !!! i in
  let c := heap !!! a in
  let cc := (heap ++ [from_merge a (w_changesets w !!! j) c
                        (heap !!! (w_changesets w !!! j))]) !!! length heap in
  primary_parent w = Ok heap1 →
  mergepoint_parent w heap1 = Ok heap2 →
  mergefrom_parent mergefrom w heap2 = Ok heap →
  mergeto_target mergeto (cs_comment c) = Some m →
  w_branches w !! m = Some j →
  cs_branch c ≠ m →
  walk_step mergefrom mergeto w
  = Ok {| w_heap := heap ++ [from_merge a (w_changesets w !!! j) c
                               (heap !!! (w_changesets w !!! j))];
          w_changesets := take (S i) (w_changesets w)
                          ++ length heap :: drop (S i) (w_changesets w);
          w_branches := <[m := S i]> (w_branches w);
          w_i := S (S i); w_n := S (w_n w) |}
  ∧ cs_parents cc = [a; w_changesets w !!! j]
  ∧ cs_comment cc = "convert-repo: CVS merge from branch " +:+ percent_s (cs_branch c)
  ∧ (cs_branch c = None → cs_comment cc = "convert-repo: CVS merge from branch None")
  ∧ cs_author cc = cs_author c ∧ cs_date cc = cs_date c
  ∧ cs_branch cc = cs_branch (heap !!! (w_changesets w !!! j)).
Proof.
  intros i a c cc H1 H2 H3 Hm Hj Hne.
  assert (cc = from_merge a (w_changesets w !!! j) c (heap !!! (w_changesets w !!! j)))
    as Hcc.
  { unfold cc. rewrite lookup_total_app_r by done.
    by rewrite Nat.sub_diag. }
  split_and!.
  - unfold walk_step. rewrite H1. simpl. rewrite H2. simpl. rewrite H3. simpl.
    unfold mergeto_step. fold i a c. rewrite Hm, Hj.
    by rewrite bool_decide_eq_false_2.
  - by rewrite Hcc.
  - by rewrite Hcc.
  - intros Hb. by rewrite Hcc; simpl; rewrite Hb.
  - by rewrite Hcc.
  - by rewrite Hcc.
  - by rewrite Hcc.
Qed.

Lemma mergeto_inserts_merge_changeset_witness :
  ∃ w2 w3,
    (walk_step (Some (default_mergefrom, 1)) (Some (default_mergeto, 1))
       (before_walk log_mergeto 60)
     ≫= walk_step (Some (default_mergefrom, 1)) (Some (default_mergeto, 1)))
    = Ok w2
    ∧ walk_step (Some (default_mergefrom, 1)) (Some (default_mergeto, 1)) w2 = Ok w3
    ∧ w_i w2 = 2 ∧ w_changesets w2 = [1; 3; 0; 2]
    ∧ w_i w3 = 4 ∧ w_changesets w3 = [1; 3; 0; 4; 2]
    ∧ cs_parents (w_heap w3 !!! 4) = [0; 3]
    ∧ w_branches w3 !! Some "BR" = Some 3.
Proof.
  set (mf := Some (default_mergefrom, 1)). set (mt := Some (default_mergeto, 1)).
  set (w0 := before_walk log_mergeto 60).
  set (w2 := value w0 (walk_step mf mt w0 ≫= walk_step mf mt)).
  set (heap1 := value [] (primary_parent w2)).
  set (heap2 := value [] (mergepoint_parent w2 heap1)).
  set (heap := value [] (mergefrom_parent mf w2 heap2)).
  destruct (mergeto_inserts_merge_changeset mf mt w2 heap1 heap2 heap (Some "BR") 1)
    as (Hstep & _);
    [apply ok_value; vm_refl..|vm_refl|vm_refl|vm_decide|].
  eexists w2, _. split; [apply ok_value; vm_refl|]. split; [exact Hstep|].
  split_and!; vm_refl.
Defined.

(** C4.  The merge changeset is inserted with its two parents, but for a
    merging changeset on the trunk its comment names the source branch
    [None]: [from_merge] formats the branch as it is, while the trunk is
    [HEAD] wherever else the code names it, in the commit messages read for
    [mergefrom] and [mergeto] and in the output of [debugcvsps]. *)
Theorem merge_comment_names_None :
  ∃ heap,
    createchangeset log_mergeto 60 pattern_default pattern_default
    = Ok (heap, [1; 3; 0; 4; 2])
    ∧ cs_comment (heap !!! 0) = "fix {{mergetobranch BR}}"
    ∧ cs_branch (heap !!! 0) = None
    ∧ cs_parents (heap !!! 4) = [0; 3]
    ∧ cs_comment (heap !!! 4) = "convert-repo: CVS merge from branch None"
    ∧ cs_comment (heap !!! 4) ≠ "convert-repo: CVS merge from branch HEAD"
    ∧ or_HEAD (cs_branch (heap !!! 0)) = "HEAD"
    ∧ head_to_none (Some "HEAD") = cs_branch (heap !!! 0).
Proof.
  exists (value ([], [])
            (createchangeset log_mergeto 60 pattern_default pattern_default)).1.
  split_and!; [apply ok_pair_value; vm_refl|vm_refl..|vm_decide|vm_refl|vm_refl].
Qed.

(** When the step inserts a merge changeset, the branch map keeps for the
    branch of [c] what it held before the step. *)
Lemma mergeto_skips_branch_record (mergeto : option (re * nat)) (w : wstate)
    (heap : list changeset) (m : option string) (j : nat) :
  let c := heap !!! (w_changesets w !!! w_i w) in
  mergeto_target mergeto (cs_comment c) = Some m →
  w_branches w !! m = Some j →
  cs_branch c ≠ m →
  w_branches (mergeto_step mergeto w heap) !! cs_branch c
  = w_branches w !! cs_branch c.
Proof.
  intros c Hm Hj Hne. unfold mergeto_step. fold c. rewrite Hm, Hj.
  rewrite bool_decide_eq_false_2 by done. simpl.
  by rewrite lookup_insert_ne.
Qed.

(** Otherwise the branch map gives the index [i] for the branch of [c]. *)
Lemma mergeto_records_branch (mergeto : option (re * nat)) (w : wstate)
    (heap : list changeset) :
  let c := heap !!! (w_changesets w !!! w_i w) in
  (∀ m j, mergeto_target mergeto (cs_comment c) = Some m →
          w_branches w !! m = Some j → cs_branch c = m) →
  w_branches (mergeto_step mergeto w heap) !! cs_branch c = Some (w_i w).
Proof.
  intros c Hno. unfold mergeto_step. fold c.
  destruct (mergeto_target mergeto (cs_comment c)) as [m|] eqn:Hm;
    [|apply lookup_insert_eq].
  destruct (w_branches w !! m) as [j|] eqn:Hj; [|apply lookup_insert_eq].
  rewrite bool_decide_eq_true_2 by eauto. apply lookup_insert_eq.
Qed.

(** C8.  The third changeset of the walk, on the trunk at index 2, asks for
    a merge to BR: after its step the branch map still gives index 0 for
    the trunk, not 2, and the next trunk changeset gets the changeset of
    index 0 as its parent. *)
Theorem mergeto_leaves_branch_unrecorded :
  ∃ w2 w3 heap,
    (walk_step (Some (default_mergefrom, 1)) (Some (default_mergeto, 1))
       (before_walk log_mergeto 60)
     ≫= walk_step (Some (default_mergefrom, 1)) (Some (default_mergeto, 1)))
    = Ok w2
    ∧ walk_step (Some (default_mergefrom, 1)) (Some (default_mergeto, 1)) w2 = Ok w3
    ∧ w_i w2 = 2
    ∧ cs_branch (w_heap w2 !!! (w_changesets w2 !!! 2)) = None
    ∧ w_i w3 = 4
    ∧ w_branches w3 !! None = Some 0
    ∧ createchangeset log_mergeto 60 pattern_default pattern_default
      = Ok (heap, [1; 3; 0; 4; 2])
    ∧ (cs_comment <$> heap) = ["fix {{mergetobranch BR}}"; "init"; "more"; "on branch";
                               "convert-repo: CVS merge from branch None"]
    ∧ cs_parents (heap !!! 2) = [1].
Proof.
  set (mf := Some (default_mergefrom, 1)). set (mt := Some (default_mergeto, 1)).
  set (w0 := before_walk log_mergeto 60).
  set (w2 := value w0 (walk_step mf mt w0 ≫= walk_step mf mt)).
  exists w2, (value w2 (walk_step mf mt w2)),
    (value ([], []) (createchangeset log_mergeto 60 pattern_default pattern_default)).1.
  split_and!;
    [apply ok_value; vm_refl|apply ok_value; vm_refl
    |vm_refl|vm_refl|vm_refl|vm_refl
    |apply ok_pair_value; vm_refl|vm_refl|vm_refl].
Qed.

(** *** The fuel of the walk

    Every step decreases [n - i] by one, so the walk that starts with
    [n - i] steps of fuel behaves as with any larger amount, and it fails to
    return only when one of its steps does. *)

Lemma mergeto_step_measure (mergeto : option (re * nat)) (w : wstate)
    (heap : list changeset) :
  w_n (mergeto_step mergeto w heap) - w_i (mergeto_step mergeto w heap)
  = w_n w - S (w_i w).
Proof.
  unfold mergeto_step.
  destruct (mergeto_target _ _) as [m|]; [|done].
  destruct (w_branches w !! m) as [j|]; [|done].
  by destruct (negb _).
Qed.

Lemma walk_step_measure `{ui : Ui}
    (mergefrom mergeto : option (re * nat)) (w w' : wstate) :
  walk_step mergefrom mergeto w = Ok w' → w_n w' - w_i w' = w_n w - S (w_i w).
Proof.
  unfold walk_step.
  intros (heap1 & _ & (heap2 & _ & (heap3 & _ & [= <-])%bind_Ok)%bind_Ok)%bind_Ok.
  apply mergeto_step_measure.
Qed.

Lemma walk_fuel_enough `{ui : Ui} (mergefrom mergeto : option (re * nat)) (fuel : nat) :
  ∀ w, w_n w - w_i w ≤ fuel →
       walk fuel mergefrom mergeto w = walk (w_n w - w_i w) mergefrom mergeto w.
Proof.
  induction fuel as [|fuel IH]; intros w Hfuel.
  - by replace (w_n w - w_i w) with 0 by lia.
  - destruct (Nat.ltb_spec (w_i w) (w_n w)) as [Hlt|Hge].
    + destruct (w_n w - w_i w) as [|m] eqn:Hm; [lia|].
      simpl. apply Nat.ltb_lt in Hlt. rewrite Hlt.
      destruct (walk_step mergefrom mergeto w) as [w'| |] eqn:Hstep; [|done..].
      simpl. apply walk_step_measure in Hstep.
      rewrite (IH w') by lia. f_equal. lia.
    + replace (w_n w - w_i w) with 0 by lia. simpl.
      apply Nat.ltb_ge in Hge. by rewrite Hge.
Qed.

Lemma walk_loops_in_step `{ui : Ui} (mergefrom mergeto : option (re * nat)) (fuel : nat) :
  ∀ w, fuel = w_n w - w_i w →
       walk fuel mergefrom mergeto w = Loops →
       ∃ w', walk_step mergefrom mergeto w' = Loops.
Proof.
  induction fuel as [|fuel IH]; intros w Hfuel; simpl.
  - destruct (Nat.ltb_spec (w_i w) (w_n w)); [lia|done].
  - destruct (w_i w <? w_n w); [|done].
    destruct (walk_step mergefrom mergeto w) as [w'| |] eqn:Hstep; simpl.
    + apply IH. apply walk_step_measure in Hstep. lia.
    + done.
    + intros _. by exists w.
Qed.

(** ** The scenarios of the specification, evaluated *)

(** Branch creation: 1.1 carries the branchpoint BR and the tag, 1.1.2.1 is
    on BR with parent 1.1, and the changeset of the branch commit comes
    after those of the trunk, with the changeset of 1.1 as its parent. *)
Example scenario_branch_creation :
  (fun e => (revision e, branch e, parent e, elements (branchpoints e), tags e, lines e))
    <$> value [] (createlog true "/cvs/mod/" (Some cache_write) None rlog_branch)
  = [([1; 1], None, Some [], ["BR"], ["v1"], None);
     ([1; 2], None, Some [1; 1], [], [], Some (1, 0));
     ([1; 1; 2; 1], Some "BR", Some [1; 1], [], [], Some (2, -1))]%Z
  ∧ (let r := value ([], [])
                (createchangeset
                   (value [] (createlog true "/cvs/mod/" (Some cache_write) None
                                rlog_branch))
                   60 pattern_default pattern_default) in
     (fun a => (cs_id (r.1 !!! a), cs_comment (r.1 !!! a), cs_branch (r.1 !!! a),
                cs_parents (r.1 !!! a), cs_tags (r.1 !!! a)))
       <$> r.2)
    = [(Some 1, "init", None, [], ["v1"]);
       (Some 2, "second", None, [0], []);
       (Some 3, "on branch", Some "BR", [0], [])].
Proof. split; vm_refl. Qed.

(** Fuzz grouping: two files committed 10 seconds apart with the same
    author and message form one changeset; 120 seconds apart they form
    two. *)
Example scenario_fuzz :
  (let r := value ([], [])
              (createchangeset
                 [entry "a" [1; 1]%Z None 1000 "alice" "init";
                  entry "b" [1; 1]%Z None 1010 "alice" "init"]
                 60 pattern_default pattern_default) in
   (fun a => file <$> cs_entries (r.1 !!! a)) <$> r.2) = [["a"; "b"]]
  ∧ (let r := value ([], [])
                (createchangeset
                   [entry "a" [1; 1]%Z None 1000 "alice" "init";
                    entry "b" [1; 1]%Z None 1120 "alice" "init"]
                   60 pattern_default pattern_default) in
     (fun a => file <$> cs_entries (r.1 !!! a)) <$> r.2) = [["a"]; ["b"]].
Proof. split; vm_refl. Qed.

(** Synthetic dropped: the dead 1.1 is marked synthetic by the parser, and
    two changesets are returned. *)
Example scenario_synthetic_dropped :
  (fun e => (revision e, dead e, synthetic e))
    <$> value [] (createlog true "/cvs/mod/" (Some cache_write) None rlog_added_on_branch)
  = [([1; 1], true, true); ([1; 1; 2; 1], false, false); ([1; 2], false, false)]%Z
  ∧ (let r := value ([], [])
                (createchangeset
                   (value [] (createlog true "/cvs/mod/" (Some cache_write) None
                                rlog_added_on_branch))
                   60 pattern_default pattern_default) in
     (fun a => (cs_id (r.1 !!! a), cs_comment (r.1 !!! a), cs_branch (r.1 !!! a),
                cs_synthetic (r.1 !!! a), cs_synthetic <$> ((r.1 !!!.) <$> cs_parents (r.1 !!! a))))
       <$> r.2)
    = [(Some 1, "add a", Some "BR", false, []);
       (Some 2, "on trunk too", None, false, [])].
Proof. split; vm_refl. Qed.

(** ** Further properties of dateutil.py *)

(** The parts of a date that [strdate] completes from [defaults]. *)
Lemma make_defaults_lookup `{TimeLib} (bias : gmap string string) (part : string) :
  part ∈ ["S"; "M"; "HI"; "d"; "mb"; "yY"] → is_Some (make_defaults bias !! part).
Proof.
  intros Hpart. unfold make_defaults. cbn [foldl].
  repeat (apply elem_of_cons in Hpart as [->|Hpart];
          [repeat (first [by rewrite lookup_insert_eq|rewrite lookup_insert_ne by done])|]).
  by apply not_elem_of_nil in Hpart.
Qed.

Lemma fill_defaults_returns `{TimeLib} (defaults : gmap string (string * string))
    (parts : list string) :
  (∀ part, part ∈ parts → is_Some (defaults !! part)) →
  ∀ usenow date format, is_ok (fill_defaults defaults parts usenow date format) = true.
Proof.
  induction parts as [|part parts IH]; intros Hparts usenow date format; [done|].
  simpl. destruct (filter _ _).
  - destruct (Hparts part) as [[biased now] ->]; [left|].
    apply IH. intros p Hp. apply Hparts. by right.
  - apply IH. intros p Hp. apply Hparts. by right.
Qed.

Lemma fill_defaults_KeyError `{TimeLib} (parts : list string) (part : string) :
  part ∈ parts →
  ∀ usenow date format,
    Forall (fun p => contains format ("%" +:+ str [p]) = false) (chars part) →
    fill_defaults ∅ parts usenow date format = Raise KeyError.
Proof.
  induction parts as [|part' parts IH]; intros Hpart usenow date format Hmissing.
  - by apply not_elem_of_nil in Hpart.
  - simpl. destruct (filter _ (chars part')) as [|p ps] eqn:Hfound.
    + by rewrite lookup_empty.
    + apply IH; [|done].
      apply elem_of_cons in Hpart as [->|Hpart]; [|done].
      assert (p ∈ p :: ps) as Hp by left.
      rewrite <- Hfound in Hp. apply list_elem_of_filter in Hp as [Hp Hin].
      eapply Forall_forall in Hmissing; [|done].
      apply Is_true_true in Hp.
      discriminate (eq_trans (eq_sym Hmissing) Hp).
Qed.

(** X4.  With the table of defaults that [parsedate] builds, [strdate] finds a
    default for every part that the format leaves out; with its own default
    argument, [defaults=None], it raises [KeyError] as soon as the format
    leaves out one of the six parts. *)
Theorem strdate_defaults `{TimeLib} (string_ format : string) :
  (∀ bias usenow date,
     is_ok (fill_defaults (make_defaults bias) ["S"; "M"; "HI"; "d"; "mb"; "yY"]
              usenow date format) = true)
  ∧ (∀ part r,
       part ∈ ["S"; "M"; "HI"; "d"; "mb"; "yY"] →
       Forall (fun p => contains format ("%" +:+ str [p]) = false) (chars part) →
       parsetimezone string_ = Ok r →
       strdate string_ format ∅ = Raise KeyError).
Proof.
  split.
  - intros bias usenow date. apply fill_defaults_returns.
    intros part. apply make_defaults_lookup.
  - intros part [offset date] Hpart Hmissing Htz. unfold strdate.
    rewrite Htz. cbn [mbind result_bind].
    by rewrite (fill_defaults_KeyError _ part).
Qed.

Lemma strdate_defaults_witness :
  strdate "2001-01-01" "%Y-%m-%d" ∅ = Raise KeyError
  ∧ is_ok (strdate "2001-01-01" "%Y-%m-%d" (make_defaults ∅)) = true.
Proof.
  split; [|vm_refl].
  apply (proj2 (strdate_defaults (H := UTC.timelib) "2001-01-01" "%Y-%m-%d")
           "S" (None, "2001-01-01")); [left| |vm_refl].
  repeat constructor.
Defined.

(** ** Witnesses for properties stated above *)

Lemma parsedate_no_Abort_witness :
  parsedate (VStr "yesterday") [] ∅ ≠ Raise (Abort "invalid date: %r" (VStr "yesterday")).
Proof.
  apply (parsedate_no_Abort (H := UTC.timelib)).
  - intros date format. unfold strptime, UTC.timelib, UTC.strptime.
    destruct (UTC.scan _ _ _) as [t|]; [|by intros ? ?].
    destruct (_ <=? _)%Z; by intros ? ?.
  - by intros timetuple ? ?.
Defined.

Lemma parsedate_str_in_range_witness :
  (-2147483648 ≤ 978307200 ≤ 2147483647)%Z ∧ (-50400 ≤ 0 ≤ 43200)%Z.
Proof.
  apply (parsedate_str_in_range (H := UTC.timelib) "2001/01/01 00:00:00 UTC"
           ["%y/%m/%d %H:%M:%S"; "%Y/%m/%d %H:%M:%S"; "%Y-%m-%d %H:%M:%S"] ∅).
  vm_refl.
Defined.

Lemma createchangeset_drops_synthetic_witness :
  ∃ heap,
    createchangeset log_mergepoint 60 pattern_default pattern_default = Ok (heap, [1])
    ∧ cs_synthetic (heap !!! 1) = false.
Proof.
  exists (value ([], [])
            (createchangeset log_mergepoint 60 pattern_default pattern_default)).1.
  assert (createchangeset log_mergepoint 60 pattern_default pattern_default
          = Ok ((value ([], [])
                   (createchangeset log_mergepoint 60 pattern_default pattern_default)).1,
                [1])) as Hcs
    by (apply ok_pair_value; vm_refl).
  split; [exact Hcs|].
  apply (createchangeset_drops_synthetic _ _ _ _ _ _ Hcs). left.
Defined.

(** ** The comparison of changesets *)

Lemma str_lt_asym (a b : string) : str_lt a b = true → str_lt b a = false.
Proof.
  unfold str_lt. rewrite (String.compare_antisym a b).
  by destruct (String.compare b a).
Qed.

Lemma str_lt_total (a b : string) : str_lt a b = false → str_lt b a = false → a = b.
Proof.
  unfold str_lt. rewrite (String.compare_antisym a b).
  destruct (String.compare b a) eqn:Hc; try done.
  intros _ _. symmetry. by apply String.compare_eq_iff.
Qed.

Lemma strs_lt_asym (a b : list string) : strs_lt a b = true → strs_lt b a = false.
Proof.
  revert b. induction a as [|x a IH]; intros [|y b]; simpl; try done.
  rewrite (String.eqb_sym y x). destruct (String.eqb x y); [apply IH|apply str_lt_asym].
Qed.

Lemma strs_lt_total (a b : list string) :
  strs_lt a b = false → strs_lt b a = false → a = b.
Proof.
  revert b. induction a as [|x a IH]; intros [|y b]; simpl; try done.
  rewrite (String.eqb_sym y x). destruct (String.eqb_spec x y) as [->|Hne].
  - intros Hab Hba. f_equal. by apply IH.
  - intros Hab Hba. by destruct Hne; apply str_lt_total.
Qed.

Lemma cmp_Z_opp (x y : Z) : cmp_Z y x = (- cmp_Z x y)%Z.
Proof. unfold cmp_Z. destruct (Z.ltb_spec y x), (Z.ltb_spec x y); simpl; lia. Qed.

Lemma cmp_Z_zero (x y : Z) : cmp_Z x y = 0%Z → x = y.
Proof. unfold cmp_Z. destruct (Z.ltb_spec y x), (Z.ltb_spec x y); simpl; lia. Qed.

(** The cascade of [cscmp]: the date, then parenthood, then the number of
    files, the file names and the number of branchpoints. *)
Lemma cscmp_cascade (l r : changeset) :
  cscmp l r
  = (let d := date_sum (cs_date l) - date_sum (cs_date r) in
     let n := cmp_Z (Z.of_nat (length (cs_entries l))) (Z.of_nat (length (cs_entries r))) in
     let s := Z.b2z (strs_lt (map file (cs_entries r)) (map file (cs_entries l)))
              - Z.b2z (strs_lt (map file (cs_entries l)) (map file (cs_entries r))) in
     if negb (d =? 0) then d
     else if is_child r l then -1
     else if is_child l r then 1
     else if negb (n =? 0) then n
     else if negb (s =? 0) then s
     else cmp_Z (len_branchpoints l) (len_branchpoints r))%Z.
Proof.
  unfold cscmp. cbv zeta.
  destruct (Z.eqb_spec (date_sum (cs_date l) - date_sum (cs_date r)) 0) as [->|Hd];
    [|done]. cbn [negb].
  destruct (is_child r l), (is_child l r); try reflexivity.
  change (0 =? 0)%Z with true. cbv iota.
  generalize (cmp_Z (Z.of_nat (length (cs_entries l))) (Z.of_nat (length (cs_entries r)))).
  intros n. destruct (Z.eqb_spec n 0) as [->|Hn]; cbn [negb].
  - by destruct (_ =? 0)%Z.
  - by destruct (Z.eqb_spec n 0).
Qed.

(** X5.  [cscmp] orders by date first; it is antisymmetric unless the two
    changesets have the same date and each is a child of the other, the case
    in which the code records the pair in [odd] and answers [-1] both ways;
    and it answers [0] only for changesets with the same date, the same
    files in the same order and as many branchpoints. *)
Theorem cscmp_antisymmetric (l r : changeset) :
  ((date_sum (cs_date l) < date_sum (cs_date r))%Z → (cscmp l r < 0)%Z)
  ∧ (date_sum (cs_date l) ≠ date_sum (cs_date r) ∨ is_child l r && is_child r l = false →
     cscmp r l = (- cscmp l r)%Z)
  ∧ (date_sum (cs_date l) = date_sum (cs_date r) → is_child l r && is_child r l = true →
     cscmp l r = (-1)%Z ∧ cscmp r l = (-1)%Z)
  ∧ (cscmp l r = 0%Z →
     date_sum (cs_date l) = date_sum (cs_date r)
     ∧ file <$> cs_entries l = file <$> cs_entries r
     ∧ len_branchpoints l = len_branchpoints r).
Proof.
  rewrite !cscmp_cascade. cbv zeta.
  pose proof (cmp_Z_opp (Z.of_nat (length (cs_entries l)))
                (Z.of_nat (length (cs_entries r)))) as Hlen.
  pose proof (cmp_Z_opp (len_branchpoints l) (len_branchpoints r)) as Hbp.
  pose proof (cmp_Z_zero (len_branchpoints l) (len_branchpoints r)) as Hbp0.
  pose proof (strs_lt_asym (map file (cs_entries l)) (map file (cs_entries r))) as Hasym.
  pose proof (strs_lt_total (map file (cs_entries l)) (map file (cs_entries r))) as Htotal.
  change (file <$> cs_entries l) with (map file (cs_entries l)).
  change (file <$> cs_entries r) with (map file (cs_entries r)).
  revert Hlen Hbp Hbp0 Hasym Htotal.
  generalize (date_sum (cs_date l)) (date_sum (cs_date r)). intros dl dr.
  generalize (cmp_Z (Z.of_nat (length (cs_entries l))) (Z.of_nat (length (cs_entries r))))
             (cmp_Z (Z.of_nat (length (cs_entries r))) (Z.of_nat (length (cs_entries l)))).
  intros nl nr.
  generalize (cmp_Z (len_branchpoints l) (len_branchpoints r))
             (cmp_Z (len_branchpoints r) (len_branchpoints l)).
  intros bl br.
  generalize (map file (cs_entries l)) (map file (cs_entries r)). intros fl fr.
  generalize (is_child l r) (is_child r l). intros clr crl.
  intros -> -> Hbp0 Hasym Htotal.
  assert (Z.b2z (strs_lt fl fr) - Z.b2z (strs_lt fr fl)
          = - (Z.b2z (strs_lt fr fl) - Z.b2z (strs_lt fl fr)))%Z as Hs by lia.
  assert (Z.b2z (strs_lt fr fl) - Z.b2z (strs_lt fl fr) = 0 → fl = fr)%Z as Hs0.
  { destruct (strs_lt fl fr) eqn:Hlr, (strs_lt fr fl) eqn:Hrl; simpl;
      try (by specialize (Hasym eq_refl)); try lia.
    intros _. by apply Htotal. }
  rewrite Hs. revert Hs0. generalize (Z.b2z (strs_lt fr fl) - Z.b2z (strs_lt fl fr))%Z.
  intros s Hs0.
  split_and!.
  - intros Hlt. destruct (Z.eqb_spec (dl - dr) 0); simpl; lia.
  - intros Hodd.
    destruct (Z.eqb_spec (dl - dr) 0), (Z.eqb_spec (dr - dl) 0); simpl; try lia.
    destruct Hodd as [?|Hodd]; [lia|].
    destruct clr, crl; simpl in *; try done.
    destruct (Z.eqb_spec nl 0), (Z.eqb_spec (- nl) 0); simpl; try lia.
    destruct (Z.eqb_spec s 0), (Z.eqb_spec (- s) 0); simpl; lia.
  - intros Hd [-> ->]%andb_true_iff.
    by destruct (Z.eqb_spec (dl - dr) 0), (Z.eqb_spec (dr - dl) 0); simpl; try lia.
  - destruct (Z.eqb_spec (dl - dr) 0); simpl; [|done].
    destruct crl; [done|]. destruct clr; [done|].
    destruct (Z.eqb_spec nl 0); simpl; [|done].
    destruct (Z.eqb_spec s 0); simpl; [|done].
    intros Hb. split_and!; [lia|by apply Hs0|by apply Hbp0].
Qed.

Lemma cscmp_antisymmetric_witness :
  (cscmp (from_logentry (entry "a" [1; 1]%Z None 100 "alice" "init"))
     (from_logentry (entry "b" [1; 1]%Z None 200 "alice" "init")) < 0)%Z
  ∧ cscmp (from_logentry (entry "b" [1; 1]%Z None 200 "alice" "init"))
      (from_logentry (entry "a" [1; 1]%Z None 100 "alice" "init"))
    = (- cscmp (from_logentry (entry "a" [1; 1]%Z None 100 "alice" "init"))
         (from_logentry (entry "b" [1; 1]%Z None 200 "alice" "init")))%Z.
Proof.
  pose proof (cscmp_antisymmetric
                (from_logentry (entry "a" [1; 1]%Z None 100 "alice" "init"))
                (from_logentry (entry "b" [1; 1]%Z None 200 "alice" "init")))
    as (Hlt & Hanti & _).
  split; [apply Hlt; vm_decide|apply Hanti; left; vm_decide].
Defined.

(** ** Invariants of createchangeset *)

(** *** Attributes that the parent walk leaves alone *)

Lemma fmap_update {X} (f : changeset → X) (g : changeset → changeset)
    (heap : list changeset) (a : nat) :
  (∀ c, f (g c) = f c) → f <$> <[a := g (heap !!! a)]> heap = f <$> heap.
Proof.
  intros Hg. rewrite list_fmap_insert, Hg.
  destruct (heap !! a) as [c|] eqn:Ha.
  - apply list_insert_id. rewrite list_lookup_fmap, Ha.
    by rewrite (list_lookup_total_correct _ _ _ Ha).
  - apply list_insert_ge. rewrite length_fmap. by apply lookup_ge_None.
Qed.

Lemma lookup_total_fmap_replicate {X} (f : changeset → X) (heap heap' : list changeset)
    (k : nat) :
  f <$> heap' = (f <$> heap) ++ replicate k (f inhabitant) →
  ∀ a, f (heap' !!! a) = f (heap !!! a).
Proof.
  intros Hf a.
  assert (∀ l : list changeset, f (l !!! a) = default (f inhabitant) ((f <$> l) !! a)) as Hd.
  { intros l. rewrite list_lookup_total_alt, list_lookup_fmap. by destruct (l !! a). }
  rewrite !Hd, Hf.
  destruct (decide (a < length (f <$> heap))) as [Hlt|Hge].
  - by rewrite lookup_app_l.
  - rewrite (lookup_app_r (f <$> heap)) by lia.
    assert ((f <$> heap) !! a = None) as -> by (apply lookup_ge_None_2; lia).
    destruct (replicate k (f inhabitant) !! (a - length (f <$> heap))) as [x|] eqn:Hx;
      [|done].
    by apply lookup_replicate in Hx as [-> _].
Qed.

Section Frame.
Context `{ui : Ui} {X : Type} (f : changeset → X).
Hypothesis f_parents : ∀ v c, f (set_cs_parents v c) = f c.
Hypothesis f_mergepoint : ∀ v c, f (set_cs_mergepoint v c) = f c.
Hypothesis f_id : ∀ v c, f (set_cs_id v c) = f c.
Hypothesis f_merge : ∀ a b c d, f (from_merge a b c d) = f inhabitant.

Lemma append_parent_frame (heap : list changeset) (a p : nat) :
  f <$> append_parent a p heap = f <$> heap.
Proof.
  unfold append_parent.
  by apply (fmap_update f (fun c => set_cs_parents (cs_parents c ++ [p]) c)).
Qed.

Lemma primary_parent_frame (w : wstate) (heap : list changeset) :
  primary_parent w = Ok heap → f <$> heap = f <$> w_heap w.
Proof.
  unfold primary_parent.
  intros ([p|] & _ & Hp)%bind_Ok; [|by injection Hp as <-].
  apply bind_Ok in Hp as ([q|] & _ & Hq); injection Hq as <-; [|done].
  apply append_parent_frame.
Qed.

Lemma mergepoint_parent_frame (w : wstate) (heap heap' : list changeset) :
  mergepoint_parent w heap = Ok heap' → f <$> heap' = f <$> heap.
Proof.
  unfold mergepoint_parent.
  destruct (cs_mergepoint _) as [mp|]; [|by intros [= <-]].
  destruct (String.eqb mp ""); [by intros [= <-]|].
  destruct (w_branches w !! _) as [j|]; [|discriminate].
  intros [= <-]. rewrite append_parent_frame.
  by apply (fmap_update f (set_cs_mergepoint _)).
Qed.

Lemma mergefrom_parent_frame (mergefrom : option (re * nat)) (w : wstate)
    (heap heap' : list changeset) :
  mergefrom_parent mergefrom w heap = Ok heap' → f <$> heap' = f <$> heap.
Proof.
  unfold mergefrom_parent.
  destruct mergefrom as [[r ngroups]|]; [|by intros [= <-]].
  destruct (search r _) as [m|]; [|by intros [= <-]].
  destruct (ngroups <? 1); [discriminate|].
  destruct (w_branches w !! _) as [j|];
    [|destruct ui_warn; simpl; [by intros [= <-]|done..]].
  destruct (_ && _); intros [= <-]; [apply append_parent_frame|done].
Qed.

Lemma mergeto_step_frame (mergeto : option (re * nat)) (w : wstate)
    (heap : list changeset) :
  ∃ k, f <$> w_heap (mergeto_step mergeto w heap)
       = (f <$> heap) ++ replicate k (f inhabitant).
Proof.
  unfold mergeto_step.
  destruct (mergeto_target _ _) as [m|]; [|by exists 0; rewrite app_nil_r].
  destruct (w_branches w !! m) as [j|]; [|by exists 0; rewrite app_nil_r].
  destruct (negb _); [|by exists 0; rewrite app_nil_r].
  exists 1. cbn [w_heap replicate]. rewrite fmap_app. f_equal.
  cbn [fmap list_fmap]. by rewrite f_merge.
Qed.

Lemma walk_step_frame (mergefrom mergeto : option (re * nat)) (w w' : wstate) :
  walk_step mergefrom mergeto w = Ok w' →
  ∃ k, f <$> w_heap w' = (f <$> w_heap w) ++ replicate k (f inhabitant).
Proof.
  unfold walk_step.
  intros (heap1 & H1 & (heap2 & H2 & (heap3 & H3 & [= <-])%bind_Ok)%bind_Ok)%bind_Ok.
  destruct (mergeto_step_frame mergeto w heap3) as [k Hk]. exists k.
  rewrite Hk. f_equal.
  rewrite (mergefrom_parent_frame _ _ _ _ H3), (mergepoint_parent_frame _ _ _ H2).
  by apply primary_parent_frame.
Qed.

Lemma walk_frame (fuel : nat) (mergefrom mergeto : option (re * nat)) (w w' : wstate) :
  walk fuel mergefrom mergeto w = Ok w' →
  ∃ k, f <$> w_heap w' = (f <$> w_heap w) ++ replicate k (f inhabitant).
Proof.
  revert w. induction fuel as [|fuel IH]; intros w; simpl.
  - destruct (w_i w <? w_n w); [discriminate|].
    intros [= <-]. exists 0. by rewrite app_nil_r.
  - destruct (w_i w <? w_n w); [|intros [= <-]; exists 0; by rewrite app_nil_r].
    intros (w1 & Hstep & Hwalk)%bind_Ok.
    destruct (walk_step_frame _ _ _ _ Hstep) as [k1 Hk1].
    destruct (IH _ Hwalk) as [k2 Hk2]. exists (k1 + k2).
    by rewrite Hk2, Hk1, <- app_assoc, replicate_add.
Qed.

Lemma number_frame (heap : list changeset) (changesets : list nat) :
  f <$> number heap changesets = f <$> heap.
Proof.
  unfold number. generalize (imap (fun i a => (i, a)) changesets).
  intros l. revert heap. induction l as [|[i a] l IH]; intros heap; [done|].
  simpl. rewrite IH. by apply (fmap_update f (set_cs_id (Some (S i)))).
Qed.

(** What [f] reads of the object at an address is the same before the walk
    and in the heap that [createchangeset] returns. *)
Lemma createchangeset_frame `{PathLib} `{Sorter} (log : list logentry) (fuzz : Z)
    (mergefrom mergeto : merge_pattern) (heap : list changeset) (out : list nat) :
  createchangeset log fuzz mergefrom mergeto = Ok (heap, out) →
  ∃ k, f <$> heap = (f <$> w_heap (before_walk log fuzz)) ++ replicate k (f inhabitant).
Proof.
  unfold createchangeset. intros (w & Hwalk & (_ & _ & [= <- <-])%bind_Ok)%bind_Ok.
  rewrite number_frame. by eapply walk_frame.
Qed.

End Frame.

(** *** The addresses in the list of changesets *)

Lemma length_foldl_update (g : list changeset → nat → changeset)
    (heap : list changeset) (changesets : list nat) :
  length (foldl (fun heap a => <[a := g heap a]> heap) heap changesets) = length heap.
Proof.
  revert heap. induction changesets as [|a changesets IH]; intros heap; [done|].
  simpl. by rewrite IH, length_insert.
Qed.

Lemma group_entries_seq (fuzz : Z) (log : list logentry) :
  ∀ heap changesets c heap' changesets',
    changesets = seq 0 (length heap) →
    group_entries fuzz log heap changesets c = (heap', changesets') →
    changesets' = seq 0 (length heap').
Proof.
  induction log as [|e log IH]; intros heap changesets c heap' changesets' Hseq; simpl.
  - by intros [= <- <-].
  - destruct (c ≫= _) as [[a c']|].
    + apply IH. by rewrite length_insert.
    + apply IH. rewrite length_app, seq_app, Hseq. done.
Qed.

(** Before the walk the list of changesets holds every address of the heap
    once. *)
Lemma before_walk_addresses `{PathLib} `{Sorter} (log : list logentry) (fuzz : Z) :
  w_changesets (before_walk log fuzz) ≡ₚ seq 0 (length (w_heap (before_walk log fuzz))).
Proof.
  unfold before_walk.
  destruct (group_entries fuzz _ [] [] None) as [heap0 changesets0] eqn:Hgroup.
  apply group_entries_seq in Hgroup; [|done]. cbn [w_changesets w_heap].
  etrans; [apply sort_by_perm|]. unfold assign_tags, sort_files.
  rewrite (length_foldl_update
             (fun heap a => set_cs_tags _ (heap !!! a))).
  rewrite (length_foldl_update
             (fun heap a => set_cs_entries _ (heap !!! a))).
  by rewrite Hgroup.
Qed.

Lemma mergeto_step_addresses (mergeto : option (re * nat)) (w : wstate)
    (heap : list changeset) :
  ∃ k, length (w_heap (mergeto_step mergeto w heap)) = length heap + k
       ∧ w_changesets (mergeto_step mergeto w heap)
         ≡ₚ w_changesets w ++ seq (length heap) k.
Proof.
  unfold mergeto_step.
  destruct (mergeto_target _ _) as [m|];
    [|exists 0; simpl; by rewrite Nat.add_0_r, app_nil_r].
  destruct (w_branches w !! m) as [j|];
    [|exists 0; simpl; by rewrite Nat.add_0_r, app_nil_r].
  destruct (negb _); [|exists 0; simpl; by rewrite Nat.add_0_r, app_nil_r].
  exists 1. cbn [w_heap w_changesets seq]. split; [by rewrite length_app|].
  unfold list_insert_at. rewrite <- Permutation_middle, take_drop.
  apply Permutation_cons_append.
Qed.

Lemma walk_step_addresses `{ui : Ui}
    (mergefrom mergeto : option (re * nat)) (w w' : wstate) :
  walk_step mergefrom mergeto w = Ok w' →
  w_changesets w ≡ₚ seq 0 (length (w_heap w)) →
  w_changesets w' ≡ₚ seq 0 (length (w_heap w')).
Proof.
  unfold walk_step.
  intros (heap1 & H1 & (heap2 & H2 & (heap3 & H3 & [= <-])%bind_Ok)%bind_Ok)%bind_Ok Hw.
  destruct (mergeto_step_addresses mergeto w heap3) as (k & Hlen & Hcs).
  rewrite Hcs, Hlen, seq_app, Hw.
  assert (length heap3 = length (w_heap w)) as ->; [|done].
  rewrite <- (length_fmap cs_id heap3), <- (length_fmap cs_id (w_heap w)).
  f_equal.
  etrans; [by eapply (mergefrom_parent_frame cs_id)|].
  etrans; [by eapply (mergepoint_parent_frame cs_id)|].
  by eapply (primary_parent_frame cs_id).
Qed.

Lemma walk_addresses `{ui : Ui}
    (fuel : nat) (mergefrom mergeto : option (re * nat)) (w w' : wstate) :
  walk fuel mergefrom mergeto w = Ok w' →
  w_changesets w ≡ₚ seq 0 (length (w_heap w)) →
  w_changesets w' ≡ₚ seq 0 (length (w_heap w')).
Proof.
  revert w. induction fuel as [|fuel IH]; intros w; simpl.
  - destruct (w_i w <? w_n w); [discriminate|]. by intros [= <-].
  - destruct (w_i w <? w_n w); [|by intros [= <-]].
    intros (w1 & Hstep & Hwalk)%bind_Ok Hw.
    eapply IH; [done|]. by eapply walk_step_addresses.
Qed.

Lemma length_number (heap : list changeset) (changesets : list nat) :
  length (number heap changesets) = length heap.
Proof.
  rewrite <- (length_fmap cs_entries), <- (length_fmap cs_entries heap).
  f_equal. by apply (number_frame cs_entries).
Qed.

Lemma number_snoc (heap : list changeset) (changesets : list nat) (a : nat) :
  number heap (changesets ++ [a])
  = <[a := set_cs_id (Some (S (length changesets))) (number heap changesets !!! a)]>
      (number heap changesets).
Proof.
  unfold number. rewrite imap_app, foldl_app. simpl.
  by rewrite Nat.add_0_r.
Qed.

Lemma number_id (heap : list changeset) (changesets : list nat) :
  NoDup changesets → (∀ a, a ∈ changesets → a < length heap) →
  ∀ k a, changesets !! k = Some a → cs_id (number heap changesets !!! a) = Some (S k).
Proof.
  induction changesets as [|b changesets IH] using rev_ind; intros Hnd Hlt k a Hk;
    [done|].
  apply NoDup_app in Hnd as (Hnd & Hnin & _).
  rewrite number_snoc, list_lookup_total_insert, length_number.
  destruct (decide (k < length changesets)) as [Hk'|Hk'].
  - rewrite lookup_app_l in Hk by done.
    destruct (decide _) as [[-> _]|_].
    + exfalso. eapply Hnin; [by eapply list_elem_of_lookup_2|left].
    + apply IH; [done| |done]. intros a' Ha'. apply Hlt, elem_of_app. by left.
  - rewrite lookup_app_r in Hk by lia.
    destruct (k - length changesets) as [|n] eqn:Hn; [|done].
    injection Hk as ->. assert (k = length changesets) as -> by lia.
    destruct (decide _) as [_|Hn']; [done|].
    exfalso. apply Hn'. split; [done|]. apply Hlt, elem_of_app. right. left.
Qed.

(** Where the addresses of a heap are the changesets of the walk, the
    changesets kept are distinct and [number] gives them their ranks. *)
Lemma number_drop_synthetic (heap : list changeset) (changesets : list nat) :
  changesets ≡ₚ seq 0 (length heap) →
  let out := drop_synthetic heap changesets in
  NoDup out
  ∧ ∀ k a, out !! k = Some a →
      a < length (number heap out) ∧ cs_id (number heap out !!! a) = Some (S k).
Proof.
  intros Hw out.
  assert (NoDup changesets) as Hnd by (rewrite Hw; apply NoDup_seq).
  assert (∀ a, a ∈ changesets → a < length heap) as Hlt.
  { intros a. rewrite Hw, elem_of_seq. lia. }
  assert (∀ a, a ∈ out → a < length heap) as Hlt'.
  { intros a [_ Ha]%list_elem_of_filter. by apply Hlt. }
  split; [by apply NoDup_filter|].
  intros k a Hk. split.
  - rewrite length_number. by eapply Hlt', list_elem_of_lookup_2.
  - apply number_id; [by apply NoDup_filter|done..].
Qed.

(** X7.  The changesets that [createchangeset] returns are distinct objects,
    numbered from 1 in the order of the list. *)
Theorem createchangeset_numbers `{PathLib} `{Sorter} `{ui : Ui}
    (log : list logentry) (fuzz : Z)
    (mergefrom mergeto : merge_pattern) (heap : list changeset) (out : list nat) :
  createchangeset log fuzz mergefrom mergeto = Ok (heap, out) →
  NoDup out
  ∧ ∀ k a, out !! k = Some a → a < length heap ∧ cs_id (heap !!! a) = Some (S k).
Proof.
  unfold createchangeset. intros (w & Hwalk & (_ & _ & [= <- <-])%bind_Ok)%bind_Ok.
  apply walk_addresses in Hwalk as Hw; [|apply before_walk_addresses].
  by apply number_drop_synthetic.
Qed.

Lemma createchangeset_numbers_witness :
  ∃ heap,
    createchangeset log_mergeto 60 pattern_default pattern_default
    = Ok (heap, [1; 3; 0; 4; 2])
    ∧ cs_id (heap !!! 0) = Some 3.
Proof.
  exists (value ([], [])
            (createchangeset log_mergeto 60 pattern_default pattern_default)).1.
  assert (createchangeset log_mergeto 60 pattern_default pattern_default
          = Ok ((value ([], [])
                   (createchangeset log_mergeto 60 pattern_default pattern_default)).1,
                [1; 3; 0; 4; 2])) as Hcs
    by (apply ok_pair_value; vm_refl).
  split; [exact Hcs|].
  apply (proj2 (createchangeset_numbers _ _ _ _ _ _ Hcs) 2 0). reflexivity.
Defined.

(** *** Properties of changesets that every pass keeps

    [R] holds of the entries of the log; [P] holds of the changeset built
    from an entry, is kept when an entry is absorbed, when the entries are
    rearranged and when the tags are assigned, and by the parent walk. *)

Section Changesets.
Context `{PathLib} `{Sorter} `{ui : Ui}.
Variable fuzz : Z.
Variable R : logentry → Prop.
Variable P : changeset → Prop.
Hypothesis P_default : P inhabitant.
Hypothesis P_new : ∀ e, R e → P (from_logentry e).
Hypothesis P_add : ∀ c e, R e → P c → _can_cover c e fuzz = true → P (_add c e).
Hypothesis P_entries : ∀ c l, P c → l ≡ₚ cs_entries c → P (set_cs_entries l c).
Hypothesis P_tags : ∀ c v, P c → P (set_cs_tags v c).
Hypothesis P_parents : ∀ v c, P c → P (set_cs_parents v c).
Hypothesis P_mergepoint : ∀ v c, P c → P (set_cs_mergepoint v c).
Hypothesis P_id : ∀ v c, P c → P (set_cs_id v c).
Hypothesis P_merge : ∀ a b c d, P (from_merge a b c d).

Lemma group_entries_inv (log : list logentry) :
  ∀ heap changesets c heap' changesets',
    Forall R log → Forall P heap → (∀ a, c = Some a → a < length heap) →
    group_entries fuzz log heap changesets c = (heap', changesets') →
    Forall P heap'.
Proof.
  induction log as [|e log IH];
    intros heap changesets c heap' changesets' Hlog Hheap Hc; simpl.
  - by intros [= <- _].
  - apply Forall_cons in Hlog as [He Hlog].
    destruct (c ≫= _) as [[a c']|] eqn:Hadd.
    + destruct c as [a0|]; [|done]. simpl in Hadd.
      unfold add_entry in Hadd.
      destruct (_can_cover (heap !!! a0) e fuzz) eqn:Hcover; [|done].
      simpl in Hadd. injection Hadd as <- <-.
      apply IH; [done| |].
      * apply Forall_insert; [done|]. apply P_add; [done| |done].
        apply Forall_lookup_total_1; [done|]. by apply Hc.
      * intros a Ha. rewrite length_insert. by apply Hc.
    + apply IH; [done| |].
      * apply Forall_app_2; [done|]. repeat constructor. by apply P_new.
      * intros a [= <-]. rewrite length_app. simpl. lia.
Qed.

Lemma before_walk_inv (log : list logentry) :
  Forall R log → Forall P (w_heap (before_walk log fuzz)).
Proof.
  intros Hlog. unfold before_walk.
  destruct (group_entries fuzz _ [] [] None) as [heap0 changesets0] eqn:Hgroup.
  cbn [w_heap].
  apply group_entries_inv in Hgroup; [|by rewrite sort_by_perm|done|done].
  unfold assign_tags. generalize (collect_globaltags (sort_files heap0 changesets0)
    (sort_by (fun l r => (cscmp (sort_files heap0 changesets0 !!! l)
                            (sort_files heap0 changesets0 !!! r) <? 0)%Z) changesets0)).
  intros globaltags.
  generalize (sort_by (fun l r => (cscmp (sort_files heap0 changesets0 !!! l)
                            (sort_files heap0 changesets0 !!! r) <? 0)%Z) changesets0).
  intros changesets1.
  assert (Forall P (sort_files heap0 changesets0)) as Hsorted.
  { unfold sort_files. clear changesets1 globaltags. revert heap0 Hgroup.
    induction changesets0 as [|a l IH]; intros heap Hheap; [done|].
    simpl. apply IH.
    apply (heap_update_inv P P_default heap a
             (fun c => set_cs_entries (sort_by by_split_path (cs_entries c)) c));
      [|done].
    intros c Hc. apply P_entries; [done|]. apply sort_by_perm. }
  revert Hsorted. generalize (sort_files heap0 changesets0).
  induction changesets1 as [|a l IH]; intros heap Hheap; [done|].
  simpl. apply IH.
  set (v := sort_by str_lt _).
  by apply (heap_update_inv P P_default heap a (set_cs_tags v)); auto.
Qed.

(** Every object of the heap that [createchangeset] returns has the
    property. *)
Lemma createchangeset_inv (log : list logentry) (mergefrom mergeto : merge_pattern)
    (heap : list changeset) (out : list nat) :
  Forall R log →
  createchangeset log fuzz mergefrom mergeto = Ok (heap, out) →
  ∀ a, P (heap !!! a).
Proof.
  intros Hlog. unfold createchangeset.
  intros (w & Hwalk & (_ & _ & [= <- <-])%bind_Ok)%bind_Ok a.
  apply (heap_lookup_inv P P_default).
  apply number_inv; [done..|].
  eapply walk_inv; [done..| |exact Hwalk].
  by apply before_walk_inv.
Qed.

End Changesets.

(** *** The entries of the changesets *)

Lemma concat_Permutation {A} (l l' : list (list A)) : l ≡ₚ l' → concat l ≡ₚ concat l'.
Proof.
  induction 1 as [|x l l' _ IH|x y l|l l' l'' _ IH1 _ IH2]; simpl.
  - done.
  - by rewrite IH.
  - by rewrite !app_assoc, (Permutation_app_comm y x).
  - by rewrite IH1.
Qed.

Lemma concat_replicate_nil {A} (k : nat) : concat (replicate k ([] : list A)) = [].
Proof. by induction k. Qed.

Lemma concat_insert_Permutation {A} (l : list (list A)) (a : nat) (x v : list A) :
  l !! a = Some x → concat (<[a := v]> l) ++ x ≡ₚ concat l ++ v.
Proof.
  revert a. induction l as [|y l IH]; intros [|a]; simpl; try done.
  - intros [= ->]. rewrite <- !app_assoc.
    by rewrite (Permutation_app_comm (concat l) x), Permutation_app_swap_app,
      (Permutation_app_comm (concat l) v).
  - intros Ha. rewrite <- !app_assoc. by rewrite (IH _ Ha).
Qed.

Lemma fmap_lookup_total_seq (heap : list changeset) :
  (heap !!!.) <$> seq 0 (length heap) = heap.
Proof.
  induction heap as [|c heap IH] using rev_ind; [done|].
  rewrite length_app, seq_app, fmap_app. simpl. f_equal.
  - etrans; [|exact IH]. apply list_fmap_ext.
    intros i a [-> Hi]%lookup_seq. by apply lookup_total_app_l.
  - by rewrite lookup_total_app_r, Nat.sub_diag.
Qed.

Lemma group_entries_concat (fuzz : Z) (log : list logentry) :
  ∀ heap changesets c heap' changesets',
    (∀ a, c = Some a → a < length heap) →
    group_entries fuzz log heap changesets c = (heap', changesets') →
    concat (cs_entries <$> heap') ≡ₚ concat (cs_entries <$> heap) ++ log.
Proof.
  induction log as [|e log IH]; intros heap changesets c heap' changesets' Hc; simpl.
  - intros [= <- _]. by rewrite app_nil_r.
  - destruct (c ≫= _) as [[a c']|] eqn:Hadd.
    + destruct c as [a0|]; [|done]. simpl in Hadd.
      unfold add_entry in Hadd.
      destruct (negb (_can_cover (heap !!! a0) e fuzz)); [done|].
      simpl in Hadd. injection Hadd as <- <-.
      intros Hgroup. apply IH in Hgroup; [|intros a Ha; rewrite length_insert; auto].
      rewrite Hgroup. change (e :: log) with ([e] ++ log).
      rewrite (app_assoc _ [e] log). apply Permutation_app_tail.
      destruct (lookup_lt_is_Some_2 heap a0 (Hc a0 eq_refl)) as [c0 Hc0].
      rewrite (list_lookup_total_correct _ _ _ Hc0), list_fmap_insert.
      apply (Permutation_app_inv_r (cs_entries c0)).
      rewrite (concat_insert_Permutation _ a0 (cs_entries c0))
        by (by rewrite list_lookup_fmap, Hc0).
      simpl. by rewrite <- !app_assoc, (Permutation_app_comm (cs_entries c0)).
    + intros Hgroup. apply IH in Hgroup; [|intros ? [= <-]; rewrite length_app; simpl; lia].
      rewrite Hgroup, fmap_app, concat_app. simpl.
      by rewrite <- app_assoc.
Qed.

Lemma sort_files_concat `{PathLib} `{Sorter} (heap : list changeset)
    (changesets : list nat) :
  concat (cs_entries <$> sort_files heap changesets) ≡ₚ concat (cs_entries <$> heap).
Proof.
  unfold sort_files. revert heap.
  induction changesets as [|a changesets IH]; intros heap; [done|].
  simpl. rewrite IH. destruct (heap !! a) as [c|] eqn:Ha.
  - rewrite (list_lookup_total_correct _ _ _ Ha), list_fmap_insert.
    apply (Permutation_app_inv_r (cs_entries c)).
    rewrite (concat_insert_Permutation _ a (cs_entries c))
      by (by rewrite list_lookup_fmap, Ha).
    simpl. by rewrite sort_by_perm.
  - rewrite list_insert_ge; [done|]. by apply lookup_ge_None.
Qed.

Lemma assign_tags_entries_fmap `{Sorter} (globaltags : gmap string nat)
    (heap : list changeset) (changesets : list nat) :
  cs_entries <$> assign_tags globaltags heap changesets = cs_entries <$> heap.
Proof.
  unfold assign_tags. revert heap.
  induction changesets as [|a changesets IH]; intros heap; [done|].
  simpl. rewrite IH. set (v := sort_by str_lt _).
  by apply (fmap_update cs_entries (set_cs_tags v)).
Qed.

Lemma before_walk_concat `{PathLib} `{Sorter} (log : list logentry) (fuzz : Z) :
  concat (cs_entries <$> w_heap (before_walk log fuzz)) ≡ₚ log.
Proof.
  unfold before_walk.
  destruct (group_entries fuzz _ [] [] None) as [heap0 changesets0] eqn:Hgroup.
  cbn [w_heap]. rewrite assign_tags_entries_fmap, sort_files_concat.
  apply group_entries_concat in Hgroup; [|done].
  rewrite Hgroup. simpl. apply sort_by_perm.
Qed.

(** X8.  The changesets returned share out the log: every entry of the log is
    in one returned changeset, once, except for entries marked synthetic,
    which may be dropped with their changeset; and the changesets hold
    nothing else. *)
Theorem createchangeset_partitions_log `{PathLib} `{Sorter} `{ui : Ui}
    (log : list logentry)
    (fuzz : Z) (mergefrom mergeto : merge_pattern)
    (heap : list changeset) (out : list nat) :
  createchangeset log fuzz mergefrom mergeto = Ok (heap, out) →
  ∃ dropped,
    log ≡ₚ concat ((fun a => cs_entries (heap !!! a)) <$> out) ++ dropped
    ∧ Forall (fun e => synthetic e = true) dropped.
Proof.
  intros Hcs.
  assert (∀ a, cs_synthetic (heap !!! a) = true
               → Forall (fun e => synthetic e = true) (cs_entries (heap !!! a))) as Hsyn.
  { apply (createchangeset_inv fuzz (fun _ => True)
             (fun c => cs_synthetic c = true
                       → Forall (fun e => synthetic e = true) (cs_entries c)))
      with (log := log) (mergefrom := mergefrom) (mergeto := mergeto) (out := out);
      try done.
    - intros e _ Hs. by repeat constructor.
    - intros c e _ _ _. simpl. destruct (cs_entries c); [|done].
      intros Hs. by repeat constructor.
    - intros c l Hc Hl Hs. simpl. rewrite Hl. by apply Hc.
    - by apply Forall_forall. }
  destruct (createchangeset_frame cs_entries ltac:(done) ltac:(done) ltac:(done)
              ltac:(done) _ _ _ _ _ _ Hcs) as [k Hentries].
  revert Hcs. unfold createchangeset. intros (w & Hwalk & (_ & _ & [= Hheap <-])%bind_Ok)%bind_Ok.
  apply walk_addresses in Hwalk as Hw; [|apply before_walk_addresses].
  rewrite <- (length_number (w_heap w) (drop_synthetic (w_heap w) (w_changesets w))),
    Hheap in Hw.
  set (entries_at := fun a => cs_entries (heap !!! a)).
  assert (concat (entries_at <$> w_changesets w) ≡ₚ log) as Hall.
  { rewrite (fmap_Permutation _ _ _ Hw).
    assert (entries_at <$> seq 0 (length heap) = cs_entries <$> heap) as ->.
    { rewrite <- (fmap_lookup_total_seq heap) at 2. by rewrite <- list_fmap_compose. }
    change (cs_entries inhabitant) with ([] : list logentry) in Hentries.
    by rewrite Hentries, concat_app, concat_replicate_nil, app_nil_r,
      before_walk_concat. }
  exists (concat (entries_at <$>
            filter (fun a => ¬ negb (cs_synthetic (w_heap w !!! a))) (w_changesets w))).
  split.
  - rewrite <- concat_app, <- fmap_app. unfold drop_synthetic.
    by rewrite (filter_app_complement
                  (fun a => negb (cs_synthetic (w_heap w !!! a))) (w_changesets w)).
  - apply Forall_concat, Forall_fmap, Forall_forall.
    intros a [Ha _]%list_elem_of_filter. apply Hsyn.
    rewrite <- Hheap, number_synthetic.
    by destruct (cs_synthetic (w_heap w !!! a)).
Qed.

Lemma createchangeset_partitions_log_witness :
  ∃ heap dropped,
    createchangeset log_mergepoint 60 pattern_default pattern_default = Ok (heap, [1])
    ∧ log_mergepoint ≡ₚ concat ((fun a => cs_entries (heap !!! a)) <$> [1]) ++ dropped
    ∧ Forall (fun e => synthetic e = true) dropped.
Proof.
  exists (value ([], [])
            (createchangeset log_mergepoint 60 pattern_default pattern_default)).1.
  assert (createchangeset log_mergepoint 60 pattern_default pattern_default
          = Ok ((value ([], [])
                   (createchangeset log_mergepoint 60 pattern_default pattern_default)).1,
                [1])) as Hcs
    by (apply ok_pair_value; vm_refl).
  destruct (createchangeset_partitions_log _ _ _ _ _ _ Hcs) as (dropped & Hlog & Hsyn).
  exists dropped. split; [exact Hcs|]. split; [exact Hlog|exact Hsyn].
Defined.

Lemma can_cover_attributes (c : changeset) (e : logentry) (fuzz : Z) :
  _can_cover c e fuzz = true →
  Some (branchpoints e) = cs_branchpoints c
  ∧ commitid e = cs_commitid c
  ∧ (commitid e = None →
     author e = cs_author c ∧ branch e = cs_branch c ∧ comment e = cs_comment c).
Proof.
  unfold _can_cover.
  destruct (bool_decide_reflect (Some (branchpoints e) = cs_branchpoints c)) as [Hbp|];
    [|done].
  simpl. destruct (cs_commitid c) as [cid|] eqn:Hcid.
  - intros Hc. apply bool_decide_eq_true in Hc. rewrite Hc. by split_and!.
  - intros Hcov.
    apply andb_true_iff in Hcov as [Hcov Hdate].
    apply andb_true_iff in Hcov as [Hcov Hfile].
    apply andb_true_iff in Hcov as [Hcov Hcomment].
    apply andb_true_iff in Hcov as [Hcov Hbranch].
    apply andb_true_iff in Hcov as [He Hauthor].
    apply bool_decide_eq_true in He, Hbranch.
    apply String.eqb_eq in Hcomment, Hauthor.
    by split_and!.
Qed.

(** X9.  Every entry of a changeset in the result is an entry of the log, and
    the changeset stands for its entries: they have its branchpoints and its
    commitid, and when they carry no commitid also its author, its branch
    and its log message. *)
Theorem createchangeset_attributes `{PathLib} `{Sorter} `{ui : Ui} (log : list logentry)
    (fuzz : Z) (mergefrom mergeto : merge_pattern)
    (heap : list changeset) (out : list nat) :
  createchangeset log fuzz mergefrom mergeto = Ok (heap, out) →
  ∀ a e, e ∈ cs_entries (heap !!! a) →
    e ∈ log
    ∧ Some (branchpoints e) = cs_branchpoints (heap !!! a)
    ∧ commitid e = cs_commitid (heap !!! a)
    ∧ (commitid e = None →
       author e = cs_author (heap !!! a) ∧ branch e = cs_branch (heap !!! a)
       ∧ comment e = cs_comment (heap !!! a)).
Proof.
  intros Hcs a.
  apply (createchangeset_inv fuzz (fun e => e ∈ log)
           (fun c => ∀ e, e ∈ cs_entries c →
              e ∈ log
              ∧ Some (branchpoints e) = cs_branchpoints c
              ∧ commitid e = cs_commitid c
              ∧ (commitid e = None →
                 author e = cs_author c ∧ branch e = cs_branch c
                 ∧ comment e = cs_comment c)))
    with (log := log) (mergefrom := mergefrom) (mergeto := mergeto) (out := out);
    try done.
  - intros e He. by apply not_elem_of_nil in He.
  - intros e' He' e ->%list_elem_of_singleton. by split_and!.
  - intros c e' He' Hc Hcover e [He|He]%elem_of_app.
    + by apply Hc.
    + apply list_elem_of_singleton in He as ->.
      split; [done|]. by apply (can_cover_attributes c e' fuzz).
  - intros c l Hc Hl e He. apply Hc. by rewrite <- Hl.
  - intros ? ? ? ? e He. by apply not_elem_of_nil in He.
  - by apply Forall_forall.
Qed.

Lemma createchangeset_attributes_witness :
  ∃ heap,
    createchangeset log_sliding 60 pattern_default pattern_default = Ok (heap, [0])
    ∧ entry "b" [1; 1]%Z None 50 "alice" "init" ∈ log_sliding
    ∧ cs_author (heap !!! 0) = "alice".
Proof.
  exists (value ([], [])
            (createchangeset log_sliding 60 pattern_default pattern_default)).1.
  assert (createchangeset log_sliding 60 pattern_default pattern_default
          = Ok ((value ([], [])
                   (createchangeset log_sliding 60 pattern_default pattern_default)).1,
                [0])) as Hcs
    by (apply ok_pair_value; vm_refl).
  split; [exact Hcs|].
  destruct (createchangeset_attributes _ _ _ _ _ _ Hcs 0
              (entry "b" [1; 1]%Z None 50 "alice" "init"))
    as (Hlog & _ & _ & Hattr); [vm_decide|].
  split; [exact Hlog|]. symmetry. apply Hattr. reflexivity.
Defined.

(** X10.  The sets [_files] and [_versions] of a changeset in the result hold the
    files and the revisions of its entries, so that [is_child] answers
    whether an entry of the one changeset has a revision of the other as its
    parent. *)
Theorem createchangeset_versions `{PathLib} `{Sorter} `{ui : Ui} (log : list logentry)
    (fuzz : Z) (mergefrom mergeto : merge_pattern)
    (heap : list changeset) (out : list nat) :
  createchangeset log fuzz mergefrom mergeto = Ok (heap, out) →
  (∀ a f, f ∈ cs_files (heap !!! a) ↔ f ∈ file <$> cs_entries (heap !!! a))
  ∧ (∀ a v, v ∈ cs_versions (heap !!! a)
            ↔ v ∈ (fun e => (rcs e, revision e)) <$> cs_entries (heap !!! a))
  ∧ (∀ a b, is_child (heap !!! a) (heap !!! b) = true
            ↔ ∃ e e', e ∈ cs_entries (heap !!! a) ∧ e' ∈ cs_entries (heap !!! b)
                      ∧ rcs e = rcs e' ∧ parent e = Some (revision e')).
Proof.
  intros Hcs.
  assert (∀ a,
            (∀ f, f ∈ cs_files (heap !!! a) ↔ f ∈ file <$> cs_entries (heap !!! a))
            ∧ (∀ v, v ∈ cs_versions (heap !!! a)
                    ↔ v ∈ (fun e => (rcs e, revision e)) <$> cs_entries (heap !!! a)))
    as Hsets.
  { apply (createchangeset_inv fuzz (fun _ => True)
             (fun c => (∀ f, f ∈ cs_files c ↔ f ∈ file <$> cs_entries c)
                       ∧ (∀ v, v ∈ cs_versions c
                               ↔ v ∈ (fun e => (rcs e, revision e)) <$> cs_entries c)))
      with (log := log) (mergefrom := mergefrom) (mergeto := mergeto) (out := out);
      try done.
    - split; intros x; simpl; by rewrite elem_of_empty, elem_of_nil.
    - intros e _. split; intros x; simpl;
        rewrite list_elem_of_singleton, elem_of_union, elem_of_singleton, elem_of_empty;
        tauto.
    - intros c e _ [Hf Hv] _. split; intros x; simpl;
        rewrite fmap_app, elem_of_app, elem_of_union, elem_of_singleton;
        simpl; rewrite list_elem_of_singleton; [rewrite Hf|rewrite Hv]; tauto.
    - intros c l [Hf Hv] Hl. split; intros x; simpl; rewrite Hl; [apply Hf|apply Hv].
    - intros ? ? ? ?. split; intros x; simpl; by rewrite elem_of_empty, elem_of_nil.
    - by apply Forall_forall. }
  split; [apply Hsets|]. split; [apply Hsets|].
  intros a b. unfold is_child. rewrite existsb_exists. split.
  - intros (e & He%list_elem_of_In & Hp).
    destruct (parent e) as [p|] eqn:Hparent; [|done].
    apply bool_decide_eq_true, (proj2 (Hsets b)), list_elem_of_fmap in Hp
      as (e' & [= Hrcs ->] & He').
    by exists e, e'.
  - intros (e & e' & He & He' & Hrcs & Hparent). exists e.
    split; [by apply list_elem_of_In|]. rewrite Hparent.
    apply bool_decide_eq_true, (proj2 (Hsets b)), list_elem_of_fmap.
    exists e'. by rewrite Hrcs.
Qed.

Lemma createchangeset_versions_witness :
  ∃ heap,
    createchangeset log_sliding 60 pattern_default pattern_default = Ok (heap, [0])
    ∧ ("b" ∈ cs_files (heap !!! 0) ↔ "b" ∈ file <$> cs_entries (heap !!! 0)).
Proof.
  exists (value ([], [])
            (createchangeset log_sliding 60 pattern_default pattern_default)).1.
  assert (createchangeset log_sliding 60 pattern_default pattern_default
          = Ok ((value ([], [])
                   (createchangeset log_sliding 60 pattern_default pattern_default)).1,
                [0])) as Hcs
    by (apply ok_pair_value; vm_refl).
  split; [exact Hcs|].
  exact (proj1 (createchangeset_versions _ _ _ _ _ _ Hcs) 0 "b").
Defined.

(** *** The tags of the changesets *)

Lemma elem_of_tagset (l : list logentry) (s : gset string) (tag : string) :
  tag ∈ foldl (fun s e => list_to_set (tags e) ∪ s) s l
  ↔ tag ∈ s ∨ ∃ e, e ∈ l ∧ tag ∈ tags e.
Proof.
  revert s. induction l as [|e l IH]; intros s; simpl.
  - split; [by left|]. intros [?|(e & He & _)]; [done|]. by apply not_elem_of_nil in He.
  - rewrite IH, elem_of_union, elem_of_list_to_set. split.
    + intros [[Ht|Hs]|(e' & He' & Ht)]; [right; exists e; split; [left|done]|by left|].
      right. exists e'. split; [by right|done].
    + intros [Hs|(e' & [->|He']%elem_of_cons & Ht)]; [by left; right|by left; left|].
      right. by exists e'.
Qed.

Lemma assign_tags_snoc `{Sorter} (globaltags : gmap string nat) (heap : list changeset)
    (changesets : list nat) (a : nat) :
  assign_tags globaltags heap (changesets ++ [a])
  = <[a := set_cs_tags
             (sort_by str_lt
                (filter (fun tag => bool_decide (globaltags !! tag = Some a))
                   (elements
                      (foldl (fun s e => list_to_set (tags e) ∪ s) (∅ : gset string)
                         (cs_entries (assign_tags globaltags heap changesets !!! a))))))
             (assign_tags globaltags heap changesets !!! a)]>
      (assign_tags globaltags heap changesets).
Proof. unfold assign_tags. by rewrite foldl_snoc. Qed.

(** A tag given to the changeset at an address that the loop visits is a
    tag of one of its entries, and the changeset is the one that
    [globaltags] records for the tag. *)
Lemma assign_tags_tags `{Sorter} (globaltags : gmap string nat) (heap : list changeset)
    (changesets : list nat) (a : nat) (tag : string) :
  a ∈ changesets → a < length heap →
  tag ∈ cs_tags (assign_tags globaltags heap changesets !!! a) →
  globaltags !! tag = Some a ∧ ∃ e, e ∈ cs_entries (heap !!! a) ∧ tag ∈ tags e.
Proof.
  induction changesets as [|b changesets IH] using rev_ind; intros Ha Hlt;
    [by apply not_elem_of_nil in Ha|].
  rewrite assign_tags_snoc, list_lookup_total_insert.
  destruct (decide _) as [[-> _]|Hne].
  - cbn [cs_tags set_cs_tags]. rewrite sort_by_perm.
    intros [Hg%bool_decide_unpack Htag%elem_of_elements]%list_elem_of_filter.
    split; [done|].
    apply elem_of_tagset in Htag as [Htag%elem_of_empty|Htag]; [done|].
    assert (cs_entries (assign_tags globaltags heap changesets !!! a)
            = cs_entries (heap !!! a)) as <-; [|done].
    apply (lookup_total_fmap_replicate cs_entries _ _ 0).
    by rewrite assign_tags_entries_fmap, app_nil_r.
  - apply IH; [|done].
    apply elem_of_app in Ha as [Ha|Ha%list_elem_of_singleton]; [done|].
    exfalso. apply Hne. split; [done|].
    unfold assign_tags. rewrite (length_foldl_update
             (fun heap a => set_cs_tags _ (heap !!! a))). by subst.
Qed.

(** X11.  A tag is given to at most one of the changesets returned, and only to a
    changeset that has an entry with this tag. *)
Theorem createchangeset_tags `{PathLib} `{Sorter} `{ui : Ui} (log : list logentry)
    (fuzz : Z) (mergefrom mergeto : merge_pattern)
    (heap : list changeset) (out : list nat) :
  createchangeset log fuzz mergefrom mergeto = Ok (heap, out) →
  ∀ a tag, tag ∈ cs_tags (heap !!! a) →
    (∃ e, e ∈ cs_entries (heap !!! a) ∧ tag ∈ tags e)
    ∧ ∀ b, tag ∈ cs_tags (heap !!! b) → b = a.
Proof.
  intros Hcs.
  destruct (createchangeset_frame cs_tags ltac:(done) ltac:(done) ltac:(done)
              ltac:(done) _ _ _ _ _ _ Hcs) as [k1 Htags].
  destruct (createchangeset_frame cs_entries ltac:(done) ltac:(done) ltac:(done)
              ltac:(done) _ _ _ _ _ _ Hcs) as [k2 Hentries].
  pose proof (lookup_total_fmap_replicate cs_tags _ _ _ Htags) as Htags'.
  pose proof (lookup_total_fmap_replicate cs_entries _ _ _ Hentries) as Hentries'.
  pose proof (before_walk_addresses log fuzz) as Haddr.
  assert (∃ globaltags heap1 changesets1,
            w_heap (before_walk log fuzz) = assign_tags globaltags heap1 changesets1
            ∧ w_changesets (before_walk log fuzz) = changesets1)
    as (globaltags & heap1 & changesets1 & Hheap & Hchangesets).
  { unfold before_walk. destruct (group_entries fuzz _ [] [] None). by eexists _, _, _. }
  assert (∀ a tag, tag ∈ cs_tags (heap !!! a) →
            globaltags !! tag = Some a
            ∧ ∃ e, e ∈ cs_entries (heap !!! a) ∧ tag ∈ tags e) as Hall.
  { intros a tag. rewrite Htags', Hentries'.
    destruct (decide (a < length (w_heap (before_walk log fuzz)))) as [Hlt|Hge].
    - rewrite Hheap. intros Htag.
      assert (cs_entries (assign_tags globaltags heap1 changesets1 !!! a)
              = cs_entries (heap1 !!! a)) as ->.
      { apply (lookup_total_fmap_replicate cs_entries _ _ 0).
        by rewrite assign_tags_entries_fmap, app_nil_r. }
      revert Htag. apply assign_tags_tags.
      + rewrite <- Hchangesets, Haddr. apply elem_of_seq. lia.
      + rewrite Hheap in Hlt. unfold assign_tags in Hlt.
        by rewrite (length_foldl_update
             (fun heap a => set_cs_tags _ (heap !!! a))) in Hlt.
    - rewrite list_lookup_total_alt, lookup_ge_None_2 by lia.
      by intros ?%not_elem_of_nil. }
  intros a tag Ha. destruct (Hall a tag Ha) as [Hg He]. split; [done|].
  intros b Hb. destruct (Hall b tag Hb) as [Hg' _]. congruence.
Qed.

Lemma createchangeset_tags_witness :
  ∃ heap,
    createchangeset
      [set_tags ["v1"] (entry "a" [1; 1]%Z None 100 "alice" "init");
       set_tags ["v1"] (entry "a" [1; 2]%Z None 500 "alice" "more")]
      60 pattern_default pattern_default = Ok (heap, [0; 1])
    ∧ cs_tags (heap !!! 0) = []
    ∧ cs_tags (heap !!! 1) = ["v1"]
    ∧ ∀ b, "v1" ∈ cs_tags (heap !!! b) → b = 1.
Proof.
  set (log := [set_tags ["v1"] (entry "a" [1; 1]%Z None 100 "alice" "init");
               set_tags ["v1"] (entry "a" [1; 2]%Z None 500 "alice" "more")]).
  exists (value ([], []) (createchangeset log 60 pattern_default pattern_default)).1.
  assert (createchangeset log 60 pattern_default pattern_default
          = Ok ((value ([], [])
                   (createchangeset log 60 pattern_default pattern_default)).1,
                [0; 1])) as Hcs
    by (apply ok_pair_value; vm_refl).
  split; [exact Hcs|]. split; [vm_refl|]. split; [vm_refl|].
  apply (createchangeset_tags _ _ _ _ _ _ Hcs 1 "v1"). vm_decide.
Defined.

(** *** The order of the changesets and the end of the loops *)

Lemma scan_candidates_lt (heap : list changeset) (b : option string) (cands : list nat) :
  ∀ candidate p q,
    scan_candidates heap b cands candidate p = Ok (Some q) →
    p = Some q ∨ (candidate ≤ q ∧ q < candidate + length cands).
Proof.
  induction cands as [|a cands IH]; intros candidate p q; simpl.
  - intros [= ->]. by left.
  - intros ([] & _ & Hscan)%bind_Ok.
    + apply IH in Hscan as [[= <-]|?]; right; lia.
    + destruct p as [p|]; [injection Hscan as ->; by left|].
      apply IH in Hscan as [?|?]; [done|right; lia].
Qed.

Lemma scan_candidates_returns (heap : list changeset) (b : option string)
    (cands : list nat) :
  ∀ candidate p, scan_candidates heap b cands candidate p ≠ Loops.
Proof.
  induction cands as [|a cands IH]; intros candidate p; simpl; [done|].
  unfold branch_in. destruct (cs_branchpoints (heap !!! a)) as [s|]; simpl; [|done].
  destruct (match b with Some x => bool_decide (x ∈ s) | None => false end);
    [apply IH|].
  destruct p; [done|apply IH].
Qed.

Lemma skip_synthetic_before (heap : list changeset) (changesets : list nat) :
  parents_before heap changesets →
  ∀ fuel k a q,
    changesets !! k = Some a → skip_synthetic fuel heap a = Ok (Some q) →
    ∃ j, j ≤ k ∧ changesets !! j = Some q.
Proof.
  intros Hbefore. induction fuel as [|fuel IH]; intros k a q Hk; simpl; [done|].
  destruct (cs_synthetic (heap !!! a)); [|intros [= <-]; by exists k].
  intros (_ & _ & Hskip)%bind_Ok.
  destruct (cs_parents (heap !!! a)) as [|r rs] eqn:Hparents; [done|].
  destruct (Hbefore k a r Hk) as (j' & Hj' & Hr); [rewrite Hparents; left|].
  destruct (IH j' r q Hr Hskip) as (j & Hj & Hq). exists j. split; [lia|done].
Qed.

Lemma skip_synthetic_returns (heap : list changeset) (changesets : list nat) :
  parents_before heap changesets →
  ∀ fuel k a, changesets !! k = Some a → k < fuel → skip_synthetic fuel heap a ≠ Loops.
Proof.
  intros Hbefore. induction fuel as [|fuel IH]; intros k a Hk Hfuel; simpl; [lia|].
  destruct (cs_synthetic (heap !!! a)); [|done].
  unfold py_assert. destruct (_ <=? _)%nat; simpl; [|done].
  destruct (cs_parents (heap !!! a)) as [|r rs] eqn:Hparents; [done|].
  destruct (Hbefore k a r Hk) as (j' & Hj' & Hr); [rewrite Hparents; left|].
  apply (IH j'); [done|lia].
Qed.

Lemma parents_before_update (heap : list changeset) (changesets : list nat) (a : nat)
    (g : changeset → changeset) :
  (∀ c, cs_parents (g c) = cs_parents c) →
  parents_before heap changesets →
  parents_before (<[a := g (heap !!! a)]> heap) changesets.
Proof.
  intros Hg Hbefore k a' p Hk.
  rewrite (lookup_total_fmap_replicate cs_parents heap _ 0);
    [by apply Hbefore|].
  by rewrite app_nil_r, fmap_update.
Qed.

Lemma parents_before_append (heap : list changeset) (changesets : list nat)
    (i a q : nat) :
  NoDup changesets → parents_before heap changesets →
  changesets !! i = Some a → (∃ j, j < i ∧ changesets !! j = Some q) →
  parents_before (append_parent a q heap) changesets.
Proof.
  intros Hnd Hbefore Hi Hq k a' p Hk. unfold append_parent.
  rewrite list_lookup_total_insert. destruct (decide _) as [[<- _]|_].
  - cbn [cs_parents set_cs_parents].
    intros [Hp|Hp%list_elem_of_singleton]%elem_of_app; [by eapply Hbefore|].
    subst p. by rewrite (NoDup_lookup _ _ _ _ Hnd Hk Hi).
  - by apply Hbefore.
Qed.

Lemma lookup_insert_at {A} (l : list A) (i k : nat) (x : A) :
  i ≤ length l →
  list_insert_at i x l !! k
  = if decide (k < i) then l !! k else if decide (k = i) then Some x else l !! (k - 1).
Proof.
  intros Hi. unfold list_insert_at.
  destruct (decide (k < i)) as [Hlt|Hge].
  - rewrite lookup_app_l by (rewrite length_take; lia). by apply lookup_take_lt.
  - rewrite lookup_app_r by (rewrite length_take; lia).
    rewrite length_take, Nat.min_l by done.
    destruct (decide (k = i)) as [->|Hne]; [by rewrite Nat.sub_diag|].
    destruct (k - i) as [|m] eqn:Hm; [lia|]. simpl.
    rewrite lookup_drop. f_equal. lia.
Qed.

Section Ordered.
Context `{ui : Ui}.
Variables (mergefrom mergeto : option (re * nat)) (w : wstate).
Hypothesis Hw : walk_ordered w.
Hypothesis Hi : w_i w < w_n w.

Lemma ordered_NoDup : NoDup (w_changesets w).
Proof. destruct Hw as (_ & _ & Hperm & _). rewrite Hperm. apply NoDup_seq. Qed.

Lemma ordered_current : w_changesets w !! w_i w = Some (w_changesets w !!! w_i w).
Proof.
  destruct Hw as (Hn & _). apply list_lookup_lookup_total_lt. by rewrite <- Hn.
Qed.

Lemma ordered_branch (b : option string) (j : nat) :
  w_branches w !! b = Some j →
  j < w_i w ∧ w_changesets w !! j = Some (w_changesets w !!! j).
Proof.
  destruct Hw as (Hn & _ & _ & Hbranches & _). intros Hj%Hbranches.
  split; [done|]. apply list_lookup_lookup_total_lt. lia.
Qed.

Lemma ordered_length : length (w_changesets w) = length (w_heap w).
Proof. destruct Hw as (_ & _ & Hperm & _). by rewrite Hperm, length_seq. Qed.

Lemma primary_parent_ordered :
  primary_parent w ≠ Loops
  ∧ ∀ heap, primary_parent w = Ok heap →
      parents_before heap (w_changesets w) ∧ length heap = length (w_heap w).
Proof.
  pose proof Hw as (Hn & _ & _ & _ & Hbefore).
  assert (∀ p, match w_branches w !! cs_branch (w_heap w !!! (w_changesets w !!! w_i w)) with
               | Some p => Ok (Some p)
               | None => scan_candidates (w_heap w)
                           (cs_branch (w_heap w !!! (w_changesets w !!! w_i w)))
                           (take (w_i w) (w_changesets w)) 0 None
               end = Ok (Some p) →
               p < w_i w ∧ w_changesets w !! p = Some (w_changesets w !!! p)) as Hp.
  { intros p. destruct (w_branches w !! _) as [j|] eqn:Hj.
    - intros [= <-]. by apply ordered_branch in Hj.
    - intros [?|[_ Hlt]]%scan_candidates_lt; [done|].
      rewrite length_take in Hlt.
      split; [lia|]. apply list_lookup_lookup_total_lt. lia. }
  unfold primary_parent. split.
  - destruct (match w_branches w !! _ with Some p => _ | None => _ end) as [[p|]| |]
      eqn:Hfind; cbn [mbind result_bind]; try done.
    + destruct (Hp p eq_refl) as [Hlt Hlookup].
      assert (skip_synthetic (S (length (w_heap w))) (w_heap w) (w_changesets w !!! p)
              ≠ Loops) as Hskip.
      { apply (skip_synthetic_returns _ _ Hbefore _ p); [done|].
        rewrite <- ordered_length. lia. }
      by destruct (skip_synthetic _ _ _) as [[q|]| |].
    + clear Hp. destruct (w_branches w !! _); [done|].
      by apply scan_candidates_returns in Hfind.
  - intros heap ([p|] & Hfind & Hrest)%bind_Ok; [|by injection Hrest as <-].
    destruct (Hp p Hfind) as [Hlt Hlookup].
    apply bind_Ok in Hrest as ([q|] & Hskip & Hq); injection Hq as <-; [|done].
    split; [|apply length_insert].
    destruct (skip_synthetic_before _ _ Hbefore _ _ _ _ Hlookup Hskip) as (j & Hj & Hq).
    apply (parents_before_append _ _ (w_i w));
      [apply ordered_NoDup|done|apply ordered_current|].
    exists j. split; [lia|done].
Qed.

Lemma mergepoint_parent_ordered (heap heap' : list changeset) :
  parents_before heap (w_changesets w) →
  mergepoint_parent w heap = Ok heap' →
  parents_before heap' (w_changesets w) ∧ length heap' = length heap.
Proof.
  intros Hbefore. unfold mergepoint_parent.
  destruct (cs_mergepoint _) as [mp|]; [|by intros [= <-]].
  destruct (String.eqb mp ""); [by intros [= <-]|].
  destruct (w_branches w !! _) as [j|] eqn:Hj; [|discriminate].
  intros [= <-]. split; [|by unfold append_parent; rewrite !length_insert].
  apply ordered_branch in Hj as [Hlt Hlookup].
  apply (parents_before_append _ _ (w_i w));
    [apply ordered_NoDup| |apply ordered_current|by exists j].
  by apply (parents_before_update heap _ _ (set_cs_mergepoint _)).
Qed.

Lemma mergefrom_parent_ordered (heap heap' : list changeset) :
  parents_before heap (w_changesets w) →
  mergefrom_parent mergefrom w heap = Ok heap' →
  parents_before heap' (w_changesets w) ∧ length heap' = length heap.
Proof.
  intros Hbefore. unfold mergefrom_parent.
  destruct mergefrom as [[r ngroups]|]; [|by intros [= <-]].
  destruct (search r _) as [m|]; [|by intros [= <-]].
  destruct (ngroups <? 1); [discriminate|].
  destruct (w_branches w !! _) as [j|] eqn:Hj;
    [|destruct ui_warn; simpl; [by intros [= <-]|done..]].
  destruct (_ && _); intros [= <-]; [|done].
  split; [|apply length_insert].
  apply ordered_branch in Hj as [Hlt Hlookup].
  by apply (parents_before_append _ _ (w_i w));
    [apply ordered_NoDup| |apply ordered_current|exists j].
Qed.

Lemma mergeto_step_ordered (heap : list changeset) :
  parents_before heap (w_changesets w) → length heap = length (w_heap w) →
  walk_ordered (mergeto_step mergeto w heap).
Proof.
  intros Hbefore Hlen.
  pose proof Hw as (Hn & _ & Hperm & Hbranches & _).
  assert (walk_ordered
            {| w_heap := heap; w_changesets := w_changesets w;
               w_branches := <[cs_branch (heap !!! (w_changesets w !!! w_i w)) := w_i w]>
                               (w_branches w);
               w_i := S (w_i w); w_n := w_n w |}) as Hrecord.
  { split_and!; simpl; [done|lia|by rewrite Hlen| |done].
    intros b j [[_ <-]|[_ Hj%Hbranches]]%lookup_insert_Some; lia. }
  unfold mergeto_step.
  destruct (mergeto_target _ _) as [m|]; [|done].
  destruct (w_branches w !! m) as [j0|] eqn:Hj0; [|done].
  destruct (negb _); [|done].
  apply ordered_branch in Hj0 as [Hj0 Hto].
  assert (∀ k a, w_changesets w !! k = Some a → a < length heap) as Hvalid.
  { intros k a Hk%list_elem_of_lookup_2. rewrite Hperm, elem_of_seq in Hk. lia. }
  split_and!; cbn [w_heap w_changesets w_branches w_i w_n].
  - unfold list_insert_at.
    rewrite length_app, length_take, length_cons, length_drop. lia.
  - lia.
  - unfold list_insert_at. rewrite <- Permutation_middle, take_drop.
    rewrite length_app, seq_app, Hlen, <- Hperm. simpl.
    apply Permutation_cons_append.
  - intros b j [[_ <-]|[_ Hj%Hbranches]]%lookup_insert_Some; lia.
  - intros k a p. rewrite !lookup_insert_at by lia.
    destruct (decide (k < S (w_i w))) as [Hk|Hk].
    + intros Ha. rewrite lookup_total_app_l by (by eapply Hvalid).
      intros (j & Hj & Hp)%(Hbefore _ _ _ Ha). exists j. split; [done|].
      rewrite lookup_insert_at by lia. by rewrite decide_True by lia.
    + destruct (decide (k = S (w_i w))) as [->|Hne].
      * intros [= <-]. rewrite lookup_total_app_r, Nat.sub_diag by done.
        cbn [lookup_total list_lookup_total cs_parents from_merge set_cs_parents].
        intros [->|[->|[]%elem_of_nil]%elem_of_cons]%elem_of_cons.
        -- exists (w_i w). split; [lia|]. rewrite lookup_insert_at by lia.
           rewrite decide_True by lia. apply ordered_current.
        -- exists j0. split; [lia|]. rewrite lookup_insert_at by lia.
           by rewrite decide_True by lia.
      * intros Ha. rewrite lookup_total_app_l by (by eapply Hvalid).
        intros (j & Hj & Hp)%(Hbefore _ _ _ Ha).
        destruct (decide (j < S (w_i w))) as [Hj'|Hj'].
        -- exists j. split; [lia|]. rewrite lookup_insert_at by lia.
           by rewrite decide_True by lia.
        -- exists (S j). split; [lia|]. rewrite lookup_insert_at by lia.
           rewrite decide_False, decide_False by lia.
           by replace (S j - 1) with j by lia.
Qed.

(** One iteration of the loop keeps the invariant and comes to an end. *)
Lemma walk_step_ordered :
  walk_step mergefrom mergeto w ≠ Loops
  ∧ ∀ w', walk_step mergefrom mergeto w = Ok w' → walk_ordered w'.
Proof.
  destruct primary_parent_ordered as [Hloop Hprimary].
  unfold walk_step. split.
  - destruct (primary_parent w) as [heap1| |]; simpl; [|done..].
    unfold mergepoint_parent, mergefrom_parent, ui_warn.
    repeat (lazymatch goal with
            | |- context [match ?x with _ => _ end] => destruct x
            end; simpl; try done).
  - intros w' (heap1 & H1 & (heap2 & H2 & (heap3 & H3 & [= <-])%bind_Ok)%bind_Ok)%bind_Ok.
    destruct (Hprimary _ H1) as [Hb1 Hl1].
    destruct (mergepoint_parent_ordered _ _ Hb1 H2) as [Hb2 Hl2].
    destruct (mergefrom_parent_ordered _ _ Hb2 H3) as [Hb3 Hl3].
    apply mergeto_step_ordered; [done|lia].
Qed.

End Ordered.

Lemma before_walk_ordered `{PathLib} `{Sorter} (log : list logentry) (fuzz : Z) :
  walk_ordered (before_walk log fuzz).
Proof.
  pose proof (before_walk_addresses log fuzz) as Hperm.
  assert (Forall (fun c => cs_parents c = []) (w_heap (before_walk log fuzz))) as Hparents.
  { by apply (before_walk_inv fuzz (fun _ => True)); [..|apply Forall_forall]. }
  split_and!; [| |done| |].
  - unfold before_walk. by destruct (group_entries fuzz _ [] [] None).
  - unfold before_walk. destruct (group_entries fuzz _ [] [] None). simpl. lia.
  - unfold before_walk. by destruct (group_entries fuzz _ [] [] None).
  - intros k a p _.
    rewrite (heap_lookup_inv (fun c => cs_parents c = []) eq_refl _ a Hparents).
    by intros ?%not_elem_of_nil.
Qed.

Lemma walk_keeps_ordered `{ui : Ui} (mergefrom mergeto : option (re * nat)) (fuel : nat) :
  ∀ w, walk_ordered w → fuel = w_n w - w_i w →
       walk fuel mergefrom mergeto w ≠ Loops
       ∧ ∀ w', walk fuel mergefrom mergeto w = Ok w' → walk_ordered w'.
Proof.
  induction fuel as [|fuel IH]; intros w Hw Hfuel; simpl.
  - destruct (Nat.ltb_spec (w_i w) (w_n w)); [lia|].
    split; [done|]. by intros w' [= <-].
  - destruct (Nat.ltb_spec (w_i w) (w_n w)) as [Hi|Hi];
      [|split; [done|]; by intros w' [= <-]].
    destruct (walk_step_ordered mergefrom mergeto w Hw Hi) as [Hloop Hstep].
    destruct (walk_step mergefrom mergeto w) as [w1| |] eqn:Hw1; simpl; [|done..].
    apply IH; [by apply Hstep|].
    apply walk_step_measure in Hw1. lia.
Qed.

Lemma filter_lookup_order {A} (P : A → Prop) `{∀ x, Decision (P x)} (l : list A) :
  ∀ j k x y, j < k → l !! j = Some x → l !! k = Some y → P x → P y →
    ∃ j' k', j' < k' ∧ filter P l !! j' = Some x ∧ filter P l !! k' = Some y.
Proof.
  induction l as [|z l IH]; intros j k x y Hjk Hj Hk Hx Hy; [done|].
  destruct k as [|k]; [lia|]. simpl in Hk. destruct j as [|j].
  - injection Hj as ->. rewrite filter_cons_True by done.
    assert (y ∈ filter P l) as [m Hm]%list_elem_of_lookup_1.
    { apply list_elem_of_filter. split; [done|]. by eapply list_elem_of_lookup_2. }
    exists 0, (S m). split; [lia|done].
  - simpl in Hj. destruct (IH j k x y) as (j' & k' & Hlt & Hj' & Hk'); [lia|done..|].
    destruct (decide (P z)).
    + rewrite filter_cons_True by done. exists (S j'), (S k'). split; [lia|done].
    + rewrite filter_cons_False by done. by exists j', k'.
Qed.

(** X12.  In the list that [createchangeset] returns a
    parent stands before its child, and so has the smaller id; a parent that
    is not in the list is a synthetic changeset that was dropped. *)
Theorem createchangeset_parents_before `{PathLib} `{Sorter} `{ui : Ui}
    (log : list logentry)
    (fuzz : Z) (mergefrom mergeto : merge_pattern)
    (heap : list changeset) (out : list nat) :
  createchangeset log fuzz mergefrom mergeto = Ok (heap, out) →
  ∀ k a p, out !! k = Some a → p ∈ cs_parents (heap !!! a) →
    (∃ j, j < k ∧ out !! j = Some p ∧ cs_id (heap !!! p) = Some (S j))
    ∨ ((p ∉ out) ∧ p < length heap ∧ cs_synthetic (heap !!! p) = true).
Proof.
  unfold createchangeset. intros (w & Hwalk & (_ & _ & [= Hheap Hout])%bind_Ok)%bind_Ok.
  apply walk_addresses in Hwalk as Hw; [|apply before_walk_addresses].
  destruct (number_drop_synthetic _ _ Hw) as [Hnd Hid].
  cbv zeta in Hnd, Hid. rewrite Hheap in Hid. rewrite Hout in Hnd, Hid.
  destruct (walk_keeps_ordered (compile default_mergefrom mergefrom)
              (compile default_mergeto mergeto) (w_n (before_walk log fuzz))
              _ (before_walk_ordered log fuzz)) as [_ Hordered].
  { unfold before_walk. destruct (group_entries fuzz _ [] [] None). simpl. lia. }
  destruct (Hordered _ Hwalk) as (_ & _ & Hperm & _ & Hbefore).
  intros k a p Hk Hp.
  assert (cs_parents (heap !!! a) = cs_parents (w_heap w !!! a)) as Hparents.
  { rewrite <- Hheap. apply (lookup_total_fmap_replicate cs_parents _ _ 0).
    rewrite app_nil_r. by apply number_frame. }
  rewrite Hparents in Hp.
  assert (a ∈ w_changesets w) as [k1 Hk1]%list_elem_of_lookup_1.
  { apply list_elem_of_lookup_2 in Hk. rewrite <- Hout in Hk.
    by apply list_elem_of_filter in Hk as [_ ?]. }
  destruct (Hbefore k1 a p Hk1 Hp) as (j1 & Hj1 & Hpj).
  destruct (cs_synthetic (w_heap w !!! p)) eqn:Hsyn.
  - right. split_and!.
    + rewrite <- Hout. intros [Hkeep _]%list_elem_of_filter. by rewrite Hsyn in Hkeep.
    + rewrite <- Hheap, length_number.
      apply list_elem_of_lookup_2 in Hpj. rewrite Hperm, elem_of_seq in Hpj. lia.
    + by rewrite <- Hheap, number_synthetic.
  - left.
    destruct (filter_lookup_order (fun a => negb (cs_synthetic (w_heap w !!! a)))
                (w_changesets w) j1 k1 p a) as (j' & k' & Hlt & Hj' & Hk');
      [done..|by rewrite Hsyn| |].
    { apply list_elem_of_lookup_2 in Hk. rewrite <- Hout in Hk.
      by apply list_elem_of_filter in Hk as [? _]. }
    fold (drop_synthetic (w_heap w) (w_changesets w)) in Hj', Hk'.
    rewrite Hout in Hj', Hk'.
    rewrite (NoDup_lookup _ _ _ _ Hnd Hk Hk').
    exists j'. split; [done|]. split; [done|]. by apply Hid.
Qed.

Lemma createchangeset_parents_before_witness :
  ∃ heap,
    createchangeset log_mergeto 60 pattern_default pattern_default
    = Ok (heap, [1; 3; 0; 4; 2])
    ∧ cs_parents (heap !!! 4) = [0; 3]
    ∧ ((∃ j, j < 3 ∧ [1; 3; 0; 4; 2] !! j = Some 0 ∧ cs_id (heap !!! 0) = Some (S j))
       ∨ ((0 ∉ [1; 3; 0; 4; 2]) ∧ 0 < length heap ∧ cs_synthetic (heap !!! 0) = true)).
Proof.
  exists (value ([], [])
            (createchangeset log_mergeto 60 pattern_default pattern_default)).1.
  assert (createchangeset log_mergeto 60 pattern_default pattern_default
          = Ok ((value ([], [])
                   (createchangeset log_mergeto 60 pattern_default pattern_default)).1,
                [1; 3; 0; 4; 2])) as Hcs
    by (apply ok_pair_value; vm_refl).
  split; [exact Hcs|]. split; [vm_refl|].
  apply (createchangeset_parents_before _ _ _ _ _ _ Hcs 3 4 0); [reflexivity|].
  vm_decide.
Defined.

(** *** The outcomes of createchangeset *)

Lemma skip_synthetic_raises (fuel : nat) (heap : list changeset) (p : nat) (e : exn) :
  skip_synthetic fuel heap p = Raise e →
  e = AssertionError "synthetic changeset cannot have multiple parents".
Proof.
  revert p. induction fuel as [|fuel IH]; intros p; simpl; [done|].
  destruct (cs_synthetic (heap !!! p)); [|done].
  unfold py_assert. destruct (_ <=? _)%nat; simpl; [|by intros [= <-]].
  destruct (cs_parents (heap !!! p)); [done|apply IH].
Qed.

Lemma scan_candidates_raises (heap : list changeset) (b : option string)
    (cands : list nat) (e : exn) :
  ∀ candidate p, scan_candidates heap b cands candidate p = Raise e → e = TypeError.
Proof.
  induction cands as [|a cands IH]; intros candidate p; simpl; [done|].
  unfold branch_in. destruct (cs_branchpoints (heap !!! a)) as [s|]; simpl;
    [|by intros [= <-]].
  destruct (match b with Some x => bool_decide (x ∈ s) | None => false end);
    [apply IH|].
  destruct p; [done|apply IH].
Qed.

Lemma mergefrom_parent_raises `{ui : Ui} (mergefrom : option (re * nat)) (w : wstate)
    (heap : list changeset) (e : exn) :
  mergefrom_parent mergefrom w heap = Raise e →
  e = IndexError ∨ (e = AttributeError "warn" ∧ has_warn = false).
Proof.
  unfold mergefrom_parent, ui_warn.
  destruct mergefrom as [[r ngroups]|]; [|done].
  destruct (search r _) as [m|]; [|done].
  destruct (ngroups <? 1); [intros [= <-]; by left|].
  destruct (w_branches w !! _) as [j|]; [by destruct (_ && _)|].
  destruct has_warn; [done|]. intros [= <-]. by right.
Qed.

Lemma warn_odd_raises `{ui : Ui} (heap : list changeset) (odd : list (nat * nat))
    (e : exn) :
  warn_odd heap odd = Raise e → e = AttributeError "warn" ∧ has_warn = false.
Proof.
  induction odd as [|[l r] odd IH]; simpl; [done|].
  destruct (_ && _); [|apply IH].
  unfold ui_warn. destruct has_warn; [apply IH|]. by intros [= <-].
Qed.

Lemma warn_odd_ends `{ui : Ui} (heap : list changeset) (odd : list (nat * nat)) :
  warn_odd heap odd ≠ Loops.
Proof.
  induction odd as [|[l r] odd IH]; simpl; [done|].
  destruct (_ && _); [|apply IH].
  unfold ui_warn. by destruct has_warn.
Qed.

Lemma walk_step_raises `{ui : Ui}
    (mergefrom mergeto : option (re * nat)) (w : wstate) (e : exn) :
  walk_step mergefrom mergeto w = Raise e →
  e ∈ [KeyError; TypeError; IndexError;
       AssertionError "synthetic changeset cannot have multiple parents"]
  ∨ (e = AttributeError "warn" ∧ has_warn = false).
Proof.
  unfold walk_step.
  destruct (primary_parent w) as [heap1|e1|] eqn:H1; simpl; [|intros [= <-]|done].
  - destruct (mergepoint_parent w heap1) as [heap2|e2|] eqn:H2; simpl;
      [|intros [= <-]|done].
    + destruct (mergefrom_parent mergefrom w heap2) as [heap3|e3|] eqn:H3; simpl;
        [done|intros [= <-]|done].
      apply mergefrom_parent_raises in H3 as [->|H3]; [left; set_solver|by right].
    + left. revert H2. unfold mergepoint_parent.
      repeat (lazymatch goal with
              | |- context [match ?x with _ => _ end] => destruct x
              end; try done).
      intros [= <-]. set_solver.
  - left. revert H1. unfold primary_parent.
    destruct (match w_branches w !! _ with Some p => _ | None => _ end) as [[p|]|e0|]
      eqn:Hfind; cbn [mbind result_bind]; try done.
    + destruct (skip_synthetic _ _ _) as [[q|]|e0|] eqn:Hskip; simpl; try done.
      intros [= <-]. apply skip_synthetic_raises in Hskip as ->. set_solver.
    + intros [= <-]. destruct (w_branches w !! _); [done|].
      apply scan_candidates_raises in Hfind as ->. set_solver.
Qed.

Lemma walk_raises `{ui : Ui}
    (fuel : nat) (mergefrom mergeto : option (re * nat)) (e : exn) :
  ∀ w, walk fuel mergefrom mergeto w = Raise e →
       e ∈ [KeyError; TypeError; IndexError;
            AssertionError "synthetic changeset cannot have multiple parents"]
       ∨ (e = AttributeError "warn" ∧ has_warn = false).
Proof.
  induction fuel as [|fuel IH]; intros w; simpl.
  - by destruct (w_i w <? w_n w).
  - destruct (w_i w <? w_n w); [|done].
    destruct (walk_step mergefrom mergeto w) as [w1|e1|] eqn:Hstep; simpl; [apply IH| |done].
    intros [= <-]. by eapply walk_step_raises.
Qed.

(** X13.  [createchangeset] comes to an end on every log: it returns,
    or it raises [KeyError] (a mergepoint on a branch not seen yet),
    [TypeError] (a merge changeset among the candidates for the start of a
    branch), [IndexError] (a [mergefrom] pattern without group), the
    assertion on synthetic changesets, or [AttributeError] when it calls
    [ui.warn] on an object that has no such method, as the [ui] of [main]. *)
Theorem createchangeset_outcome `{PathLib} `{Sorter} `{ui : Ui}
    (log : list logentry) (fuzz : Z)
    (mergefrom mergeto : merge_pattern) :
  (∃ heap out, createchangeset log fuzz mergefrom mergeto = Ok (heap, out))
  ∨ (∃ e, createchangeset log fuzz mergefrom mergeto = Raise e
          ∧ (e ∈ [KeyError; TypeError; IndexError;
                  AssertionError "synthetic changeset cannot have multiple parents"]
             ∨ (e = AttributeError "warn" ∧ has_warn = false))).
Proof.
  unfold createchangeset.
  destruct (walk_keeps_ordered (compile default_mergefrom mergefrom)
              (compile default_mergeto mergeto) (w_n (before_walk log fuzz))
              _ (before_walk_ordered log fuzz)) as [Hloop _].
  { unfold before_walk. destruct (group_entries fuzz _ [] [] None). simpl. lia. }
  destruct (walk _ _ _ _) as [w|e|] eqn:Hwalk; cbn [mbind result_bind]; [|right|done].
  - cbv zeta. destruct (warn_odd _ _) as [[]|e|] eqn:Hodd; cbn [mbind result_bind].
    + left. by eexists _, _.
    + right. exists e. split; [done|]. right. by eapply warn_odd_raises.
    + by apply warn_odd_ends in Hodd.
  - exists e. split; [done|]. by eapply walk_raises.
Qed.

(** The two calls of [ui.warn], evaluated: a commit message that names an
    unknown branch, and two changesets each of which is a child of the
    other.  With the [ui] of [main] the call raises; with an object that has
    the method, [createchangeset] returns. *)
Lemma createchangeset_unknown_mergefrom_branch :
  createchangeset log_unknown_branch 60 pattern_default pattern_default
  = Raise (AttributeError "warn")
  ∧ is_ok (createchangeset (ui := ui_warns) log_unknown_branch 60
             pattern_default pattern_default) = true.
Proof. split; vm_refl. Qed.

Lemma createchangeset_odd_pair :
  odd_pairs log_odd 60 = [(1, 0)]
  ∧ createchangeset log_odd 60 pattern_default pattern_default
    = Raise (AttributeError "warn")
  ∧ (value ([], []) (createchangeset (ui := ui_warns) log_odd 60
                       pattern_default pattern_default)).2 = [1; 0].
Proof. split_and!; vm_refl. Qed.

(** ** The helpers of cvsps.py *)

Lemma str_chars (s : string) : str (chars s) = s.
Proof. apply string_of_list_ascii_of_string. Qed.

Lemma chars_app (a b : string) : chars (a +:+ b) = chars a ++ chars b.
Proof. induction a as [|c a IH]; [done|]. simpl. by rewrite IH. Qed.

Lemma str_app (a b : list ascii) : str (a ++ b) = str a +:+ str b.
Proof. induction a as [|c a IH]; [done|]. simpl. by rewrite IH. Qed.

Lemma length_chars (s : string) : length (chars s) = String.length s.
Proof. induction s as [|c s IH]; [done|]. simpl. by rewrite IH. Qed.

Lemma length_str (l : list ascii) : String.length (str l) = length l.
Proof. by rewrite <- length_chars, chars_str. Qed.

Lemma slice_take {A} (l : list A) (k : Z) :
  (0 ≤ k)%Z → slice l None (Some k) = take (Z.to_nat k) l.
Proof.
  intros Hk. unfold slice, clamp. cbn [from_option].
  change (Z.to_nat 0) with 0%nat. rewrite drop_0.
  destruct (Z.ltb_spec k 0) as [?|_]; [lia|].
  rewrite Z.sub_0_r.
  destruct (Z.le_ge_cases (Z.of_nat (length l)) k).
  - rewrite Z.min_l, Z.max_r, Nat2Z.id by lia.
    rewrite take_ge by done. symmetry. apply take_ge. lia.
  - by rewrite Z.min_r, Z.max_r by lia.
Qed.

(** X14.  [ellipsis] returns a text that fits unchanged; for
    [maxlength >= 3] it cuts a longer text down to [maxlength] characters,
    the last three being dots; for [maxlength] between 0 and 2 (or negative)
    the slice counts from the end, and a longer text comes back with
    [max(3, len(text) + maxlength)] characters, more than [maxlength]. *)
Theorem ellipsis_length (text : string) (maxlength : Z) :
  let n := Z.of_nat (String.length text) in
  ((n ≤ maxlength)%Z → ellipsis text maxlength = text)
  ∧ ((3 ≤ maxlength < n)%Z →
     ellipsis text maxlength
     = str (take (Z.to_nat (maxlength - 3)) (chars text)) +:+ "..."
     ∧ Z.of_nat (String.length (ellipsis text maxlength)) = maxlength)
  ∧ ((maxlength < 3)%Z → (maxlength < n)%Z →
     Z.of_nat (String.length (ellipsis text maxlength)) = Z.max 3 (n + maxlength)).
Proof.
  intros n. unfold ellipsis. fold n. split_and!.
  - intros Hn. by destruct (Z.leb_spec n maxlength); [|lia].
  - intros Hn. destruct (Z.leb_spec n maxlength); [lia|].
    unfold str_slice. rewrite slice_take by lia. split; [done|].
    rewrite <- length_chars, chars_app, chars_str, length_app, length_take, length_chars.
    simpl. lia.
  - intros Hm Hn. destruct (Z.leb_spec n maxlength); [lia|].
    unfold str_slice.
    replace (maxlength - 3)%Z with (- (3 - maxlength))%Z by lia.
    rewrite slice_drop_suffix by lia.
    rewrite <- length_chars, chars_app, chars_str, length_app, length_take, length_chars.
    simpl. lia.
Qed.

Lemma ellipsis_length_witness :
  ellipsis "abcdef" 6 = "abcdef"
  ∧ ellipsis "abcdef" 5 = "ab..."
  ∧ Z.of_nat (String.length (ellipsis "abcdef" 2)) = 8%Z.
Proof.
  pose proof (ellipsis_length "abcdef" 6) as (H6 & _ & _).
  pose proof (ellipsis_length "abcdef" 5) as (_ & H5 & _).
  pose proof (ellipsis_length "abcdef" 2) as (_ & _ & H2).
  split; [apply H6; vm_decide|]. split; [apply H5; vm_decide|].
  apply H2; vm_decide.
Defined.

Lemma slice_drop {A} (l : list A) (k : nat) :
  k ≤ length l → slice l (Some (Z.of_nat k)) None = drop k l.
Proof.
  intros Hk. unfold slice, clamp. cbn [from_option].
  destruct (Z.ltb_spec (Z.of_nat k) 0) as [?|_]; [lia|].
  rewrite Z.min_r, Z.max_r, Nat2Z.id by lia.
  apply take_ge. rewrite length_drop. lia.
Qed.

Lemma subscript_last {A} (l : list A) (x : A) : subscript (l ++ [x]) (-1) = Ok x.
Proof.
  unfold subscript. rewrite length_app. cbn [length Z.ltb Z.compare].
  replace (-1 + Z.of_nat (length l + 1))%Z with (Z.of_nat (length l)) by lia.
  destruct (Z.leb_spec 0 (Z.of_nat (length l))); [|lia].
  destruct (Z.ltb_spec (Z.of_nat (length l)) (Z.of_nat (length l + 1))); [|lia].
  cbn [andb]. rewrite Nat2Z.id.
  by rewrite lookup_app_r, Nat.sub_diag.
Qed.

Lemma split_on_list_nonempty (sep : ascii) (l : list ascii) : split_on_list sep l ≠ [].
Proof.
  destruct l as [|c l]; simpl; [done|].
  destruct (Ascii.eqb c sep); [done|]. by destruct (split_on_list sep l).
Qed.

Lemma split_on_list_no_sep (sep : ascii) (l : list ascii) :
  sep ∉ l → split_on_list sep l = [l].
Proof.
  induction l as [|c l IH]; [done|]. intros Hl. simpl.
  destruct (Ascii.eqb_spec c sep) as [->|_]; [by destruct Hl; left|].
  rewrite IH; [done|]. intros ?. apply Hl. by right.
Qed.

Lemma split_on_list_app (sep : ascii) (l1 l2 : list ascii) :
  split_on_list sep (l1 ++ sep :: l2) = split_on_list sep l1 ++ split_on_list sep l2.
Proof.
  induction l1 as [|c l1 IH]; simpl.
  - by rewrite Ascii.eqb_refl.
  - destruct (Ascii.eqb c sep); rewrite IH; [done|].
    pose proof (split_on_list_nonempty sep l1).
    by destruct (split_on_list sep l1).
Qed.

(** The last piece of [s.split(sep)] is what follows the last separator. *)
Lemma split_on_last (sep : ascii) (pre last : string) :
  pre = "" ∨ (∃ pre', pre = pre' +:+ str [sep]) → sep ∉ chars last →
  subscript (split_on sep (pre +:+ last)) (-1) = Ok last.
Proof.
  intros Hpre Hlast. unfold split_on. rewrite chars_app.
  destruct Hpre as [->|[pre' ->]].
  - simpl. rewrite split_on_list_no_sep by done. simpl. by rewrite str_chars.
  - rewrite chars_app, chars_str, <- app_assoc. cbn [app].
    rewrite split_on_list_app, (split_on_list_no_sep sep (chars last)) by done.
    rewrite fmap_app. cbn [fmap list_fmap]. change (map str) with (fmap str).
    by rewrite subscript_last, str_chars.
Qed.

Lemma find_list_app (c : ascii) (l1 l2 : list ascii) (i : nat) :
  c ∉ l1 → find_list (l1 ++ c :: l2) [c] i = Some (i + length l1).
Proof.
  revert i. induction l1 as [|x l1 IH]; intros i Hl1; cbn [app find_list].
  - rewrite list_startswith_cons_singleton, Ascii.eqb_refl. simpl. f_equal. lia.
  - rewrite list_startswith_cons_singleton.
    destruct (Ascii.eqb_spec c x) as [->|_]; [by destruct Hl1; left|].
    rewrite IH; [simpl; f_equal; lia|]. intros ?. apply Hl1. by right.
Qed.

Lemma find_list_None (c : ascii) (l : list ascii) (i : nat) :
  c ∉ l → find_list l [c] i = None.
Proof.
  revert i. induction l as [|x l IH]; intros i Hl; [done|]. cbn [find_list].
  rewrite list_startswith_cons_singleton.
  destruct (Ascii.eqb_spec c x) as [->|_]; [by destruct Hl; left|].
  apply IH. intros ?. apply Hl. by right.
Qed.

Lemma find_from (s sub : string) (c : ascii) (start : Z) :
  chars sub = [c] → (0 ≤ start ≤ Z.of_nat (String.length s))%Z →
  find s sub start
  = match find_list (drop (Z.to_nat start) (chars s)) [c] (Z.to_nat start) with
    | Some i => Z.of_nat i
    | None => (-1)%Z
    end.
Proof.
  intros Hsub Hstart. unfold find, clamp. rewrite Hsub.
  destruct (Z.ltb_spec (Z.of_nat (String.length s)) start); [lia|].
  destruct (Z.ltb_spec start 0); [lia|].
  by rewrite Z.min_r, Z.max_r by lia.
Qed.

Lemma getrepopath_returns (cvspath : string) : is_ok (getrepopath cvspath) = true.
Proof.
  unfold getrepopath, split_on.
  pose proof (split_on_list_nonempty ":" (chars cvspath)) as Hne.
  destruct (split_on_list ":" (chars cvspath)) as [|p ps] using rev_ind; [done|].
  rewrite fmap_app. cbn [fmap list_fmap]. change (map str) with (fmap str).
  by rewrite subscript_last.
Qed.

(** X15.  [getrepopath] never raises.  Of a CVS path it reads what
    follows the last colon; when that has no [@] it returns the rest from the
    first slash on, so a plain path that starts with a slash comes back
    unchanged; when it has an [@] it returns the rest from the first slash
    after the first [@] on. *)
Theorem getrepopath_path (pre user host path : string) :
  let rest := host +:+ "/" +:+ path in
  (∀ cvspath, is_ok (getrepopath cvspath) = true)
  ∧ (pre = "" ∨ (∃ pre', pre = pre' +:+ ":") →
     ":"%char ∉ chars rest → "@"%char ∉ chars rest → "/"%char ∉ chars host →
     getrepopath (pre +:+ rest) = Ok ("/" +:+ path))
  ∧ (pre = "" ∨ (∃ pre', pre = pre' +:+ ":") →
     ":"%char ∉ chars (user +:+ "@" +:+ rest) → "@"%char ∉ chars user →
     "/"%char ∉ chars host →
     getrepopath (pre +:+ user +:+ "@" +:+ rest) = Ok ("/" +:+ path)).
Proof.
  intros rest. split; [apply getrepopath_returns|].
  assert (chars rest = chars host ++ "/"%char :: chars path) as Hrest.
  { unfold rest. by rewrite !chars_app. }
  split.
  - intros Hpre Hcolon Hat Hslash. unfold getrepopath.
    rewrite (split_on_last ":" pre rest) by done. cbn [mbind result_bind].
    rewrite (find_from rest "@" "@" 0) by (done || lia).
    change (Z.to_nat 0) with 0. rewrite drop_0, find_list_None by done.
    change (-1 =? -1)%Z with true. cbv iota.
    rewrite (find_from rest "/" "/" 0) by (done || lia).
    change (Z.to_nat 0) with 0. rewrite drop_0, Hrest, find_list_app by done.
    unfold str_slice. rewrite Hrest, slice_drop by (rewrite length_app; lia).
    cbn [Nat.add]. rewrite drop_app_length.
    change (str ("/"%char :: chars path)) with ("/" +:+ str (chars path)).
    by rewrite (str_chars path).
  - intros Hpre Hcolon Hat Hslash. unfold getrepopath.
    rewrite (split_on_last ":" pre (user +:+ "@" +:+ rest)) by done.
    cbn [mbind result_bind].
    assert (chars (user +:+ "@" +:+ rest)
            = chars user ++ "@"%char :: chars host ++ "/"%char :: chars path) as Hchars.
    { by rewrite !chars_app, Hrest. }
    assert (String.length (user +:+ "@" +:+ rest)
            = length (chars user) + S (length (chars host) + S (length (chars path))))
      as Hlen.
    { rewrite <- length_chars, Hchars, length_app. simpl. by rewrite length_app. }
    rewrite (find_from _ "@" "@" 0) by (done || lia).
    change (Z.to_nat 0) with 0. rewrite drop_0, Hchars, find_list_app by done.
    cbn [Nat.add].
    destruct (Z.eqb_spec (Z.of_nat (length (chars user))) (-1)); [lia|].
    rewrite (find_from _ "/" "/" (Z.of_nat (length (chars user)))) by (done || lia).
    rewrite Nat2Z.id, Hchars, drop_app_length.
    change ("@"%char :: chars host ++ "/"%char :: chars path)
      with (("@"%char :: chars host) ++ "/"%char :: chars path).
    rewrite (find_list_app "/" ("@"%char :: chars host)).
    + unfold str_slice. rewrite Hchars.
      rewrite slice_drop by (rewrite length_app; simpl; rewrite length_app; simpl; lia).
      replace (chars user ++ "@"%char :: chars host ++ "/"%char :: chars path)
        with ((chars user ++ "@"%char :: chars host) ++ "/"%char :: chars path)
        by (by rewrite <- app_assoc).
      replace (length (chars user) + length ("@"%char :: chars host))
        with (length (chars user ++ "@"%char :: chars host))
        by (by rewrite length_app).
      rewrite drop_app_length.
      change (str ("/"%char :: chars path)) with ("/" +:+ str (chars path)).
      by rewrite (str_chars path).
    + intros [Heq|?]%elem_of_cons; [done|by apply Hslash].
Qed.

Lemma getrepopath_path_witness :
  getrepopath "/foo/bar" = Ok "/foo/bar"
  ∧ getrepopath ":pserver:truc@foo.bar:c:/foo/bar" = Ok "/foo/bar"
  ∧ getrepopath "user@server/path/to/repository" = Ok "/path/to/repository".
Proof.
  pose proof (getrepopath_path "" "" "" "foo/bar") as (_ & H1 & _).
  pose proof (getrepopath_path ":pserver:truc@foo.bar:c:" "" "" "foo/bar") as (_ & H2 & _).
  pose proof (getrepopath_path "" "user" "server" "path/to/repository") as (_ & _ & H3).
  split; [apply H1; [by left|vm_decide..]|].
  split; [apply H2; [right; by exists ":pserver:truc@foo.bar:c"|vm_decide..]|].
  apply H3; [by left|vm_decide..].
Defined.

(** *** Revisions printed and read *)

Lemma isdecimal_other (c : ascii) :
  isdecimal c = true →
  isspace c = false ∧ Ascii.eqb c "-" = false ∧ Ascii.eqb c "+" = false
  ∧ Ascii.eqb c "." = false ∧ Ascii.eqb c "%" = false.
Proof. destruct c as [[] [] [] [] [] [] [] []]; vm_compute; intros; done. Qed.

Lemma chars_uint_decimal (d : Decimal.uint) :
  Forall (fun c => isdecimal c = true) (chars (NilEmpty.string_of_uint d)).
Proof. induction d; simpl; by constructor. Qed.

Lemma int_digits_uint (d : Decimal.uint) :
  ∀ (acc : nat) (prev : bool), (d = Decimal.Nil → prev = true) →
    int_digits (Z.of_nat acc) prev (chars (NilEmpty.string_of_uint d))
    = Some (Z.of_nat (Nat.of_uint_acc d acc)).
Proof.
  induction d as [|d IH|d IH|d IH|d IH|d IH|d IH|d IH|d IH|d IH|d IH];
    intros acc prev Hprev;
    [by rewrite Hprev|..];
    cbn [NilEmpty.string_of_uint chars list_ascii_of_string int_digits Nat.of_uint_acc];
    (lazymatch goal with
     | |- context [isdecimal ?c] => change (isdecimal c) with true
     end);
    cbv iota;
    (lazymatch goal with
     | |- int_digits ?z _ _ = Some (Z.of_nat (Nat.of_uint_acc _ ?n)) =>
         replace z with (Z.of_nat n)
           by (rewrite ?Nat2Z.inj_succ, Nat.tail_mul_spec, Nat2Z.inj_mul;
               vm_compute digit_val; lia)
     end);
    by apply IH.
Qed.

Lemma lstrip_no_space (c : ascii) (l : list ascii) :
  isspace c = false → lstrip_list (c :: l) = c :: l.
Proof. intros Hc. simpl. by rewrite Hc. Qed.

Lemma strip_no_space (l : list ascii) :
  Forall (fun c => isspace c = false) l → rstrip_list (lstrip_list l) = l.
Proof.
  intros Hl. destruct l as [|c l]; [done|].
  rewrite lstrip_no_space by by inversion Hl.
  unfold rstrip_list.
  assert (Forall (fun c => isspace c = false) (rev (c :: l))) as Hrev
    by by apply Forall_rev.
  destruct (rev (c :: l)) as [|d l'] eqn:Hd.
  - apply (f_equal (@length _)) in Hd. rewrite List.length_rev in Hd. done.
  - rewrite lstrip_no_space by by inversion Hrev.
    by rewrite <- Hd, rev_involutive.
Qed.

Lemma chars_str_of_nat (n : nat) :
  ∃ c l, chars (str_of_nat n) = c :: l
         ∧ Forall (fun c => isdecimal c = true) (c :: l)
         ∧ int_digits 0 false (c :: l) = Some (Z.of_nat n).
Proof.
  unfold str_of_nat.
  pose proof (chars_uint_decimal (Nat.to_uint n)) as Hdec.
  pose proof (int_digits_uint (Nat.to_uint n) 0 false) as Hint.
  pose proof (DecimalNat.Unsigned.of_to n) as Hn. unfold Nat.of_uint in Hn.
  rewrite Hn in Hint.
  assert (Nat.to_uint n ≠ Decimal.Nil) as Hnil.
  { intros Hnil. pose proof (f_equal Nat.of_uint Hnil) as H0.
    rewrite DecimalNat.Unsigned.of_to in H0. vm_compute in H0. subst n.
    vm_compute in Hnil. done. }
  destruct (Nat.to_uint n) as [|d|d|d|d|d|d|d|d|d|d] eqn:Hd; [done|..];
    cbn [NilZero.string_of_uint]; (eexists _, _; split; [reflexivity|]);
    (split; [exact Hdec|exact (Hint ltac:(done))]).
Qed.

Lemma decimal_no_space (l : list ascii) :
  Forall (fun c => isdecimal c = true) l → Forall (fun c => isspace c = false) l.
Proof.
  intros Hl. eapply Forall_impl; [exact Hl|].
  intros c Hc. by apply isdecimal_other.
Qed.

Lemma int_str_of_Z (z : Z) : int (str_of_Z z) = Ok z.
Proof.
  unfold int, str_of_Z, int_list.
  destruct (Z.ltb_spec z 0) as [Hz|Hz].
  - destruct (chars_str_of_nat (Z.to_nat (- z))) as (c & l & Hchars & Hdec & Hint).
    change (chars ("-" +:+ ?s)) with ("-"%char :: chars s).
    rewrite Hchars, strip_no_space
      by (constructor; [done|by apply decimal_no_space]).
    change (Ascii.eqb "-" "-") with true. cbv iota.
    rewrite Hint. simpl. f_equal. lia.
  - destruct (chars_str_of_nat (Z.to_nat z)) as (c & l & Hchars & Hdec & Hint).
    rewrite Hchars, strip_no_space by by apply decimal_no_space.
    destruct (isdecimal_other c) as (_ & -> & -> & _); [by inversion Hdec|].
    rewrite Hint. f_equal. lia.
Qed.

Lemma chars_str_of_Z_no_dot (z : Z) :
  Forall (fun c => Ascii.eqb c "." = false) (chars (str_of_Z z)).
Proof.
  assert (∀ n, Forall (fun c => Ascii.eqb c "." = false) (chars (str_of_nat n))) as Hnat.
  { intros n. destruct (chars_str_of_nat n) as (c & l & -> & Hdec & _).
    eapply Forall_impl; [exact Hdec|]. intros d Hd. by apply isdecimal_other. }
  unfold str_of_Z. destruct (z <? 0)%Z; [|apply Hnat].
  change (chars ("-" +:+ ?s)) with ("-"%char :: chars s).
  constructor; [done|apply Hnat].
Qed.

Lemma split_on_join (sep : ascii) (parts : list string) :
  parts ≠ [] → Forall (fun p => sep ∉ chars p) parts →
  split_on sep (join (str [sep]) parts) = parts.
Proof.
  intros Hparts Hsep. unfold split_on.
  induction parts as [|p ps IH]; [done|].
  apply Forall_cons in Hsep as [Hp Hps].
  destruct ps as [|q ps].
  - cbn [join]. rewrite split_on_list_no_sep by done. simpl. by rewrite str_chars.
  - change (join (str [sep]) (p :: q :: ps))
      with (p +:+ str [sep] +:+ join (str [sep]) (q :: ps)).
    rewrite !chars_app, chars_str.
    change ([sep] ++ ?l) with (sep :: l).
    rewrite split_on_list_app, split_on_list_no_sep by done.
    rewrite List.map_app, IH by done. simpl. by rewrite str_chars.
Qed.

Lemma mapM_int_str_of_Z (revision : list Z) :
  mapM int (str_of_Z <$> revision) = Ok revision.
Proof.
  induction revision as [|z zs IH]; [done|].
  cbn [fmap list_fmap mapM]. rewrite int_str_of_Z.
  cbn [mbind result_bind]. fold (fmap str_of_Z zs).
  change (mapM int (str_of_Z <$> zs) ≫= (λ k, mret (z :: k)) = Ok (z :: zs)).
  by rewrite IH.
Qed.

(** X16. A revision written as its numbers
    joined by dots, the way the changeset listing prints it, is read back by
    [parse_revision] as the same numbers, whatever their signs, when it has
    at least one number; the text of the empty revision is refused with a
    [ValueError]. *)
Theorem parse_revision_show_revision (revision : list Z) :
  (revision ≠ [] → parse_revision (show_revision revision) = Ok revision)
  ∧ parse_revision (show_revision []) = Raise ValueError.
Proof.
  split; [|done]. intros Hrev.
  unfold parse_revision, show_revision.
  change "."%string with (str ["."%char]).
  rewrite split_on_join.
  - apply mapM_int_str_of_Z.
  - by destruct revision.
  - apply Forall_fmap, Forall_forall. intros z _.
    pose proof (chars_str_of_Z_no_dot z) as Hz. rewrite Forall_forall in Hz.
    intros Hdot%Hz. done.
Qed.

Lemma parse_revision_show_revision_witness :
  parse_revision (show_revision [1; 2; 30; 4]%Z) = Ok [1; 2; 30; 4]%Z.
Proof.
  exact (proj1 (parse_revision_show_revision [1; 2; 30; 4]%Z) ltac:(discriminate)).
Defined.

(** *** [rcs_path] on POSIX paths *)

Lemma take_while_app_stop {A} (f : A → bool) (l1 l2 : list A) (x : A) :
  Forall (fun y => f y = true) l1 → f x = false →
  Posix.take_while f (l1 ++ x :: l2) = l1.
Proof.
  intros Hl1 Hx. induction Hl1 as [|y l1 Hy _ IH]; simpl.
  - by rewrite Hx.
  - by rewrite Hy, IH.
Qed.

Lemma take_while_all {A} (f : A → bool) (l : list A) :
  Forall (fun y => f y = true) l → Posix.take_while f l = l.
Proof. intros Hl. induction Hl as [|y l Hy _ IH]; simpl; [done|]. by rewrite Hy, IH. Qed.

Lemma no_slash_rev (D : list ascii) :
  Posix.slash ∉ D →
  Forall (fun c => negb (Ascii.eqb c Posix.slash) = true) (rev D).
Proof.
  intros HD. apply Forall_rev, Forall_forall. intros c Hc.
  destruct (Ascii.eqb_spec c Posix.slash) as [->|_]; done.
Qed.

Lemma posix_tail (A D : list ascii) :
  Posix.slash ∉ D →
  (A = [] ∨ ∃ A', A = A' ++ [Posix.slash]) →
  rev (Posix.take_while (fun c => negb (Ascii.eqb c Posix.slash)) (rev (A ++ D))) = D.
Proof.
  intros HD [->|[A' ->]].
  - rewrite app_nil_l, take_while_all by by apply no_slash_rev.
    apply rev_involutive.
  - rewrite !rev_app_distr. cbn [rev app].
    rewrite take_while_app_stop; [apply rev_involutive|by apply no_slash_rev|done].
Qed.

Lemma take_head {A} (X D : list A) : take (length (X ++ D) - length D) (X ++ D) = X.
Proof.
  rewrite length_app. replace (length X + length D - length D) with (length X) by lia.
  by rewrite take_app_length.
Qed.

Lemma posix_split_no_slash (D : list ascii) :
  Posix.slash ∉ D → Posix.split (str D) = (""%string, str D).
Proof.
  intros HD. unfold Posix.split. rewrite chars_str.
  cbv zeta. pose proof (posix_tail [] D HD (or_introl eq_refl)) as Htail.
  cbn [app] in Htail. rewrite Htail.
  by rewrite Nat.sub_diag, take_0.
Qed.

Lemma posix_split_root (D : list ascii) :
  Posix.slash ∉ D → Posix.split (str (Posix.slash :: D)) = ("/"%string, str D).
Proof.
  intros HD. unfold Posix.split. rewrite chars_str. cbv zeta.
  change (Posix.slash :: D) with ([Posix.slash] ++ D).
  rewrite (posix_tail [Posix.slash] D) by (done || by right; exists []).
  by rewrite take_head.
Qed.

Lemma posix_split_snoc (X D : list ascii) (c : ascii) :
  c ≠ Posix.slash → Posix.slash ∉ D →
  Posix.split (str (X ++ c :: Posix.slash :: D)) = (str (X ++ [c]), str D).
Proof.
  intros Hc HD. unfold Posix.split. rewrite chars_str. cbv zeta.
  replace (X ++ c :: Posix.slash :: D) with ((X ++ [c; Posix.slash]) ++ D)
    by by rewrite <- app_assoc.
  rewrite (posix_tail (X ++ [c; Posix.slash]) D)
    by (done || by right; exists (X ++ [c]); rewrite <- app_assoc).
  rewrite take_head.
  assert (forallb (Ascii.eqb Posix.slash) (X ++ [c; Posix.slash]) = false) as ->.
  { apply not_true_is_false. rewrite forallb_forall. intros Hall.
    specialize (Hall c). rewrite Ascii.eqb_sym in Hall.
    destruct (Ascii.eqb_spec c Posix.slash) as [|_]; [done|].
    discriminate Hall. apply in_or_app. right. by left. }
  rewrite rev_app_distr. cbn [rev app Posix.drop_while].
  change (Ascii.eqb Posix.slash Posix.slash) with true. cbv iota.
  rewrite Ascii.eqb_sym.
  destruct (Ascii.eqb_spec c Posix.slash) as [|_]; [done|].
  f_equal. f_equal. cbn [rev]. by rewrite rev_involutive.
Qed.

Lemma append_assoc (a b c : string) : (a +:+ b) +:+ c = a +:+ b +:+ c.
Proof.
  induction a as [|x a IH]; [done|].
  change (String x ((a +:+ b) +:+ c) = String x (a +:+ b +:+ c)). by f_equal.
Qed.

Lemma length_append (a b : string) :
  String.length (a +:+ b) = String.length a + String.length b.
Proof.
  induction a as [|x a IH]; [done|].
  change (S (String.length (a +:+ b)) = S (String.length a) + String.length b).
  by rewrite IH.
Qed.

Lemma join_snoc (sep : string) (ds : list string) (d : string) :
  ds ≠ [] → join sep (ds ++ [d]) = join sep ds +:+ sep +:+ d.
Proof.
  induction ds as [|a ds IH]; [done|]. intros _.
  destruct ds as [|b ds]; [done|].
  change (join sep ((a :: b :: ds) ++ [d]))
    with (a +:+ sep +:+ join sep ((b :: ds) ++ [d])).
  rewrite IH by done.
  change (join sep (a :: b :: ds)) with (a +:+ sep +:+ join sep (b :: ds)).
  by rewrite !append_assoc.
Qed.

Lemma component_last (d : string) :
  d ≠ ""%string → Posix.slash ∉ chars d →
  ∃ X c, chars d = X ++ [c] ∧ c ≠ Posix.slash.
Proof.
  intros Hd Hslash.
  destruct (chars d) as [|c0 l] eqn:Hchars using rev_ind.
  - destruct d; done.
  - exists l, c0. split; [done|]. intros ->. apply Hslash.
    apply elem_of_app. right. by left.
Qed.

Lemma join_last (ds : list string) :
  ds ≠ [] → Forall (fun d => d ≠ ""%string ∧ Posix.slash ∉ chars d) ds →
  ∃ X c, chars (join "/" ds) = X ++ [c] ∧ c ≠ Posix.slash.
Proof.
  intros Hds Hcomps.
  destruct ds as [|d ds'] using rev_ind; [done|]. clear IHds'.
  apply Forall_app in Hcomps as [_ [[Hd Hslash] _]%Forall_cons].
  destruct (component_last d Hd Hslash) as (X & c & Hchars & Hc).
  destruct ds' as [|a ds'].
  - by exists X, c.
  - rewrite join_snoc, !chars_app, Hchars, !app_assoc by done.
    by eexists _, c.
Qed.

Lemma posix_split_join (root : list ascii) (ds : list string) (d : string) :
  root = [] ∨ root = [Posix.slash] →
  Forall (fun d => d ≠ ""%string ∧ Posix.slash ∉ chars d) ds →
  Posix.slash ∉ chars d →
  Posix.split (str (root ++ chars (join "/" (ds ++ [d]))))
  = (str (root ++ chars (join "/" ds)), d).
Proof.
  intros Hroot Hcomps Hd.
  destruct ds as [|a ds].
  - cbn [app join chars list_ascii_of_string]. rewrite app_nil_r.
    destruct Hroot as [->| ->]; cbn [app].
    + by rewrite posix_split_no_slash, str_chars.
    + by rewrite posix_split_root, str_chars.
  - destruct (join_last (a :: ds)) as (X & c & Hchars & Hc); [done|done|].
    rewrite join_snoc, !chars_app, Hchars by done.
    change (chars "/") with [Posix.slash]. cbn [app].
    rewrite <- !app_assoc. cbn [app].
    rewrite (app_assoc root X), posix_split_snoc by done.
    by rewrite <- app_assoc, str_chars.
Qed.

Lemma length_join (ds : list string) :
  Forall (fun d => d ≠ ""%string ∧ Posix.slash ∉ chars d) ds →
  length ds ≤ String.length (join "/" ds).
Proof.
  induction 1 as [|d ds [Hd _] _ IH]; [done|].
  assert (1 ≤ String.length d) by (destruct d; [done|simpl; lia]).
  destruct ds as [|b ds]; [simpl; lia|].
  change (join "/" (d :: b :: ds)) with (d +:+ "/" +:+ join "/" (b :: ds)).
  rewrite !length_append. simpl in *. lia.
Qed.

Lemma rcs_path_loop_components (root : list ascii) (ds : list string) :
  root = [] ∨ root = [Posix.slash] →
  Forall (fun d => d ≠ ""%string ∧ Posix.slash ∉ chars d) ds →
  ∀ (fuel : nat) (comps : list string), length ds < fuel →
    rcs_path_loop fuel (str (root ++ chars (join "/" ds))) comps
    = Ok (comps ++ rev (filter (fun d => d ≠ "Attic"%string) ds)).
Proof.
  intros Hroot. induction ds as [|d ds IH] using rev_ind;
    intros Hcomps [|fuel] comps Hfuel; try (simpl in Hfuel; lia).
  - cbn [join chars list_ascii_of_string rcs_path_loop path_split Posix.pathlib].
    rewrite app_nil_r.
    assert (Posix.split (str root) = (str root, ""%string)) as ->
      by by destruct Hroot as [->| ->].
    rewrite String.eqb_refl. by rewrite app_nil_r.
  - apply Forall_app in Hcomps as [Hcomps [[Hd Hslash] _]%Forall_cons].
    cbn [rcs_path_loop path_split Posix.pathlib].
    rewrite posix_split_join by done.
    assert (String.eqb (str (root ++ chars (join "/" (ds ++ [d]))))
                       (str (root ++ chars (join "/" ds))) = false) as ->.
    { apply String.eqb_neq. intros Heq.
      apply (f_equal chars) in Heq. rewrite !chars_str in Heq.
      apply app_inv_head in Heq.
      apply (f_equal (@length _)) in Heq. rewrite !length_chars in Heq.
      assert (1 ≤ String.length d) by (destruct d; [done|simpl; lia]).
      destruct ds as [|a ds]; [simpl in Heq; lia|].
      rewrite join_snoc, !length_append in Heq by done. lia. }
    rewrite length_app in Hfuel. cbn [length] in Hfuel.
    rewrite IH by (done || lia).
    rewrite filter_app, rev_app_distr, filter_cons, filter_nil.
    assert (String.eqb d "" = false) as -> by by apply String.eqb_neq.
    destruct (String.eqb_spec d "Attic") as [->|Hattic].
    + by rewrite decide_False by (intros Hne; by apply Hne).
    + rewrite decide_True by done. cbn [negb andb rev app]. by rewrite <- app_assoc.
Qed.

Lemma posix_join_foldl (rest : list string) :
  Forall (fun d => d ≠ ""%string ∧ Posix.slash ∉ chars d) rest →
  ∀ a, (∃ X c, chars a = X ++ [c] ∧ c ≠ Posix.slash) →
    foldl (fun path b =>
             if startswith b "/" then b
             else if String.eqb path "" || endswith path "/" then path +:+ b
                  else path +:+ "/" +:+ b) a rest
    = join "/" (a :: rest).
Proof.
  induction 1 as [|b rest [Hb Hslash] _ IH]; intros a (X & c & Ha & Hc); [done|].
  cbn [foldl].
  assert (startswith b "/" = false) as ->.
  { unfold startswith. destruct (chars b) as [|c0 l] eqn:Hchars; [done|].
    change (chars "/") with [Posix.slash].
    rewrite list_startswith_cons_singleton. apply Ascii.eqb_neq.
    intros <-. apply Hslash. by left. }
  assert (String.eqb a "" = false) as ->.
  { apply String.eqb_neq. intros ->. by destruct X. }
  assert (endswith a "/" = false) as ->.
  { unfold endswith. rewrite Ha, rev_app_distr.
    change (rev (chars "/")) with [Posix.slash]. cbn [rev app].
    rewrite list_startswith_cons_singleton. apply Ascii.eqb_neq. congruence. }
  cbn [orb]. rewrite IH.
  - change (join "/" (a :: b :: rest)) with (a +:+ "/" +:+ join "/" (b :: rest)).
    destruct rest as [|r rest]; [done|].
    change (join "/" ((a +:+ "/" +:+ b) :: r :: rest))
      with ((a +:+ "/" +:+ b) +:+ "/" +:+ join "/" (r :: rest)).
    change (join "/" (b :: r :: rest)) with (b +:+ "/" +:+ join "/" (r :: rest)).
    by rewrite !append_assoc.
  - destruct (component_last b Hb Hslash) as (Y & e & Hchars & He).
    exists (chars a ++ Posix.slash :: Y), e. split; [|done].
    rewrite !chars_app, Hchars. change (chars "/") with [Posix.slash].
    by rewrite <- !app_assoc.
Qed.

(** X17. With POSIX paths, [rcs_path] returns on a path made
    of directory names and a file name separated by single slashes, relative
    or with one leading slash: what it returns is the relative path of the
    same names in the same order with every directory called Attic left
    out. *)
Theorem rcs_path_posix (dirs : list string) (fname : string) :
  Forall (fun d => d ≠ ""%string ∧ Posix.slash ∉ chars d) (dirs ++ [fname]) →
  let kept := filter (fun d => d ≠ "Attic"%string) dirs ++ [fname] in
  rcs_path (join "/" (dirs ++ [fname])) = Ok (join "/" kept)
  ∧ rcs_path ("/" +:+ join "/" (dirs ++ [fname])) = Ok (join "/" kept).
Proof.
  intros Hall kept.
  apply Forall_app in Hall as Hboth. destruct Hboth as [Hdirs [[Hf Hslash] _]%Forall_cons].
  assert (∀ root, root = [] ∨ root = [Posix.slash] →
            rcs_path (str (root ++ chars (join "/" (dirs ++ [fname]))))
            = Ok (join "/" kept)) as Hgen.
  { intros root Hroot. unfold rcs_path. cbn [path_split path_join Posix.pathlib].
    rewrite posix_split_join by done.
    assert (Posix.join kept = join "/" kept) as Hjoin.
    { unfold kept.
      assert (Forall (fun d => d ≠ ""%string ∧ Posix.slash ∉ chars d) kept) as Hkept.
      { apply Forall_app. split; [|by constructor].
        apply Forall_forall. intros x [_ Hx]%list_elem_of_filter.
        rewrite Forall_forall in Hdirs. by apply Hdirs. }
      unfold kept in Hkept.
      destruct (filter _ dirs ++ [fname]) as [|a rest] eqn:Hk;
        [by destruct (filter _ dirs)|].
      apply Forall_cons in Hkept as [[Ha Haslash] Hrest].
      unfold Posix.join. apply posix_join_foldl; [done|].
      by apply component_last. }
    destruct (String.eqb_spec (str (root ++ chars (join "/" dirs))) "") as [Hempty|_].
    - cbn [negb mbind result_bind].
      apply (f_equal String.length) in Hempty.
      rewrite length_str, length_app, length_chars in Hempty.
      pose proof (length_join dirs Hdirs) as Hlen.
      destruct dirs as [|d dirs]; [|simpl in *; lia].
      exact (f_equal Ok Hjoin).
    - cbn [negb].
      rewrite rcs_path_loop_components; [|done|done|].
      + cbn [mbind result_bind]. rewrite app_nil_l, rev_involutive.
        exact (f_equal Ok Hjoin).
      + rewrite length_str, length_app, length_chars.
        pose proof (length_join dirs Hdirs). lia. }
  split.
  - rewrite <- (Hgen [] (or_introl eq_refl)). cbn [app]. by rewrite str_chars.
  - rewrite <- (Hgen [Posix.slash] (or_intror eq_refl)).
    f_equal. cbn [app].
    change (str (Posix.slash :: ?l)) with ("/" +:+ str l). by rewrite str_chars.
Qed.

Lemma rcs_path_posix_witness :
  rcs_path "src/Attic/lib/Attic/f.c" = Ok "src/lib/f.c"%string
  ∧ rcs_path "/src/Attic/lib/Attic/f.c" = Ok "src/lib/f.c"%string.
Proof.
  apply (rcs_path_posix ["src"; "Attic"; "lib"; "Attic"]%string "f.c").
  repeat constructor; vm_decide.
Defined.

(** *** Time zones written and read *)

Lemma isdecimal_not (c : ascii) :
  isdecimal c = true →
  isdigit_char c = true
  ∧ Ascii.eqb "T" c = false ∧ Ascii.eqb "C" c = false ∧ Ascii.eqb "Z" c = false
  ∧ Ascii.eqb "%" c = false ∧ contains "+-" (str [c]) = false.
Proof. destruct c as [[] [] [] [] [] [] [] []]; vm_compute; intros; done. Qed.

Lemma slice_neg {A} (l : list A) (a b : nat) :
  b ≤ a ≤ length l → 0 < a →
  slice l (Some (- Z.of_nat a)%Z)
        (if decide (b = 0) then None else Some (- Z.of_nat b)%Z)
  = take (a - b) (drop (length l - a) l).
Proof.
  intros Hab Ha. unfold slice, clamp. cbn [from_option].
  destruct (Z.ltb_spec (- Z.of_nat a) 0) as [_|?]; [|lia].
  rewrite Z.min_r, Z.max_r by lia.
  replace (Z.to_nat (- Z.of_nat a + Z.of_nat (length l))) with (length l - a) by lia.
  destruct (decide (b = 0)) as [->|Hb]; cbn [from_option].
  - f_equal. lia.
  - destruct (Z.ltb_spec (- Z.of_nat b) 0) as [_|?]; [|lia].
    rewrite Z.min_r, Z.max_r by lia. f_equal. lia.
Qed.

Lemma slice_suffix {A} (body suffix : list A) (a b : nat) :
  b ≤ a ≤ length suffix → 0 < a →
  slice (body ++ suffix) (Some (- Z.of_nat a)%Z)
        (if decide (b = 0) then None else Some (- Z.of_nat b)%Z)
  = take (a - b) (drop (length suffix - a) suffix).
Proof.
  intros Hab Ha. rewrite slice_neg by (rewrite ?length_app; lia).
  rewrite length_app.
  replace (length body + length suffix - a) with (length body + (length suffix - a)) by lia.
  by rewrite drop_app_add.
Qed.

Lemma pad2_two_digits (q : Z) :
  (0 ≤ q < 100)%Z →
  ∃ a b, pad2 q = str [a; b] ∧ isdecimal a = true ∧ isdecimal b = true
         ∧ (10 * digit_val a + digit_val b)%Z = q.
Proof.
  intros Hq.
  assert (∀ n : nat, n < 100 →
            ∃ a b, pad2 (Z.of_nat n) = str [a; b] ∧ isdecimal a = true
                   ∧ isdecimal b = true
                   ∧ (10 * digit_val a + digit_val b)%Z = Z.of_nat n) as Hn.
  { intros n Hn.
    do 100 (destruct n as [|n];
            [eexists _, _; split; [vm_compute; reflexivity|by vm_compute]|]).
    lia. }
  destruct (Hn (Z.to_nat q)) as (a & b & Hpad & Ha & Hb & Hval); [lia|].
  rewrite Z2Nat.id in Hpad, Hval by lia. by exists a, b.
Qed.

Lemma int_two_digits (a b : ascii) :
  isdecimal a = true → isdecimal b = true →
  int (str [a; b]) = Ok (10 * digit_val a + digit_val b)%Z.
Proof.
  intros Ha Hb. unfold int, int_list. rewrite chars_str.
  rewrite strip_no_space by (repeat constructor; by apply isdecimal_other).
  destruct (isdecimal_other a Ha) as (_ & -> & -> & _).
  cbn [int_digits]. rewrite Ha, Hb. f_equal; lia.
Qed.

Lemma endswith_last (l : list ascii) (d : ascii) (p : string) (c : ascii)
    (p' : list ascii) :
  rev (chars p) = c :: p' → Ascii.eqb c d = false →
  endswith (str (l ++ [d])) p = false.
Proof.
  intros Hp Hc. unfold endswith. rewrite chars_str, rev_app_distr, Hp.
  cbn [rev app list_startswith]. by rewrite Hc.
Qed.

Lemma endswith_suffix (l : list ascii) (p : string) :
  endswith (str (l ++ chars p)) p = true.
Proof.
  unfold endswith. rewrite chars_str, rev_app_distr.
  induction (rev (chars p)) as [|c p' IH]; [by destruct (_ ++ _)|].
  cbn [app list_startswith]. by rewrite Ascii.eqb_refl.
Qed.

Lemma parsetimezone_named (body : list ascii) (zone : string) :
  zone = "GMT"%string ∨ zone = "UTC"%string →
  parsetimezone (str (body ++ chars zone)) = Ok (Some 0%Z, rstrip (str body)).
Proof.
  intros Hzone. unfold parsetimezone.
  assert (endswith (str (body ++ chars zone)) "GMT"
          || endswith (str (body ++ chars zone)) "UTC" = true) as ->.
  { destruct Hzone as [->| ->]; rewrite endswith_suffix; [done|apply orb_true_r]. }
  do 2 f_equal. unfold str_slice. rewrite chars_str.
  rewrite (slice_drop_suffix _ 3) by done. rewrite length_app.
  assert (length (chars zone) = 3) as -> by by destruct Hzone as [->| ->].
  replace (length body + 3 - Z.to_nat 3) with (length body) by lia.
  by rewrite take_app_length.
Qed.

Lemma parsetimezone_numeric (body : list ascii) (sg a b c d : ascii) :
  sg = "+"%char ∨ sg = "-"%char →
  isdecimal a = true → isdecimal b = true →
  isdecimal c = true → isdecimal d = true →
  parsetimezone (str (body ++ [sg; a; b; c; d]))
  = Ok (Some (- (if Ascii.eqb sg "+" then 1 else -1)
              * ((10 * digit_val a + digit_val b) * 60
                 + (10 * digit_val c + digit_val d)) * 60)%Z,
        rstrip (str body)).
Proof.
  intros Hsg Ha Hb Hc Hd. unfold parsetimezone. cbv zeta.
  set (s := str (body ++ [sg; a; b; c; d])).
  assert (chars s = body ++ [sg; a; b; c; d]) as Hs by apply chars_str.
  assert (s = str ((body ++ [sg; a; b; c]) ++ [d])) as Hlast
    by (unfold s; by rewrite <- app_assoc).
  rewrite Hlast at 1 2.
  rewrite (endswith_last _ d "GMT" "T" ["M"; "G"]%char),
          (endswith_last _ d "UTC" "C" ["T"; "U"]%char)
    by (done || by apply isdecimal_not).
  cbn [orb].
  assert ((5 <=? Z.of_nat (String.length s))%Z = true) as ->.
  { unfold s. rewrite length_str, length_app. cbn [length]. apply Z.leb_le. lia. }
  unfold str_slice. rewrite Hs.
  pose proof (slice_suffix body [sg; a; b; c; d] 5 4 ltac:(simpl; lia) ltac:(lia)) as H54.
  pose proof (slice_suffix body [sg; a; b; c; d] 4 0 ltac:(simpl; lia) ltac:(lia)) as H40.
  pose proof (slice_suffix body [sg; a; b; c; d] 4 2 ltac:(simpl; lia) ltac:(lia)) as H42.
  pose proof (slice_suffix body [sg; a; b; c; d] 2 0 ltac:(simpl; lia) ltac:(lia)) as H20.
  simpl in H54, H40, H42, H20.
  change (-5 + 1)%Z with (- Z.of_nat 4)%Z.
  change (-5)%Z with (- Z.of_nat 5)%Z.
  change (-4)%Z with (- Z.of_nat 4)%Z.
  change (-2)%Z with (- Z.of_nat 2)%Z.
  rewrite H54, H40, H42, H20.
  assert (contains "+-" (str [sg]) = true) as -> by by destruct Hsg as [->| ->].
  assert (isdigit (str [a; b; c; d]) = true) as ->.
  { unfold isdigit. rewrite chars_str. cbn [forallb].
    by rewrite (proj1 (isdecimal_not a Ha)), (proj1 (isdecimal_not b Hb)),
         (proj1 (isdecimal_not c Hc)), (proj1 (isdecimal_not d Hd)). }
  cbn [andb]. rewrite !int_two_digits by done. cbn [mbind result_bind].
  do 2 f_equal.
  - unfold tz_sign. by destruct Hsg as [->| ->].
  - f_equal. rewrite (slice_drop_suffix _ 5) by done. rewrite length_app.
    cbn [length]. replace (length body + 5 - Z.to_nat 5) with (length body) by lia.
    by rewrite take_app_length.
Qed.

Lemma parsetimezone_iso (body : list ascii) (sg a b c d : ascii) :
  sg = "+"%char ∨ sg = "-"%char →
  isdecimal a = true → isdecimal b = true →
  isdecimal c = true → isdecimal d = true →
  parsetimezone (str (body ++ [sg; a; b; ":"%char; c; d]))
  = Ok (Some (- (if Ascii.eqb sg "+" then 1 else -1)
              * ((10 * digit_val a + digit_val b) * 60
                 + (10 * digit_val c + digit_val d)) * 60)%Z,
        str body).
Proof.
  intros Hsg Ha Hb Hc Hd. unfold parsetimezone. cbv zeta.
  set (s := str (body ++ [sg; a; b; ":"%char; c; d])).
  assert (chars s = body ++ [sg; a; b; ":"%char; c; d]) as Hs by apply chars_str.
  assert (s = str ((body ++ [sg; a; b; ":"%char; c]) ++ [d])) as Hlast
    by (unfold s; by rewrite <- app_assoc).
  assert (endswith s "GMT" = false) as ->
    by (rewrite Hlast; apply (endswith_last _ d "GMT" "T" ["M"; "G"]%char);
        [done|by apply isdecimal_not]).
  assert (endswith s "UTC" = false) as ->
    by (rewrite Hlast; apply (endswith_last _ d "UTC" "C" ["T"; "U"]%char);
        [done|by apply isdecimal_not]).
  assert (endswith s "Z" = false) as ->
    by (rewrite Hlast; apply (endswith_last _ d "Z" "Z" []);
        [done|by apply isdecimal_not]).
  cbn [orb].
  assert ((5 <=? Z.of_nat (String.length s))%Z = true) as ->.
  { unfold s. rewrite length_str, length_app. cbn [length]. apply Z.leb_le. lia. }
  assert ((6 <=? Z.of_nat (String.length s))%Z = true) as ->.
  { unfold s. rewrite length_str, length_app. cbn [length]. apply Z.leb_le. lia. }
  unfold str_slice. rewrite Hs.
  set (suffix := [sg; a; b; ":"%char; c; d]).
  pose proof (slice_suffix body suffix 5 4 ltac:(simpl; lia) ltac:(lia)) as H54.
  pose proof (slice_suffix body suffix 6 5 ltac:(simpl; lia) ltac:(lia)) as H65.
  pose proof (slice_suffix body suffix 3 2 ltac:(simpl; lia) ltac:(lia)) as H32.
  pose proof (slice_suffix body suffix 5 3 ltac:(simpl; lia) ltac:(lia)) as H53.
  pose proof (slice_suffix body suffix 2 0 ltac:(simpl; lia) ltac:(lia)) as H20.
  simpl in H54, H65, H32, H53, H20.
  change (-5 + 1)%Z with (- Z.of_nat 4)%Z.
  change (-6 + 1)%Z with (- Z.of_nat 5)%Z.
  change (-3 + 1)%Z with (- Z.of_nat 2)%Z.
  change (-6)%Z with (- Z.of_nat 6)%Z.
  change (-5)%Z with (- Z.of_nat 5)%Z.
  change (-3)%Z with (- Z.of_nat 3)%Z.
  change (-2)%Z with (- Z.of_nat 2)%Z.
  rewrite H54, H65, H32, H53, H20.
  rewrite (proj2 (proj2 (proj2 (proj2 (proj2 (isdecimal_not a Ha)))))).
  cbn [andb].
  assert (contains "+-" (str [sg]) = true) as -> by by destruct Hsg as [->| ->].
  assert (∀ x y, isdecimal x = true → isdecimal y = true →
            isdigit (str [x; y]) = true) as Hdigits.
  { intros x y Hx Hy. unfold isdigit. rewrite chars_str. cbn [forallb].
    by rewrite (proj1 (isdecimal_not x Hx)), (proj1 (isdecimal_not y Hy)). }
  rewrite !Hdigits by done.
  change (String.eqb (str [":"%char]) ":") with true.
  cbn [andb]. rewrite !int_two_digits by done. cbn [mbind result_bind].
  do 2 f_equal.
  - unfold tz_sign. by destruct Hsg as [->| ->].
  - f_equal. subst suffix. change (- Z.of_nat 6)%Z with (- (6))%Z.
    rewrite (slice_drop_suffix _ 6) by done. rewrite length_app.
    cbn [length]. replace (length body + 6 - Z.to_nat 6) with (length body) by lia.
    by rewrite take_app_length.
Qed.

(** X18.  [parsetimezone] reads a trailing [GMT] or [UTC] as the offset 0, and
    a trailing sign with two digits of hours and two of minutes, with or
    without a colon between them, as that many seconds west of UTC: [+] gives
    a negative offset.  What comes before is returned, stripped of trailing
    blanks except in the form with the colon. *)
Theorem parsetimezone_reads (body sign : string) (h m : Z) :
  parsetimezone (body +:+ "GMT") = Ok (Some 0%Z, rstrip body)
  ∧ parsetimezone (body +:+ "UTC") = Ok (Some 0%Z, rstrip body)
  ∧ (sign = "+"%string ∨ sign = "-"%string → (0 ≤ h < 100)%Z → (0 ≤ m < 100)%Z →
     let tz := (- tz_sign sign * (h * 60 + m) * 60)%Z in
     parsetimezone (body +:+ sign +:+ pad2 h +:+ pad2 m) = Ok (Some tz, rstrip body)
     ∧ parsetimezone (body +:+ sign +:+ pad2 h +:+ ":" +:+ pad2 m) = Ok (Some tz, body)).
Proof.
  assert (∀ zone, zone = "GMT"%string ∨ zone = "UTC"%string →
            parsetimezone (body +:+ zone) = Ok (Some 0%Z, rstrip body)) as Hnamed.
  { intros zone Hzone. rewrite <- (str_chars (body +:+ zone)), chars_app.
    rewrite parsetimezone_named by done. by rewrite str_chars. }
  split; [apply Hnamed; by left|]. split; [apply Hnamed; by right|].
  intros Hsign Hh Hm tz.
  destruct (pad2_two_digits h Hh) as (a & b & Hpadh & Ha & Hb & Hhval).
  destruct (pad2_two_digits m Hm) as (c & d & Hpadm & Hc & Hd & Hmval).
  assert (∃ sg, sign = str [sg] ∧ (sg = "+"%char ∨ sg = "-"%char)
                ∧ tz_sign sign = if Ascii.eqb sg "+" then 1%Z else (-1)%Z)
    as (sg & -> & Hsg & Hsgval).
  { destruct Hsign as [->| ->]; [exists "+"%char|exists "-"%char]; split; auto. }
  rewrite Hpadh, Hpadm. unfold tz. rewrite Hsgval, <- Hhval, <- Hmval. split.
  - rewrite <- (str_chars (body +:+ _)), !chars_app, !chars_str. cbn [app].
    rewrite parsetimezone_numeric by done. by rewrite str_chars.
  - rewrite <- (str_chars (body +:+ _)), !chars_app, !chars_str. cbn [app].
    change (chars ":") with [":"%char]. cbn [app].
    rewrite parsetimezone_iso by done. by rewrite str_chars.
Qed.

Lemma parsetimezone_reads_witness :
  parsetimezone "Thu Jan 01 00:00:00 1970 +0530"
  = Ok (Some (-19800)%Z, "Thu Jan 01 00:00:00 1970"%string)
  ∧ parsetimezone "Thu Jan 01 00:00:00 1970 +05:30"
    = Ok (Some (-19800)%Z, "Thu Jan 01 00:00:00 1970 "%string).
Proof.
  exact (proj2 (proj2 (parsetimezone_reads "Thu Jan 01 00:00:00 1970 " "+" 5 30))
           (or_introl eq_refl) ltac:(lia) ltac:(lia)).
Defined.

(** X3.  A time zone at the end of the text moves the time that [strdate]
    reads, the relation [unixtime = localunixtime + offset] of its body: for
    a text that ends in a sign, two digits of hours and two of minutes,
    [strdate] returns what it returns for the same text ending in [UTC],
    moved by the offset of the zone, together with that offset; it raises
    what it raises there. *)
Theorem strdate_zone_offset `{TimeLib} (body sign format : string) (h m : Z)
    (defaults : gmap string (string * string)) :
  sign = "+"%string ∨ sign = "-"%string → (0 ≤ h < 100)%Z → (0 ≤ m < 100)%Z →
  let tz := (- tz_sign sign * (h * 60 + m) * 60)%Z in
  strdate (body +:+ sign +:+ pad2 h +:+ pad2 m) format defaults
  = ('(unixtime, _) ← strdate (body +:+ "UTC") format defaults;
     Ok (unixtime + tz, tz)%Z).
Proof.
  intros Hsign Hh Hm tz.
  destruct (pad2_two_digits h Hh) as (a & b & Hpadh & Ha & Hb & Hhval).
  destruct (pad2_two_digits m Hm) as (c & d & Hpadm & Hc & Hd & Hmval).
  assert (∃ sg, sign = str [sg] ∧ (sg = "+"%char ∨ sg = "-"%char)
                ∧ tz_sign sign = if Ascii.eqb sg "+" then 1%Z else (-1)%Z)
    as (sg & -> & Hsg & Hsgval).
  { destruct Hsign as [->| ->]; [exists "+"%char|exists "-"%char]; split; auto. }
  assert (parsetimezone (body +:+ str [sg] +:+ pad2 h +:+ pad2 m)
          = Ok (Some tz, rstrip body)) as Hzone.
  { rewrite Hpadh, Hpadm. unfold tz. rewrite Hsgval, <- Hhval, <- Hmval.
    rewrite <- (str_chars (body +:+ _)), !chars_app, !chars_str. cbn [app].
    rewrite parsetimezone_numeric by done. by rewrite str_chars. }
  assert (parsetimezone (body +:+ "UTC") = Ok (Some 0%Z, rstrip body)) as Hutc.
  { rewrite <- (str_chars (body +:+ "UTC")), chars_app.
    rewrite parsetimezone_named by (by right). by rewrite str_chars. }
  unfold strdate. rewrite Hzone, Hutc. cbn [mbind result_bind].
  destruct (fill_defaults _ _ _ _ _) as [[date format']| |]; [|done..].
  cbn [mbind result_bind].
  destruct (strptime date format') as [timetuple| |]; [|done..].
  cbn [mbind result_bind]. by rewrite Z.add_0_r.
Qed.

Lemma strdate_zone_offset_witness :
  strdate "2001-01-01 00:00:00 +0200" "%Y-%m-%d %H:%M:%S" ∅
  = Ok (978307200 - 7200, -7200)%Z.
Proof.
  assert (strdate "2001-01-01 00:00:00 UTC" "%Y-%m-%d %H:%M:%S" ∅
          = Ok (978307200, 0)%Z) as Hutc by vm_refl.
  pose proof (strdate_zone_offset (H := UTC.timelib) "2001-01-01 00:00:00 " "+"
                "%Y-%m-%d %H:%M:%S" 2 0 ∅ (or_introl eq_refl)
                ltac:(lia) ltac:(lia)) as Hshift.
  cbv zeta in Hshift.
  change ("2001-01-01 00:00:00 " +:+ "+" +:+ pad2 2 +:+ pad2 0)
    with "2001-01-01 00:00:00 +0200"%string in Hshift.
  change ("2001-01-01 00:00:00 " +:+ "UTC") with "2001-01-01 00:00:00 UTC"%string in Hshift.
  rewrite Hutc in Hshift. exact Hshift.
Defined.

Lemma replace_list_skip (old new : list ascii) (o c : ascii) (old' l : list ascii) :
  old = o :: old' → Ascii.eqb o c = false →
  replace_list old new (c :: l) 0 = c :: replace_list old new l 0.
Proof. intros -> Hc. cbn [replace_list list_startswith]. by rewrite Hc. Qed.

Lemma fill_time_zone (sg a b c d : ascii) :
  sg = "+"%char ∨ sg = "-"%char → isdecimal a = true → isdecimal b = true →
  replace_list ["%"; "2"]%char [c; d]
    (chars "%a %b %d %H:%M:%S %Y " ++ [sg; a; b; "%"; "2"]%char) 0
  = chars "%a %b %d %H:%M:%S %Y " ++ [sg; a; b; c; d].
Proof.
  intros Hsg Ha Hb.
  change (replace_list ["%"; "2"]%char [c; d]
            (chars "%a %b %d %H:%M:%S %Y " ++ [sg; a; b; "%"; "2"]%char) 0)
    with (chars "%a %b %d %H:%M:%S %Y "
          ++ replace_list ["%"; "2"]%char [c; d] [sg; a; b; "%"; "2"]%char 0).
  f_equal.
  rewrite (replace_list_skip _ _ "%" sg ["2"%char]) by (done || by destruct Hsg as [->| ->]).
  rewrite (replace_list_skip _ _ "%" a ["2"%char]) by (done || by apply isdecimal_not).
  rewrite (replace_list_skip _ _ "%" b ["2"%char]) by (done || by apply isdecimal_not).
  reflexivity.
Qed.

(** X19.  The time zone that [datestr] writes with its default format is the
    one [parsetimezone] reads back, with the seconds beyond a whole minute
    dropped, for a zone of less than a hundred hours, provided [strftime]
    copies text without directives behind the date; what [parsetimezone]
    leaves is the date without the zone. *)
Theorem datestr_parsetimezone `{DatetimeLib} (t tz : Z) :
  (∀ d lit, "%"%char ∉ chars lit →
     strftime d ("%a %b %d %H:%M:%S %Y " +:+ lit)
     = strftime d "%a %b %d %H:%M:%S %Y " +:+ lit) →
  (-360000 < tz < 360000)%Z →
  let d := Z.max (-2147483648) (Z.min 2147483647 (t - tz)) in
  parsetimezone (datestr (t, tz) datestr_format)
  = Ok (Some (tz - Z.rem tz 60)%Z, rstrip (strftime d "%a %b %d %H:%M:%S %Y ")).
Proof.
  intros Hlit Htz d. unfold datestr, datestr_format.
  change (contains "%a %b %d %H:%M:%S %Y %1%2" "%1") with true. cbn [orb].
  change (replace "%a %b %d %H:%M:%S %Y %1%2" "%z" "%1%2")
    with "%a %b %d %H:%M:%S %Y %1%2"%string.
  set (minutes := (Z.abs tz / 60)%Z).
  assert (0 ≤ minutes < 6000)%Z as Hminutes.
  { unfold minutes. split; [apply Z.div_pos; lia|apply Z.div_lt_upper_bound; lia]. }
  destruct (pad2_two_digits (minutes / 60)%Z) as (a & b & -> & Ha & Hb & Hq).
  { split; [apply Z.div_pos; lia|apply Z.div_lt_upper_bound; lia]. }
  destruct (pad2_two_digits (minutes mod 60)%Z) as (c & e & -> & Hc & He & Hr).
  { pose proof (Z.mod_pos_bound minutes 60). lia. }
  set (sg := if (0 <? tz)%Z then "-"%char else "+"%char).
  assert (sg = "+"%char ∨ sg = "-"%char) as Hsg
    by (unfold sg; destruct (0 <? tz)%Z; auto).
  replace ((if (0 <? tz)%Z then "-" else "+") +:+ str [a; b])
    with (str [sg; a; b]) by (unfold sg; by destruct (0 <? tz)%Z).
  change (replace "%a %b %d %H:%M:%S %Y %1%2" "%1" (str [sg; a; b]))
    with (str (chars "%a %b %d %H:%M:%S %Y " ++ [sg; a; b; "%"; "2"]%char)).
  unfold replace. rewrite !chars_str.
  change (chars "%2") with ["%"; "2"]%char. cbv iota.
  rewrite fill_time_zone by done.
  rewrite str_app, str_chars, Hlit.
  - replace (if (2147483647 <? t - tz)%Z then 2147483647%Z
             else if (t - tz <? -2147483648)%Z then (-2147483648)%Z else (t - tz)%Z)
      with d.
    + rewrite <- (str_chars (_ +:+ _)), chars_app, chars_str.
      rewrite parsetimezone_numeric by done. rewrite str_chars.
      do 3 f_equal. rewrite Hq, Hr.
      pose proof (Z.div_mod minutes 60 ltac:(lia)) as Hdm.
      pose proof (Z.div_mod (Z.abs tz) 60 ltac:(lia)) as Habs. fold minutes in Habs.
      pose proof (Z.mod_pos_bound (Z.abs tz) 60 ltac:(lia)) as Hbound.
      unfold sg. destruct (Z.ltb_spec 0 tz) as [Hpos|Hneg].
      * change (Ascii.eqb "-" "+") with false. cbv iota.
        rewrite Z.rem_mod_nonneg by lia. rewrite Z.abs_eq in * by lia. lia.
      * change (Ascii.eqb "+" "+") with true. cbv iota.
        replace tz with (- Z.abs tz)%Z at 2 by lia.
        rewrite Z.rem_opp_l by lia. rewrite Z.rem_mod_nonneg by lia. lia.
    + unfold d. destruct (Z.ltb_spec 2147483647 (t - tz));
        [lia|destruct (Z.ltb_spec (t - tz) (-2147483648)); lia].
  - rewrite chars_str. intros Hin.
    repeat (apply elem_of_cons in Hin as [Hin|Hin]);
      [destruct Hsg as [Heq|Heq]; rewrite Heq in Hin; discriminate Hin
      |subst; discriminate..|by apply elem_of_nil in Hin].
Qed.

Lemma strftime_list_literal (d : Z) (lit : list ascii) :
  "%"%char ∉ lit → UTC.strftime_list d lit = lit.
Proof.
  induction lit as [|c lit IH]; [done|]. intros Hlit.
  cbn [UTC.strftime_list].
  destruct (Ascii.eqb_spec c "%") as [->|_]; [by destruct Hlit; left|].
  rewrite IH; [done|]. intros ?. apply Hlit. by right.
Qed.

Lemma utc_strftime_literal (d : Z) (lit : string) :
  "%"%char ∉ chars lit →
  UTC.strftime d ("%a %b %d %H:%M:%S %Y " +:+ lit)
  = UTC.strftime d "%a %b %d %H:%M:%S %Y " +:+ lit.
Proof.
  intros Hlit. unfold UTC.strftime. rewrite chars_app.
  rewrite <- (str_chars lit) at 2. rewrite <- str_app. f_equal.
  rewrite <- (strftime_list_literal d (chars lit) Hlit) at 2.
  generalize (chars lit). intros l.
  cbn [chars list_ascii_of_string app].
  cbn -[Z.div Z.modulo Z.add Z.sub UTC.civil_from_days pad2 str_of_Z nth Z.to_nat chars app].
  repeat (rewrite <- app_assoc; cbn [app]). reflexivity.
Qed.

#[local] Existing Instance UTC.datetimelib.

Lemma datestr_parsetimezone_witness :
  parsetimezone (datestr (951782400, 19800)%Z datestr_format)
  = Ok (Some 19800%Z, "Mon Feb 28 18:30:00 2000"%string).
Proof.
  exact (datestr_parsetimezone (H := UTC.datetimelib) 951782400 19800
           utc_strftime_literal ltac:(lia)).
Defined.

(** ** The entries that the parser of [createlog] builds *)

Lemma parse_revision_nonempty (s : string) (r : list Z) :
  parse_revision s = Ok r → r ≠ [].
Proof.
  unfold parse_revision, split_on.
  pose proof (split_on_list_nonempty "." (chars s)) as Hne.
  destruct (split_on_list "." (chars s)) as [|p ps]; [done|].
  cbn [map mapM]. intros (y & _ & (ys & _ & [= <-])%bind_Ok)%bind_Ok. done.
Qed.

Lemma subscript_last_inv {A} (l : list A) (x : A) :
  subscript l (-1) = Ok x → ∃ r, l = r ++ [x].
Proof.
  destruct l as [|y l _] using rev_ind; [done|].
  rewrite subscript_last. intros [= ->]. by exists l.
Qed.

Section ParserEntries.
Context `{TimeLib} `{PathLib} `{Sorter}.
Variable rlog : bool.
Variable prefix : string.

Local Abbreviation entry_ok := (fun e : logentry =>
  revision e ≠ []
  ∧ (branch e ≠ None →
     3 < length (revision e) ∧ Nat.even (length (revision e)) = true)
  ∧ (synthetic e = true →
     dead e = true ∧ (∃ r, revision e = r ++ [1%Z])
     ∧ matches file_added_re (comment e) = true)).

Local Abbreviation fresh := (fun st : pstate =>
  synthetic (st_e st) = false ∧ revision (st_e st) ≠ []).

Local Abbreviation parser_inv := (fun st : pstate =>
  Forall entry_ok (st_log st)
  ∧ st_store st = false
  ∧ (6 ≤ st_state st ≤ 8 → fresh st)).

Lemma finish_no_store (st : pstate) : st_store st = false → finish st = Ok st.
Proof.
  intros Hstore. unfold finish, synthetic_test. rewrite Hstore.
  cbn [andb mbind result_bind]. by rewrite Hstore.
Qed.

Lemma finish_store (st st' : pstate) :
  st_store st = true → fresh st → finish st = Ok st' →
  ∃ e, st_log st' = st_log st ++ [e] ∧ entry_ok e
       ∧ st_store st' = false ∧ st_state st' = st_state st.
Proof.
  intros Hstore [Hsyn Hrev]. unfold finish.
  intros (syn & Htest & Hfinish)%bind_Ok.
  set (st2 := if syn then set_st_e (set_synthetic true (st_e st)) st else st) in Hfinish.
  assert (st_store st2 = true) as Hstore2 by (unfold st2; by destruct syn).
  rewrite Hstore2 in Hfinish. unfold store_entry in Hfinish.
  apply bind_Ok in Hfinish as (br & Hbranch & Hfinish).
  apply bind_Ok in Hfinish as (bp & _ & [= <-]).
  eexists. split_and!; cbn.
  - f_equal. unfold st2. by destruct syn.
  - unfold st2. by destruct syn.
  - intros Hbr. destruct br as [name|]; [clear Hbr|done]. revert Hbranch.
    cbn -[Nat.ltb Nat.even].
    assert (revision (st_e st2) = revision (st_e st)) as -> by (unfold st2; by destruct syn).
    destruct (3 <? length (revision (st_e st))) eqn:Hlen; [|done].
    destruct (Nat.even (length (revision (st_e st)))) eqn:Heven; [|done].
    intros _. split; [by apply Nat.ltb_lt|done].
  - intros Hsynthetic.
    subst st2. destruct syn; [|cbn in Hsynthetic; congruence].
    unfold synthetic_test in Htest. rewrite Hstore in Htest.
    destruct (dead (st_e st)) eqn:Hdead; [|discriminate Htest].
    cbn [andb] in Htest.
    apply bind_Ok in Htest as (last & Hlast & Htest).
    destruct (last =? 1)%Z eqn:Hone; [|discriminate Htest].
    apply Z.eqb_eq in Hone as ->.
    destruct (Nat.eqb (length (st_comment st)) 1) eqn:Hone; [|discriminate Htest].
    cbn [andb] in Htest.
    apply bind_Ok in Htest as (first & Hfirst & [= Hmatch]).
    destruct (st_comment st) as [|line [|line2 comment]] eqn:Hcomment; try discriminate Hone.
    injection Hfirst as ->.
    cbn. rewrite Hcomment. cbn [join]. split_and!; [done| |done].
    by apply subscript_last_inv.
  - done.
  - unfold st2. by destruct syn.
Qed.

Ltac parser_cases :=
  repeat match goal with
         | H : Ok _ = Ok _ |- _ => injection H as <-
         | H : Raise _ = Ok _ |- _ => discriminate H
         | H : Loops = Ok _ |- _ => discriminate H
         | H : _ ≫= _ = Ok _ |- _ => apply bind_Ok in H as (? & ? & H)
         | H : py_assert _ _ = Ok _ |- _ => clear H
         | H : (match ?x with _ => _ end) = Ok _ |- _ => destruct x eqn:?
         end.

Lemma finish_keeps (st st' : pstate) :
  parser_inv st → finish st = Ok st' → parser_inv st'.
Proof. intros Hinv. rewrite finish_no_store by apply Hinv. by intros [= <-]. Qed.

Lemma finish_stores (st st' : pstate) (state : nat) :
  parser_inv st → 6 ≤ st_state st ≤ 8 → state < 6 →
  finish (set_st_store true (set_st_state state st)) = Ok st' → parser_inv st'.
Proof.
  intros (Hlog & _ & Hfresh) Hstate Hnew Hfinish.
  apply finish_store in Hfinish as (e & Hlog' & He & Hstore' & Hstate');
    [|done|by apply Hfresh].
  cbn in Hlog', Hstate'. split_and!.
  - rewrite Hlog'. apply Forall_app. split; [done|by constructor].
  - done.
  - lia.
Qed.

Lemma step_inv (st st' : pstate) (line peek : string) :
  parser_inv st → step rlog prefix st line peek = Ok st' → parser_inv st'.
Proof.
  intros Hinv. pose proof Hinv as (Hlog & Hstore & Hfresh). unfold step.
  destruct (st_state st) as [|[|[|[|[|[|[|[|[|n]]]]]]]]] eqn:Hstate.
  - destruct (match_ re_00 (chomp line)) as [m|].
    + intros Hstep.
      assert (st_log st' = st_log st ∧ st_store st' = st_store st ∧ st_state st' < 6)
        as (-> & -> & Hstate').
      { destruct rlog; [|injection Hstep as <-; cbn; split_and!; [done..|lia]].
        destruct (startswith _ prefix).
        - apply bind_Ok in Hstep as (filename & _ & [= <-]). cbn.
          split_and!; [done..|lia].
        - injection Hstep as <-. cbn. split_and!; [done..|lia]. }
      split_and!; [done..|lia].
    + intros (st1 & Hstate0 & Hfinish)%bind_Ok.
      unfold state0 in Hstate0. parser_cases.
      exact (finish_keeps _ _ Hinv Hfinish).
  - intros (st1 & Hstate1 & Hfinish)%bind_Ok.
    unfold state1 in Hstate1. parser_cases.
    eapply finish_keeps; [|done]. cbn. split_and!; [done..|lia].
  - intros (st1 & Hstate2 & Hfinish)%bind_Ok.
    unfold state2 in Hstate2. parser_cases;
      (eapply finish_keeps; [|done]); cbn; split_and!; try done; lia.
  - intros (st1 & Hstate3 & Hfinish)%bind_Ok.
    unfold state3 in Hstate3. parser_cases;
      (eapply finish_keeps; [|done]); cbn; split_and!; try done; lia.
  - intros (st1 & Hstate4 & Hfinish)%bind_Ok.
    unfold state4 in Hstate4. parser_cases;
      (eapply finish_keeps; [|done]); cbn; split_and!; try done; lia.
  - intros (st1 & Hstate5 & Hfinish)%bind_Ok.
    unfold state5 in Hstate5. parser_cases.
    eapply finish_keeps; [|done]. cbn. split_and!; [done..|].
    intros _. split; [done|]. by eapply parse_revision_nonempty.
  - intros (st1 & Hstate6 & Hfinish)%bind_Ok.
    destruct Hfresh as [Hsyn Hrev]; [lia|].
    unfold state6 in Hstate6. parser_cases;
      (eapply finish_keeps; [|done]); cbn; split_and!; try done;
      intros _; by destruct (group_true _ 7).
  - intros (st1 & Hstate7 & Hfinish)%bind_Ok.
    destruct (Hfresh ltac:(lia)) as [Hsyn Hrev].
    unfold state7 in Hstate7. parser_cases.
    + eapply finish_keeps; [|done]. cbn. split_and!; done.
    + eapply finish_stores; [done|lia| |done]. lia.
    + eapply finish_stores; [done|lia| |done]. lia.
    + eapply finish_keeps; [|done]. cbn. rewrite Hstate. split_and!; done.
  - intros (st1 & Hstate8 & Hfinish)%bind_Ok.
    destruct (Hfresh ltac:(lia)) as [Hsyn Hrev].
    unfold state8 in Hstate8. parser_cases.
    + eapply finish_stores; [done|lia| |done]. lia.
    + eapply finish_keeps; [|done]. cbn. rewrite Hstate. split_and!; done.
    + eapply finish_stores; [done|lia| |done]. lia.
    + eapply finish_keeps; [|done]. cbn. rewrite Hstate. split_and!; done.
  - apply finish_keeps. split_and!; [done..|lia].
Qed.

Lemma parse_lines_inv (lines : list string) (st st' : pstate) :
  parser_inv st → parse_lines rlog prefix st lines = Ok st' → parser_inv st'.
Proof.
  revert st. induction lines as [|line rest IH]; intros st Hinv; cbn [parse_lines].
  - by intros [= <-].
  - intros (st1 & Hstep & Hrest)%bind_Ok.
    eapply IH; [|done]. by eapply step_inv.
Qed.

Lemma find_parents_entries (log : list logentry)
    (versions : gmap (string * list Z) (list Z)) :
  Forall entry_ok log → Forall entry_ok (find_parents log versions).
Proof.
  intros Hlog. revert versions.
  induction Hlog as [|e log He _ IH]; intros versions; cbn [find_parents].
  - constructor.
  - constructor; [exact He|apply IH].
Qed.

Lemma resolve_parents_entries (rcsmap : gmap string string)
    (oldlog log : list logentry) :
  Forall entry_ok oldlog → Forall entry_ok log →
  Forall entry_ok (resolve_parents rcsmap oldlog log).1
  ∧ Forall entry_ok (resolve_parents rcsmap oldlog log).2.
Proof.
  intros Hold Hlog. unfold resolve_parents. cbn [fst snd]. split.
  - apply Forall_fmap. eapply Forall_impl; [exact Hold|].
    intros e He. unfold compose, adopt_rcs. destruct (rcsmap !! file e); exact He.
  - apply find_parents_entries. by rewrite sort_by_perm.
Qed.

(** X20.  Of every entry that [createlog] builds from the output of cvs: the
    revision has at least one number; the entry is on a named branch only if
    its revision has an even number of numbers, more than three; and it is
    marked synthetic only if it is dead, its revision ends in 1 and its log
    message matches the pattern of a file added on a branch.  The entries of
    the cache are returned with these attributes as they were. *)
Theorem createlog_entries (cache : option cache_mode)
    (cached : option (list logentry)) (output : string) (log : list logentry) :
  createlog rlog prefix cache cached output = Ok log →
  (∀ l, cached = Some l → Forall entry_ok l) →
  Forall entry_ok log.
Proof.
  intros Hcreate Hcached. revert Hcreate. unfold createlog.
  set (update := match cache with
                 | Some cache_write | Some cache_update => true
                 | _ => false
                 end).
  destruct (match cache with
            | Some cache_read | Some cache_update =>
                match cached with
                | Some l => (l, update)
                | None => ([], true)
                end
            | _ => ([], update)
            end) as [oldlog update_log] eqn:Hold.
  assert (Forall entry_ok oldlog) as Holdlog.
  { destruct cache as [[| |]|], cached as [l|]; injection Hold as <- _;
      by (constructor || apply Hcached). }
  destruct update_log; cbn [negb]; [|by intros [= <-]].
  intros (st & Hparse & Hrest)%bind_Ok.
  apply parse_lines_inv in Hparse as [Hlog _];
    [|split_and!; [constructor|done|cbn; lia]].
  destruct (resolve_parents_entries (st_rcsmap st) oldlog (st_log st) Holdlog Hlog)
    as [Hold' Hnew'].
  destruct (resolve_parents (st_rcsmap st) oldlog (st_log st)) as [oldlog' log'].
  cbn [fst snd] in Hold', Hnew'.
  destruct cache as [mode|]; [|by injection Hrest as <-].
  destruct log' as [|e log']; [by injection Hrest as <-|].
  apply bind_Ok in Hrest as (overlap & _ & Hrest).
  destruct overlap; [discriminate Hrest|]. injection Hrest as <-.
  apply Forall_app. split; [done|]. by rewrite sort_by_perm.
Qed.

End ParserEntries.

Lemma createlog_entries_witness :
  let log := value [] (createlog true "/cvs/mod/" (Some cache_write) None
                         rlog_added_on_branch) in
  (fun e => (revision e, synthetic e)) <$> log
  = [([1; 1], true); ([1; 1; 2; 1], false); ([1; 2], false)]%Z
  ∧ Forall (fun e => synthetic e = true → dead e = true) log.
Proof.
  split; [vm_refl|].
  eapply Forall_impl.
  - apply (createlog_entries true "/cvs/mod/" (Some cache_write) None
             rlog_added_on_branch).
    + apply ok_value. vm_refl.
    + intros l Hl. discriminate Hl.
  - intros e (_ & _ & Hsynthetic) Hs. exact (proj1 (Hsynthetic Hs)).
Defined.

(** X21.  Of the changesets that [createchangeset] builds, a synthetic
    one holds exactly one entry, a synthetic one: an entry that shares its
    changeset with another is never dropped.  A changeset without entries is
    one made by [from_merge], whose [branchpoints] is [None]. *)
Theorem createchangeset_synthetic_single `{PathLib} `{Sorter} `{ui : Ui}
    (log : list logentry)
    (fuzz : Z) (mergefrom mergeto : merge_pattern)
    (heap : list changeset) (out : list nat) :
  createchangeset log fuzz mergefrom mergeto = Ok (heap, out) →
  ∀ a,
    (cs_synthetic (heap !!! a) = true →
     ∃ e, cs_entries (heap !!! a) = [e] ∧ synthetic e = true)
    ∧ (cs_entries (heap !!! a) = [] → cs_branchpoints (heap !!! a) = None).
Proof.
  intros Hcs a.
  apply (createchangeset_inv fuzz (fun _ => True)
           (fun c =>
              (cs_synthetic c = true → ∃ e, cs_entries c = [e] ∧ synthetic e = true)
              ∧ (cs_entries c = [] → cs_branchpoints c = None)))
    with (log := log) (mergefrom := mergefrom) (mergeto := mergeto) (out := out);
    try done.
  - intros e _. split; [|done]. intros Hsyn. by exists e.
  - intros c e _ [_ Hempty] Hcover. cbn.
    destruct (cs_entries c) as [|e0 entries] eqn:Hentries.
    + unfold _can_cover in Hcover. rewrite Hempty in Hcover by done.
      by rewrite bool_decide_eq_false_2 in Hcover.
    + split; [done|]. by destruct entries.
  - intros c l [Hsyn Hempty] Hl. cbn. split.
    + intros (e & He & Hes)%Hsyn. exists e. split; [|done].
      rewrite He in Hl. by apply Permutation_singleton_r in Hl.
    + intros ->. apply Hempty. by apply Permutation_nil_l in Hl.
  - by apply Forall_forall.
Qed.

Lemma createchangeset_synthetic_single_witness :
  ∃ heap,
    createchangeset log_mergepoint 60 pattern_default pattern_default = Ok (heap, [1])
    ∧ cs_synthetic (heap !!! 0) = true
    ∧ ∃ e, cs_entries (heap !!! 0) = [e] ∧ synthetic e = true.
Proof.
  exists (value ([], [])
            (createchangeset log_mergepoint 60 pattern_default pattern_default)).1.
  assert (createchangeset log_mergepoint 60 pattern_default pattern_default
          = Ok ((value ([], [])
                   (createchangeset log_mergepoint 60 pattern_default pattern_default)).1,
                [1])) as Hcs
    by (apply ok_pair_value; vm_refl).
  split; [exact Hcs|].
  assert (cs_synthetic
            ((value ([], [])
                (createchangeset log_mergepoint 60 pattern_default pattern_default)).1
             !!! 0) = true) as Hsyn by vm_refl.
  split; [exact Hsyn|].
  exact (proj1 (createchangeset_synthetic_single _ _ _ _ _ _ Hcs 0) Hsyn).
Defined.

(** ** [debugcvsps] *)

Lemma io_bind_not_ok {A B} (m : io A) (f : A → io B) (written : list string) :
  is_ok (m written).2 = false → is_ok ((m ≫= f) written).2 = false.
Proof.
  unfold mbind, io_bind. destruct (m written) as [written' [a|e|]]; by cbn.
Qed.

Lemma io_bind_ok {A B} (m : io A) (f : A → io B) (written written' : list string)
    (a : A) :
  m written = (written', Ok a) → (m ≫= f) written = f a written'.
Proof. unfold mbind, io_bind. by intros ->. Qed.

Section DebugFacts.
Context `{TimeLib} `{DatetimeLib} `{PathLib} `{Sorter} `{ui : Ui}.
Variable world : string → option string → cvs_run.
Variable opts : options.

Lemma write_changeset_empty (heap : list changeset) (st : dstate) (cs : changeset)
    (written : list string) :
  cs_entries cs = [] →
  write_changeset opts heap st cs written = (written, Raise ValueError).
Proof. intros Hcs. unfold write_changeset. by rewrite Hcs. Qed.

Lemma write_changesets_empty_raises (heap : list changeset) (changesets : list nat)
    (a : nat) (rest : list nat) :
  opt_revisions opts = [] → opt_branches opts = [] →
  a ∈ rest → cs_entries (heap !!! a) = [] →
  ∀ st written, d_off st = false →
    is_ok (write_changesets opts heap changesets rest st written).2 = false.
Proof.
  intros Hrevisions Hbranches Ha Hempty.
  induction rest as [|a0 rest IH]; [by apply not_elem_of_nil in Ha|].
  intros st written Hoff. cbn [write_changesets].
  unfold io_of at 1.
  destruct (record_branch opts heap changesets st (heap !!! a0)) as [st1|e|] eqn:Hrecord;
    [|done..].
  erewrite io_bind_ok by reflexivity.
  assert (d_off st1 = false) as Hoff1.
  { revert Hrecord. unfold record_branch.
    destruct (opt_ancestors opts); [|by intros [= <-]].
    intros (ancestors & _ & [= <-])%bind_Ok. done. }
  rewrite Hbranches, Hrevisions. cbn [length Nat.eqb negb andb].
  rewrite Hoff1. cbn [negb].
  apply elem_of_cons in Ha as [<-|Ha].
  - apply io_bind_not_ok. by rewrite write_changeset_empty.
  - destruct (write_changeset opts heap st1 (heap !!! a0) written) as [written1 [[]|e|]]
      eqn:Hwrite.
    + erewrite io_bind_ok by exact Hwrite. by apply IH.
    + apply io_bind_not_ok. by rewrite Hwrite.
    + apply io_bind_not_ok. by rewrite Hwrite.
Qed.

Lemma record_branch_off (heap : list changeset) (changesets : list nat) (st : dstate)
    (cs : changeset) :
  opt_ancestors opts = false → record_branch opts heap changesets st cs = Ok st.
Proof. intros Hanc. unfold record_branch. by rewrite Hanc. Qed.

Lemma write_changeset_state (heap : list changeset) (st st' : dstate) (cs : changeset) :
  opt_ancestors opts = false →
  write_changeset opts heap st cs = write_changeset opts heap st' cs.
Proof. intros Hanc. unfold write_changeset. by rewrite Hanc. Qed.

Lemma io_bind_ext {A B} (m : io A) (f g : A → io B) (written : list string) :
  (∀ a written', f a written' = g a written') → (m ≫= f) written = (m ≫= g) written.
Proof.
  intros Hfg. unfold mbind, io_bind. destruct (m written) as [written' [a| |]]; [|done..].
  apply Hfg.
Qed.

Section Loop.
Variable heap : list changeset.
Variable changesets : list nat.
Hypothesis Hancestors : opt_ancestors opts = false.

Local Abbreviation visible := (fun a : nat =>
  opt_branches opts = [] ∨ or_HEAD (cs_branch (heap !!! a)) ∈ opt_branches opts).

Local Abbreviation named := (fun (name : string) (a : nat) =>
  names_changeset name (heap !!! a) = true).

Local Abbreviation print := (fun (st : dstate) (l : list nat) =>
  foldr (fun a k => _ ← write_changeset opts heap st (heap !!! a); k) (mret tt) l).

Local Abbreviation on := (fun st : dstate =>
  {| d_off := false; d_branches := d_branches st; d_ancestors := d_ancestors st |}).

Lemma visible_spec (a : nat) :
  negb (Nat.eqb (length (opt_branches opts)) 0)
  && negb (bool_decide (or_HEAD (cs_branch (heap !!! a)) ∈ opt_branches opts))
  = negb (bool_decide (visible a)).
Proof.
  destruct (opt_branches opts) as [|b branches] eqn:Hbranches;
    cbn [length Nat.eqb negb andb].
  - rewrite bool_decide_eq_true_2; [done|by left].
  - f_equal. apply bool_decide_ext. split; [by right|]. by intros [?|?].
Qed.

Lemma print_state (st st' : dstate) (l : list nat) (written : list string) :
  print st l written = print st' l written.
Proof.
  revert written. induction l as [|a l IH]; intros written; [done|].
  cbn [foldr]. rewrite (write_changeset_state heap st st') by done.
  apply io_bind_ext. intros _. apply IH.
Qed.

(** One turn of the loop. *)
Lemma write_changesets_cons (a : nat) (rest : list nat) (st : dstate)
    (written : list string) :
  write_changesets opts heap changesets (a :: rest) st written
  = if bool_decide (visible a) then
      ((if d_off st then mret tt else write_changeset opts heap st (heap !!! a))
       ≫= fun _ =>
         match opt_revisions opts with
         | [] => write_changesets opts heap changesets rest st
         | [start] =>
             write_changesets opts heap changesets rest
               (if d_off st && names_changeset start (heap !!! a) then on st else st)
         | start :: stop :: _ =>
             if (negb (d_off st) || names_changeset start (heap !!! a))
                && names_changeset stop (heap !!! a)
             then mret tt
             else write_changesets opts heap changesets rest
                    (if d_off st && names_changeset start (heap !!! a) then on st else st)
         end) written
    else write_changesets opts heap changesets rest st written.
Proof.
  cbn [write_changesets]. rewrite record_branch_off by done.
  erewrite io_bind_ok by reflexivity. rewrite visible_spec.
  destruct (bool_decide (_ ∨ _)); cbn [negb]; [|done].
  destruct (d_off st) eqn:Hoff; cbn [negb]; apply io_bind_ext; intros _ written';
    destruct (opt_revisions opts) as [|start [|stop revisions]]; try done;
    cbn [andb orb]; destruct (names_changeset start (heap !!! a));
    cbn [d_off negb andb orb]; rewrite ?Hoff; done.
Qed.

Lemma print_cons (st : dstate) (a : nat) (l : list nat) (written : list string) :
  print st (filter visible (a :: l)) written
  = if bool_decide (visible a)
    then (write_changeset opts heap st (heap !!! a) ≫= fun _ => print st (filter visible l))
           written
    else print st (filter visible l) written.
Proof. rewrite filter_cons. case_bool_decide; by destruct (decide _). Qed.

Lemma loop_on (st : dstate) (rest : list nat) (written : list string) :
  length (opt_revisions opts) ≤ 1 → d_off st = false →
  write_changesets opts heap changesets rest st written
  = print st (filter visible rest) written.
Proof.
  intros Hrevisions Hoff. revert written.
  induction rest as [|a rest IH]; intros written; [done|].
  rewrite write_changesets_cons, print_cons. case_bool_decide; [|apply IH].
  rewrite Hoff. apply io_bind_ext. intros _ written'.
  destruct (opt_revisions opts) as [|start [|stop revisions]];
    [apply IH|apply IH|cbn in Hrevisions; lia].
Qed.

Lemma loop_on_stop (st : dstate) (start stop : string) (revisions : list string)
    (between after : list nat) (a : nat) (written : list string) :
  opt_revisions opts = start :: stop :: revisions → d_off st = false →
  (∀ b, b ∈ between → visible b → ¬ named stop b) →
  visible a → named stop a →
  write_changesets opts heap changesets (between ++ a :: after) st written
  = print st (filter visible (between ++ [a])) written.
Proof.
  intros Hrevisions Hoff Hbetween Hvisible Hnamed. revert written.
  induction between as [|b between IH]; intros written; cbn [app].
  - rewrite write_changesets_cons, print_cons.
    rewrite bool_decide_eq_true_2 by done. rewrite Hoff, Hrevisions.
    apply io_bind_ext. intros _ written'. cbn [negb orb andb].
    by rewrite Hnamed.
  - rewrite write_changesets_cons, print_cons.
    assert (∀ b', b' ∈ between → visible b' → ¬ named stop b') as Hrest
      by (intros b' Hb'; apply Hbetween; by right).
    case_bool_decide as Hb; [|by apply IH].
    rewrite Hoff, Hrevisions. apply io_bind_ext. intros _ written'.
    cbn [negb orb andb].
    destruct (names_changeset stop (heap !!! b)) eqn:Hstop.
    + destruct (Hbetween b); [by left|done|done].
    + by apply IH.
Qed.

Lemma loop_on_no_stop (st : dstate) (start stop : string) (revisions : list string)
    (rest : list nat) (written : list string) :
  opt_revisions opts = start :: stop :: revisions → d_off st = false →
  (∀ b, b ∈ rest → visible b → ¬ named stop b) →
  write_changesets opts heap changesets rest st written
  = print st (filter visible rest) written.
Proof.
  intros Hrevisions Hoff. revert written.
  induction rest as [|b rest IH]; intros written Hrest; [done|].
  rewrite write_changesets_cons, print_cons.
  assert (∀ b', b' ∈ rest → visible b' → ¬ named stop b') as Hrest'
    by (intros b' Hb'; apply Hrest; by right).
  case_bool_decide as Hb; [|by apply IH].
  rewrite Hoff, Hrevisions. apply io_bind_ext. intros _ written'.
  cbn [negb orb andb].
  destruct (names_changeset stop (heap !!! b)) eqn:Hstop.
  - destruct (Hrest b); [by left|done|done].
  - by apply IH.
Qed.

Lemma loop_off_none (st : dstate) (start : string) (revisions : list string)
    (rest : list nat) (written : list string) :
  opt_revisions opts = start :: revisions → d_off st = true →
  (∀ b, b ∈ rest → visible b → ¬ named start b) →
  write_changesets opts heap changesets rest st written = (written, Ok tt).
Proof.
  intros Hrevisions Hoff.
  induction rest as [|b rest IH]; intros Hrest; [done|].
  rewrite write_changesets_cons.
  assert (∀ b', b' ∈ rest → visible b' → ¬ named start b') as Hrest'
    by (intros b' Hb'; apply Hrest; by right).
  case_bool_decide as Hb; [|by apply IH].
  rewrite Hoff, Hrevisions. erewrite io_bind_ok by reflexivity.
  assert (names_changeset start (heap !!! b) = false) as ->.
  { apply not_true_is_false. apply Hrest; [by left|done]. }
  cbn [negb orb andb]. destruct revisions; by apply IH.
Qed.

Lemma loop_off_start (st : dstate) (start : string) (revisions : list string)
    (before after : list nat) (a : nat) (written : list string) :
  opt_revisions opts = start :: revisions → d_off st = true →
  (∀ b, b ∈ before → visible b → ¬ named start b) →
  visible a → named start a →
  write_changesets opts heap changesets (before ++ a :: after) st written
  = match revisions with
    | stop :: _ =>
        if names_changeset stop (heap !!! a) then (written, Ok tt)
        else write_changesets opts heap changesets after (on st) written
    | [] => write_changesets opts heap changesets after (on st) written
    end.
Proof.
  intros Hrevisions Hoff Hbefore Hvisible Hnamed.
  induction before as [|b before IH]; cbn [app].
  - rewrite write_changesets_cons. rewrite bool_decide_eq_true_2 by done.
    rewrite Hoff, Hrevisions. erewrite io_bind_ok by reflexivity.
    rewrite Hnamed. cbn [negb orb andb].
    destruct revisions as [|stop revisions]; [done|].
    by destruct (names_changeset stop (heap !!! a)).
  - rewrite write_changesets_cons.
    assert (∀ b', b' ∈ before → visible b' → ¬ named start b') as Hrest
      by (intros b' Hb'; apply Hbefore; by right).
    case_bool_decide as Hb; [|by apply IH].
    rewrite Hoff, Hrevisions. erewrite io_bind_ok by reflexivity.
    assert (names_changeset start (heap !!! b) = false) as ->.
    { apply not_true_is_false. apply Hbefore; [by left|done]. }
    cbn [negb orb andb]. destruct revisions; by apply IH.
Qed.

Lemma filter_all {A} (P : A → Prop) `{∀ x, Decision (P x)} (l : list A) :
  (∀ x, P x) → filter P l = l.
Proof.
  intros HP. induction l as [|x l IH]; [done|].
  by rewrite filter_cons_True, IH.
Qed.

Lemma debugcvsps_loop (args : list string) (log : list logentry)
    (written : list string) :
  read_logs world opts args = Ok log →
  createchangeset log (opt_fuzz opts) pattern_default pattern_default
  = Ok (heap, changesets) →
  debugcvsps world opts args written
  = write_changesets opts heap changesets changesets
      {| d_off := negb (Nat.eqb (length (opt_revisions opts)) 0);
         d_branches := ∅; d_ancestors := ∅ |} written.
Proof.
  intros Hlogs Hcs. unfold debugcvsps. rewrite Hlogs, Hcs.
  by erewrite io_bind_ok by reflexivity.
Qed.

(** X22.  Without [ancestors], what [debugcvsps] prints of the changesets on
    the chosen branches: all of them when no revision is given; none when no
    changeset carries the first revision, as its id or as a tag; with one
    revision, those after the first changeset that carries it; with two,
    those after the first changeset that carries the first, up to the next
    one that carries the second, which is printed; and none again when the
    first changeset that carries the first revision carries the second
    too. *)
Theorem debugcvsps_window (args : list string) (log : list logentry) :
  read_logs world opts args = Ok log →
  createchangeset log (opt_fuzz opts) pattern_default pattern_default
  = Ok (heap, changesets) →
  let st := {| d_off := negb (Nat.eqb (length (opt_revisions opts)) 0);
               d_branches := ∅; d_ancestors := ∅ |} in
  (opt_revisions opts = [] →
   ∀ written, debugcvsps world opts args written
              = print st (filter visible changesets) written)
  ∧ (∀ start revisions, opt_revisions opts = start :: revisions →
       (∀ b, b ∈ changesets → visible b → ¬ named start b) →
       ∀ written, debugcvsps world opts args written = (written, Ok tt))
  ∧ (∀ start before a after,
       opt_revisions opts = [start] → changesets = before ++ a :: after →
       (∀ b, b ∈ before → visible b → ¬ named start b) →
       visible a → named start a →
       ∀ written, debugcvsps world opts args written
                  = print st (filter visible after) written)
  ∧ (∀ start stop revisions before a between z after,
       opt_revisions opts = start :: stop :: revisions →
       changesets = before ++ a :: between ++ z :: after →
       (∀ b, b ∈ before → visible b → ¬ named start b) →
       visible a → named start a → ¬ named stop a →
       (∀ b, b ∈ between → visible b → ¬ named stop b) →
       visible z → named stop z →
       ∀ written, debugcvsps world opts args written
                  = print st (filter visible (between ++ [z])) written)
  ∧ (∀ start stop revisions before a after,
       opt_revisions opts = start :: stop :: revisions →
       changesets = before ++ a :: after →
       (∀ b, b ∈ before → visible b → ¬ named start b) →
       visible a → named start a → named stop a →
       ∀ written, debugcvsps world opts args written = (written, Ok tt)).
Proof.
  intros Hlogs Hcs st. subst st. split_and!.
  - intros Hrevisions written. rewrite (debugcvsps_loop _ _ _ Hlogs Hcs).
    apply loop_on; [rewrite Hrevisions; cbn; lia|cbn [d_off]; by rewrite Hrevisions].
  - intros start revisions Hrevisions Hnone written.
    rewrite (debugcvsps_loop _ _ _ Hlogs Hcs).
    eapply loop_off_none; [done|cbn [d_off]; by rewrite Hrevisions|done].
  - intros start before a after Hrevisions Hlist Hbefore Hvisible Hnamed written.
    rewrite (debugcvsps_loop _ _ _ Hlogs Hcs).
    rewrite Hlist at 2.
    erewrite loop_off_start; [|done|cbn [d_off]; by rewrite Hrevisions|done..].
    rewrite loop_on by (done || (rewrite Hrevisions; cbn; lia)).
    apply print_state.
  - intros start stop revisions before a between z after Hrevisions Hlist Hbefore
      Hvisible Hnamed Hstop Hbetween Hz Hnamedz written.
    rewrite (debugcvsps_loop _ _ _ Hlogs Hcs).
    rewrite Hlist at 2.
    erewrite loop_off_start; [|done|cbn [d_off]; by rewrite Hrevisions|done..].
    cbv iota. rewrite (not_true_is_false _ Hstop).
    erewrite loop_on_stop by done.
    apply print_state.
  - intros start stop revisions before a after Hrevisions Hlist Hbefore
      Hvisible Hnamed Hstop written.
    rewrite (debugcvsps_loop _ _ _ Hlogs Hcs).
    rewrite Hlist at 2.
    erewrite loop_off_start; [|done|cbn [d_off]; by rewrite Hrevisions|done..].
    cbv iota. by rewrite Hstop.
Qed.

Lemma print_raise (st : dstate) (before after : list nat) (a : nat)
    (written : list string) :
  cs_entries (heap !!! a) = [] →
  print st (before ++ a :: after) written
  = foldr (fun a k => _ ← write_changeset opts heap st (heap !!! a); k)
          (io_of (Raise ValueError)) before written.
Proof.
  intros Hempty. revert written.
  induction before as [|b before IH]; intros written; cbn [app foldr].
  - unfold mbind, io_bind. by rewrite write_changeset_empty.
  - apply io_bind_ext. intros _ written'. apply IH.
Qed.

(** X23.  With no revision, no branch and no [ancestors] chosen,
    [debugcvsps] prints the changesets that stand before the first one
    without entries -- a changeset of a merge -- and then raises
    [ValueError], on the [min] of no dates. *)
Theorem debugcvsps_merge_changeset (args : list string) (log : list logentry)
    (before after : list nat) (a : nat) :
  read_logs world opts args = Ok log →
  createchangeset log (opt_fuzz opts) pattern_default pattern_default
  = Ok (heap, changesets) →
  opt_revisions opts = [] → opt_branches opts = [] →
  changesets = before ++ a :: after → cs_entries (heap !!! a) = [] →
  let st := {| d_off := false; d_branches := ∅; d_ancestors := ∅ |} in
  ∀ written,
    debugcvsps world opts args written
    = foldr (fun a k => _ ← write_changeset opts heap st (heap !!! a); k)
            (io_of (Raise ValueError)) before written.
Proof.
  intros Hlogs Hcs Hrevisions Hbranches Hlist Hempty st written. subst st.
  rewrite (debugcvsps_loop _ _ _ Hlogs Hcs), Hrevisions.
  rewrite loop_on by (done || (rewrite Hrevisions; cbn; lia)).
  rewrite filter_all by (intros b; by left).
  rewrite Hlist. by apply print_raise.
Qed.

End Loop.

End DebugFacts.

Lemma debugcvsps_window_witness :
  let opts := opts_of ["v1"; "3"] false in
  let world := world_of rlog_branch in
  let heap :=
    (value ([], [])
       (createchangeset (value [] (read_logs world opts ["mod"])) 60
          pattern_default pattern_default)).1 in
  debugcvsps world opts ["mod"] []
  = foldr (fun a k =>
             _ ← write_changeset opts heap
                   {| d_off := true; d_branches := ∅; d_ancestors := ∅ |} (heap !!! a);
             k)
          (mret tt) [2; 1] [].
Proof.
  intros opts world heap.
  assert (read_logs world opts ["mod"] = Ok (value [] (read_logs world opts ["mod"])))
    as Hlogs by (apply ok_value; vm_refl).
  assert (createchangeset (value [] (read_logs world opts ["mod"])) (opt_fuzz opts)
            pattern_default pattern_default
          = Ok (heap, [0; 2; 1])) as Hcs
    by (apply ok_pair_value; vm_refl).
  assert (names_changeset "v1" (heap !!! 0) = true) as Hstart by vm_refl.
  assert (names_changeset "3" (heap !!! 0) = false) as Hnot by vm_refl.
  assert (names_changeset "3" (heap !!! 2) = false) as Hbetween by vm_refl.
  assert (names_changeset "3" (heap !!! 1) = true) as Hstop by vm_refl.
  refine (proj1 (proj2 (proj2 (proj2
            (debugcvsps_window world opts heap [0; 2; 1] eq_refl ["mod"] _ Hlogs Hcs))))
            "v1" "3" [] [] 0 [2] 1 [] eq_refl eq_refl _ (or_introl eq_refl) Hstart _ _
            (or_introl eq_refl) Hstop []).
  - intros b Hb. destruct (not_elem_of_nil b Hb).
  - intros Hn. exact (Bool.diff_true_false (eq_trans (eq_sym Hn) Hnot)).
  - intros b Hb _ Hn. apply list_elem_of_singleton in Hb. subst b.
    exact (Bool.diff_true_false (eq_trans (eq_sym Hn) Hbetween)).
Defined.

Lemma debugcvsps_merge_changeset_witness :
  let opts := opts_of [] false in
  let world := world_of rlog_mergeto in
  let heap :=
    (value ([], [])
       (createchangeset (value [] (read_logs world opts ["mod"])) 60
          pattern_default pattern_default)).1 in
  debugcvsps world opts ["mod"] []
  = foldr (fun a k =>
             _ ← write_changeset opts heap
                   {| d_off := false; d_branches := ∅; d_ancestors := ∅ |} (heap !!! a);
             k)
          (io_of (Raise ValueError)) [1; 3; 0] [].
Proof.
  intros opts world heap.
  assert (read_logs world opts ["mod"] = Ok (value [] (read_logs world opts ["mod"])))
    as Hlogs by (apply ok_value; vm_refl).
  assert (createchangeset (value [] (read_logs world opts ["mod"])) (opt_fuzz opts)
            pattern_default pattern_default
          = Ok (heap, [1; 3; 0; 4; 2])) as Hcs
    by (apply ok_pair_value; vm_refl).
  assert (cs_entries (heap !!! 4) = []) as Hempty by vm_refl.
  exact (debugcvsps_merge_changeset world opts heap [1; 3; 0; 4; 2] eq_refl ["mod"] _
           [1; 3; 0] [2] 4 Hlogs Hcs eq_refl eq_refl eq_refl Hempty []).
Defined.

Lemma io_bind_fails {A B} (m : io A) (f : A → io B) (written : list string) :
  (∀ a written', is_ok (f a written').2 = false) →
  is_ok ((m ≫= f) written).2 = false.
Proof.
  intros Hf. unfold mbind, io_bind. destruct (m written) as [written' [a|e|]]; [|done..].
  apply Hf.
Qed.

Section Ancestors.
Context `{TimeLib} `{DatetimeLib} `{PathLib} `{Sorter} `{ui : Ui}.
Variable world : string → option string → cvs_run.
Variable opts : options.
Variable heap : list changeset.
Variable changesets : list nat.
Hypothesis Hancestors : opt_ancestors opts = true.

Lemma write_changeset_no_ancestor (st : dstate) (cs : changeset) (b : string)
    (written : list string) :
  cs_branch cs = Some b → b ≠ ""%string → d_ancestors st !! Some b = None →
  is_ok (write_changeset opts heap st cs written).2 = false.
Proof.
  intros Hbranch Hb Hnone. unfold write_changeset.
  do 10 (apply io_bind_fails; intros ? ?).
  rewrite Hancestors, Hbranch.
  apply io_bind_not_ok. cbn [ancestors_loop].
  destruct (String.eqb_spec b "") as [|_]; [done|]. by rewrite Hnone.
Qed.

Lemma record_branch_other (st st' : dstate) (cs : changeset) (b : option string) :
  record_branch opts heap changesets st cs = Ok st' →
  d_off st' = d_off st
  ∧ (cs_branch cs ≠ b →
     d_branches st' !! b = d_branches st !! b
     ∧ d_ancestors st' !! b = d_ancestors st !! b)
  ∧ (cs_parents cs = [] → d_ancestors st' = d_ancestors st).
Proof.
  unfold record_branch. rewrite Hancestors.
  intros (ancestors & Hanc & [= <-])%bind_Ok. cbn. split; [done|]. split.
  - intros Hne. rewrite lookup_insert_ne by done. split; [done|].
    destruct (d_branches st !! cs_branch cs); [by injection Hanc as <-|].
    destruct (cs_parents cs) as [|p parents]; [by injection Hanc as <-|].
    destruct (cs_id (heap !!! p)) as [[|k]|]; try by injection Hanc as <-.
    apply bind_Ok in Hanc as (a & _ & [= <-]). by rewrite lookup_insert_ne.
  - intros Hparents. rewrite Hparents in Hanc.
    destruct (d_branches st !! cs_branch cs); by injection Hanc as <-.
Qed.

Lemma loop_no_ancestor (b : string) (a : nat) (after : list nat) :
  opt_revisions opts = [] → opt_branches opts = [] →
  cs_branch (heap !!! a) = Some b → b ≠ ""%string → cs_parents (heap !!! a) = [] →
  ∀ before st written,
    d_off st = false → d_ancestors st !! Some b = None →
    (∀ x, x ∈ before → cs_branch (heap !!! x) ≠ Some b) →
    is_ok (write_changesets opts heap changesets (before ++ a :: after) st written).2
    = false.
Proof.
  intros Hrevisions Hbranches Hbranch Hb Hparents.
  induction before as [|x before IH]; intros st written Hoff Hnone Hbefore;
    cbn [app write_changesets]; unfold io_of at 1.
  - destruct (record_branch opts heap changesets st (heap !!! a)) as [st1|e|] eqn:Hrecord;
      [|done..].
    erewrite io_bind_ok by reflexivity.
    destruct (record_branch_other _ _ _ (Some b) Hrecord) as (Hoff1 & _ & Hsame).
    rewrite Hbranches, Hrevisions. cbn [length Nat.eqb negb andb].
    rewrite Hoff1, Hoff. cbn [negb].
    apply io_bind_not_ok. eapply write_changeset_no_ancestor; [done..|].
    by rewrite Hsame.
  - destruct (record_branch opts heap changesets st (heap !!! x)) as [st1|e|] eqn:Hrecord;
      [|done..].
    erewrite io_bind_ok by reflexivity.
    destruct (record_branch_other _ _ _ (Some b) Hrecord) as (Hoff1 & Hother & _).
    destruct Hother as [_ Hanc1]; [apply Hbefore; by left|].
    rewrite Hbranches, Hrevisions. cbn [length Nat.eqb negb andb].
    rewrite Hoff1, Hoff. cbn [negb].
    destruct (write_changeset opts heap st1 (heap !!! x) written) as [written1 [[]|e|]]
      eqn:Hwrite.
    + erewrite io_bind_ok by exact Hwrite. apply IH; [congruence|congruence|].
      intros y Hy. apply Hbefore. by right.
    + apply io_bind_not_ok. by rewrite Hwrite.
    + apply io_bind_not_ok. by rewrite Hwrite.
Qed.

End Ancestors.

(** *** The loop over the ancestors ends *)

Lemma first_on_le (heap : list changeset) (changesets : list nat) (j a : nat) :
  changesets !! j = Some a → first_on heap (cs_branch (heap !!! a)) changesets ≤ j.
Proof.
  revert j. induction changesets as [|x changesets IH]; intros j Hj; [done|].
  cbn [first_on]. destruct (decide _) as [|Hne]; [lia|].
  destruct j as [|j]; [by injection Hj as ->|].
  apply IH in Hj. lia.
Qed.

Lemma first_on_lookup (heap : list changeset) (b : option string)
    (changesets : list nat) :
  first_on heap b changesets < length changesets →
  ∃ a, changesets !! first_on heap b changesets = Some a ∧ cs_branch (heap !!! a) = b.
Proof.
  induction changesets as [|x changesets IH]; cbn [first_on length]; [lia|].
  destruct (decide _) as [Hb|Hne]; [by exists x|].
  intros Hlt. apply IH. lia.
Qed.

Lemma ancestors_loop_ends (st : dstate) (rank : option string → nat) :
  (∀ b b' c, d_ancestors st !! b = Some (b', c) → rank b' < rank b) →
  ∀ fuel (seen : gset (option string)) b r,
    seen ⊆ dom (d_ancestors st) → (∀ k, k ∈ seen → rank b < rank k) →
    size (d_ancestors st) < fuel + size seen →
    ancestors_loop fuel st b r ≠ Loops.
Proof.
  intros Hrank. induction fuel as [|fuel IH]; intros seen b r Hseen Hlt Hsize.
  - apply subseteq_size in Hseen. rewrite size_dom in Hseen. lia.
  - cbn [ancestors_loop]. destruct b as [s|]; [|done].
    destruct (String.eqb s ""); [done|].
    destruct (d_ancestors st !! Some s) as [[b' c]|] eqn:Hanc; [|done].
    destruct (d_branches st !! b') as [v|]; [|done].
    destruct v as [n|]; [|done]. cbn [percent_d mbind result_bind].
    apply (IH ({[Some s]} ∪ seen)).
    + apply union_subseteq. split; [|done].
      apply singleton_subseteq_l, elem_of_dom. by eexists.
    + intros k [->%elem_of_singleton|Hk]%elem_of_union.
      * by eapply Hrank.
      * apply Hrank in Hanc. apply Hlt in Hk. lia.
    + rewrite size_union, size_singleton; [lia|].
      apply disjoint_singleton_l. intros Hin. apply Hlt in Hin. lia.
Qed.

Lemma io_bind_ends {A B} (m : io A) (f : A → io B) (written : list string) :
  (m written).2 ≠ Loops → (∀ a written', (f a written').2 ≠ Loops) →
  ((m ≫= f) written).2 ≠ Loops.
Proof.
  intros Hm Hf. unfold mbind, io_bind.
  destruct (m written) as [written' [a|e|]]; [apply Hf|done|done].
Qed.

Section Ends.
Context `{TimeLib} `{DatetimeLib} `{PathLib} `{Sorter} `{ui : Ui}.
Variable opts : options.
Variable heap : list changeset.
Variable changesets : list nat.

Lemma write_members_ends (entries : list logentry) (written : list string) :
  (write_members opts entries written).2 ≠ Loops.
Proof.
  revert written. induction entries as [|f entries IH]; intros written; [done|].
  cbn [write_members]. apply io_bind_ends; [by destruct (parent f)|].
  intros p written1. apply io_bind_ends; [done|]. intros _ written2. apply IH.
Qed.

Lemma write_changeset_ends (st : dstate) (cs : changeset) (written : list string) :
  (opt_ancestors opts = true →
   ∃ rank : option string → nat,
     ∀ b b' c, d_ancestors st !! b = Some (b', c) → rank b' < rank b) →
  (write_changeset opts heap st cs written).2 ≠ Loops.
Proof.
  intros Hrank. unfold write_changeset.
  apply io_bind_ends; [by destruct (cs_entries cs)|]. intros cs_date written1.
  apply io_bind_ends; [done|]. intros _ written2.
  apply io_bind_ends; [by destruct (cs_id cs)|]. intros id written3.
  do 5 (apply io_bind_ends; [done|]; intros _ ?).
  apply io_bind_ends.
  { destruct (cs_branchpoints cs) as [b|]; [|done]. by case_bool_decide. }
  intros _ written9. apply io_bind_ends.
  { destruct (opt_parents opts); [|done].
    destruct (cs_parents cs) as [|p [|q parents]]; [done| |done].
    apply io_bind_ends; [by destruct (cs_id (heap !!! p))|]. done. }
  intros _ written10. apply io_bind_ends.
  { destruct (opt_ancestors opts) eqn:Hanc; [|done].
    destruct Hrank as [rank Hrank]; [done|].
    apply io_bind_ends.
    - unfold io_of. cbn [snd].
      apply (ancestors_loop_ends st rank Hrank _ ∅); [set_solver|set_solver|].
      rewrite size_empty. lia.
    - intros r ?. by destruct r. }
  intros _ written11.
  do 3 (apply io_bind_ends; [done|]; intros _ ?).
  apply io_bind_ends; [apply write_members_ends|]. done.
Qed.

(** The ids of the parents in the list: a parent with an id stands before
    its child, at the place the id names. *)
Hypothesis parents_ids : ∀ k a p n,
  changesets !! k = Some a → p ∈ cs_parents (heap !!! a) →
  cs_id (heap !!! p) = Some (S n) → n < k ∧ changesets !! n = Some p.

Lemma record_branch_ranked (k a : nat) (st st' : dstate) :
  opt_ancestors opts = true →
  changesets !! k = Some a → ancestors_ranked heap changesets k st →
  record_branch opts heap changesets st (heap !!! a) = Ok st' →
  ancestors_ranked heap changesets (S k) st' ∧ d_off st' = d_off st.
Proof.
  intros Hanc Hk [Hbranches Hranked]. unfold record_branch. rewrite Hanc.
  intros (ancestors & Hancestors & [= <-])%bind_Ok. split; [|done].
  pose proof (first_on_le heap changesets k a Hk) as Hle.
  assert (∀ b, first_on heap b changesets < S k
               ↔ b = cs_branch (heap !!! a) ∨ first_on heap b changesets < k) as Hnext.
  { intros b. split.
    - intros Hlt. destruct (decide (first_on heap b changesets = k)) as [Heq|]; [|lia].
      left. destruct (first_on_lookup heap b changesets) as (x & Hx & Hb).
      + apply lookup_lt_Some in Hk. lia.
      + rewrite Heq, Hk in Hx. by injection Hx as <-.
    - intros [->|Hlt]; lia. }
  split; cbn [d_branches d_ancestors].
  - intros b. rewrite Hnext, lookup_insert_is_Some, Hbranches.
    split; [intros [<-|[_ ?]]; auto|].
    intros [->|Hlt]; [by left|].
    destruct (decide (cs_branch (heap !!! a) = b)); [by left|by right].
  - intros b b' c Hb.
    destruct (d_branches st !! cs_branch (heap !!! a)) as [v|] eqn:Hseen;
      [injection Hancestors as <-; by eapply Hranked|].
    destruct (cs_parents (heap !!! a)) as [|p parents] eqn:Hparents;
      [injection Hancestors as <-; by eapply Hranked|].
    destruct (cs_id (heap !!! p)) as [[|n]|] eqn:Hid;
      try (injection Hancestors as <-; by eapply Hranked).
    apply bind_Ok in Hancestors as (x & Hx & [= <-]).
    destruct (decide (b = cs_branch (heap !!! a))) as [->|Hne].
    + rewrite lookup_insert_eq in Hb. injection Hb as <- <-.
      destruct (parents_ids k a p n Hk) as [Hn Hp];
        [rewrite Hparents; by left|done|].
      rewrite Hp in Hx. injection Hx as <-.
      pose proof (first_on_le heap changesets n p Hp).
      assert (¬ first_on heap (cs_branch (heap !!! a)) changesets < k); [|lia].
      rewrite <- Hbranches, Hseen. by intros [? ?].
    + rewrite lookup_insert_ne in Hb by done. by eapply Hranked.
Qed.

Lemma record_branch_ends (st : dstate) (cs : changeset) :
  record_branch opts heap changesets st cs ≠ Loops.
Proof.
  unfold record_branch. destruct (opt_ancestors opts); [|done].
  destruct (d_branches st !! cs_branch cs); [done|].
  destruct (cs_parents cs) as [|p parents]; [done|].
  destruct (cs_id (heap !!! p)) as [[|n]|]; try done.
  by destruct (changesets !! n).
Qed.

Lemma write_changesets_ends (rest : list nat) :
  ∀ k st written,
    drop k changesets = rest →
    (opt_ancestors opts = true → ancestors_ranked heap changesets k st) →
    (write_changesets opts heap changesets rest st written).2 ≠ Loops.
Proof.
  induction rest as [|a rest IH]; intros k st written Hdrop Hst; [done|].
  assert (changesets !! k = Some a) as Hk.
  { pose proof (lookup_drop changesets k 0) as Hl.
    rewrite Hdrop, Nat.add_0_r in Hl. by rewrite <- Hl. }
  assert (drop (S k) changesets = rest) as Hdrop'.
  { replace (S k) with (k + 1) by lia. by rewrite <- drop_drop, Hdrop. }
  cbn [write_changesets]. unfold io_of at 1.
  pose proof (record_branch_ends st (heap !!! a)) as Hends.
  destruct (record_branch opts heap changesets st (heap !!! a)) as [st1|e|] eqn:Hrecord;
    [|done..].
  erewrite io_bind_ok by reflexivity.
  assert (opt_ancestors opts = true → ancestors_ranked heap changesets (S k) st1)
    as Hst1.
  { intros Hanc. exact (proj1 (record_branch_ranked k a st st1 Hanc Hk (Hst Hanc) Hrecord)). }
  assert (∀ st2, d_branches st2 = d_branches st1 → d_ancestors st2 = d_ancestors st1 →
            opt_ancestors opts = true → ancestors_ranked heap changesets (S k) st2)
    as Hst2.
  { intros st2 Hb Ha Hanc. unfold ancestors_ranked. rewrite Hb, Ha. by apply Hst1. }
  destruct (_ && _); [by apply (IH (S k))|].
  apply io_bind_ends.
  - destruct (d_off st1); [done|]. apply write_changeset_ends.
    intros Hanc. exists (fun b => first_on heap b changesets). by apply Hst1.
  - intros _ written1.
    destruct (opt_revisions opts) as [|start [|stop revisions]].
    + by apply (IH (S k)).
    + apply (IH (S k)); [done|]. apply Hst2; by destruct (_ && _).
    + destruct (_ && names_changeset stop _); [done|].
      apply (IH (S k)); [done|]. apply Hst2; by destruct (_ && _).
Qed.

End Ends.

(** *** [debugcvsps] comes to an end *)

(** [createchangeset] returns or raises. *)
Lemma createchangeset_ends `{PathLib} `{Sorter} `{ui : Ui}
    (log : list logentry) (fuzz : Z)
    (mergefrom mergeto : merge_pattern) :
  createchangeset log fuzz mergefrom mergeto ≠ Loops.
Proof.
  unfold createchangeset.
  destruct (walk_keeps_ordered (compile default_mergefrom mergefrom)
              (compile default_mergeto mergeto) (w_n (before_walk log fuzz))
              _ (before_walk_ordered log fuzz)) as [Hloop _].
  { unfold before_walk. destruct (group_entries fuzz _ [] [] None). simpl. lia. }
  destruct (walk _ _ _ _) as [w|e|] eqn:Hwalk; cbn [mbind result_bind]; [|done..].
  cbv zeta. destruct (warn_odd _ _) as [[]|e|] eqn:Hodd; cbn [mbind result_bind];
    [done..|].
  by apply warn_odd_ends in Hodd.
Qed.

Lemma number_other (heap : list changeset) (changesets : list nat) (a : nat) :
  a ∉ changesets → cs_id (number heap changesets !!! a) = cs_id (heap !!! a).
Proof.
  induction changesets as [|b changesets IH] using rev_ind; intros Ha; [done|].
  rewrite number_snoc, list_lookup_total_insert.
  destruct (decide _) as [[-> _]|_].
  - destruct Ha. apply elem_of_app. right. by left.
  - apply IH. intros Hin. apply Ha, elem_of_app. by left.
Qed.

Lemma createchangeset_parent_ids `{PathLib} `{Sorter} `{ui : Ui} (log : list logentry)
    (fuzz : Z) (mergefrom mergeto : merge_pattern)
    (heap : list changeset) (out : list nat) :
  createchangeset log fuzz mergefrom mergeto = Ok (heap, out) →
  ∀ k a p n, out !! k = Some a → p ∈ cs_parents (heap !!! a) →
    cs_id (heap !!! p) = Some (S n) → n < k ∧ out !! n = Some p.
Proof.
  unfold createchangeset. intros (w & Hwalk & (_ & _ & [= Hheap Hout])%bind_Ok)%bind_Ok.
  apply walk_addresses in Hwalk as Hw; [|apply before_walk_addresses].
  destruct (number_drop_synthetic _ _ Hw) as [Hnd Hid].
  cbv zeta in Hnd, Hid. rewrite Hheap in Hid. rewrite Hout in Hnd, Hid.
  destruct (walk_keeps_ordered (compile default_mergefrom mergefrom)
              (compile default_mergeto mergeto) (w_n (before_walk log fuzz))
              _ (before_walk_ordered log fuzz)) as [_ Hordered].
  { unfold before_walk. destruct (group_entries fuzz _ [] [] None). simpl. lia. }
  destruct (Hordered _ Hwalk) as (_ & _ & Hperm & _ & Hbefore).
  assert (∀ x, cs_id (w_heap w !!! x) = None) as Hnone.
  { intros x. apply (heap_lookup_inv (fun c => cs_id c = None)); [done|].
    eapply (walk_inv (fun c => cs_id c = None)); [..|exact Hwalk]; try done.
    apply (before_walk_inv fuzz (fun _ => True) (fun c => cs_id c = None)); try done.
    by apply Forall_forall. }
  intros k a p n Hk Hp Hidp.
  assert (cs_parents (heap !!! a) = cs_parents (w_heap w !!! a)) as Hparents.
  { rewrite <- Hheap. apply (lookup_total_fmap_replicate cs_parents _ _ 0).
    rewrite app_nil_r. by apply number_frame. }
  rewrite Hparents in Hp.
  assert (a ∈ w_changesets w) as [k1 Hk1]%list_elem_of_lookup_1.
  { apply list_elem_of_lookup_2 in Hk. rewrite <- Hout in Hk.
    by apply list_elem_of_filter in Hk as [_ ?]. }
  destruct (Hbefore k1 a p Hk1 Hp) as (j1 & Hj1 & Hpj).
  destruct (decide (p ∈ out)) as [Hin|Hnin].
  - destruct (filter_lookup_order (fun a => negb (cs_synthetic (w_heap w !!! a)))
                (w_changesets w) j1 k1 p a) as (j' & k' & Hlt & Hj' & Hk');
      [done..| | |].
    { rewrite <- Hout in Hin. by apply list_elem_of_filter in Hin as [? _]. }
    { apply list_elem_of_lookup_2 in Hk. rewrite <- Hout in Hk.
      by apply list_elem_of_filter in Hk as [? _]. }
    fold (drop_synthetic (w_heap w) (w_changesets w)) in Hj', Hk'.
    rewrite Hout in Hj', Hk'.
    rewrite (NoDup_lookup _ _ _ _ Hnd Hk Hk').
    destruct (Hid j' p Hj') as [_ Hidj]. rewrite Hidj in Hidp.
    injection Hidp as <-. done.
  - rewrite <- Hheap, number_other, Hnone in Hidp by by rewrite Hout. done.
Qed.

Lemma debugcvsps_loop_ends `{TimeLib} `{DatetimeLib} `{PathLib} `{Sorter} `{ui : Ui}
    (opts : options) (log : list logentry) (heap : list changeset) (out : list nat)
    (st : dstate) (written : list string) :
  createchangeset log (opt_fuzz opts) pattern_default pattern_default = Ok (heap, out) →
  d_branches st = ∅ → d_ancestors st = ∅ →
  (write_changesets opts heap out out st written).2 ≠ Loops.
Proof.
  intros Hcs Hbranches Hancestors.
  apply (write_changesets_ends opts heap out) with (k := 0).
  - by eapply createchangeset_parent_ids.
  - done.
  - intros _. split.
    + intros b. rewrite Hbranches, lookup_empty. split; [by intros [? ?]|lia].
    + intros b b' c. by rewrite Hancestors, lookup_empty.
Qed.

(** X24.  [debugcvsps] comes to an end whenever its calls of [createlog] do: it
    returns or raises.  In particular the loop [while b:] over the ancestors
    of a branch ends, because the ancestor recorded for a branch is the
    branch of a changeset that stands before the first one on the branch. *)
Theorem debugcvsps_ends `{TimeLib} `{DatetimeLib} `{PathLib} `{Sorter} `{ui : Ui}
    (world : string → option string → cvs_run) (opts : options)
    (args written : list string) :
  read_logs world opts args ≠ Loops →
  (debugcvsps world opts args written).2 ≠ Loops.
Proof.
  intros Hlogs. unfold debugcvsps.
  destruct (read_logs world opts args) as [log|e|]; [|by destruct e|done].
  pose proof (createchangeset_ends log (opt_fuzz opts) pattern_default pattern_default)
    as Hends.
  destruct (createchangeset log (opt_fuzz opts) pattern_default pattern_default)
    as [[heap out]|e|] eqn:Hcs; [|done..].
  erewrite io_bind_ok by reflexivity.
  by eapply debugcvsps_loop_ends.
Qed.

Lemma debugcvsps_ends_witness :
  (debugcvsps (world_of rlog_added_on_branch) (opts_of [] true) ["mod"] []).2 ≠ Loops.
Proof.
  apply debugcvsps_ends.
  assert (is_ok (read_logs (world_of rlog_added_on_branch) (opts_of [] true) ["mod"])
          = true) as Hok by vm_refl.
  intros Hloops. apply (f_equal is_ok) in Hloops.
  exact (Bool.diff_true_false (eq_trans (eq_sym Hok) Hloops)).
Defined.

(** X25.  With [ancestors] chosen and no revision and no branch,
    [debugcvsps] raises as soon as it comes to the first changeset of a
    named branch when that changeset has no parent, if not before: no
    ancestor is recorded for such a branch, and the loop over the ancestors
    looks the branch up. *)
Theorem debugcvsps_branch_without_parent `{TimeLib} `{DatetimeLib} `{PathLib} `{Sorter} `{ui : Ui}
    
    (world : string → option string → cvs_run) (opts : options)
    (args : list string) (log : list logentry) (heap : list changeset)
    (before after : list nat) (a : nat) (b : string) (written : list string) :
  opt_ancestors opts = true → opt_revisions opts = [] → opt_branches opts = [] →
  read_logs world opts args = Ok log →
  createchangeset log (opt_fuzz opts) pattern_default pattern_default
  = Ok (heap, before ++ a :: after) →
  cs_branch (heap !!! a) = Some b → b ≠ ""%string → cs_parents (heap !!! a) = [] →
  (∀ x, x ∈ before → cs_branch (heap !!! x) ≠ Some b) →
  ∃ written' e, debugcvsps world opts args written = (written', Raise e).
Proof.
  intros Hancestors Hrevisions Hbranches Hlogs Hcs Hbranch Hb Hparents Hbefore.
  rewrite (debugcvsps_loop world opts heap _ args log written Hlogs Hcs).
  pose proof (debugcvsps_loop_ends opts log heap _
                {| d_off := negb (Nat.eqb (length (opt_revisions opts)) 0);
                   d_branches := ∅; d_ancestors := ∅ |} written Hcs eq_refl eq_refl)
    as Hends.
  pose proof (loop_no_ancestor opts heap (before ++ a :: after) Hancestors b a after
                Hrevisions Hbranches Hbranch Hb Hparents before
                {| d_off := negb (Nat.eqb (length (opt_revisions opts)) 0);
                   d_branches := ∅; d_ancestors := ∅ |} written) as Hfails.
  destruct (write_changesets _ _ _ _ _ written) as [written' [[]|e|]].
  - exfalso. cbn in Hfails. rewrite Hrevisions in Hfails.
    by discriminate Hfails.
  - by exists written', e.
  - done.
Qed.

Lemma debugcvsps_branch_without_parent_witness :
  ∃ written' e,
    debugcvsps (world_of rlog_added_on_branch) (opts_of [] true) ["mod"] []
    = (written', Raise e).
Proof.
  set (opts := opts_of [] true). set (world := world_of rlog_added_on_branch).
  set (heap :=
    (value ([], [])
       (createchangeset (value [] (read_logs world opts ["mod"])) 60
          pattern_default pattern_default)).1).
  assert (read_logs world opts ["mod"] = Ok (value [] (read_logs world opts ["mod"])))
    as Hlogs by (apply ok_value; vm_refl).
  assert (createchangeset (value [] (read_logs world opts ["mod"])) (opt_fuzz opts)
            pattern_default pattern_default
          = Ok (heap, [] ++ 0 :: [2])) as Hcs
    by (apply ok_pair_value; vm_refl).
  assert (cs_branch (heap !!! 0) = Some "BR"%string) as Hbranch by vm_refl.
  assert (cs_parents (heap !!! 0) = []) as Hparents by vm_refl.
  refine (debugcvsps_branch_without_parent world opts ["mod"] _ heap [] [2] 0 "BR" []
            eq_refl eq_refl eq_refl Hlogs Hcs Hbranch _ Hparents _).
  - discriminate.
  - intros x Hx. destruct (not_elem_of_nil x Hx).
Defined.
